(** * A BODMAS calculator: tokenizer, recursive-descent parser, stack evaluator

    Shallow embedding of [calculator.c].  The C program keeps its state in
    global variables (line buffer, parser cursor, evaluation stack) and
    reports through [stdout] / [stderr]; the embedding threads one record of
    these globals through every function.  C [int] is the 32-bit
    two's-complement integer, [long] the 64-bit one (LP64), [char] is signed,
    as on the x86-64 Linux targets the program is written for.  Signed
    addition, subtraction and multiplication wrap around and the conversion
    of a [long] to [int] reduces modulo 2^32; an overflowing division, an
    access outside an array and the dereference of NULL are undefined. *)

From Stdlib Require Import ZArith String Ascii List DecimalString Lia Bool.
From Stdlib Require DecimalPos.
From stdpp Require Import base list strings.

Open Scope Z_scope.

(** ** Outcomes *)

(** All C functions of the program return [SUCCESS] (0) or [FAILURE] (1). *)
Inductive status : Type := SUCCESS | FAILURE.

Definition status_eqb (a b : status) : bool :=
  match a, b with
  | SUCCESS, SUCCESS | FAILURE, FAILURE => true
  | _, _ => false
  end.

(** The ways in which the program can leave defined behaviour. *)
Inductive fault : Type :=
| out_of_bounds        (* an access outside an array *)
| null_dereference     (* a NULL pointer is dereferenced *)
| division_overflow.   (* [INT_MIN / -1]: the quotient is no [int] *)

(** A call either returns, or leaves defined behaviour, or exhausts the
    recursion budget that the embedding gives to the recursive-descent
    parser. *)
Inductive outcome (A : Type) : Type :=
| Returns (a : A)
| Undefined (f : fault)
| Out_of_fuel.

Arguments Returns {A} a.
Arguments Undefined {A} f.
Arguments Out_of_fuel {A}.

(** ** Characters and machine integers *)

Definition LF : ascii := ascii_of_nat 10.
Definition TAB : ascii := ascii_of_nat 9.
Definition ESC : ascii := ascii_of_nat 27.
Definition NUL : ascii := ascii_of_nat 0.
(** [EOF] is -1; stored in a (signed) [char] it is the byte 255. *)
Definition EOF : ascii := ascii_of_nat 255.

Definition str (c : ascii) : string := String c EmptyString.

(** [isspace] and [isdigit] of <ctype.h> in the C locale. *)
Definition isspace (c : ascii) : bool :=
  let n := nat_of_ascii c in
  ((n =? 32) || ((9 <=? n) && (n <=? 13)))%nat.

Definition isdigit (c : ascii) : bool :=
  let n := nat_of_ascii c in
  ((48 <=? n) && (n <=? 57))%nat.

Definition INT_MIN : Z := - 2 ^ 31.
Definition INT_MAX : Z := 2 ^ 31 - 1.
Definition LONG_MIN : Z := - 2 ^ 63.
Definition LONG_MAX : Z := 2 ^ 63 - 1.

(** Reduction of a mathematical integer to the 32-bit two's-complement
    [int]: the result of [int] arithmetic and of the conversion from [long]. *)
Definition wrap_int (z : Z) : Z := (z + 2 ^ 31) mod 2 ^ 32 - 2 ^ 31.

(** [printf("%d", v)]. *)
Definition print_int (v : Z) : string := NilZero.string_of_int (Z.to_int v).

(** ** Tokens *)

Inductive token_type : Type :=
| token_number
| token_plus
| token_minus
| token_times
| token_divide
| token_bracket_open
| token_bracket_close
| token_end_of_expression
| token_end_of_file.

Definition token_type_eqb (a b : token_type) : bool :=
  match a, b with
  | token_number, token_number
  | token_plus, token_plus
  | token_minus, token_minus
  | token_times, token_times
  | token_divide, token_divide
  | token_bracket_open, token_bracket_open
  | token_bracket_close, token_bracket_close
  | token_end_of_expression, token_end_of_expression
  | token_end_of_file, token_end_of_file => true
  | _, _ => false
  end.

(** [struct token]: the [next] link is the list structure itself; [lexeme]
    stays NULL ([None]) for every token that is not a number. *)
Record token : Type := Token {
  type : token_type;
  lexeme : option string
}.

(** [token_list_t]: a singly linked list with head and tail pointers. *)
Definition token_list_t : Type := list token.

Definition token_list_new : token_list_t := [].

Definition token_list_append (l : token_list_t) (member : token) : token_list_t :=
  l ++ [member].

(** ** Abstract syntax trees *)

(** [enum ast_type] without [ast_num]: the tag of an internal node. *)
Inductive ast_type : Type := ast_add | ast_sub | ast_div | ast_mul.

(** A value of type [ast_t *].  The tag [ast_num] selects the [value] member
    of the node's union, the four operator tags its [children] member. *)
Inductive ast_t : Type :=
| NULL
| ast_num (value : Z)
| ast_op (type : ast_type) (children0 children1 : ast_t).

(** ** Global state *)

Definition MAX_LINE_SIZE : nat := 1024.
Definition MAX_CALLSTACK_DEPTH : nat := 32.

Record globals : Type := Globals {
  source_file_line : string;
  source_file_line_occupied_size : nat;
  parser_next_token : list token;
  parser_active_token : option token;
  callstack : list Z;
  callstack_top : nat;
  stdout : string;
  stderr : string
}.

(** The globals as the loader initialises them (the line buffer zeroed, the
    stack empty), with nothing printed yet. *)
Definition initial_globals : globals :=
  {| source_file_line := string_of_list_ascii (replicate MAX_LINE_SIZE NUL);
     source_file_line_occupied_size := MAX_LINE_SIZE;
     parser_next_token := [];
     parser_active_token := None;
     callstack := replicate MAX_CALLSTACK_DEPTH 0;
     callstack_top := MAX_CALLSTACK_DEPTH;
     stdout := "";
     stderr := "" |}.

Definition set_line (buf : string) (size : nat) (g : globals) : globals :=
  {| source_file_line := buf;
     source_file_line_occupied_size := size;
     parser_next_token := parser_next_token g;
     parser_active_token := parser_active_token g;
     callstack := callstack g;
     callstack_top := callstack_top g;
     stdout := stdout g;
     stderr := stderr g |}.

Definition set_cursor (next : list token) (active : option token) (g : globals) : globals :=
  {| source_file_line := source_file_line g;
     source_file_line_occupied_size := source_file_line_occupied_size g;
     parser_next_token := next;
     parser_active_token := active;
     callstack := callstack g;
     callstack_top := callstack_top g;
     stdout := stdout g;
     stderr := stderr g |}.

Definition set_callstack (cs : list Z) (top : nat) (g : globals) : globals :=
  {| source_file_line := source_file_line g;
     source_file_line_occupied_size := source_file_line_occupied_size g;
     parser_next_token := parser_next_token g;
     parser_active_token := parser_active_token g;
     callstack := cs;
     callstack_top := top;
     stdout := stdout g;
     stderr := stderr g |}.

Definition set_stdout (s : string) (g : globals) : globals :=
  {| source_file_line := source_file_line g;
     source_file_line_occupied_size := source_file_line_occupied_size g;
     parser_next_token := parser_next_token g;
     parser_active_token := parser_active_token g;
     callstack := callstack g;
     callstack_top := callstack_top g;
     stdout := s;
     stderr := stderr g |}.

Definition set_stderr (s : string) (g : globals) : globals :=
  {| source_file_line := source_file_line g;
     source_file_line_occupied_size := source_file_line_occupied_size g;
     parser_next_token := parser_next_token g;
     parser_active_token := parser_active_token g;
     callstack := callstack g;
     callstack_top := callstack_top g;
     stdout := stdout g;
     stderr := s |}.

(** ** The monad of C functions over the globals *)

Definition M (A : Type) : Type := globals -> outcome (A * globals).

Definition ret {A : Type} (a : A) : M A := fun g => Returns (a, g).

Definition bind {A B : Type} (m : M A) (k : A -> M B) : M B :=
  fun g =>
    match m g with
    | Returns (a, g') => k a g'
    | Undefined f => Undefined f
    | Out_of_fuel => Out_of_fuel
    end.

Definition undefined {A : Type} (f : fault) : M A := fun _ => Undefined f.
Definition out_of_fuel {A : Type} : M A := fun _ => Out_of_fuel.

Declare Scope c_scope.
Delimit Scope c_scope with c.
Notation "x <- m ;; k" := (bind m (fun x => k))
  (at level 100, m at next level, right associativity) : c_scope.
Notation "m ;;; k" := (bind m (fun _ => k))
  (at level 100, right associativity) : c_scope.
Open Scope c_scope.

(** [printf(...)] and [fprintf(stderr, ...)] / [fputc(..., stderr)]. *)
Definition print (s : string) : M unit :=
  fun g => Returns (tt, set_stdout (stdout g +:+ s) g).

Definition eprint (s : string) : M unit :=
  fun g => Returns (tt, set_stderr (stderr g +:+ s) g).

Definition red (s : string) : string :=
  str ESC +:+ "[1;31m" +:+ s +:+ str ESC +:+ "[0m".

Definition green (s : string) : string :=
  str ESC +:+ "[1;32m" +:+ s +:+ str ESC +:+ "[0m".

(** ** The evaluation stack *)

(** [callstack[--callstack_top] = x]; an index outside the array is
    undefined behaviour. *)
Definition callstack_push (x : Z) : M unit :=
  fun g =>
    match callstack_top g with
    | O => Undefined out_of_bounds
    | S t =>
        if (t <? MAX_CALLSTACK_DEPTH)%nat
        then Returns (tt, set_callstack (<[t := x]> (callstack g)) t g)
        else Undefined out_of_bounds
    end.

(** [callstack[callstack_top++]]. *)
Definition callstack_pop : M Z :=
  fun g =>
    let t := callstack_top g in
    if (t <? MAX_CALLSTACK_DEPTH)%nat
    then match callstack g !! t with
         | Some v => Returns (v, set_callstack (callstack g) (S t) g)
         | None => Undefined out_of_bounds
         end
    else Undefined out_of_bounds.

Definition callstack_is_full (g : globals) : bool :=
  (callstack_top g =? 0)%nat.

Definition callstack_is_empty (g : globals) : bool :=
  (callstack_top g =? MAX_CALLSTACK_DEPTH)%nat.

Definition callstack_clear : M unit :=
  fun g => Returns (tt, set_callstack (callstack g) MAX_CALLSTACK_DEPTH g).

(** ** The execution engine *)

Definition msg_DivisionByZero : string :=
  red "RuntimeError: Division by Zero" +:+ "." +:+ str LF.

Definition msg_StackOverflow : string :=
  red "RuntimeError: StackOverflow" +:+ "." +:+ str LF.

Definition msg_StackUnderflow : string :=
  red "RuntimeError: StackUnderflow" +:+ "." +:+ str LF.

(** Perform an operation on the two topmost stack elements and push the
    result back.  [+], [-] and [*] on [int] wrap around; [/] truncates
    toward zero, and its one overflow, [INT_MIN / -1], is undefined
    behaviour (the division instruction of x86 traps on it). *)
Definition execution_engine_do_operation (operator : ast_type) : M status :=
  right_operand <- callstack_pop ;;
  left_operand <- callstack_pop ;;
  match operator with
  | ast_add =>
      callstack_push (wrap_int (left_operand + right_operand)) ;;; ret SUCCESS
  | ast_sub =>
      callstack_push (wrap_int (left_operand - right_operand)) ;;; ret SUCCESS
  | ast_mul =>
      callstack_push (wrap_int (left_operand * right_operand)) ;;; ret SUCCESS
  | ast_div =>
      if right_operand =? 0
      then eprint msg_DivisionByZero ;;; ret FAILURE
      else if (left_operand =? INT_MIN) && (right_operand =? -1)
      then undefined division_overflow
      else callstack_push (wrap_int (Z.quot left_operand right_operand)) ;;;
           ret SUCCESS
  end.

(** Depth-first traversal of the tree rooted at [node]. *)
Fixpoint execution_engine_process_ast_node (node : ast_t) : M status :=
  match node with
  | NULL => ret SUCCESS
  | ast_num value =>
      fun g =>
        if callstack_is_full g
        then (eprint msg_StackOverflow ;;; ret FAILURE) g
        else (callstack_push value ;;; ret SUCCESS) g
  | ast_op type children0 children1 =>
      status0 <- execution_engine_process_ast_node children0 ;;
      match status0 with
      | FAILURE => ret FAILURE
      | SUCCESS =>
          status1 <- execution_engine_process_ast_node children1 ;;
          match status1 with
          | FAILURE => ret FAILURE
          | SUCCESS =>
              r <- execution_engine_do_operation type ;;
              match r with
              | FAILURE => ret FAILURE
              | SUCCESS => ret SUCCESS
              end
          end
      end
  end.

(** What [execution_engine] does once the traversal of a non-NULL tree has
    returned [status]: on success the underflow check, then the result is
    popped and printed; the stack is cleared on every path but the
    underflow one, which returns at once. *)
Definition execution_engine_finish (status0 : status) : M status :=
  match status0 with
  | SUCCESS =>
      fun g =>
        if callstack_is_empty g
        then (eprint msg_StackUnderflow ;;; ret FAILURE) g
        else (v <- callstack_pop ;;
              print (green (print_int v) +:+ "." +:+ str LF) ;;;
              callstack_clear ;;;
              ret SUCCESS) g
  | FAILURE => callstack_clear ;;; ret FAILURE
  end.

(** Begin the execution of the tree. *)
Definition execution_engine (tree : ast_t) : M status :=
  match tree with
  | NULL => callstack_clear ;;; ret SUCCESS
  | _ =>
      status0 <- execution_engine_process_ast_node tree ;;
      execution_engine_finish status0
  end.

(** ** The tokenizer *)

(** The suffix of a buffer from index [n] on. *)
Fixpoint string_from (n : nat) (s : string) : string :=
  match n, s with
  | O, _ => s
  | S n', String _ s' => string_from n' s'
  | S _, EmptyString => EmptyString
  end.

(** [source_file_line[j]]; an index outside the buffer is undefined
    behaviour. *)
Definition line_at (j : nat) : M ascii :=
  fun g =>
    match String.get j (source_file_line g) with
    | Some c => Returns (c, g)
    | None => Undefined out_of_bounds
    end.

(** The characters [source_file_line[j .. j+n-1]], read one by one. *)
Fixpoint line_range (j n : nat) : M string :=
  match n with
  | O => ret ""
  | S n' =>
      c <- line_at j ;;
      s <- line_range (S j) n' ;;
      ret (String c s)
  end.

(** The [switch] on the current character, without its [default] case. *)
Definition single_character_token (c : ascii) : option token_type :=
  if Ascii.eqb c EOF then Some token_end_of_file
  else if Ascii.eqb c "+" then Some token_plus
  else if Ascii.eqb c "-" then Some token_minus
  else if Ascii.eqb c "*" then Some token_times
  else if Ascii.eqb c "/" then Some token_divide
  else if Ascii.eqb c "(" then Some token_bracket_open
  else if Ascii.eqb c ")" then Some token_bracket_close
  else if Ascii.eqb c LF then Some token_end_of_expression
  else None.

(** [while(isdigit(source_file_line[++i])) lexeme_length++;] where [rest]
    is the buffer after index [i].  Returns the final [i] and
    [lexeme_length]. *)
Fixpoint scan_number (rest : string) (i lexeme_length : nat) : outcome (nat * nat) :=
  match rest with
  | EmptyString => Undefined out_of_bounds
  | String c rest' =>
      if isdigit c
      then scan_number rest' (S i) (S lexeme_length)
      else Returns (S i, lexeme_length)
  end.

(** [strndup(p, n)] where [s] is the buffer from [p] on: copies at most [n]
    bytes and stops at a NUL byte. *)
Fixpoint strndup (s : string) (n : nat) {struct n} : outcome string :=
  match n with
  | O => Returns ""
  | S n' =>
      match s with
      | EmptyString => Undefined out_of_bounds
      | String c s' =>
          if Ascii.eqb c NUL then Returns ""
          else match strndup s' n' with
               | Returns r => Returns (String c r)
               | Undefined f => Undefined f
               | Out_of_fuel => Out_of_fuel
               end
      end
  end.

(** The second line of the diagnostic: one mark for every index from
    [snippet_start] to [snippet_end], both included. *)
Definition marker_line (snippet_start snippet_end i : nat) : string :=
  fold_right
    (fun j s => String (if (j =? i)%nat then "^" else "~")%char s) ""
    (seq snippet_start (S snippet_end - snippet_start)).

(** The report of an unexpected character at index [i]. *)
Definition report_unexpected_character (i : nat) (current_character : ascii) : M unit :=
  fun g =>
    let size := source_file_line_occupied_size g in
    let snippet_start := if (5 <? i)%nat then (i - 5)%nat else O in
    let snippet_end :=
      if (i + 5 <? size - 1)%nat then (i + 5)%nat else (size - 1)%nat in
    (eprint ("Unexpected character." +:+ str LF) ;;;
     eprint (str TAB) ;;;
     before <- line_range snippet_start (i - snippet_start) ;;
     eprint before ;;;
     eprint (red (str current_character)) ;;;
     after <- line_range (S i) (snippet_end - S i) ;;
     eprint after ;;;
     eprint (str LF) ;;;
     eprint (str TAB) ;;;
     eprint (marker_line snippet_start snippet_end i) ;;;
     eprint (str LF)) g.

(** The [for] loop of the tokenizer from index [i] on.  Every iteration
    advances [i], so [fuel] bounds the number of iterations left;
    [lexeme_length] is declared before the loop and lives across its
    iterations. *)
Fixpoint tokenize_loop (fuel : nat) (i lexeme_length : nat) (list : token_list_t)
  : M (status * token_list_t) :=
  fun g =>
    if (source_file_line_occupied_size g <=? i)%nat then Returns ((SUCCESS, list), g)
    else
      match fuel with
      | O => Out_of_fuel
      | S fuel' =>
          (current_character <- line_at i ;;
           if isspace current_character && negb (Ascii.eqb current_character LF)
           then tokenize_loop fuel' (S i) lexeme_length list
           else
             match single_character_token current_character with
             | Some current_token_type =>
                 tokenize_loop fuel' (S i) lexeme_length
                   (token_list_append list (Token current_token_type None))
             | None =>
                 if negb (isdigit current_character)
                 then report_unexpected_character i current_character ;;;
                      ret (FAILURE, list)
                 else
                   fun g' =>
                     match scan_number (string_from (S i) (source_file_line g'))
                                       i lexeme_length with
                     | Returns (i', lexeme_length') =>
                         match strndup (string_from i (source_file_line g'))
                                       lexeme_length' with
                         | Returns l =>
                             tokenize_loop fuel' i' lexeme_length'
                               (token_list_append list (Token token_number (Some l))) g'
                         | Undefined f => Undefined f
                         | Out_of_fuel => Out_of_fuel
                         end
                     | Undefined f => Undefined f
                     | Out_of_fuel => Out_of_fuel
                     end
             end) g
      end.

(** Extract tokens from the line in the buffer and add them to [list]. *)
Definition tokenize_source_line_and_add_to_list (list : token_list_t)
  : M (status * token_list_t) :=
  fun g => tokenize_loop (source_file_line_occupied_size g) 0 1 list g.

(** ** The parser *)

(** [strtol(s, 0, 10)]: optional white space, optional sign, then the
    longest run of decimal digits, saturated to the range of [long]. *)
Fixpoint strtol_digits (s : string) (acc : Z) : Z :=
  match s with
  | EmptyString => acc
  | String c s' =>
      if isdigit c
      then strtol_digits s' (10 * acc + (Z.of_nat (nat_of_ascii c) - 48))
      else acc
  end.

Fixpoint strtol (s : string) : Z :=
  match s with
  | EmptyString => 0
  | String c s' =>
      if isspace c then strtol s'
      else if Ascii.eqb c "-" then Z.max LONG_MIN (- strtol_digits s' 0)
      else if Ascii.eqb c "+" then Z.min LONG_MAX (strtol_digits s' 0)
      else Z.min LONG_MAX (strtol_digits s 0)
  end.

(** [str_to_int], with the conversion of the [long] to the [int] member
    it is stored in. *)
Definition str_to_int (s : string) : Z := wrap_int (strtol s).

Definition get_token_lexeme (t : token) : option string :=
  match type t with
  | token_number => lexeme t
  | token_plus => Some "+"
  | token_minus => Some "-"
  | token_times => Some "*"
  | token_divide => Some "/"
  | token_bracket_close => Some ")"
  | token_bracket_open => Some "("
  | token_end_of_file => Some "-1"
  | token_end_of_expression => Some "\n"
  end.

(** Set the stream of tokens to use. *)
Definition parser_register_token_stream (stream : token_list_t) : M status :=
  fun g => Returns (SUCCESS, set_cursor stream (parser_active_token g) g).

(** Get a token from the registered stream; at the end of the stream the
    active token stays where it is. *)
Definition parser_get_next_token : M (option token) :=
  fun g =>
    match parser_next_token g with
    | t :: rest => Returns (Some t, set_cursor rest (Some t) g)
    | [] => Returns (parser_active_token g, g)
    end.

(** [parser_active_token->type == x]. *)
Definition token_type_is (x : token_type) : M bool :=
  fun g =>
    match parser_active_token g with
    | Some t => Returns (token_type_eqb (type t) x, g)
    | None => Undefined null_dereference
    end.

(** [get_token_lexeme(parser_active_token)[0]]; the terminating NUL of an
    empty lexeme is a character too. *)
Definition active_lexeme_head : M ascii :=
  fun g =>
    match parser_active_token g with
    | Some t =>
        match get_token_lexeme t with
        | Some (String c _) => Returns (c, g)
        | Some EmptyString => Returns (NUL, g)
        | None => Undefined null_dereference
        end
    | None => Undefined null_dereference
    end.

(** [parser_active_token->lexeme], as handed to [strtol]. *)
Definition active_lexeme : M string :=
  fun g =>
    match parser_active_token g with
    | Some t =>
        match lexeme t with
        | Some s => Returns (s, g)
        | None => Undefined null_dereference
        end
    | None => Undefined null_dereference
    end.

Definition msg_expected_end (c : ascii) : string :=
  red ("SyntaxError: Expected end of expression near " +:+ str c +:+ ".") +:+ str LF.

Definition msg_expected_closing : string :=
  red "SyntaxError: Expected closing ) before end of expression." +:+ str LF.

Definition msg_expected_integer (c : ascii) : string :=
  red ("SyntaxError: Expected an integer or '(' near " +:+ str c +:+ ".") +:+ str LF.

(** A parsing routine receives the content of the slot [*tree] and returns
    its status with the new content of the slot. *)
Definition routine : Type := ast_t -> M (status * ast_t).

Section Productions.

(** The four left-associative productions differ in the operator token,
    the node type and the routine of the next level only. *)
Variable operator : token_type.
Variable node_type : ast_type.
Variable operand : routine.

(** The [while] loop: [r] and [tree] are the running status and slot. *)
Fixpoint fold_operators (fuel : nat) (r : status) (tree : ast_t) : M (status * ast_t) :=
  is_operator <- token_type_is operator ;;
  if is_operator && status_eqb r SUCCESS
  then
    match fuel with
    | O => out_of_fuel
    | S fuel' =>
        parser_get_next_token ;;;
        res <- operand NULL ;;
        match res with
        | (FAILURE, _) => ret (FAILURE, tree)
        | (SUCCESS, child1) =>
            fold_operators fuel' r (ast_op node_type tree child1)
        end
    end
  else ret (r, tree).

Definition left_associative (fuel : nat) : routine :=
  fun tree =>
    res <- operand tree ;;
    fold_operators fuel (fst res) (snd res).

End Productions.

(** Productions 16 & 17, given the routine for the bracketed expression. *)
Definition unit_expression (add_expression : routine) : routine :=
  fun tree =>
    is_open <- token_type_is token_bracket_open ;;
    if is_open
    then
      parser_get_next_token ;;;
      res <- add_expression tree ;;
      match res with
      | (FAILURE, tree1) => ret (FAILURE, tree1)
      | (SUCCESS, tree1) =>
          is_close <- token_type_is token_bracket_close ;;
          if negb is_close
          then eprint msg_expected_closing ;;; ret (FAILURE, tree1)
          else parser_get_next_token ;;; ret (SUCCESS, tree1)
      end
    else
      is_number <- token_type_is token_number ;;
      if is_number
      then
        l <- active_lexeme ;;
        parser_get_next_token ;;;
        ret (SUCCESS, ast_num (str_to_int l))
      else
        c <- active_lexeme_head ;;
        eprint (msg_expected_integer c) ;;;
        ret (FAILURE, tree).

(** Productions 4, 5 & 6.  [fuel] bounds the nesting of the mutually
    recursive routines and the iterations of each of their loops. *)
Fixpoint parser_parse_add_expression (fuel : nat) : routine :=
  match fuel with
  | O => fun _ => out_of_fuel
  | S n =>
      left_associative token_plus ast_add
        (left_associative token_minus ast_sub
           (left_associative token_times ast_mul
              (left_associative token_divide ast_div
                 (unit_expression (parser_parse_add_expression n)) n) n) n) n
  end.

(** Productions 16 & 17. *)
Definition parser_parse_unit_expression (fuel : nat) : routine :=
  unit_expression (parser_parse_add_expression fuel).

(** Productions 13, 14 & 15. *)
Definition parser_parse_div_expression (fuel : nat) : routine :=
  left_associative token_divide ast_div (parser_parse_unit_expression fuel) fuel.

(** Productions 10, 11 & 12. *)
Definition parser_parse_mul_expression (fuel : nat) : routine :=
  left_associative token_times ast_mul (parser_parse_div_expression fuel) fuel.

(** Productions 7, 8 & 9. *)
Definition parser_parse_sub_expression (fuel : nat) : routine :=
  left_associative token_minus ast_sub (parser_parse_mul_expression fuel) fuel.

(** Productions 1, 2 & 3. *)
Definition parser_parse_expression (fuel : nat) : routine :=
  fun tree =>
    res <- parser_parse_add_expression fuel tree ;;
    let '(r, tree1) := res in
    r' <- match r with
          | FAILURE => ret FAILURE
          | SUCCESS =>
              is_eox <- token_type_is token_end_of_expression ;;
              if is_eox then ret SUCCESS
              else
                is_eof <- token_type_is token_end_of_file ;;
                if is_eof then ret SUCCESS
                else
                  c <- active_lexeme_head ;;
                  eprint (msg_expected_end c) ;;;
                  ret FAILURE
          end ;;
    parser_get_next_token ;;;
    ret (r', tree1).

(** Production 0. *)
Definition parse_token_stream_into_ast (fuel : nat) (stream : token_list_t) : routine :=
  fun tree =>
    parser_register_token_stream stream ;;;
    parser_get_next_token ;;;
    is_eof <- token_type_is token_end_of_file ;;
    if negb is_eof
    then parser_parse_expression fuel tree
    else ret (SUCCESS, tree).

(** ** The driver's loop body *)

(** The state [read_line] leaves when it has stored the bytes of [line] at
    the start of the buffer: the rest of the buffer keeps its content. *)
Definition store_line (line : string) : M unit :=
  fun g =>
    Returns (tt, set_line (line +:+ string_from (String.length line) (source_file_line g))
                          (String.length line) g).

(** One turn of the loop of [main] on the line in the buffer: tokenize,
    parse into a fresh slot, execute.  Returns what the turn contributes to
    [return_code]. *)
Definition process_line (fuel : nat) : M status :=
  res <- tokenize_source_line_and_add_to_list token_list_new ;;
  match res with
  | (FAILURE, _) => ret FAILURE
  | (SUCCESS, stream) =>
      res' <- parse_token_stream_into_ast fuel stream NULL ;;
      match res' with
      | (SUCCESS, tree) => execution_engine tree
      | (FAILURE, _) => ret FAILURE
      end
  end.

(** A line arrives and is processed. *)
Definition run_line (fuel : nat) (line : string) : M status :=
  store_line line ;;; process_line fuel.

Definition line (s : string) : string := s +:+ str LF.

(** ** Vocabulary of the specification *)

(** A well-formed tree: every internal node has two present children. *)
Fixpoint well_formed (t : ast_t) : Prop :=
  match t with
  | NULL => False
  | ast_num _ => True
  | ast_op _ children0 children1 => well_formed children0 /\ well_formed children1
  end.

(** The number of operand values that are pending at the same time, at
    most, while the tree is traversed depth first in post-order: the right
    child is evaluated while the value of the left one waits. *)
Fixpoint pending_operands (t : ast_t) : nat :=
  match t with
  | NULL => O
  | ast_num _ => 1%nat
  | ast_op _ children0 children1 =>
      Nat.max (pending_operands children0) (S (pending_operands children1))
  end.

(** The values of the [Num] leaves of the tree are [int]s. *)
Fixpoint int_typed (t : ast_t) : Prop :=
  match t with
  | NULL => True
  | ast_num value => INT_MIN <= value <= INT_MAX
  | ast_op _ children0 children1 => int_typed children0 /\ int_typed children1
  end.

(** The array has its 32 cells and the top index lies within it. *)
Definition stack_ok (g : globals) : Prop :=
  length (callstack g) = MAX_CALLSTACK_DEPTH /\
  (callstack_top g <= MAX_CALLSTACK_DEPTH)%nat.

(** The values held by the stack, topmost first: the cells from
    [callstack_top] to the end of the array. *)
Definition stack_view (g : globals) : list Z :=
  drop (callstack_top g) (callstack g).

(** The value of an operation on [int] operands. *)
Definition int_result (operator : ast_type) (l r : Z) : Z :=
  match operator with
  | ast_add => wrap_int (l + r)
  | ast_sub => wrap_int (l - r)
  | ast_mul => wrap_int (l * r)
  | ast_div => wrap_int (Z.quot l r)
  end.

(** The operation is a division by zero. *)
Definition divides_by_zero (operator : ast_type) (r : Z) : bool :=
  match operator with
  | ast_div => r =? 0
  | _ => false
  end.

(** The operation is the division whose quotient is no [int]. *)
Definition quotient_overflows (operator : ast_type) (l r : Z) : bool :=
  match operator with
  | ast_div => (l =? INT_MIN) && (r =? -1)
  | _ => false
  end.

(** The base-10 value of a string of digits, most significant digit
    first. *)
Fixpoint decimal_value (ds : string) : Z :=
  match ds with
  | EmptyString => 0
  | String c ds' =>
      (Z.of_nat (nat_of_ascii c) - 48) * 10 ^ Z.of_nat (String.length ds')
      + decimal_value ds'
  end.

(** The longest prefix of a string that consists of digits. *)
Fixpoint digit_prefix (s : string) : string :=
  match s with
  | EmptyString => EmptyString
  | String c s' => if isdigit c then String c (digit_prefix s') else EmptyString
  end.

(** A string that consists of digits only. *)
Fixpoint all_digits (s : string) : bool :=
  match s with
  | EmptyString => true
  | String c s' => isdigit c && all_digits s'
  end.

(** Two states that the engine cannot tell apart: same pending values,
    same output so far. *)
Definition obs_eq (g1 g2 : globals) : Prop :=
  stack_ok g1 /\ stack_ok g2 /\
  stack_view g1 = stack_view g2 /\
  stdout g1 = stdout g2 /\ stderr g1 = stderr g2.

(** Two outcomes that agree: the same result in states that the engine
    cannot tell apart, or the same way of not returning. *)
Definition outcome_rel {A : Type} (o1 o2 : outcome (A * globals)) : Prop :=
  match o1, o2 with
  | Returns (a1, g1), Returns (a2, g2) => a1 = a2 /\ obs_eq g1 g2
  | Undefined f1, Undefined f2 => f1 = f2
  | Out_of_fuel, Out_of_fuel => True
  | _, _ => False
  end.

(** A computation that respects [obs_eq]. *)
Definition sim {A : Type} (m : M A) : Prop :=
  forall g1 g2, obs_eq g1 g2 -> outcome_rel (m g1) (m g2).

(** A computation that leaves the array its number of cells. *)
Definition keeps_cells {A : Type} (m : M A) : Prop :=
  forall g a g', m g = Returns (a, g') -> length (callstack g') = length (callstack g).

(** A computation that does not touch the evaluation stack. *)
Definition keeps_stack {A : Type} (m : M A) : Prop :=
  forall g a g',
    m g = Returns (a, g') ->
    callstack g' = callstack g /\ callstack_top g' = callstack_top g.

(** Two outcomes that a user cannot tell apart: the same status and the
    same text on both output streams. *)
Definition same_result (o1 o2 : outcome (status * globals)) : Prop :=
  match o1, o2 with
  | Returns (s1, g1), Returns (s2, g2) =>
      s1 = s2 /\ stdout g1 = stdout g2 /\ stderr g1 = stderr g2
  | Undefined f1, Undefined f2 => f1 = f2
  | Out_of_fuel, Out_of_fuel => True
  | _, _ => False
  end.

(** The traversal of [t] from [g] succeeds and pushes [v], leaving [g']. *)
Definition evaluates_to (t : ast_t) (g : globals) (v : Z) (g' : globals) : Prop :=
  execution_engine_process_ast_node t g = Returns (SUCCESS, g') /\
  stack_view g' = v :: stack_view g.

(** The engine, started in [g] on [t], fails and reports [msg]. *)
Definition fails_with (msg : string) (t : ast_t) (g : globals) : Prop :=
  exists g',
    execution_engine t g = Returns (FAILURE, g') /\
    stderr g' = stderr g +:+ msg.

(** A sum of [n + 1] ones nested to the right, [1+(1+(...))]: its
    traversal holds [n + 1] operands at its deepest point. *)
Fixpoint nested_sum (n : nat) : ast_t :=
  match n with
  | O => ast_num 1
  | S n' => ast_op ast_add (ast_num 1) (nested_sum n')
  end.

(** The text of that sum. *)
Fixpoint nested_sum_text (n : nat) : string :=
  match n with
  | O => "1"
  | S n' => "1+(" +:+ nested_sum_text n' +:+ ")"
  end.

(** Tokens as the tokenizer builds them. *)
Definition number (l : string) : token := Token token_number (Some l).

Definition symbol (t : token_type) : token := Token t None.

(** The token of an operator. *)
Definition operator_token (operator : ast_type) : token_type :=
  match operator with
  | ast_add => token_plus
  | ast_sub => token_minus
  | ast_mul => token_times
  | ast_div => token_divide
  end.

(** The two levels of precedence. *)
Definition additive (operator : ast_type) : Prop :=
  operator = ast_add \/ operator = ast_sub.

Definition multiplicative (operator : ast_type) : Prop :=
  operator = ast_mul \/ operator = ast_div.

(** The leaf the parser builds for a number token. *)
Definition leaf (l : string) : ast_t := ast_num (str_to_int l).

(** What the loop of a left-associative production meets in state [g]:
    as long as the active token is [operator], the next token is fetched
    and [operand] parses one more operand into a fresh slot; [ts] lists the
    operands in the order they are met, [g'] is the state in which the
    active token is no longer [operator]. *)
Inductive operand_chain (operator : token_type) (operand : routine)
  : globals -> list ast_t -> globals -> Prop :=
| chain_end g :
    token_type_is operator g = Returns (false, g) ->
    operand_chain operator operand g [] g
| chain_step g tok g1 t g2 ts g3 :
    token_type_is operator g = Returns (true, g) ->
    parser_get_next_token g = Returns (tok, g1) ->
    operand NULL g1 = Returns ((SUCCESS, t), g2) ->
    operand_chain operator operand g2 ts g3 ->
    operand_chain operator operand g (t :: ts) g3.

(** [r'] does what [r] does wherever [r] does not run out of fuel. *)
Definition more_fuel (r r' : routine) : Prop :=
  forall slot g, r slot g <> Out_of_fuel -> r' slot g = r slot g.

(** The parse of [stream] into an empty slot succeeds with [tree], whatever
    fuel above [fuel0] it is given, and reports nothing. *)
Definition parses_to (fuel0 : nat) (stream : token_list_t) (tree : ast_t) : Prop :=
  forall n g,
  exists g',
    parse_token_stream_into_ast (fuel0 + n) stream NULL g = Returns ((SUCCESS, tree), g') /\
    stdout g' = stdout g /\ stderr g' = stderr g /\
    callstack g' = callstack g /\ callstack_top g' = callstack_top g.

(** The program, started afresh and given [text] as its line, prints
    [result] as the value of the expression, and nothing else. *)
Definition prints (text result : string) : Prop :=
  forall n,
  exists g',
    run_line (8 + n) (line text) initial_globals = Returns (SUCCESS, g') /\
    stdout g' = green result +:+ "." +:+ str LF /\ stderr g' = "".

(** A character that the tokenizer takes: white space, a digit, an
    operator, a bracket, the newline or the end-of-file byte. *)
Definition acceptable (c : ascii) : bool :=
  isspace c || isdigit c ||
  match single_character_token c with Some _ => true | None => false end.

(** [n] tildes. *)
Fixpoint tildes (n : nat) : string :=
  match n with
  | O => ""
  | S n' => String "~" (tildes n')
  end.

(** The text of the report for a fault [c] with the context [before] and
    [after] it and [marks] tildes after the caret. *)
Definition diagnostic (before : string) (c : ascii) (after : string) (marks : nat)
  : string :=
  "Unexpected character." +:+ str LF +:+
  str TAB +:+ before +:+ red (str c) +:+ after +:+ str LF +:+
  str TAB +:+ tildes (String.length before) +:+ "^" +:+ tildes marks +:+ str LF.

(** The lexeme of a number token starts with the whole run of digits found
    at some index [p] of the line, and that run is not empty. *)
Definition holds_digit_run (g : globals) (t : token) : Prop :=
  type t = token_number ->
  exists l p,
    lexeme t = Some l /\
    (p < source_file_line_occupied_size g)%nat /\
    digit_prefix l = digit_prefix (string_from p (source_file_line g)) /\
    digit_prefix l <> "".

(** ** Further vocabulary *)

(** An exact result that an [int] can hold. *)
Definition in_int (z : Z) : option Z :=
  if (INT_MIN <=? z) && (z <=? INT_MAX) then Some z else None.

(** The value of an expression in the arithmetic of the integers, with the
    quotient truncated toward zero; there is none when a divisor is zero or
    when a leaf or an intermediate result is no [int]. *)
Fixpoint value_of (t : ast_t) : option Z :=
  match t with
  | NULL => None
  | ast_num value => in_int value
  | ast_op type children0 children1 =>
      match value_of children0, value_of children1 with
      | Some l, Some r =>
          match type with
          | ast_add => in_int (l + r)
          | ast_sub => in_int (l - r)
          | ast_mul => in_int (l * r)
          | ast_div => if r =? 0 then None else in_int (Z.quot l r)
          end
      | _, _ => None
      end
  end.

(** How tightly an operator binds: the nesting of the productions, from
    [add_expression] (outermost) down to [div_expression]. *)
Definition binding_strength (operator : ast_type) : nat :=
  match operator with
  | ast_add => 0
  | ast_sub => 1
  | ast_mul => 2
  | ast_div => 3
  end.

(** The three reports of the parser. *)
Definition syntax_error (msg : string) : Prop :=
  msg = msg_expected_closing \/
  (exists c, msg = msg_expected_integer c) \/
  (exists c, msg = msg_expected_end c).

(** The productions 4 to 17 of the grammar: [unit_expression], and one
    production for each operator. *)
Inductive production : Type :=
| unit_production
| operator_production (node_type : ast_type).

(** The production of the operands of an operator: the next level. *)
Definition operand_production (node_type : ast_type) : production :=
  match node_type with
  | ast_add => operator_production ast_sub
  | ast_sub => operator_production ast_mul
  | ast_mul => operator_production ast_div
  | ast_div => unit_production
  end.

(** The sentences of the grammar with the trees they stand for, each
    operator production read as left recursive:
    [e -> operand | e OPERATOR operand]. *)
Inductive derives : production -> list token -> ast_t -> Prop :=
| derives_number tok l :
    type tok = token_number -> lexeme tok = Some l ->
    derives unit_production [tok] (leaf l)
| derives_brackets open w close t :
    type open = token_bracket_open -> type close = token_bracket_close ->
    derives (operator_production ast_add) w t ->
    derives unit_production (open :: w ++ [close]) t
| derives_operand node_type w t :
    derives (operand_production node_type) w t ->
    derives (operator_production node_type) w t
| derives_operator node_type w0 t0 tok w1 t1 :
    type tok = operator_token node_type ->
    derives (operator_production node_type) w0 t0 ->
    derives (operand_production node_type) w1 t1 ->
    derives (operator_production node_type) (w0 ++ tok :: w1) (ast_op node_type t0 t1).

(** The routine of a production, where [n] is the budget of its loops and
    of the routines below it. *)
Definition routine_of (p : production) (n : nat) : routine :=
  match p with
  | unit_production => parser_parse_unit_expression n
  | operator_production ast_div => parser_parse_div_expression n
  | operator_production ast_mul => parser_parse_mul_expression n
  | operator_production ast_sub => parser_parse_sub_expression n
  | operator_production ast_add => parser_parse_add_expression (S n)
  end.

(** The tokens that the parser has still to look at: the active one and
    those after it. *)
Definition remaining (g : globals) : list token :=
  match parser_active_token g with
  | Some t => t :: parser_next_token g
  | None => []
  end.

(** The tokens that end an expression. *)
Definition is_terminator (t : token) : bool :=
  token_type_eqb (type t) token_end_of_expression ||
  token_type_eqb (type t) token_end_of_file.

(** A stream whose last token ends an expression. *)
Definition terminated (l : list token) : Prop :=
  exists toks tok, l = toks ++ [tok] /\ is_terminator tok = true.

(** A number token has its lexeme. *)
Definition lexed (t : token) : Prop :=
  type t = token_number -> lexeme t <> None.

(** The tokens of an expression, every operand that is itself an operation
    in brackets. *)
Fixpoint unparse (t : ast_t) : list token :=
  match t with
  | NULL => []
  | ast_num value => [number (print_int value)]
  | ast_op type children0 children1 =>
      let operand t' :=
        match t' with
        | ast_op _ _ _ =>
            symbol token_bracket_open :: unparse t' ++ [symbol token_bracket_close]
        | _ => unparse t'
        end in
      operand children0 ++ symbol (operator_token type) :: operand children1
  end.

(** The leaves are numbers that a lexeme can denote. *)
Fixpoint literal_leaves (t : ast_t) : Prop :=
  match t with
  | NULL => True
  | ast_num value => 0 <= value <= INT_MAX
  | ast_op _ children0 children1 => literal_leaves children0 /\ literal_leaves children1
  end.

(** A step of the parser that prints nothing. *)
Definition silent {A : Type} (m : M A) : Prop :=
  forall g a g', m g = Returns (a, g') -> stdout g' = stdout g /\ stderr g' = stderr g.

(** A routine that prints nothing when it succeeds, and one report of a
    syntax error on [stderr] when it fails. *)
Definition reports_once (r : M (status * ast_t)) : Prop :=
  forall g s t g',
    r g = Returns ((s, t), g') ->
    stdout g' = stdout g /\
    match s with
    | SUCCESS => stderr g' = stderr g
    | FAILURE => exists msg, syntax_error msg /\ stderr g' = stderr g +:+ msg
    end.

(** A routine that, on every terminated stream of at most [m] tokens whose
    numbers have their lexemes, returns, having moved the cursor forward
    over some tokens [w] and not past the last one; when it succeeds, [w]
    is a sentence of the production [p] and the tree is the one it stands
    for. *)
Definition recognises (p : production) (r : routine) (m : nat) : Prop :=
  forall slot g,
    terminated (remaining g) -> Forall lexed (remaining g) ->
    (length (remaining g) <= m)%nat ->
    exists s t g' w,
      r slot g = Returns ((s, t), g') /\
      remaining g = w ++ remaining g' /\
      remaining g' <> [] /\
      (s = SUCCESS -> derives p w t).

(** The level of a production: the binding strength of its operator, and
    one more than any for [unit_expression]. *)
Definition level (p : production) : nat :=
  match p with
  | unit_production => 4
  | operator_production node_type => binding_strength node_type
  end.

(** A token that is no operator of level [k] or tighter. *)
Definition stops (k : nat) (a : token) : Prop :=
  forall node_type, (k <= binding_strength node_type)%nat ->
                    type a <> operator_token node_type.

(** What the routines do with a sentence [w] of the production [p] that
    the cursor is on: [unit_expression] consumes it and returns its tree;
    the routine of an operator, as long as the token after [w] is no
    tighter operator, comes to its loop with the cursor after [w] and the
    tree in the slot, having spent [i] iterations. *)
Definition completes (p : production) (w : list token) (t : ast_t) : Prop :=
  forall n slot g a tail,
    (length w <= n)%nat ->
    remaining g = w ++ a :: tail ->
    match p with
    | unit_production =>
        routine_of unit_production n slot g
          = Returns ((SUCCESS, t), set_cursor tail (Some a) g)
    | operator_production node_type =>
        stops (S (binding_strength node_type)) a ->
        exists i,
          (i <= length w)%nat /\
          forall f,
            left_associative (operator_token node_type) node_type
              (routine_of (operand_production node_type) n) (i + f) slot g
            = fold_operators (operator_token node_type) node_type
                (routine_of (operand_production node_type) n) f SUCCESS t
                (set_cursor tail (Some a) g)
    end.

(** What a line holds for the parser: a symbol, or a number given by its
    digits. *)
Inductive lexical_item : Type :=
| item_symbol (t : token_type)
| item_number (digits : string).

(** The number that a run of digits read so far amounts to, if any. *)
Definition flush (run : string) : list lexical_item :=
  match run with
  | EmptyString => []
  | _ => [item_number run]
  end.

(** The lexical items of a text, where [run] holds the digits of the
    number that is being read: a number is a maximal run of digits, a
    symbol is one character, white space other than the newline separates,
    and with any other character there are none. *)
Fixpoint scan (s : string) (run : string) : option (list lexical_item) :=
  match s with
  | EmptyString => Some (flush run)
  | String c s' =>
      if isdigit c then scan s' (run +:+ str c)
      else if isspace c && negb (Ascii.eqb c LF)
      then option_map (app (flush run)) (scan s' "")
      else
        match single_character_token c with
        | Some t =>
            option_map (fun items => flush run ++ item_symbol t :: items) (scan s' "")
        | None => None
        end
  end.

Definition lexical_items (text : string) : option (list lexical_item) := scan text "".

(** A token that stands for a lexical item: the token of the symbol, or a
    number token whose lexeme starts with the digits of the number and
    goes on with something that is no digit. *)
Definition reads (tok : token) (item : lexical_item) : Prop :=
  match item with
  | item_symbol t => tok = symbol t
  | item_number digits =>
      exists l, tok = number l /\ digit_prefix l = digits
  end.

(** A text that is empty or whose last character is no digit. *)
Fixpoint ends_line (s : string) : bool :=
  match s with
  | EmptyString => true
  | String c EmptyString => negb (isdigit c)
  | String _ s' => ends_line s'
  end.

(** The line in the buffer: its first [source_file_line_occupied_size]
    bytes. *)
Definition line_read (g : globals) : string :=
  substring 0 (source_file_line_occupied_size g) (source_file_line g).

(** The copy of a lexeme cannot leave the buffer: there is a NUL byte
    after the line, or the buffer is twice as long as the line. *)
Definition lexemes_fit (g : globals) : Prop :=
  (exists z, (source_file_line_occupied_size g <= z)%nat /\
             String.get z (source_file_line g) = Some NUL) \/
  (2 * source_file_line_occupied_size g <= String.length (source_file_line g))%nat.

(** A text without a NUL byte. *)
Fixpoint no_nul (s : string) : bool :=
  match s with
  | EmptyString => true
  | String c s' => negb (Ascii.eqb c NUL) && no_nul s'
  end.

(** [n] copies of a character. *)
Fixpoint repeated (c : ascii) (n : nat) : string :=
  match n with
  | O => ""
  | S n' => String c (repeated c n')
  end.

(** A computation that leaves an aspect [f] of the state as it is. *)
Definition preserves {A B : Type} (f : globals -> B) (m : M A) : Prop :=
  forall g a g', m g = Returns (a, g') -> f g' = f g.

(** The line that was read: the buffer and the count of its bytes. *)
Definition line_buffer (g : globals) : string * nat :=
  (source_file_line g, source_file_line_occupied_size g).

(** ** The source file and the driver *)

(** The heap is not part of the embedding: [calloc] and [strndup] are
    taken to succeed, and [token_list_free], which [main] calls after a
    successful parse, has nothing to do here. *)

(** What a call [read(source_file_fd, &c_buffer, 1)] gives before the end
    of the file: a byte, or an error, with the text that [strerror] has
    for [errno]. *)
Inductive read_result : Type :=
| read_byte (c : ascii)
| read_error (errno_text : string).

(** An open file: what [isatty] says of it and what the calls of [read]
    to come will give; when these are used up, [read] gives 0. *)
Record file : Type := File {
  is_a_terminal : bool;
  unread : list read_result
}.

(** What the program finds around it: its standard input, and what
    [open(path, O_RDONLY)] gives: a file, or the text for [errno]. *)
Record environment : Type := Environment {
  stdin : file;
  open : string -> file + string
}.

(** The state of the whole program: the globals of the three stages, the
    file behind [source_file_fd], the other globals of the reader and the
    static variables of [read_line]. *)
Record program : Type := Program {
  memory : globals;
  source_file : file;
  source_file_eof_read : bool;
  source_file_line_number : Z;
  c_buffer : ascii;
  show_prompt : bool;
  first_run : bool
}.

(** The program as the loader initialises it. *)
Definition initial_program (env : environment) : program :=
  {| memory := initial_globals;
     source_file := stdin env;
     source_file_eof_read := false;
     source_file_line_number := 0;
     c_buffer := NUL;
     show_prompt := false;
     first_run := true |}.

Definition set_memory (g : globals) (p : program) : program :=
  {| memory := g;
     source_file := source_file p;
     source_file_eof_read := source_file_eof_read p;
     source_file_line_number := source_file_line_number p;
     c_buffer := c_buffer p;
     show_prompt := show_prompt p;
     first_run := first_run p |}.

Definition set_source_file (f : file) (p : program) : program :=
  {| memory := memory p;
     source_file := f;
     source_file_eof_read := source_file_eof_read p;
     source_file_line_number := source_file_line_number p;
     c_buffer := c_buffer p;
     show_prompt := show_prompt p;
     first_run := first_run p |}.

(** The file after a call of [read]. *)
Definition set_unread (pending : list read_result) (p : program) : program :=
  set_source_file (File (is_a_terminal (source_file p)) pending) p.

Definition set_eof_read (b : bool) (p : program) : program :=
  {| memory := memory p;
     source_file := source_file p;
     source_file_eof_read := b;
     source_file_line_number := source_file_line_number p;
     c_buffer := c_buffer p;
     show_prompt := show_prompt p;
     first_run := first_run p |}.

Definition set_line_number (n : Z) (p : program) : program :=
  {| memory := memory p;
     source_file := source_file p;
     source_file_eof_read := source_file_eof_read p;
     source_file_line_number := n;
     c_buffer := c_buffer p;
     show_prompt := show_prompt p;
     first_run := first_run p |}.

Definition set_c_buffer (c : ascii) (p : program) : program :=
  {| memory := memory p;
     source_file := source_file p;
     source_file_eof_read := source_file_eof_read p;
     source_file_line_number := source_file_line_number p;
     c_buffer := c;
     show_prompt := show_prompt p;
     first_run := first_run p |}.

Definition set_prompt (show first : bool) (p : program) : program :=
  {| memory := memory p;
     source_file := source_file p;
     source_file_eof_read := source_file_eof_read p;
     source_file_line_number := source_file_line_number p;
     c_buffer := c_buffer p;
     show_prompt := show;
     first_run := first |}.

(** [printf(s)] and [perror(s)] in a state of the program. *)
Definition printed (s : string) (p : program) : program :=
  set_memory (set_stdout (stdout (memory p) +:+ s) (memory p)) p.

Definition perror (s errno_text : string) (p : program) : program :=
  set_memory
    (set_stderr (stderr (memory p) +:+ s +:+ ": " +:+ errno_text +:+ str LF) (memory p)) p.

(** Open the file at [file_path] for reading, or use the standard input
    when there is no path ([main] calls this once, before it reads). *)
Definition open_source_file (env : environment) (file_path : option string)
  (p : program) : outcome (status * program) :=
  match file_path with
  | None => Returns (SUCCESS, set_source_file (stdin env) p)
  | Some path =>
      match open env path with
      | inl f => Returns (SUCCESS, set_source_file f p)
      | inr errno_text => Returns (FAILURE, perror "open" errno_text p)
      end
  end.

(** [s[i] = c]; there is no result when [i] is outside [s]. *)
Fixpoint string_set (s : string) (i : nat) (c : ascii) : option string :=
  match s, i with
  | EmptyString, _ => None
  | String _ s', O => Some (String c s')
  | String a s', S i' =>
      match string_set s' i' c with
      | Some r => Some (String a r)
      | None => None
      end
  end.

(** The prompt, when it is to be shown. *)
Definition prompt (p : program) : program :=
  if show_prompt p then printed "> " p else p.

(** The [while] loop of [read_line]; [pending] is what [read] will give.
    Every iteration calls [read] once. *)
Fixpoint read_line_loop (pending : list read_result) (line_is_all_whitespaces : bool)
  (p : program) {struct pending} : outcome (status * program) :=
  let g := memory p in
  let size := source_file_line_occupied_size g in
  if (MAX_LINE_SIZE <=? size)%nat
  then Returns (FAILURE, p)
  else
    match pending with
    | read_error errno_text :: pending' =>
        Returns (FAILURE, perror "read" errno_text (set_unread pending' p))
    | [] =>
        match string_set (source_file_line g) size (c_buffer p) with
        | None => Undefined out_of_bounds
        | Some buf =>
            match string_set buf 0 EOF with
            | None => Undefined out_of_bounds
            | Some buf' =>
                Returns (SUCCESS,
                         set_eof_read true (set_memory (set_line buf' (S size) g) p))
            end
        end
    | read_byte c :: pending' =>
        match string_set (source_file_line g) size c with
        | None => Undefined out_of_bounds
        | Some buf =>
            let p1 := set_c_buffer c (set_unread pending' p) in
            if Ascii.eqb c LF
            then
              let p2 :=
                set_line_number (wrap_int (source_file_line_number p1 + 1)) p1 in
              if (S size =? 1)%nat || line_is_all_whitespaces
              then
                read_line_loop pending' line_is_all_whitespaces
                  (prompt (set_memory (set_line buf 0 g) p2))
              else Returns (SUCCESS, set_memory (set_line buf (S size) g) p2)
            else
              read_line_loop pending'
                (if line_is_all_whitespaces && negb (isspace c)
                 then false else line_is_all_whitespaces)
                (set_memory (set_line buf (S size) g) p1)
        end
    end.

(** Get a line from the opened source file. *)
Definition read_line (p : program) : outcome (status * program) :=
  let p1 :=
    if first_run p
    then set_prompt (if is_a_terminal (source_file p) then true else show_prompt p)
                    false p
    else p in
  let p2 :=
    set_memory (set_line (source_file_line (memory p1)) 0 (memory p1)) p1 in
  read_line_loop (unread (source_file p2)) true (prompt p2).

Definition banner : string :=
  "A BODMAS calculator." +:+ str LF +:+
  "Version 1.0." +:+ str LF +:+
  "https://devbumbuna.com/building-an-interpreter-a-repl-calculator." +:+ str LF.

(** The [while] loop of [main].  [fuel] bounds the number of its
    iterations, [budget] is the budget of the parser on each line. *)
Fixpoint main_loop (budget fuel : nat) (return_code : status) (p : program)
  : outcome (status * program) :=
  if source_file_eof_read p then Returns (return_code, p)
  else
    match fuel with
    | O => Out_of_fuel
    | S fuel' =>
        match read_line p with
        | Returns (FAILURE, p1) => Returns (FAILURE, p1)
        | Returns (SUCCESS, p1) =>
            match process_line budget (memory p1) with
            | Returns (s, g2) =>
                main_loop budget fuel'
                  (match s with FAILURE => FAILURE | SUCCESS => return_code end)
                  (set_memory g2 p1)
            | Undefined f => Undefined f
            | Out_of_fuel => Out_of_fuel
            end
        | Undefined f => Undefined f
        | Out_of_fuel => Out_of_fuel
        end
    end.

(** Tying it all together: the exit status and the final state. *)
Definition main (env : environment) (argv : list string) (budget fuel : nat)
  : outcome (status * program) :=
  let source_file_path :=
    match argv with
    | [_; path] => Some path
    | _ => None
    end in
  match open_source_file env source_file_path (initial_program env) with
  | Returns (FAILURE, p) => Returns (FAILURE, p)
  | Returns (SUCCESS, p) =>
      let p1 := if is_a_terminal (source_file p) then printed banner p else p in
      match main_loop budget fuel SUCCESS p1 with
      | Returns (return_code, p2) => Returns (return_code, printed (str LF) p2)
      | Undefined f => Undefined f
      | Out_of_fuel => Out_of_fuel
      end
  | Undefined f => Undefined f
  | Out_of_fuel => Out_of_fuel
  end.

(** The bytes of a text, as [read] gives them. *)
Definition bytes (s : string) : list read_result :=
  map read_byte (list_ascii_of_string s).

(** A text without a newline. *)
Fixpoint no_newline (s : string) : bool :=
  match s with
  | EmptyString => true
  | String c s' => negb (Ascii.eqb c LF) && no_newline s'
  end.

(** A text of white space only. *)
Fixpoint all_spaces (s : string) : bool :=
  match s with
  | EmptyString => true
  | String c s' => isspace c && all_spaces s'
  end.

(** A blank line: white space up to its newline. *)
Definition blank_line (l : string) : Prop :=
  exists ws, l = ws +:+ str LF /\ no_newline ws = true /\ all_spaces ws = true /\
             (String.length ws < MAX_LINE_SIZE)%nat.

(** The lines in the buffer one after the other, as [read_line] leaves
    them there. *)
Fixpoint store_lines (lines : list string) : M unit :=
  match lines with
  | [] => ret tt
  | l :: lines' => store_line l ;;; store_lines lines'
  end.

(** The line number after [k] more lines. *)
Fixpoint line_number_after (k : nat) (n : Z) : Z :=
  match k with
  | O => n
  | S k' => line_number_after k' (wrap_int (n + 1))
  end.

(** The prompts that [k] calls of [printf("> ")] print. *)
Fixpoint prompts (k : nat) : string :=
  match k with
  | O => ""
  | S k' => "> " +:+ prompts k'
  end.

(** The lines of a file one after the other. *)
Fixpoint join (lines : list string) : string :=
  match lines with
  | [] => ""
  | l :: lines' => l +:+ join lines'
  end.

(** A line as [read_line] can take it: fewer than [MAX_LINE_SIZE] bytes,
    then the newline. *)
Definition proper_line (l : string) : Prop :=
  exists body,
    l = body +:+ str LF /\ no_newline body = true /\
    (String.length body < MAX_LINE_SIZE)%nat.

(** The lines of a file taken one by one, each in the buffer as
    [store_line] puts it there: a line of white space is passed over, any
    other line is tokenized, parsed and executed, and a failure is kept in
    the status. *)
Fixpoint session (budget : nat) (lines : list string) (return_code : status)
  : M status :=
  match lines with
  | [] => ret return_code
  | l :: lines' =>
      if all_spaces l
      then store_line l ;;; session budget lines' return_code
      else
        s <- run_line budget l ;;
        session budget lines'
          (match s with FAILURE => FAILURE | SUCCESS => return_code end)
  end.

(** A text in which every line, and what comes after the last newline,
    leaves the last byte of the buffer free; [run] bytes of the line
    under way have been read. *)
Fixpoint short_lines (run : nat) (s : string) : bool :=
  match s with
  | EmptyString => (S run <? MAX_LINE_SIZE)%nat
  | String c s' =>
      if Ascii.eqb c LF
      then (S run <? MAX_LINE_SIZE)%nat && short_lines 0 s'
      else short_lines (S run) s'
  end.

(** What holds of the globals between two turns of [main]: the buffer has
    its size and a NUL byte at its end, and the stack has its size. *)
Definition ready (g : globals) : Prop :=
  String.length (source_file_line g) = MAX_LINE_SIZE /\
  String.get (MAX_LINE_SIZE - 1) (source_file_line g) = Some NUL /\
  stack_ok g.

(** The character of an operator. *)
Definition operator_character (operator : ast_type) : ascii :=
  match operator with
  | ast_add => "+"
  | ast_sub => "-"
  | ast_mul => "*"
  | ast_div => "/"
  end.

(** An expression as a text: every leaf by the digits of its value, the
    operator between two spaces, and every operand that is itself an
    operation in brackets. *)
Fixpoint render (t : ast_t) : string :=
  match t with
  | NULL => ""
  | ast_num value => print_int value
  | ast_op type children0 children1 =>
      let operand t' :=
        match t' with
        | ast_op _ _ _ => "(" +:+ render t' +:+ ")"
        | _ => render t'
        end in
      operand children0 +:+ " " +:+
      String (operator_character type) (" " +:+ operand children1)
  end.

(** The lexical items of that text. *)
Fixpoint spelling (t : ast_t) : list lexical_item :=
  match t with
  | NULL => []
  | ast_num value => [item_number (print_int value)]
  | ast_op type children0 children1 =>
      let operand t' :=
        match t' with
        | ast_op _ _ _ =>
            item_symbol token_bracket_open ::
            spelling t' ++ [item_symbol token_bracket_close]
        | _ => spelling t'
        end in
      operand children0 ++ item_symbol (operator_token type) :: operand children1
  end.

(** * Properties *)

(** ** The evaluation stack *)

Lemma stack_view_length g :
  stack_ok g ->
  length (stack_view g) = (MAX_CALLSTACK_DEPTH - callstack_top g)%nat.
Proof.
  intros [Hlen _]. unfold stack_view. rewrite length_drop, Hlen. reflexivity.
Qed.

Lemma stack_view_top g1 g2 :
  stack_ok g1 -> stack_ok g2 -> stack_view g1 = stack_view g2 ->
  callstack_top g1 = callstack_top g2.
Proof.
  intros H1 H2 Hv.
  pose proof (stack_view_length g1 H1) as L1.
  pose proof (stack_view_length g2 H2) as L2.
  rewrite Hv in L1. destruct H1 as [_ ?], H2 as [_ ?]. lia.
Qed.

Lemma callstack_push_spec x g :
  stack_ok g -> callstack_top g <> O ->
  exists g',
    callstack_push x g = Returns (tt, g') /\
    stack_ok g' /\
    stack_view g' = x :: stack_view g /\
    callstack_top g = S (callstack_top g') /\
    stdout g' = stdout g /\ stderr g' = stderr g.
Proof.
  intros [Hlen Htop] Hne. unfold callstack_push.
  destruct (callstack_top g) as [|t] eqn:Et; [congruence|].
  assert (Hlt : (t < MAX_CALLSTACK_DEPTH)%nat) by lia.
  apply Nat.ltb_lt in Hlt as Hb. rewrite Hb.
  eexists; split; [reflexivity|].
  unfold stack_ok, stack_view; simpl.
  rewrite length_insert. repeat split; try lia; try assumption.
  rewrite Et.
  rewrite (drop_S _ x t) by (apply list_lookup_insert_eq; lia).
  rewrite drop_insert_lt by lia. reflexivity.
Qed.

Lemma callstack_pop_spec x vs g :
  stack_ok g -> stack_view g = x :: vs ->
  exists g',
    callstack_pop g = Returns (x, g') /\
    stack_ok g' /\
    stack_view g' = vs /\
    callstack_top g' = S (callstack_top g) /\
    stdout g' = stdout g /\ stderr g' = stderr g.
Proof.
  intros [Hlen Htop] Hv. unfold callstack_pop.
  assert (Hlk : callstack g !! callstack_top g = Some x).
  { pose proof (lookup_drop (callstack g) (callstack_top g) 0) as E.
    fold (stack_view g) in E. rewrite Hv in E. simpl in E.
    rewrite Nat.add_0_r in E. symmetry. exact E. }
  pose proof (lookup_lt_Some _ _ _ Hlk) as Hlt. rewrite Hlen in Hlt.
  apply Nat.ltb_lt in Hlt as Hb. rewrite Hb, Hlk.
  eexists; split; [reflexivity|].
  unfold stack_ok, stack_view; simpl. repeat split; try lia; try assumption.
  unfold stack_view in Hv. rewrite (drop_S _ x _ Hlk) in Hv. congruence.
Qed.

Lemma callstack_pop_empty g :
  stack_ok g -> stack_view g = [] -> callstack_pop g = Undefined out_of_bounds.
Proof.
  intros [Hlen Htop] Hv. unfold callstack_pop.
  apply drop_nil_inv in Hv.
  assert (Hge : (MAX_CALLSTACK_DEPTH <= callstack_top g)%nat) by lia.
  apply Nat.ltb_ge in Hge. rewrite Hge. reflexivity.
Qed.

(** ** Operations *)

Lemma do_operation_spec operator r l vs g :
  stack_ok g -> stack_view g = r :: l :: vs ->
  if divides_by_zero operator r
  then exists g',
         execution_engine_do_operation operator g = Returns (FAILURE, g') /\
         stack_ok g' /\ stdout g' = stdout g /\
         stderr g' = stderr g +:+ msg_DivisionByZero /\
         stack_view g' = vs
  else if quotient_overflows operator l r
  then execution_engine_do_operation operator g = Undefined division_overflow
  else exists g',
         execution_engine_do_operation operator g = Returns (SUCCESS, g') /\
         stack_ok g' /\ stdout g' = stdout g /\
         stderr g' = stderr g /\
         stack_view g' = int_result operator l r :: vs.
Proof.
  intros Hok Hv.
  destruct (callstack_pop_spec r (l :: vs) g Hok Hv)
    as (g1 & E1 & Hok1 & Hv1 & Ht1 & Ho1 & He1).
  destruct (callstack_pop_spec l vs g1 Hok1 Hv1)
    as (g2 & E2 & Hok2 & Hv2 & Ht2 & Ho2 & He2).
  assert (Hne : callstack_top g2 <> O) by lia.
  assert (Hpush : forall v,
            exists g3,
              (callstack_push v ;;; ret SUCCESS) g2 = Returns (SUCCESS, g3) /\
              stack_ok g3 /\ stdout g3 = stdout g /\ stderr g3 = stderr g /\
              stack_view g3 = v :: vs).
  { intros v.
    destruct (callstack_push_spec v g2 Hok2 Hne)
      as (g3 & E3 & Hok3 & Hv3 & _ & Ho3 & He3).
    exists g3. unfold bind, ret. rewrite E3.
    split; [reflexivity|]. split; [exact Hok3|]. repeat split; congruence. }
  assert (Eop : execution_engine_do_operation operator g =
                match operator with
                | ast_add => (callstack_push (wrap_int (l + r)) ;;; ret SUCCESS) g2
                | ast_sub => (callstack_push (wrap_int (l - r)) ;;; ret SUCCESS) g2
                | ast_mul => (callstack_push (wrap_int (l * r)) ;;; ret SUCCESS) g2
                | ast_div =>
                    if r =? 0 then (eprint msg_DivisionByZero ;;; ret FAILURE) g2
                    else if (l =? INT_MIN) && (r =? -1) then Undefined division_overflow
                    else (callstack_push (wrap_int (Z.quot l r)) ;;; ret SUCCESS) g2
                end).
  { unfold execution_engine_do_operation, bind at 1. rewrite E1.
    unfold bind at 1. rewrite E2.
    destruct operator; try reflexivity.
    destruct (r =? 0); [reflexivity|].
    destruct ((l =? INT_MIN) && (r =? -1)); reflexivity. }
  rewrite Eop. clear Eop.
  destruct operator; cbn [divides_by_zero quotient_overflows int_result];
    try apply Hpush.
  destruct (r =? 0) eqn:Er.
  - eexists. unfold bind, eprint, ret. simpl.
    split; [reflexivity|]. split; [exact Hok2|].
    split; [simpl; congruence|]. split; [simpl; congruence|exact Hv2].
  - destruct ((l =? INT_MIN) && (r =? -1)); [reflexivity|apply Hpush].
Qed.

(** ** The traversal *)

Lemma pushed_top g g' v :
  stack_ok g -> stack_ok g' -> stack_view g' = v :: stack_view g ->
  callstack_top g = S (callstack_top g').
Proof.
  intros H H' Hv.
  pose proof (stack_view_length g H) as L.
  pose proof (stack_view_length g' H') as L'.
  rewrite Hv in L'. simpl in L'. destruct H as [_ ?], H' as [_ ?].
  unfold MAX_CALLSTACK_DEPTH in *. lia.
Qed.

(** On a well-formed tree the traversal never reads or writes outside
    the stack: it returns, unless a division overflows.  When it succeeds
    it has pushed exactly one value and the tree needed no more cells than
    were free; when it fails it has reported a stack overflow, which the
    tree's need of cells explains, or a division by zero. *)
Lemma process_ast_node_spec t :
  well_formed t ->
  forall g, stack_ok g ->
  execution_engine_process_ast_node t g = Undefined division_overflow \/
  exists s g',
    execution_engine_process_ast_node t g = Returns (s, g') /\
    stack_ok g' /\ stdout g' = stdout g /\
    match s with
    | SUCCESS =>
        (pending_operands t <= callstack_top g)%nat /\
        stderr g' = stderr g /\
        exists v, stack_view g' = v :: stack_view g
    | FAILURE =>
        (stderr g' = stderr g +:+ msg_StackOverflow /\
         (callstack_top g < pending_operands t)%nat) \/
        stderr g' = stderr g +:+ msg_DivisionByZero
    end.
Proof.
  induction t as [|value|operator c0 IH0 c1 IH1]; simpl.
  - intros [].
  - intros _ g Hok. right. unfold callstack_is_full.
    destruct (callstack_top g =? 0)%nat eqn:Efull.
    + apply Nat.eqb_eq in Efull.
      exists FAILURE. eexists. unfold bind, eprint, ret; simpl.
      split; [reflexivity|]. split; [exact Hok|]. split; [reflexivity|].
      left. simpl. split; [reflexivity|lia].
    + apply Nat.eqb_neq in Efull.
      destruct (callstack_push_spec value g Hok Efull)
        as (g' & E & Hok' & Hv & Ht & Ho & He).
      exists SUCCESS, g'. unfold bind, ret. rewrite E.
      split; [reflexivity|]. split; [exact Hok'|]. split; [exact Ho|].
      split; [lia|]. split; [exact He|]. exists value. exact Hv.
  - intros [Hwf0 Hwf1] g Hok. unfold bind.
    destruct (IH0 Hwf0 g Hok) as [U0|(s0 & g0 & E0 & Hok0 & Ho0 & R0)];
      [left; rewrite U0; reflexivity|].
    rewrite E0. destruct s0.
    2:{ right. exists FAILURE, g0. unfold ret.
        split; [reflexivity|]. split; [exact Hok0|]. split; [exact Ho0|].
        destruct R0 as [[He Hp]|He]; [left; split; [exact He|lia] | right; exact He]. }
    destruct R0 as (Hp0 & He0 & v0 & Hv0).
    pose proof (pushed_top g g0 v0 Hok Hok0 Hv0) as Ht0.
    destruct (IH1 Hwf1 g0 Hok0) as [U1|(s1 & g1 & E1 & Hok1 & Ho1 & R1)];
      [left; rewrite U1; reflexivity|].
    rewrite E1. destruct s1.
    2:{ right. exists FAILURE, g1. unfold ret.
        split; [reflexivity|]. split; [exact Hok1|]. split; [congruence|].
        destruct R1 as [[He Hp]|He]; [left; split; [congruence|lia] | right; congruence]. }
    destruct R1 as (Hp1 & He1 & v1 & Hv1).
    rewrite Hv0 in Hv1.
    pose proof (do_operation_spec operator v1 v0 (stack_view g) g1 Hok1 Hv1) as R2.
    destruct (divides_by_zero operator v1).
    + destruct R2 as (g2 & E2 & Hok2 & Ho2 & He2 & Hv2). rewrite E2.
      right. exists FAILURE, g2. unfold ret.
      split; [reflexivity|]. split; [exact Hok2|]. split; [congruence|].
      right. congruence.
    + destruct (quotient_overflows operator v0 v1).
      * left. rewrite R2. reflexivity.
      * destruct R2 as (g2 & E2 & Hok2 & Ho2 & He2 & Hv2). rewrite E2.
        right. exists SUCCESS, g2. unfold ret.
        split; [reflexivity|]. split; [exact Hok2|]. split; [congruence|].
        split; [lia|]. split; [congruence|]. eexists; exact Hv2.
Qed.

Lemma execution_engine_spec t g :
  well_formed t -> stack_ok g ->
  execution_engine t g = Undefined division_overflow \/
  exists s g',
    execution_engine t g = Returns (s, g') /\
    stack_ok g' /\ callstack_top g' = MAX_CALLSTACK_DEPTH /\
    match s with
    | SUCCESS =>
        (pending_operands t <= callstack_top g)%nat /\
        stderr g' = stderr g /\
        exists v, stdout g' = stdout g +:+ (green (print_int v) +:+ "." +:+ str LF)
    | FAILURE =>
        stdout g' = stdout g /\
        ((stderr g' = stderr g +:+ msg_StackOverflow /\
          (callstack_top g < pending_operands t)%nat) \/
         stderr g' = stderr g +:+ msg_DivisionByZero)
    end.
Proof.
  intros Hwf Hok.
  assert (Eeng : execution_engine t g =
                 bind (execution_engine_process_ast_node t) execution_engine_finish g)
    by (destruct t; [destruct Hwf|reflexivity|reflexivity]).
  rewrite Eeng. unfold bind.
  destruct (process_ast_node_spec t Hwf g Hok) as [U|(s & g1 & E & Hok1 & Ho1 & R)];
    [left; rewrite U; reflexivity|].
  right. rewrite E.
  destruct s; simpl.
  - destruct R as (Hp & He & v & Hv).
    pose proof (pushed_top g g1 v Hok Hok1 Hv) as Ht.
    destruct Hok as [Hlen Htop].
    unfold callstack_is_empty.
    assert (Hne : (callstack_top g1 =? MAX_CALLSTACK_DEPTH)%nat = false)
      by (apply Nat.eqb_neq; lia).
    rewrite Hne.
    destruct (callstack_pop_spec v (stack_view g) g1 Hok1 Hv)
      as (g2 & E2 & Hok2 & Hv2 & Ht2 & Ho2 & He2).
    unfold bind. rewrite E2. unfold print, callstack_clear, ret; simpl.
    exists SUCCESS. eexists. split; [reflexivity|]. simpl.
    split; [split; [apply Hok2|reflexivity]|]. split; [reflexivity|].
    split; [exact Hp|]. split; [congruence|].
    exists v. rewrite Ho2, Ho1. reflexivity.
  - unfold bind, callstack_clear, ret; simpl.
    exists FAILURE. eexists. split; [reflexivity|]. simpl.
    split; [split; [apply Hok1|reflexivity]|]. split; [reflexivity|].
    split; [exact Ho1|]. exact R.
Qed.

(** ** Independence of the dead cells of the array *)

Lemma sim_ret {A : Type} (a : A) : sim (ret a).
Proof. intros g1 g2 H. simpl. split; [reflexivity|exact H]. Qed.

Lemma sim_bind {A B : Type} (m : M A) (k : A -> M B) :
  sim m -> (forall a, sim (k a)) -> sim (bind m k).
Proof.
  intros Hm Hk g1 g2 H. unfold bind.
  specialize (Hm g1 g2 H). unfold outcome_rel in Hm.
  destruct (m g1) as [[a1 g1']|f1|], (m g2) as [[a2 g2']|f2|];
    try contradiction; try exact I; try exact Hm.
  destruct Hm as [-> Hm]. apply Hk. exact Hm.
Qed.

Lemma sim_undefined {A : Type} (f : fault) : sim (@undefined A f).
Proof. intros g1 g2 H. reflexivity. Qed.

Lemma sim_eprint s : sim (eprint s).
Proof.
  intros g1 g2 (H1 & H2 & Hv & Ho & He). simpl.
  split; [reflexivity|]. unfold obs_eq, stack_ok, stack_view in *; simpl.
  rewrite He. auto.
Qed.

Lemma sim_print s : sim (print s).
Proof.
  intros g1 g2 (H1 & H2 & Hv & Ho & He). simpl.
  split; [reflexivity|]. unfold obs_eq, stack_ok, stack_view in *; simpl.
  rewrite Ho. auto.
Qed.

Lemma sim_callstack_clear : sim callstack_clear.
Proof.
  intros g1 g2 ([L1 T1] & [L2 T2] & Hv & Ho & He). simpl.
  split; [reflexivity|]. unfold obs_eq, stack_ok, stack_view; simpl.
  rewrite !drop_ge by lia. auto 10.
Qed.

Lemma sim_callstack_pop : sim callstack_pop.
Proof.
  intros g1 g2 (H1 & H2 & Hv & Ho & He).
  destruct (stack_view g1) as [|x vs] eqn:E1.
  - rewrite (callstack_pop_empty g1 H1 E1).
    rewrite (callstack_pop_empty g2 H2 (eq_sym Hv)). reflexivity.
  - destruct (callstack_pop_spec x vs g1 H1 E1) as (g1' & P1 & K1 & V1 & _ & O1 & R1).
    destruct (callstack_pop_spec x vs g2 H2 (eq_sym Hv)) as (g2' & P2 & K2 & V2 & _ & O2 & R2).
    rewrite P1, P2. simpl. split; [reflexivity|].
    unfold obs_eq. repeat split; try apply K1; try apply K2; congruence.
Qed.

Lemma sim_callstack_push x : sim (callstack_push x).
Proof.
  intros g1 g2 (H1 & H2 & Hv & Ho & He).
  pose proof (stack_view_top g1 g2 H1 H2 Hv) as Ht.
  destruct (callstack_top g1) as [|t] eqn:E1.
  - unfold callstack_push. rewrite E1, <- Ht. reflexivity.
  - assert (N1 : callstack_top g1 <> O) by lia.
    assert (N2 : callstack_top g2 <> O) by lia.
    destruct (callstack_push_spec x g1 H1 N1) as (g1' & P1 & K1 & V1 & _ & O1 & R1).
    destruct (callstack_push_spec x g2 H2 N2) as (g2' & P2 & K2 & V2 & _ & O2 & R2).
    rewrite P1, P2. simpl. split; [reflexivity|].
    unfold obs_eq. repeat split; try apply K1; try apply K2; congruence.
Qed.

Lemma sim_do_operation operator : sim (execution_engine_do_operation operator).
Proof.
  unfold execution_engine_do_operation.
  apply sim_bind; [apply sim_callstack_pop|]. intros r.
  apply sim_bind; [apply sim_callstack_pop|]. intros l.
  destruct operator;
    try (apply sim_bind; [apply sim_callstack_push|]; intros; apply sim_ret).
  destruct (r =? 0);
    [apply sim_bind; [apply sim_eprint|]; intros; apply sim_ret|].
  destruct ((l =? INT_MIN) && (r =? -1)); [apply sim_undefined|].
  apply sim_bind; [apply sim_callstack_push|]; intros; apply sim_ret.
Qed.

Lemma sim_process_ast_node t : sim (execution_engine_process_ast_node t).
Proof.
  induction t as [|value|operator c0 IH0 c1 IH1]; simpl.
  - apply sim_ret.
  - intros g1 g2 H.
    assert (Ht : callstack_top g1 = callstack_top g2)
      by (destruct H as (H1 & H2 & Hv & _); apply stack_view_top; assumption).
    unfold callstack_is_full. rewrite Ht.
    destruct (callstack_top g2 =? 0)%nat;
      (apply sim_bind; [first [apply sim_eprint | apply sim_callstack_push]|
                        intros; apply sim_ret | exact H]).
  - apply sim_bind; [exact IH0|]. intros [|]; [|apply sim_ret].
    apply sim_bind; [exact IH1|]. intros [|]; [|apply sim_ret].
    apply sim_bind; [apply sim_do_operation|]. intros [|]; apply sim_ret.
Qed.

Lemma sim_finish s : sim (execution_engine_finish s).
Proof.
  destruct s; simpl.
  - intros g1 g2 H.
    assert (Ht : callstack_top g1 = callstack_top g2)
      by (destruct H as (H1 & H2 & Hv & _); apply stack_view_top; assumption).
    unfold callstack_is_empty. rewrite Ht.
    destruct (callstack_top g2 =? MAX_CALLSTACK_DEPTH)%nat.
    + apply sim_bind; [apply sim_eprint| intros; apply sim_ret | exact H].
    + revert g1 g2 H Ht. intros g1 g2 H _. revert g1 g2 H.
      apply sim_bind; [apply sim_callstack_pop|]. intros v.
      apply sim_bind; [apply sim_print|]. intros _.
      apply sim_bind; [apply sim_callstack_clear|]. intros _. apply sim_ret.
  - apply sim_bind; [apply sim_callstack_clear|]. intros _. apply sim_ret.
Qed.

Lemma sim_execution_engine t : sim (execution_engine t).
Proof.
  destruct t; simpl.
  - apply sim_bind; [apply sim_callstack_clear|]. intros _. apply sim_ret.
  - apply sim_bind; [apply (sim_process_ast_node (ast_num value))|apply sim_finish].
  - apply sim_bind; [apply (sim_process_ast_node (ast_op type0 t1 t2))|apply sim_finish].
Qed.

(** ** What every invocation of the engine leaves behind *)

Lemma keeps_ret {A : Type} (a : A) : keeps_cells (ret a).
Proof. intros g a' g' H. inversion H. reflexivity. Qed.

Lemma keeps_bind {A B : Type} (m : M A) (k : A -> M B) :
  keeps_cells m -> (forall a, keeps_cells (k a)) -> keeps_cells (bind m k).
Proof.
  intros Hm Hk g b g' H. unfold bind in H.
  destruct (m g) as [[a g1]| |] eqn:E; try discriminate.
  rewrite (Hk a g1 b g' H). exact (Hm g a g1 E).
Qed.

Lemma keeps_undefined {A : Type} (f : fault) : keeps_cells (@undefined A f).
Proof. intros g a g' H. discriminate H. Qed.

Lemma keeps_eprint s : keeps_cells (eprint s).
Proof. intros g a g' H. inversion H. reflexivity. Qed.

Lemma keeps_print s : keeps_cells (print s).
Proof. intros g a g' H. inversion H. reflexivity. Qed.

Lemma keeps_callstack_clear : keeps_cells callstack_clear.
Proof. intros g a g' H. inversion H. reflexivity. Qed.

Lemma keeps_callstack_pop : keeps_cells callstack_pop.
Proof.
  intros g a g' H. unfold callstack_pop in H.
  destruct (callstack_top g <? MAX_CALLSTACK_DEPTH)%nat; try discriminate.
  destruct (callstack g !! callstack_top g); try discriminate.
  inversion H. reflexivity.
Qed.

Lemma keeps_callstack_push x : keeps_cells (callstack_push x).
Proof.
  intros g a g' H. unfold callstack_push in H.
  destruct (callstack_top g) as [|t]; try discriminate.
  destruct (t <? MAX_CALLSTACK_DEPTH)%nat; try discriminate.
  inversion H. simpl. apply length_insert.
Qed.

Lemma keeps_do_operation operator : keeps_cells (execution_engine_do_operation operator).
Proof.
  unfold execution_engine_do_operation.
  apply keeps_bind; [apply keeps_callstack_pop|]. intros r.
  apply keeps_bind; [apply keeps_callstack_pop|]. intros l.
  destruct operator;
    try (apply keeps_bind; [apply keeps_callstack_push|]; intros; apply keeps_ret).
  destruct (r =? 0);
    [apply keeps_bind; [apply keeps_eprint|]; intros; apply keeps_ret|].
  destruct ((l =? INT_MIN) && (r =? -1)); [apply keeps_undefined|].
  apply keeps_bind; [apply keeps_callstack_push|]; intros; apply keeps_ret.
Qed.

Lemma keeps_process_ast_node t : keeps_cells (execution_engine_process_ast_node t).
Proof.
  induction t as [|value|operator c0 IH0 c1 IH1]; simpl.
  - apply keeps_ret.
  - intros g a g'. destruct (callstack_is_full g);
      (apply keeps_bind; [first [apply keeps_eprint | apply keeps_callstack_push]|
                          intros; apply keeps_ret]).
  - apply keeps_bind; [exact IH0|]. intros [|]; [|apply keeps_ret].
    apply keeps_bind; [exact IH1|]. intros [|]; [|apply keeps_ret].
    apply keeps_bind; [apply keeps_do_operation|]. intros [|]; apply keeps_ret.
Qed.

Lemma keeps_finish s : keeps_cells (execution_engine_finish s).
Proof.
  destruct s; simpl.
  - intros g a g'. destruct (callstack_is_empty g).
    + apply keeps_bind; [apply keeps_eprint|intros; apply keeps_ret].
    + apply keeps_bind; [apply keeps_callstack_pop|]. intros v.
      apply keeps_bind; [apply keeps_print|]. intros _.
      apply keeps_bind; [apply keeps_callstack_clear|]. intros _. apply keeps_ret.
  - apply keeps_bind; [apply keeps_callstack_clear|]. intros _. apply keeps_ret.
Qed.

Lemma execution_engine_unfold t :
  t <> NULL ->
  execution_engine t = bind (execution_engine_process_ast_node t) execution_engine_finish.
Proof. destruct t; [congruence|reflexivity|reflexivity]. Qed.

Lemma keeps_execution_engine t : keeps_cells (execution_engine t).
Proof.
  destruct t as [| |].
  - simpl. apply keeps_bind; [apply keeps_callstack_clear|]. intros _. apply keeps_ret.
  - rewrite execution_engine_unfold by discriminate.
    apply keeps_bind; [apply keeps_process_ast_node|apply keeps_finish].
  - rewrite execution_engine_unfold by discriminate.
    apply keeps_bind; [apply keeps_process_ast_node|apply keeps_finish].
Qed.

Lemma finish_leaves_empty s g s' g' :
  execution_engine_finish s g = Returns (s', g') -> callstack_is_empty g' = true.
Proof.
  destruct s; simpl.
  - destruct (callstack_is_empty g) eqn:E.
    + unfold bind, eprint, ret. intros H. inversion H. subst. exact E.
    + unfold bind, print, callstack_clear, ret.
      destruct (callstack_pop g) as [[v g1]| |]; try discriminate.
      intros H. inversion H. reflexivity.
  - unfold bind, callstack_clear, ret. intros H. inversion H. reflexivity.
Qed.

Lemma execution_engine_leaves_empty t g s g' :
  execution_engine t g = Returns (s, g') -> callstack_is_empty g' = true.
Proof.
  destruct t as [| |].
  - simpl. unfold bind, callstack_clear, ret. intros H. inversion H. reflexivity.
  - rewrite execution_engine_unfold by discriminate. unfold bind.
    destruct (execution_engine_process_ast_node _ g) as [[s0 g0]| |]; try discriminate.
    apply finish_leaves_empty.
  - rewrite execution_engine_unfold by discriminate. unfold bind.
    destruct (execution_engine_process_ast_node _ g) as [[s0 g0]| |]; try discriminate.
    apply finish_leaves_empty.
Qed.

Lemma outcome_rel_same_result o1 o2 : outcome_rel o1 o2 -> same_result o1 o2.
Proof.
  unfold outcome_rel, same_result.
  destruct o1 as [[s1 g1]| |], o2 as [[s2 g2]| |]; try tauto.
  intros (-> & _ & _ & _ & Ho & He). auto.
Qed.

(** ** Strings on [stderr] *)

Lemma append_cons (c : ascii) (s t : string) :
  String c s +:+ t = String c (s +:+ t).
Proof. reflexivity. Qed.

Lemma append_nil_l (t : string) : "" +:+ t = t.
Proof. reflexivity. Qed.

Lemma append_nil_r (s : string) : s +:+ "" = s.
Proof.
  induction s as [|c s IH]; [reflexivity|].
  rewrite append_cons, IH. reflexivity.
Qed.

Lemma append_same_prefix (s a b : string) : s +:+ a = s +:+ b -> a = b.
Proof. apply String.app_inj. Qed.

Lemma append_not_self (s a : string) : a <> "" -> s <> s +:+ a.
Proof.
  intros Ha H. apply Ha. apply (append_same_prefix s).
  rewrite (append_nil_r s). symmetry. exact H.
Qed.

Lemma runtime_messages_distinct :
  msg_StackOverflow <> msg_DivisionByZero /\
  msg_StackOverflow <> msg_StackUnderflow /\
  msg_DivisionByZero <> msg_StackUnderflow /\
  msg_StackOverflow <> "" /\ msg_DivisionByZero <> "" /\ msg_StackUnderflow <> "".
Proof. repeat split; vm_compute; discriminate. Qed.

(** ** Claims about the evaluator *)

Lemma wrap_int_in_range z : INT_MIN <= z <= INT_MAX -> wrap_int z = z.
Proof.
  unfold INT_MIN, INT_MAX, wrap_int. intros H.
  rewrite Z.mod_small by lia. lia.
Qed.

Lemma quot_in_range l r :
  INT_MIN <= l <= INT_MAX -> r <> 0 -> ~ (l = INT_MIN /\ r = -1) ->
  INT_MIN <= Z.quot l r <= INT_MAX.
Proof.
  unfold INT_MIN, INT_MAX. intros Hl Hr Hx.
  destruct (Z.eq_dec r 1) as [->|Hr1]; [rewrite Z.quot_1_r; lia|].
  destruct (Z.eq_dec r (-1)) as [->|Hr2].
  - assert (l <> - 2 ^ 31) by tauto.
    change (-1) with (- (1)). rewrite Z.quot_opp_r by lia. rewrite Z.quot_1_r. lia.
  - destruct (Z.eq_dec l 0) as [->|Hl0]; [rewrite Z.quot_0_l by lia; lia|].
    assert (Habs : Z.abs (Z.quot l r) < Z.abs l).
    { rewrite <- Z.quot_abs by exact Hr. apply Z.quot_lt; lia. }
    lia.
Qed.

Lemma wrap_int_range z : INT_MIN <= wrap_int z <= INT_MAX.
Proof.
  unfold INT_MIN, INT_MAX, wrap_int.
  pose proof (Z.mod_pos_bound (z + 2 ^ 31) (2 ^ 32) ltac:(lia)). lia.
Qed.

(** The value that the traversal of a well-formed tree pushes is an [int]
    if the leaves of the tree are. *)
Lemma evaluates_to_int t g v g' :
  well_formed t -> int_typed t -> stack_ok g ->
  evaluates_to t g v g' -> INT_MIN <= v <= INT_MAX.
Proof.
  intros Hwf Hint Hok [E V].
  destruct t as [|value|operator c0 c1]; [destruct Hwf| |].
  - simpl in E. unfold callstack_is_full in E.
    destruct (callstack_top g =? 0)%nat eqn:Efull.
    + unfold bind, eprint, ret in E. discriminate E.
    + apply Nat.eqb_neq in Efull.
      destruct (callstack_push_spec value g Hok Efull) as (g2 & E2 & _ & V2 & _).
      unfold bind, ret in E. rewrite E2 in E. inversion E; subst g2.
      rewrite V in V2. inversion V2; subst. exact Hint.
  - destruct Hwf as [Hwf0 Hwf1]. simpl in E. unfold bind in E.
    destruct (process_ast_node_spec c0 Hwf0 g Hok)
      as [U0|(s0 & g0 & E0 & Hok0 & _ & R0)]; [rewrite U0 in E; discriminate|].
    rewrite E0 in E. destruct s0; [|discriminate].
    destruct R0 as (_ & _ & v0 & V0).
    destruct (process_ast_node_spec c1 Hwf1 g0 Hok0)
      as [U1|(s1 & g1 & E1 & Hok1 & _ & R1)]; [rewrite U1 in E; discriminate|].
    rewrite E1 in E. destruct s1; [|discriminate].
    destruct R1 as (_ & _ & v1 & V1). rewrite V0 in V1.
    pose proof (do_operation_spec operator v1 v0 (stack_view g) g1 Hok1 V1) as R2.
    destruct (divides_by_zero operator v1).
    { destruct R2 as (g2 & E2 & _). rewrite E2 in E. discriminate. }
    destruct (quotient_overflows operator v0 v1).
    { rewrite R2 in E. discriminate. }
    destruct R2 as (g2 & E2 & _ & _ & _ & V2). rewrite E2 in E.
    unfold ret in E. inversion E; subst g2.
    rewrite V in V2. inversion V2; subst.
    destruct operator; apply wrap_int_range.
Qed.

(** C3, as stated, fails.  A [Div] node with the dividend [INT_MIN] and the
    divisor -1 has a nonzero divisor and yields no quotient: 2147483648 is
    no [int] and the division is undefined behaviour.  The line
    [2147483648 / (0 - 1)] leads there: the literal is stored as [INT_MIN]. *)
Lemma division_overflows :
  ~ (forall c0 c1 g g0 g1 l r,
       well_formed c0 -> well_formed c1 -> int_typed c0 -> stack_ok g ->
       evaluates_to c0 g l g0 ->
       evaluates_to c1 g0 r g1 ->
       r <> 0 ->
       exists g', evaluates_to (ast_op ast_div c0 c1) g (Z.quot l r) g').
Proof.
  intros H.
  pose (g0 := set_callstack (<[31%nat := INT_MIN]> (callstack initial_globals)) 31
                initial_globals).
  pose (g1 := set_callstack (<[30%nat := -1]> (callstack g0)) 30 initial_globals).
  destruct (H (ast_num INT_MIN) (ast_num (-1)) initial_globals g0 g1 INT_MIN (-1))
    as (g' & E & _).
  - exact I.
  - exact I.
  - split; discriminate.
  - split; [reflexivity|apply le_n].
  - split; reflexivity.
  - split; reflexivity.
  - discriminate.
  - vm_compute in E. discriminate E.
Qed.

(** C3, amended.  For a [Div] node whose children are well-formed and
    evaluate, in the state at hand, to the [int]s [l] (left) and [r]
    (right): if [r] is 0 the node fails, reporting
    [RuntimeError: Division by Zero] and pushing nothing; if [r] is not 0
    the node evaluates to the quotient of [l] by [r] truncated toward zero,
    except when [l] is [INT_MIN] and [r] is -1: that quotient is no [int]
    and the division is undefined behaviour.  On the line [7 / 2] the
    program prints 3; [-7 / 2] truncates to -3. *)
Theorem division_semantics c0 c1 g g0 g1 l r :
  well_formed c0 -> well_formed c1 -> int_typed c0 -> stack_ok g ->
  evaluates_to c0 g l g0 ->
  evaluates_to c1 g0 r g1 ->
  (r = 0 ->
   exists g',
     execution_engine_process_ast_node (ast_op ast_div c0 c1) g = Returns (FAILURE, g') /\
     stderr g' = stderr g1 +:+ msg_DivisionByZero /\
     stdout g' = stdout g1 /\
     stack_view g' = stack_view g) /\
  (r <> 0 -> ~ (l = INT_MIN /\ r = -1) ->
   exists g',
     evaluates_to (ast_op ast_div c0 c1) g (Z.quot l r) g' /\
     stderr g' = stderr g1 /\ stdout g' = stdout g1) /\
  (l = INT_MIN -> r = -1 ->
   execution_engine_process_ast_node (ast_op ast_div c0 c1) g
     = Undefined division_overflow) /\
  Z.quot 7 2 = 3 /\ Z.quot (-7) 2 = -3 /\
  prints "7 / 2" "3".
Proof.
  intros Hwf0 Hwf1 Hint Hok H0 H1.
  pose proof (evaluates_to_int c0 g l g0 Hwf0 Hint Hok H0) as Hl.
  destruct H0 as [E0 V0], H1 as [E1 V1].
  destruct (process_ast_node_spec c0 Hwf0 g Hok)
    as [U0|(s0 & g0' & E0' & Hok0 & _)]; [congruence|].
  rewrite E0 in E0'. inversion E0'; subst s0 g0'. clear E0'.
  destruct (process_ast_node_spec c1 Hwf1 g0 Hok0)
    as [U1|(s1 & g1' & E1' & Hok1 & _)]; [congruence|].
  rewrite E1 in E1'. inversion E1'; subst s1 g1'. clear E1'.
  rewrite V0 in V1.
  pose proof (do_operation_spec ast_div r l (stack_view g) g1 Hok1 V1) as R2.
  cbn [divides_by_zero quotient_overflows int_result] in R2.
  assert (Enode : execution_engine_process_ast_node (ast_op ast_div c0 c1) g =
                  match execution_engine_do_operation ast_div g1 with
                  | Returns (FAILURE, g') => Returns (FAILURE, g')
                  | Returns (SUCCESS, g') => Returns (SUCCESS, g')
                  | Undefined f => Undefined f
                  | Out_of_fuel => Out_of_fuel
                  end).
  { simpl. unfold bind. rewrite E0, E1.
    destruct (execution_engine_do_operation ast_div g1) as [[[|] ?]| |]; reflexivity. }
  split; [|split; [|split; [|split; [reflexivity|split; [reflexivity|]]]]].
  - intros ->. simpl in R2. destruct R2 as (g2 & E2 & _ & Ho2 & He2 & Hv2).
    exists g2. rewrite Enode, E2. auto.
  - intros Hr Hx. apply Z.eqb_neq in Hr as Hb. rewrite Hb in R2.
    assert (Hov : (l =? INT_MIN) && (r =? -1) = false).
    { apply andb_false_iff.
      destruct (Z.eqb_spec l INT_MIN), (Z.eqb_spec r (-1)); tauto. }
    rewrite Hov in R2. destruct R2 as (g2 & E2 & _ & Ho2 & He2 & Hv2).
    exists g2. unfold evaluates_to. rewrite Enode, E2.
    rewrite wrap_int_in_range in Hv2 by (apply quot_in_range; assumption).
    auto.
  - intros -> ->. simpl in R2. rewrite Enode, R2. reflexivity.
  - intros n. eexists. split; [vm_compute; reflexivity|]. split; reflexivity.
Qed.

Lemma division_semantics_witness :
  exists g0 g1,
    evaluates_to (ast_num 7) initial_globals 7 g0 /\
    evaluates_to (ast_num 2) g0 2 g1 /\
    exists g',
      evaluates_to (ast_op ast_div (ast_num 7) (ast_num 2)) initial_globals 3 g'.
Proof.
  eexists. eexists.
  assert (H0 : evaluates_to (ast_num 7) initial_globals 7
                 (set_callstack (<[31%nat := 7]> (callstack initial_globals)) 31 initial_globals))
    by (split; reflexivity).
  assert (H1 : evaluates_to (ast_num 2)
                 (set_callstack (<[31%nat := 7]> (callstack initial_globals)) 31 initial_globals)
                 2
                 (set_callstack (<[30%nat := 2]> (<[31%nat := 7]> (callstack initial_globals)))
                                30 initial_globals))
    by (split; reflexivity).
  split; [exact H0|]. split; [exact H1|].
  assert (Hint : int_typed (ast_num 7)) by (split; discriminate).
  destruct (division_semantics (ast_num 7) (ast_num 2) initial_globals _ _ 7 2
              I I Hint (conj eq_refl (le_n _)) H0 H1) as (_ & Hq & _).
  destruct (Hq ltac:(discriminate) ltac:(intros [? _]; discriminate)) as (g' & Hg' & _).
  exists g'. exact Hg'.
Defined.

(** The line of that division. *)
Lemma division_overflow_line n :
  run_line (8 + n) (line "2147483648 / (0 - 1)") initial_globals
    = Undefined division_overflow.
Proof. vm_compute. reflexivity. Qed.

(** C4, as stated, fails.  The tree of [1/0 + (1 + (1 + ...))] with a
    nested sum of 33 ones needs more than 32 pending operands, yet the
    evaluation stops at the division and reports [Division by Zero], not
    [StackOverflow]. *)
Lemma stack_overflow_not_exactly_when_needed :
  ~ (forall t,
       well_formed t ->
       (fails_with msg_StackOverflow t initial_globals <->
        (MAX_CALLSTACK_DEPTH < pending_operands t)%nat)).
Proof.
  intros H.
  pose (t := ast_op ast_add (ast_op ast_div (ast_num 1) (ast_num 0)) (nested_sum 32)).
  assert (Hwf : well_formed t) by (vm_compute; tauto).
  destruct (H t Hwf) as [_ Hback].
  destruct Hback as (g' & E & He); [vm_compute; lia|].
  vm_compute in E. inversion E; subst g'. vm_compute in He. discriminate.
Qed.

(** The line of that tree. *)
Lemma division_by_zero_before_overflow_line n :
  exists g',
    run_line (40 + n) (line ("1/0+(" +:+ nested_sum_text 32 +:+ ")")) initial_globals
      = Returns (FAILURE, g') /\
    stderr g' = msg_DivisionByZero.
Proof. eexists. split; [vm_compute; reflexivity|reflexivity]. Qed.

(** C4, amended.  For a well-formed tree evaluated from an empty stack the
    engine returns, unless a division overflows.  It reports
    [StackOverflow] only if the tree needs more than 32 pending operands;
    and unless the evaluation fails with a division by zero, it reports
    [StackOverflow] exactly when the tree needs more than 32 pending
    operands and succeeds when it needs at most 32.  A sum that needs
    exactly 32 evaluates, one that needs 33 overflows, as trees and as the
    lines [1+(1+(...))].  The capacity is a hard ceiling: the push of a
    [Num] onto a stack that holds 32 values fails with [StackOverflow] and
    leaves the stack as it was. *)
Theorem stack_overflow_bound t g :
  well_formed t -> stack_ok g -> callstack_is_empty g = true ->
  (execution_engine t g = Undefined division_overflow \/
   exists s g',
     execution_engine t g = Returns (s, g') /\
     (s = FAILURE /\ stderr g' = stderr g +:+ msg_StackOverflow ->
      (MAX_CALLSTACK_DEPTH < pending_operands t)%nat) /\
     (~ (s = FAILURE /\ stderr g' = stderr g +:+ msg_DivisionByZero) ->
      (s = FAILURE /\ stderr g' = stderr g +:+ msg_StackOverflow <->
       (MAX_CALLSTACK_DEPTH < pending_operands t)%nat) /\
      ((pending_operands t <= MAX_CALLSTACK_DEPTH)%nat -> s = SUCCESS))) /\
  (pending_operands (nested_sum 31) = 32%nat /\
   exists g',
     execution_engine (nested_sum 31) initial_globals = Returns (SUCCESS, g') /\
     stdout g' = green "32" +:+ "." +:+ str LF /\ stderr g' = "") /\
  (pending_operands (nested_sum 32) = 33%nat /\
   exists g',
     execution_engine (nested_sum 32) initial_globals = Returns (FAILURE, g') /\
     stdout g' = "" /\ stderr g' = msg_StackOverflow) /\
  (forall v g0,
     stack_ok g0 -> length (stack_view g0) = MAX_CALLSTACK_DEPTH ->
     execution_engine_process_ast_node (ast_num v) g0 =
       Returns (FAILURE, set_stderr (stderr g0 +:+ msg_StackOverflow) g0)) /\
  (forall n,
     exists g',
       run_line (40 + n) (line (nested_sum_text 31)) initial_globals
         = Returns (SUCCESS, g') /\
       stdout g' = green "32" +:+ "." +:+ str LF /\ stderr g' = "") /\
  (forall n,
     exists g',
       run_line (40 + n) (line (nested_sum_text 32)) initial_globals
         = Returns (FAILURE, g') /\
       stdout g' = "" /\ stderr g' = msg_StackOverflow).
Proof.
  intros Hwf Hok Hempty.
  apply Nat.eqb_eq in Hempty.
  destruct runtime_messages_distinct as (Dsd & _ & _ & Dso & Ddz & _).
  split; [|split; [|split; [|split; [|split]]]].
  5,6: intros n; eexists; (split; [vm_compute; reflexivity|split; reflexivity]).
  - destruct (execution_engine_spec t g Hwf Hok)
      as [U|(s & g' & E & Hok' & Ht' & R)]; [left; exact U|right].
    exists s, g'. split; [exact E|].
    destruct s.
    + destruct R as (Hp & He & _). rewrite Hempty in Hp.
      split; [intros [? _]; discriminate|].
      intros _. split; [|reflexivity].
      split; [intros [? _]; discriminate|lia].
    + destruct R as (_ & [[He Hp]|He]).
      * rewrite Hempty in Hp.
        split; [intros _; exact Hp|].
        intros _. split; [tauto|lia].
      * assert (Hnso : ~ (FAILURE = FAILURE /\ stderr g' = stderr g +:+ msg_StackOverflow)).
        { intros [_ He']. rewrite He in He'.
          apply append_same_prefix in He'. congruence. }
        split; [tauto|]. intros Hn. exfalso. apply Hn. auto.
  - split; [reflexivity|]. eexists. split; [vm_compute; reflexivity|].
    split; reflexivity.
  - split; [reflexivity|]. eexists. split; [vm_compute; reflexivity|].
    split; reflexivity.
  - intros v g0 Hok0 Hfull. simpl.
    rewrite (stack_view_length g0 Hok0) in Hfull.
    unfold callstack_is_full.
    assert (E0 : callstack_top g0 = O) by (unfold MAX_CALLSTACK_DEPTH in Hfull; lia).
    rewrite E0. reflexivity.
Qed.

Lemma stack_overflow_bound_witness :
  well_formed (nested_sum 40) /\ stack_ok initial_globals /\
  callstack_is_empty initial_globals = true /\
  exists s g',
    execution_engine (nested_sum 40) initial_globals = Returns (s, g') /\
    (s = FAILURE /\ stderr g' = stderr initial_globals +:+ msg_StackOverflow ->
     (MAX_CALLSTACK_DEPTH < pending_operands (nested_sum 40))%nat).
Proof.
  assert (Hwf : well_formed (nested_sum 40)) by (simpl; tauto).
  assert (Hok : stack_ok initial_globals) by (split; [reflexivity|apply le_n]).
  split; [exact Hwf|]. split; [exact Hok|]. split; [reflexivity|].
  destruct (stack_overflow_bound (nested_sum 40) initial_globals Hwf Hok eq_refl)
    as ([U|(s & g' & E & H1 & _)] & _).
  - vm_compute in U. discriminate U.
  - exists s, g'. split; [exact E|exact H1].
Defined.

(** C7.  StackUnderflow is checked but unreachable.  After a successful
    traversal of a tree that is not NULL, [execution_engine] checks the
    stack: in whatever state the traversal has left, if the stack is empty
    the engine fails with [RuntimeError: StackUnderflow] on [stderr] and
    prints no result, and otherwise it pops the top of the stack, prints it
    and clears the stack.  For a well-formed tree evaluated from an empty
    stack the traversal never reads outside the stack (a pop from the
    empty stack is such a read); when it succeeds exactly one value is on
    the stack, so the check passes and the engine prints that value, and
    whatever the engine reports it is never [StackUnderflow]. *)
Theorem stack_underflow_unreachable t g :
  well_formed t -> stack_ok g -> callstack_is_empty g = true ->
  (forall g1,
     callstack_is_empty g1 = true ->
     execution_engine_finish SUCCESS g1 =
       Returns (FAILURE, set_stderr (stderr g1 +:+ msg_StackUnderflow) g1)) /\
  (forall g1,
     stack_ok g1 -> stack_view g1 = [] -> callstack_pop g1 = Undefined out_of_bounds) /\
  execution_engine_process_ast_node t g <> Undefined out_of_bounds /\
  (forall g1,
     execution_engine_process_ast_node t g = Returns (SUCCESS, g1) ->
     (exists v, stack_view g1 = [v]) /\ callstack_is_empty g1 = false) /\
  execution_engine t g <> Undefined out_of_bounds /\
  (forall s g',
     execution_engine t g = Returns (s, g') ->
     stderr g' <> stderr g +:+ msg_StackUnderflow) /\
  (forall t0 g0 g1,
     t0 <> NULL ->
     execution_engine_process_ast_node t0 g0 = Returns (SUCCESS, g1) ->
     execution_engine t0 g0 =
       if callstack_is_empty g1
       then Returns (FAILURE, set_stderr (stderr g1 +:+ msg_StackUnderflow) g1)
       else (v <- callstack_pop ;;
             print (green (print_int v) +:+ "." +:+ str LF) ;;;
             callstack_clear ;;;
             ret SUCCESS) g1) /\
  (forall g1,
     execution_engine_process_ast_node t g = Returns (SUCCESS, g1) ->
     exists v g',
       stack_view g1 = [v] /\
       execution_engine t g = Returns (SUCCESS, g') /\
       stdout g' = stdout g +:+ (green (print_int v) +:+ "." +:+ str LF) /\
       stderr g' = stderr g /\
       callstack_is_empty g' = true).
Proof.
  intros Hwf Hok Hempty.
  apply Nat.eqb_eq in Hempty as Htop.
  assert (Hv : stack_view g = []).
  { unfold stack_view. apply drop_ge. destruct Hok as [L _]. lia. }
  destruct runtime_messages_distinct as (_ & Dsu & Ddu & _ & _ & Du).
  assert (Hcheck : forall t0 g0 g1,
     t0 <> NULL ->
     execution_engine_process_ast_node t0 g0 = Returns (SUCCESS, g1) ->
     execution_engine t0 g0 =
       if callstack_is_empty g1
       then Returns (FAILURE, set_stderr (stderr g1 +:+ msg_StackUnderflow) g1)
       else (v <- callstack_pop ;;
             print (green (print_int v) +:+ "." +:+ str LF) ;;;
             callstack_clear ;;;
             ret SUCCESS) g1).
  { intros t0 g0 g1 Hne E. rewrite (execution_engine_unfold t0 Hne).
    unfold bind at 1. rewrite E. cbn [execution_engine_finish].
    destruct (callstack_is_empty g1); reflexivity. }
  assert (Hprints : forall g1,
     execution_engine_process_ast_node t g = Returns (SUCCESS, g1) ->
     exists v g',
       stack_view g1 = [v] /\
       execution_engine t g = Returns (SUCCESS, g') /\
       stdout g' = stdout g +:+ (green (print_int v) +:+ "." +:+ str LF) /\
       stderr g' = stderr g /\
       callstack_is_empty g' = true).
  { intros g1 E.
    assert (Hne : t <> NULL) by (destruct t; [destruct Hwf|discriminate..]).
    destruct (process_ast_node_spec t Hwf g Hok)
      as [U|(s1 & g1' & E' & Hok1 & Ho1 & R)]; [congruence|].
    rewrite E in E'. inversion E'; subst s1 g1'.
    destruct R as (_ & He1 & v & Hv1).
    pose proof (pushed_top g g1 v Hok Hok1 Hv1) as Ht.
    rewrite Hv in Hv1.
    destruct (callstack_pop_spec v [] g1 Hok1 Hv1)
      as (g2 & Epop & _ & _ & _ & Ho2 & He2).
    exists v. eexists. split; [exact Hv1|].
    rewrite (Hcheck t g g1 Hne E).
    replace (callstack_is_empty g1) with false
      by (symmetry; unfold callstack_is_empty; apply Nat.eqb_neq; lia).
    unfold bind at 1. rewrite Epop.
    unfold bind, print, callstack_clear, ret.
    split; [reflexivity|]. cbn.
    rewrite Ho2, He2, Ho1, He1. repeat split; reflexivity. }
  split; [|split; [|split; [|split; [|split; [|split; [|split;
    [exact Hcheck|exact Hprints]]]]]]].
  - intros g1 H1. simpl. rewrite H1. reflexivity.
  - apply callstack_pop_empty.
  - destruct (process_ast_node_spec t Hwf g Hok) as [U|(s & g1 & E & _)];
      [rewrite U|rewrite E]; discriminate.
  - intros g1 E.
    destruct (process_ast_node_spec t Hwf g Hok)
      as [U|(s & g1' & E' & Hok1 & _ & R)]; [congruence|].
    rewrite E in E'. inversion E'; subst s g1'.
    destruct R as (_ & _ & v & Hv1).
    pose proof (pushed_top g g1 v Hok Hok1 Hv1) as Ht.
    split; [exists v; rewrite Hv1, Hv; reflexivity|].
    unfold callstack_is_empty. apply Nat.eqb_neq. lia.
  - destruct (execution_engine_spec t g Hwf Hok) as [U|(s & g1 & E & _)];
      [rewrite U|rewrite E]; discriminate.
  - intros s g' E.
    destruct (execution_engine_spec t g Hwf Hok)
      as [U|(s' & g1 & E' & _ & _ & R)]; [congruence|].
    rewrite E in E'. inversion E'; subst s' g1.
    destruct s.
    + destruct R as (_ & He & _). rewrite He. apply append_not_self. exact Du.
    + destruct R as (_ & [[He _]|He]); rewrite He; intros H;
        apply append_same_prefix in H; congruence.
Qed.

Lemma stack_underflow_unreachable_witness :
  well_formed (ast_op ast_sub (ast_num 10) (ast_num 2)) /\
  stack_ok initial_globals /\ callstack_is_empty initial_globals = true /\
  exists g',
    execution_engine (ast_op ast_sub (ast_num 10) (ast_num 2)) initial_globals
      = Returns (SUCCESS, g') /\
    stdout g' = green "8" +:+ "." +:+ str LF /\
    stderr g' <> stderr initial_globals +:+ msg_StackUnderflow.
Proof.
  assert (Hwf : well_formed (ast_op ast_sub (ast_num 10) (ast_num 2))) by (simpl; tauto).
  assert (Hok : stack_ok initial_globals) by (split; [reflexivity|apply le_n]).
  split; [exact Hwf|]. split; [exact Hok|]. split; [reflexivity|].
  destruct (stack_underflow_unreachable _ initial_globals Hwf Hok eq_refl)
    as (_ & _ & _ & _ & _ & Hnever & _ & Hprints).
  destruct (Hprints _ eq_refl) as (v & g' & Hv & E & Ho & _).
  exists g'. split; [exact E|]. split.
  - rewrite Ho. vm_compute in Hv. inversion Hv. reflexivity.
  - exact (Hnever _ _ E).
Defined.

(** ** Claims about the parser *)

(** C1.  Operator precedence.  The line [2 + 3 * 4] evaluates to 14 and
    [(2 + 3) * 4] to 20.  In general [*] and [/] bind tighter than [+] and
    [-]: [a lo b hi c] parses as [lo(a, hi(b, c))] and [a hi b lo c] as
    [lo(hi(a, b), c)]; brackets override this: [(a lo b) hi c] parses as
    [hi(lo(a, b), c)]. *)
Theorem operator_precedence lo hi a b c :
  additive lo -> multiplicative hi ->
  prints "2 + 3 * 4" "14" /\
  prints "(2 + 3) * 4" "20" /\
  parses_to 8
    [number a; symbol (operator_token lo); number b; symbol (operator_token hi);
     number c; symbol token_end_of_expression]
    (ast_op lo (leaf a) (ast_op hi (leaf b) (leaf c))) /\
  parses_to 8
    [number a; symbol (operator_token hi); number b; symbol (operator_token lo);
     number c; symbol token_end_of_expression]
    (ast_op lo (ast_op hi (leaf a) (leaf b)) (leaf c)) /\
  parses_to 8
    [symbol token_bracket_open; number a; symbol (operator_token lo); number b;
     symbol token_bracket_close; symbol (operator_token hi);
     number c; symbol token_end_of_expression]
    (ast_op hi (ast_op lo (leaf a) (leaf b)) (leaf c)).
Proof.
  intros Hlo Hhi.
  split; [intros n; eexists; split; [vm_compute; reflexivity|split; reflexivity]|].
  split; [intros n; eexists; split; [vm_compute; reflexivity|split; reflexivity]|].
  destruct Hlo as [-> | ->], Hhi as [-> | ->];
    (split; [|split]); intros n g; eexists;
    (split; [lazy -[str_to_int]; reflexivity|]); simpl; auto.
Qed.

Lemma operator_precedence_witness :
  additive ast_sub /\ multiplicative ast_div /\
  prints "2 + 3 * 4" "14" /\
  parses_to 8
    [number "9"; symbol token_minus; number "8"; symbol token_divide;
     number "4"; symbol token_end_of_expression]
    (ast_op ast_sub (ast_num 9) (ast_op ast_div (ast_num 8) (ast_num 4))).
Proof.
  assert (Hlo : additive ast_sub) by (right; reflexivity).
  assert (Hhi : multiplicative ast_div) by (right; reflexivity).
  split; [exact Hlo|]. split; [exact Hhi|].
  destruct (operator_precedence ast_sub ast_div "9" "8" "4" Hlo Hhi)
    as (H14 & _ & Hp & _).
  split; [exact H14|exact Hp].
Defined.

(** Iterative folding: the loop folds the running tree and each operand
    it meets into a new internal node, the running tree on the left. *)
Lemma fold_operators_chain operator node_type operand g ts g' :
  operand_chain operator operand g ts g' ->
  forall fuel tree,
    (length ts <= fuel)%nat ->
    fold_operators operator node_type operand fuel SUCCESS tree g =
      Returns ((SUCCESS, fold_left (ast_op node_type) ts tree), g').
Proof.
  induction 1 as [g Hno | g tok g1 t g2 ts g3 Hop Hnext Hoperand _ IH];
    intros fuel tree Hfuel.
  - destruct fuel; cbn [fold_operators]; unfold bind; rewrite Hno; reflexivity.
  - destruct fuel as [|fuel]; [simpl in Hfuel; lia|].
    cbn [fold_operators]. unfold bind at 1. rewrite Hop.
    cbn [andb status_eqb]. unfold bind at 1. rewrite Hnext.
    unfold bind at 1. rewrite Hoperand.
    apply IH. simpl in Hfuel. lia.
Qed.

Lemma left_associative_chain operator node_type operand fuel slot g t0 g1 ts g' :
  operand slot g = Returns ((SUCCESS, t0), g1) ->
  operand_chain operator operand g1 ts g' ->
  (length ts <= fuel)%nat ->
  left_associative operator node_type operand fuel slot g =
    Returns ((SUCCESS, fold_left (ast_op node_type) ts t0), g').
Proof.
  intros H0 Hchain Hfuel. unfold left_associative, bind. rewrite H0.
  apply fold_operators_chain; assumption.
Qed.

(** C2.  Left-associativity.  Whatever three operands [ta], [tb], [tc] the
    next level of the grammar parses around two [-] tokens, the routine for
    subtraction builds [(ta - tb) - tc], which is not [ta - (tb - tc)]; the
    routine for division does the same around two [/] tokens.  For number
    operands with any lexemes [a], [b], [c] the whole stream [a - b - c]
    parses as [(a - b) - c] and [a / b / c] as [(a / b) / c].  The line
    [10 - 2 - 3] evaluates to 5 and [100 / 10 / 2] to 5. *)
Theorem left_associativity (fuel : nat) (slot : ast_t) (g : globals)
  (ta tb tc : ast_t) (g1 g' : globals) :
  (2 <= fuel)%nat ->
  (parser_parse_mul_expression fuel slot g = Returns ((SUCCESS, ta), g1) ->
   operand_chain token_minus (parser_parse_mul_expression fuel) g1 [tb; tc] g' ->
   parser_parse_sub_expression fuel slot g =
     Returns ((SUCCESS, ast_op ast_sub (ast_op ast_sub ta tb) tc), g')) /\
  (parser_parse_unit_expression fuel slot g = Returns ((SUCCESS, ta), g1) ->
   operand_chain token_divide (parser_parse_unit_expression fuel) g1 [tb; tc] g' ->
   parser_parse_div_expression fuel slot g =
     Returns ((SUCCESS, ast_op ast_div (ast_op ast_div ta tb) tc), g')) /\
  ast_op ast_sub (ast_op ast_sub ta tb) tc <> ast_op ast_sub ta (ast_op ast_sub tb tc) /\
  (forall a b c,
     parses_to 8
       [number a; symbol token_minus; number b; symbol token_minus; number c;
        symbol token_end_of_expression]
       (ast_op ast_sub (ast_op ast_sub (leaf a) (leaf b)) (leaf c)) /\
     parses_to 8
       [number a; symbol token_divide; number b; symbol token_divide; number c;
        symbol token_end_of_expression]
       (ast_op ast_div (ast_op ast_div (leaf a) (leaf b)) (leaf c))) /\
  prints "10 - 2 - 3" "5" /\
  prints "100 / 10 / 2" "5".
Proof.
  intros Hfuel.
  split; [intros H0 Hchain;
          exact (left_associative_chain token_minus ast_sub _ fuel slot g ta g1
                   [tb; tc] g' H0 Hchain Hfuel)|].
  split; [intros H0 Hchain;
          exact (left_associative_chain token_divide ast_div _ fuel slot g ta g1
                   [tb; tc] g' H0 Hchain Hfuel)|].
  split.
  { intros H. injection H as H1 H2. clear H2.
    assert (Hsize : forall t, ast_op ast_sub t tb <> t).
    { intros t. induction t as [| |o c0 IH0 c1 IH1]; try discriminate.
      intros E. injection E as Eo E0 E1. subst o c1. exact (IH0 E0). }
    exact (Hsize ta H1). }
  split.
  { intros a b c.
    split; intros n g0; eexists;
      (split; [lazy -[str_to_int]; reflexivity|simpl; auto]). }
  split; intros n; eexists; (split; [vm_compute; reflexivity|split; reflexivity]).
Qed.

Lemma left_associativity_witness :
  let g := set_cursor [symbol token_minus; number "2"; symbol token_minus; number "3";
                       symbol token_end_of_expression]
                      (Some (number "10")) initial_globals in
  (2 <= 2)%nat /\
  exists g',
    parser_parse_sub_expression 2 NULL g =
      Returns ((SUCCESS,
                ast_op ast_sub (ast_op ast_sub (ast_num 10) (ast_num 2)) (ast_num 3)), g').
Proof.
  intros g. split; [apply le_n|].
  eexists.
  refine (proj1 (left_associativity 2 NULL g (ast_num 10) (ast_num 2) (ast_num 3)
                   _ _ (le_n 2)) _ _).
  - reflexivity.
  - eapply chain_step; [reflexivity|reflexivity|reflexivity|].
    eapply chain_step; [reflexivity|reflexivity|reflexivity|].
    apply chain_end. reflexivity.
Defined.

(** C9.  Empty-stream no-op.  If the first token of the stream is
    [EndOfFile] the parse returns success whatever follows and whatever
    fuel it has, builds nothing (the slot stays NULL) and reports nothing;
    the engine, invoked on the NULL tree, prints nothing and succeeds.  So
    does the whole turn of the driver on a line that is the end-of-file
    byte. *)
Theorem empty_stream_is_a_no_op fuel l rest g :
  (exists g',
     parse_token_stream_into_ast fuel (Token token_end_of_file l :: rest) NULL g
       = Returns ((SUCCESS, NULL), g') /\
     stdout g' = stdout g /\ stderr g' = stderr g) /\
  (exists g',
     execution_engine NULL g = Returns (SUCCESS, g') /\
     stdout g' = stdout g /\ stderr g' = stderr g) /\
  (exists g',
     run_line fuel (str EOF) initial_globals = Returns (SUCCESS, g') /\
     stdout g' = "" /\ stderr g' = "").
Proof.
  split; [|split].
  - eexists. split; [reflexivity|]. split; reflexivity.
  - eexists. split; [reflexivity|]. split; reflexivity.
  - eexists. split; [vm_compute; reflexivity|]. split; reflexivity.
Qed.

(** ** Conversion of a lexeme *)

Lemma isdigit_range c :
  isdigit c = true -> (48 <= nat_of_ascii c <= 57)%nat.
Proof.
  unfold isdigit. intros H. apply andb_true_iff in H as [H1 H2].
  apply Nat.leb_le in H1, H2. lia.
Qed.

Lemma isdigit_plain c :
  isdigit c = true ->
  isspace c = false /\ Ascii.eqb c "-" = false /\ Ascii.eqb c "+" = false /\
  Ascii.eqb c NUL = false /\ single_character_token c = None.
Proof.
  destruct c as [[] [] [] [] [] [] [] []]; vm_compute; intros H;
    try discriminate H; repeat split.
Qed.

Lemma strtol_digits_spec s acc :
  strtol_digits s acc =
  acc * 10 ^ Z.of_nat (String.length (digit_prefix s)) + decimal_value (digit_prefix s).
Proof.
  revert acc. induction s as [|c s IH]; intros acc; simpl.
  - lia.
  - destruct (isdigit c); simpl.
    + rewrite IH. rewrite Nat2Z.inj_succ, Z.pow_succ_r by lia. ring.
    + lia.
Qed.

Lemma decimal_value_nonneg s : 0 <= decimal_value (digit_prefix s).
Proof.
  induction s as [|c s IH]; simpl; [lia|].
  destruct (isdigit c) eqn:E; simpl; [|lia].
  apply isdigit_range in E.
  assert (0 <= 10 ^ Z.of_nat (String.length (digit_prefix s))) by (apply Z.pow_nonneg; lia).
  nia.
Qed.

Lemma strtol_leading_digit s :
  digit_prefix s <> "" ->
  strtol s = Z.min LONG_MAX (decimal_value (digit_prefix s)).
Proof.
  destruct s as [|c s]; simpl; [congruence|].
  destruct (isdigit c) eqn:E; [|congruence]. intros _.
  destruct (isdigit_plain c E) as (-> & -> & -> & _).
  pose proof (strtol_digits_spec (String c s) 0) as H. simpl in H.
  rewrite E in H. simpl in H. rewrite H. reflexivity.
Qed.

(** ** The tokenizer *)

Lemma string_from_app s t : string_from (String.length s) (s +:+ t) = t.
Proof. induction s as [|c s IH]; [reflexivity|]. simpl. exact IH. Qed.

Lemma get_length_app s c t : String.get (String.length s) (s +:+ String c t) = Some c.
Proof. induction s as [|a s IH]; [reflexivity|]. simpl. exact IH. Qed.

Lemma scan_number_digits ds c rest i lexeme_length :
  all_digits ds = true -> isdigit c = false ->
  scan_number (ds +:+ String c rest) i lexeme_length =
    Returns (S (i + String.length ds), lexeme_length + String.length ds)%nat.
Proof.
  revert i lexeme_length.
  induction ds as [|d ds IH]; intros i n Hds Hc.
  - rewrite append_nil_l. simpl. rewrite Hc. do 2 f_equal; [f_equal|]; lia.
  - simpl in Hds. apply andb_true_iff in Hds as [Hd Hds].
    rewrite append_cons. simpl. rewrite Hd.
    rewrite (IH (S i) (S n) Hds Hc). do 2 f_equal; [f_equal|]; lia.
Qed.

Lemma strndup_digits ds rest :
  all_digits ds = true ->
  strndup (ds +:+ rest) (String.length ds) = Returns ds.
Proof.
  induction ds as [|d ds IH]; intros Hds; [reflexivity|].
  simpl in Hds. apply andb_true_iff in Hds as [Hd Hds].
  rewrite append_cons. simpl.
  destruct (isdigit_plain d Hd) as (_ & _ & _ & -> & _).
  rewrite (IH Hds). reflexivity.
Qed.

(** One iteration of the loop of the tokenizer, case by case. *)

Lemma tokenize_loop_done fuel i lexeme_length list g :
  (source_file_line_occupied_size g <= i)%nat ->
  tokenize_loop fuel i lexeme_length list g = Returns ((SUCCESS, list), g).
Proof.
  intros H. apply Nat.leb_le in H.
  destruct fuel; cbn [tokenize_loop]; rewrite H; reflexivity.
Qed.

Lemma tokenize_loop_space fuel i lexeme_length list g c :
  (i < source_file_line_occupied_size g)%nat ->
  String.get i (source_file_line g) = Some c ->
  isspace c && negb (Ascii.eqb c LF) = true ->
  tokenize_loop (S fuel) i lexeme_length list g =
  tokenize_loop fuel (S i) lexeme_length list g.
Proof.
  intros Hi Hc Hsp. apply Nat.leb_gt in Hi.
  cbn [tokenize_loop]. rewrite Hi. unfold bind, line_at. rewrite Hc, Hsp.
  reflexivity.
Qed.

Lemma tokenize_loop_symbol fuel i lexeme_length list g c t :
  (i < source_file_line_occupied_size g)%nat ->
  String.get i (source_file_line g) = Some c ->
  isspace c && negb (Ascii.eqb c LF) = false ->
  single_character_token c = Some t ->
  tokenize_loop (S fuel) i lexeme_length list g =
  tokenize_loop fuel (S i) lexeme_length (list ++ [symbol t]) g.
Proof.
  intros Hi Hc Hsp Ht. apply Nat.leb_gt in Hi.
  cbn [tokenize_loop]. rewrite Hi. unfold bind, line_at. rewrite Hc, Hsp, Ht.
  reflexivity.
Qed.

Lemma tokenize_loop_number fuel i lexeme_length list g c i' lexeme_length' l :
  (i < source_file_line_occupied_size g)%nat ->
  String.get i (source_file_line g) = Some c ->
  isdigit c = true ->
  scan_number (string_from (S i) (source_file_line g)) i lexeme_length
    = Returns (i', lexeme_length') ->
  strndup (string_from i (source_file_line g)) lexeme_length' = Returns l ->
  tokenize_loop (S fuel) i lexeme_length list g =
  tokenize_loop fuel i' lexeme_length' (list ++ [number l]) g.
Proof.
  intros Hi Hc Hd Hscan Hdup. apply Nat.leb_gt in Hi.
  destruct (isdigit_plain c Hd) as (Hsp & _ & _ & _ & Hsingle).
  cbn [tokenize_loop]. rewrite Hi. unfold bind, line_at.
  rewrite Hc, Hsp, Hsingle, Hd. cbn [andb negb]. rewrite Hscan, Hdup.
  reflexivity.
Qed.

Lemma tokenize_loop_unexpected fuel i lexeme_length list g c :
  (i < source_file_line_occupied_size g)%nat ->
  String.get i (source_file_line g) = Some c ->
  isspace c = false ->
  single_character_token c = None ->
  isdigit c = false ->
  tokenize_loop (S fuel) i lexeme_length list g =
  bind (report_unexpected_character i c) (fun _ => ret (FAILURE, list)) g.
Proof.
  intros Hi Hc Hsp Hsingle Hd. apply Nat.leb_gt in Hi.
  cbn [tokenize_loop]. rewrite Hi. unfold bind at 1. unfold line_at.
  rewrite Hc, Hsp, Hsingle, Hd. reflexivity.
Qed.

(** A run of digits alone on its line is captured exactly, as one number
    token, followed by the end of the expression. *)
Lemma tokenize_digits_alone d ds tail list g :
  all_digits (String d ds) = true ->
  source_file_line g = String d ds +:+ str LF +:+ tail ->
  source_file_line_occupied_size g = S (S (String.length ds)) ->
  tokenize_source_line_and_add_to_list list g =
    Returns ((SUCCESS, list ++ [number (String d ds); symbol token_end_of_expression]), g).
Proof.
  intros Hall Hbuf Hsize.
  pose proof Hall as Hall'. simpl in Hall'. apply andb_true_iff in Hall' as [Hd Hds].
  unfold tokenize_source_line_and_add_to_list. rewrite Hsize.
  rewrite (tokenize_loop_number _ 0 1 list g d
             (S (String.length ds)) (S (String.length ds)) (String d ds)).
  - rewrite (tokenize_loop_symbol _ _ _ _ g LF token_end_of_expression).
    + rewrite tokenize_loop_done by lia.
      rewrite <- app_assoc. reflexivity.
    + lia.
    + rewrite Hbuf. apply (get_length_app (String d ds) LF tail).
    + reflexivity.
    + reflexivity.
  - lia.
  - rewrite Hbuf. reflexivity.
  - exact Hd.
  - rewrite Hbuf. change (str LF +:+ tail) with (String LF tail).
    rewrite append_cons. cbn [string_from].
    rewrite (scan_number_digits ds LF tail 0 1 Hds eq_refl).
    reflexivity.
  - rewrite Hbuf. cbn [string_from].
    apply (strndup_digits (String d ds) (str LF +:+ tail) Hall).
Qed.

Lemma strndup_digits_more ds rest k :
  all_digits ds = true ->
  strndup (ds +:+ rest) (String.length ds + k) =
    match strndup rest k with
    | Returns r => Returns (ds +:+ r)
    | Undefined f => Undefined f
    | Out_of_fuel => Out_of_fuel
    end.
Proof.
  induction ds as [|d ds IH]; intros Hds.
  - rewrite append_nil_l. simpl. destruct (strndup rest k); reflexivity.
  - simpl in Hds. apply andb_true_iff in Hds as [Hd Hds].
    rewrite append_cons. simpl.
    destruct (isdigit_plain d Hd) as (_ & _ & _ & -> & _).
    rewrite (IH Hds). destruct (strndup rest k); reflexivity.
Qed.

Lemma get_app_skip s t n : String.get (String.length s + n) (s +:+ t) = String.get n t.
Proof. induction s as [|a s IH]; [reflexivity|]. simpl. exact IH. Qed.

Lemma string_from_app_skip s t n :
  string_from (String.length s + n) (s +:+ t) = string_from n t.
Proof. induction s as [|a s IH]; [reflexivity|]. simpl. exact IH. Qed.

(** C5 fails on the code.  [lexeme_length] is set to 1 once, before the
    loop, and never again, so the length left by one number is the start
    for the next.  On a line that holds a number of two digits, a space
    and a second number, the lexeme captured for the second number is its
    digits followed by the newline character: one character more than the
    run of digits.  The line [12 3] is the least such line. *)
Theorem later_number_lexeme_overruns d1 d2 d ds tail list g :
  isdigit d1 = true -> isdigit d2 = true -> all_digits (String d ds) = true ->
  source_file_line g =
    String d1 (String d2 (String " " (String d ds +:+ String LF tail))) ->
  source_file_line_occupied_size g = (5 + String.length ds)%nat ->
  tokenize_source_line_and_add_to_list list g =
    Returns ((SUCCESS,
              list ++ [number (String d1 (String d2 ""));
                       number (String d ds +:+ str LF);
                       symbol token_end_of_expression]), g) /\
  String d ds +:+ str LF <> String d ds.
Proof.
  intros H1 H2 Hall Hbuf Hsize. split.
  2:{ intros H. apply (append_not_self (String d ds) (str LF)); [discriminate|].
      symmetry. exact H. }
  pose proof Hall as Hall'. simpl in Hall'. apply andb_true_iff in Hall' as [Hd Hds].
  unfold tokenize_source_line_and_add_to_list. rewrite Hsize.
  cbn [Nat.add].
  rewrite (tokenize_loop_number _ 0 1 list g d1 2 2 (String d1 (String d2 ""))).
  2: lia.
  2: rewrite Hbuf; reflexivity.
  2: exact H1.
  2:{ rewrite Hbuf. cbn [string_from scan_number]. rewrite H2. reflexivity. }
  2:{ rewrite Hbuf. cbn [string_from strndup].
      destruct (isdigit_plain d1 H1) as (_ & _ & _ & -> & _).
      destruct (isdigit_plain d2 H2) as (_ & _ & _ & -> & _).
      reflexivity. }
  rewrite (tokenize_loop_space _ 2 _ _ g " "%char).
  2: lia.
  2: rewrite Hbuf; reflexivity.
  2: reflexivity.
  rewrite (tokenize_loop_number _ 3 2 _ g d
             (4 + String.length ds) (2 + String.length ds)
             (String d ds +:+ str LF)).
  2: lia.
  2: rewrite Hbuf; reflexivity.
  2: exact Hd.
  2:{ rewrite Hbuf. cbn [string_from]. rewrite append_cons. cbn [string_from].
      rewrite (scan_number_digits ds LF tail 3 2 Hds eq_refl). reflexivity. }
  2:{ rewrite Hbuf. cbn [string_from].
      replace (2 + String.length ds)%nat
        with (String.length (String d ds) + 1)%nat by (simpl; lia).
      rewrite (strndup_digits_more (String d ds) (String LF tail) 1 Hall).
      reflexivity. }
  rewrite (tokenize_loop_symbol _ _ _ _ g LF token_end_of_expression).
  2: lia.
  2:{ rewrite Hbuf. cbn [Nat.add String.get].
      apply (get_length_app ds LF tail). }
  2: reflexivity.
  2: reflexivity.
  rewrite tokenize_loop_done by lia.
  rewrite <- !app_assoc. reflexivity.
Qed.

Lemma later_number_lexeme_overruns_witness :
  exists g,
    (store_line (line "12 3")) initial_globals = Returns (tt, g) /\
    tokenize_source_line_and_add_to_list [] g =
      Returns ((SUCCESS,
                [number "12"; number ("3" +:+ str LF);
                 symbol token_end_of_expression]), g) /\
    "3" +:+ str LF <> "3"%string.
Proof.
  eexists. split; [reflexivity|].
  apply (later_number_lexeme_overruns "1" "2" "3" ""
           (string_from 5 (source_file_line initial_globals)) []);
    reflexivity.
Defined.

(** The report on the line [1&12345678], where the character [&] at
    index 1 is the fault.  The snippet shows the one character before it
    and only four of the eight characters after it, [1234]; the marker
    line has a tilde for the character before, the caret, and five tildes
    after it.  The loop that prints the context after the fault stops one
    index before [snippet_end], the loop that prints the markers runs up to
    [snippet_end] included. *)
Theorem lex_error_snippet_is_one_short :
  exists g',
    run_line 0 (line "1&12345678") initial_globals = Returns (FAILURE, g') /\
    stdout g' = "" /\
    stderr g' =
      "Unexpected character." +:+ str LF +:+
      str TAB +:+ "1" +:+ red "&" +:+ "1234" +:+ str LF +:+
      str TAB +:+ "~" +:+ "^" +:+ "~~~~~" +:+ str LF.
Proof.
  eexists. split; [vm_compute; reflexivity|]. split; reflexivity.
Qed.

(** ** The report of an unexpected character *)

Lemma append_assoc (a b c : string) : (a +:+ b) +:+ c = a +:+ (b +:+ c).
Proof.
  induction a as [|x a IH]; [reflexivity|].
  rewrite !append_cons, IH. reflexivity.
Qed.

Lemma get_lt s j : (j < String.length s)%nat -> exists c, String.get j s = Some c.
Proof.
  revert j. induction s as [|a s IH]; intros j H; simpl in H; [lia|].
  destruct j as [|j]; simpl; [eauto|]. apply IH. lia.
Qed.

Lemma get_Some_lt s j c : String.get j s = Some c -> (j < String.length s)%nat.
Proof.
  revert j. induction s as [|a s IH]; intros j H; simpl in H; [discriminate|].
  destruct j as [|j]; simpl; [lia|]. apply IH in H. lia.
Qed.

Lemma substring_S_get s j n c :
  String.get j s = Some c ->
  substring j (S n) s = String c (substring (S j) n s).
Proof.
  revert j. induction s as [|a s IH]; intros j H; simpl in H; [discriminate|].
  destruct j as [|j].
  - inversion H; subst. reflexivity.
  - simpl. apply IH. exact H.
Qed.

Lemma length_substring s j n :
  (j + n <= String.length s)%nat -> String.length (substring j n s) = n.
Proof.
  revert j n. induction s as [|a s IH]; intros j n H; simpl in H.
  - assert (j = O) by lia. assert (n = O) by lia. subst. reflexivity.
  - destruct j as [|j]; simpl.
    + destruct n as [|n]; [reflexivity|]. simpl. f_equal. apply IH. lia.
    + apply IH. lia.
Qed.

Lemma get_string_from s n k : String.get k (string_from n s) = String.get (n + k) s.
Proof.
  revert s. induction n as [|n IH]; intros s; [reflexivity|].
  destruct s as [|a s]; simpl; [destruct k; reflexivity|]. apply IH.
Qed.

Lemma substring_zero s j : substring j 0 s = "".
Proof.
  revert j. induction s as [|a s IH]; intros j; destruct j; try reflexivity.
  simpl. apply IH.
Qed.

Lemma line_range_spec n j g :
  (j + n <= String.length (source_file_line g))%nat ->
  line_range j n g = Returns (substring j n (source_file_line g), g).
Proof.
  revert j. induction n as [|n IH]; intros j H.
  - simpl. unfold ret. rewrite substring_zero. reflexivity.
  - destruct (get_lt (source_file_line g) j ltac:(lia)) as [c Hc].
    cbn [line_range]. unfold bind, line_at. rewrite Hc.
    rewrite IH by lia. unfold ret. rewrite (substring_S_get _ _ _ _ Hc).
    reflexivity.
Qed.

Lemma marks_skip i a n s :
  (forall j, (a <= j < a + n)%nat -> j <> i) ->
  fold_right (fun j s => String (if (j =? i)%nat then "^" else "~")%char s) s (seq a n)
  = tildes n +:+ s.
Proof.
  revert a. induction n as [|n IH]; intros a H; [reflexivity|].
  simpl. assert (Hne : (a =? i)%nat = false) by (apply Nat.eqb_neq, H; lia).
  rewrite Hne, IH by (intros j Hj; apply H; lia). reflexivity.
Qed.

Lemma marker_line_spec snippet_start snippet_end i :
  (snippet_start <= i <= snippet_end)%nat ->
  marker_line snippet_start snippet_end i =
    tildes (i - snippet_start) +:+ "^" +:+ tildes (snippet_end - i).
Proof.
  intros H. unfold marker_line.
  replace (S snippet_end - snippet_start)%nat
    with ((i - snippet_start) + S (snippet_end - i))%nat by lia.
  rewrite seq_app, fold_right_app.
  replace (snippet_start + (i - snippet_start))%nat with i by lia.
  rewrite marks_skip by (intros j Hj; lia).
  simpl. rewrite Nat.eqb_refl.
  rewrite marks_skip by (intros j Hj; lia).
  rewrite append_nil_r. reflexivity.
Qed.

(** What [report_unexpected_character] prints: the five characters before
    the fault (fewer at the start of the line), the fault in red, at most
    four characters after it, and under them a tilde for each character
    before the fault, a caret, and, unless the fault is the last character
    of the line, one tilde more than there are characters after it. *)
Lemma report_unexpected_character_spec i c g :
  (i < source_file_line_occupied_size g)%nat ->
  (source_file_line_occupied_size g <= String.length (source_file_line g))%nat ->
  let size := source_file_line_occupied_size g in
  let before := substring (i - Nat.min i 5) (Nat.min i 5) (source_file_line g) in
  let after := substring (S i) (Nat.min 4 (size - 2 - i)) (source_file_line g) in
  let marks := Nat.min 5 (size - 1 - i) in
  exists g',
    report_unexpected_character i c g = Returns (tt, g') /\
    stdout g' = stdout g /\
    stderr g' = stderr g +:+ diagnostic before c after marks /\
    String.length before = Nat.min i 5 /\
    String.length after = Nat.min 4 (size - 2 - i) /\
    ((i < size - 1)%nat -> marks = S (String.length after)).
Proof.
  intros Hi Hsize size before after marks.
  assert (Lb : String.length before = Nat.min i 5)
    by (apply length_substring; lia).
  assert (La : String.length after = Nat.min 4 (size - 2 - i))
    by (apply length_substring; subst size; lia).
  unfold report_unexpected_character. fold size.
  set (snippet_start := if (5 <? i)%nat then (i - 5)%nat else O).
  set (snippet_end := if (i + 5 <? size - 1)%nat then (i + 5)%nat else (size - 1)%nat).
  assert (Es : snippet_start = (i - Nat.min i 5)%nat).
  { subst snippet_start. destruct (5 <? i)%nat eqn:E;
      [apply Nat.ltb_lt in E|apply Nat.ltb_ge in E]; lia. }
  assert (Ee : (snippet_end - S i = Nat.min 4 (size - 2 - i) /\
                snippet_end - i = Nat.min 5 (size - 1 - i) /\
                i <= snippet_end < size)%nat).
  { subst snippet_end. destruct (i + 5 <? size - 1)%nat eqn:E;
      [apply Nat.ltb_lt in E|apply Nat.ltb_ge in E]; lia. }
  destruct Ee as (Ea & Em & Er).
  unfold bind, eprint. cbn [source_file_line stderr set_stderr].
  rewrite line_range_spec by (cbn [source_file_line set_stderr]; lia).
  cbn [source_file_line stderr set_stderr].
  rewrite line_range_spec by (cbn [source_file_line set_stderr]; lia).
  cbn [source_file_line stderr set_stderr].
  eexists. split; [reflexivity|]. cbn [stdout stderr set_stderr].
  split; [reflexivity|]. split; [|split; [exact Lb|split; [exact La|]]].
  - rewrite marker_line_spec by lia.
    rewrite Es, Ea, Em.
    replace (i - (i - Nat.min i 5))%nat with (Nat.min i 5) by lia.
    fold before after marks. unfold diagnostic. rewrite Lb.
    rewrite !append_assoc. reflexivity.
  - intros Hlt. rewrite La. subst marks. lia.
Qed.

Lemma scan_number_spec rest i lexeme_length i' lexeme_length' :
  scan_number rest i lexeme_length = Returns (i', lexeme_length') ->
  (i < i')%nat /\
  lexeme_length' = (lexeme_length + (i' - S i))%nat /\
  (forall k, (k < i' - S i)%nat ->
             exists c, String.get k rest = Some c /\ isdigit c = true).
Proof.
  revert i lexeme_length.
  induction rest as [|a rest IH]; intros i n H; simpl in H; [discriminate|].
  destruct (isdigit a) eqn:Ea.
  - apply IH in H as (Hlt & Hlen & Hdig).
    split; [lia|]. split; [lia|].
    intros k Hk. destruct k as [|k]; simpl; [eauto|]. apply Hdig. lia.
  - inversion H; subst. split; [lia|]. split; [lia|]. intros k Hk. lia.
Qed.


Lemma strndup_fuel s n : strndup s n <> Out_of_fuel.
Proof.
  revert s. induction n as [|n IH]; intros s; simpl; [discriminate|].
  destruct s as [|c s]; [discriminate|].
  destruct (Ascii.eqb c NUL); [discriminate|].
  specialize (IH s). destruct (strndup s n); congruence.
Qed.





(** Every run of the loop that returns has either accepted every character
    from [i] on, or stopped at the first one that is not acceptable and
    reported it. *)
Lemma tokenize_loop_returns fuel :
  forall i lexeme_length list g s l g',
    tokenize_loop fuel i lexeme_length list g = Returns ((s, l), g') ->
    match s with
    | SUCCESS =>
        g' = g /\
        forall j c,
          (i <= j < source_file_line_occupied_size g)%nat ->
          String.get j (source_file_line g) = Some c -> acceptable c = true
    | FAILURE =>
        exists k c,
          (i <= k < source_file_line_occupied_size g)%nat /\
          String.get k (source_file_line g) = Some c /\
          acceptable c = false /\
          (forall j c',
             (i <= j < k)%nat ->
             String.get j (source_file_line g) = Some c' -> acceptable c' = true) /\
          report_unexpected_character k c g = Returns (tt, g')
    end.
Proof.
  induction fuel as [|fuel IH]; intros i n list g s l g' H.
  - cbn [tokenize_loop] in H.
    destruct (source_file_line_occupied_size g <=? i)%nat eqn:E; [|discriminate].
    apply Nat.leb_le in E. inversion H; subst. split; [reflexivity|]. intros; lia.
  - destruct (le_lt_dec (source_file_line_occupied_size g) i) as [Hle|Hlt].
    { rewrite tokenize_loop_done in H by lia. inversion H; subst.
      split; [reflexivity|]. intros; lia. }
    destruct (String.get i (source_file_line g)) as [c|] eqn:Hc.
    2:{ apply Nat.leb_gt in Hlt. cbn [tokenize_loop] in H. rewrite Hlt in H.
        unfold bind, line_at in H. rewrite Hc in H. discriminate. }
    assert (Hstep : forall i',
      (i < i')%nat ->
      (forall j c', (i <= j < i')%nat ->
                    String.get j (source_file_line g) = Some c' -> acceptable c' = true) ->
      forall n' list',
        tokenize_loop fuel i' n' list' g = Returns ((s, l), g') ->
        match s with
        | SUCCESS =>
            g' = g /\
            forall j c0,
              (i <= j < source_file_line_occupied_size g)%nat ->
              String.get j (source_file_line g) = Some c0 -> acceptable c0 = true
        | FAILURE =>
            exists k c0,
              (i <= k < source_file_line_occupied_size g)%nat /\
              String.get k (source_file_line g) = Some c0 /\
              acceptable c0 = false /\
              (forall j c',
                 (i <= j < k)%nat ->
                 String.get j (source_file_line g) = Some c' -> acceptable c' = true) /\
              report_unexpected_character k c0 g = Returns (tt, g')
        end).
    { intros i' Hlt' Hacc n' list' H'. apply IH in H'. destruct s.
      - destruct H' as [-> Hall]. split; [reflexivity|].
        intros j c0 Hj Hg. destruct (le_lt_dec i' j); [apply (Hall j); [lia|exact Hg]|].
        apply (Hacc j); [lia|exact Hg].
      - destruct H' as (k & c0 & Hk & Hg & Hbad & Hall & Hrep).
        exists k, c0. split; [lia|]. split; [exact Hg|]. split; [exact Hbad|].
        split; [|exact Hrep].
        intros j c' Hj Hg'. destruct (le_lt_dec i' j); [apply (Hall j); [lia|exact Hg']|].
        apply (Hacc j); [lia|exact Hg']. }
    assert (Hone : forall j c', (i <= j < S i)%nat ->
                     acceptable c = true ->
                     String.get j (source_file_line g) = Some c' -> acceptable c' = true).
    { intros j c' Hj Hacc Hg. assert (j = i) by lia. subst j. congruence. }
    destruct (isspace c && negb (Ascii.eqb c LF)) eqn:Hsp.
    { rewrite (tokenize_loop_space _ _ _ _ _ c Hlt Hc Hsp) in H.
      apply (Hstep (S i) ltac:(lia)) in H; [exact H|].
      intros j c' Hj. apply Hone; [exact Hj|].
      apply andb_true_iff in Hsp as [Hsp _]. unfold acceptable. rewrite Hsp. reflexivity. }
    destruct (single_character_token c) as [t|] eqn:Hsingle.
    { rewrite (tokenize_loop_symbol _ _ _ _ _ c t Hlt Hc Hsp Hsingle) in H.
      apply (Hstep (S i) ltac:(lia)) in H; [exact H|].
      intros j c' Hj. apply Hone; [exact Hj|].
      unfold acceptable. rewrite Hsingle. apply orb_true_r. }
    destruct (isdigit c) eqn:Hd.
    + destruct (scan_number (string_from (S i) (source_file_line g)) i n)
        as [[i' n']| |] eqn:Hscan.
      2,3: apply Nat.leb_gt in Hlt; cbn [tokenize_loop] in H; rewrite Hlt in H;
           unfold bind, line_at in H; rewrite Hc, Hsp, Hsingle, Hd in H;
           cbn [negb] in H; rewrite Hscan in H; discriminate.
      destruct (strndup (string_from i (source_file_line g)) n') as [lx| |] eqn:Hdup.
      2,3: apply Nat.leb_gt in Hlt; cbn [tokenize_loop] in H; rewrite Hlt in H;
           unfold bind, line_at in H; rewrite Hc, Hsp, Hsingle, Hd in H;
           cbn [negb] in H; rewrite Hscan, Hdup in H; discriminate.
      rewrite (tokenize_loop_number _ _ _ _ _ c i' n' lx Hlt Hc Hd Hscan Hdup) in H.
      apply scan_number_spec in Hscan as (Hlt' & _ & Hdig).
      apply (Hstep i' Hlt') in H; [exact H|].
      intros j c' Hj Hg. destruct (Nat.eq_dec j i) as [->|Hne].
      * assert (c' = c) by congruence. subst c'.
        unfold acceptable. rewrite Hd. rewrite orb_true_r. reflexivity.
      * destruct (Hdig (j - S i)%nat ltac:(lia)) as (d & Hgd & Hdd).
        rewrite get_string_from in Hgd.
        replace (S i + (j - S i))%nat with j in Hgd by lia.
        assert (c' = d) by congruence. subst c'.
        unfold acceptable. rewrite Hdd. rewrite orb_true_r. reflexivity.
    + assert (Hs : isspace c = false).
      { destruct (isspace c) eqn:E; [|reflexivity]. simpl in Hsp.
        apply negb_false_iff, Ascii.eqb_eq in Hsp. subst c. discriminate Hsingle. }
      rewrite (tokenize_loop_unexpected _ _ _ _ _ c Hlt Hc Hs Hsingle Hd) in H.
      unfold bind in H.
      destruct (report_unexpected_character i c g) as [[[] g1]| |] eqn:Hrep;
        try discriminate.
      unfold ret in H. inversion H; subst.
      exists i, c. split; [lia|]. split; [exact Hc|].
      split; [unfold acceptable; rewrite Hs, Hd, Hsingle; reflexivity|].
      split; [intros; lia|exact Hrep].
Qed.

(** C8 fails on the code.  Whenever the tokenizer returns, it has either
    accepted every character of the line or failed at the first character
    that is neither white space, a digit, an operator, a bracket, the
    newline nor the end-of-file byte, and reported it: the report shows the
    five characters before the fault (fewer at the start of the line), the
    fault in red, and under them one tilde per character before the fault
    and the caret.  But it shows at most four characters after the fault,
    not five, and unless the fault is the last character of the line the
    marker line has one tilde more after the caret than characters are
    shown after the fault. *)
Theorem lex_error_report list g s l g' :
  (source_file_line_occupied_size g <= String.length (source_file_line g))%nat ->
  tokenize_source_line_and_add_to_list list g = Returns ((s, l), g') ->
  match s with
  | SUCCESS =>
      forall j c,
        (j < source_file_line_occupied_size g)%nat ->
        String.get j (source_file_line g) = Some c -> acceptable c = true
  | FAILURE =>
      exists i c,
        (i < source_file_line_occupied_size g)%nat /\
        String.get i (source_file_line g) = Some c /\
        acceptable c = false /\
        (forall j c',
           (j < i)%nat ->
           String.get j (source_file_line g) = Some c' -> acceptable c' = true) /\
        let size := source_file_line_occupied_size g in
        let before := substring (i - Nat.min i 5) (Nat.min i 5) (source_file_line g) in
        let after := substring (S i) (Nat.min 4 (size - 2 - i)) (source_file_line g) in
        let marks := Nat.min 5 (size - 1 - i) in
        stdout g' = stdout g /\
        stderr g' = stderr g +:+ diagnostic before c after marks /\
        String.length before = Nat.min i 5 /\
        String.length after = Nat.min 4 (size - 2 - i) /\
        ((i < size - 1)%nat -> marks = S (String.length after))
  end.
Proof.
  intros Hsize H. unfold tokenize_source_line_and_add_to_list in H.
  apply tokenize_loop_returns in H. destruct s.
  - destruct H as [_ Hall]. intros j c Hj. apply Hall. lia.
  - destruct H as (i & c & Hi & Hc & Hbad & Hall & Hrep).
    exists i, c. split; [lia|]. split; [exact Hc|]. split; [exact Hbad|].
    split; [intros j c' Hj; apply Hall; lia|].
    destruct (report_unexpected_character_spec i c g ltac:(lia) Hsize)
      as (g1 & E1 & Ho & He & Lb & La & Hm).
    rewrite Hrep in E1. inversion E1; subst g1.
    cbv zeta. auto 10.
Qed.

Lemma lex_error_report_witness :
  exists g g',
    store_line (line "1&12345678") initial_globals = Returns (tt, g) /\
    (source_file_line_occupied_size g <= String.length (source_file_line g))%nat /\
    tokenize_source_line_and_add_to_list [] g = Returns ((FAILURE, [number "1"]), g') /\
    stderr g' = diagnostic "1" "&" "1234" 5 /\
    exists i c,
      String.get i (source_file_line g) = Some c /\
      acceptable c = false /\
      let after :=
        substring (S i) (Nat.min 4 (source_file_line_occupied_size g - 2 - i))
                  (source_file_line g) in
      ((i < source_file_line_occupied_size g - 1)%nat ->
       Nat.min 5 (source_file_line_occupied_size g - 1 - i) = S (String.length after)).
Proof.
  eexists. eexists.
  split; [reflexivity|].
  assert (Hsize : (11 <= 1024)%nat) by (apply Nat.leb_le; reflexivity).
  split; [exact Hsize|].
  split; [vm_compute; reflexivity|].
  split; [reflexivity|].
  match goal with
  | |- context [String.get _ (source_file_line ?g0)] =>
      destruct (lex_error_report [] g0 FAILURE [number "1"] _ Hsize
                  ltac:(vm_compute; reflexivity))
        as (i & c & _ & Hc & Hbad & _ & _ & _ & _ & _ & Hm)
  end.
  exists i, c. split; [exact Hc|]. split; [exact Hbad|]. exact Hm.
Defined.

(** ** The lexemes that the tokenizer captures *)

Lemma scan_number_stop rest i lexeme_length i' lexeme_length' :
  scan_number rest i lexeme_length = Returns (i', lexeme_length') ->
  String.length (digit_prefix rest) = (i' - S i)%nat.
Proof.
  revert i lexeme_length.
  induction rest as [|a rest IH]; intros i n H; simpl in H; [discriminate|].
  simpl. destruct (isdigit a) eqn:Ea.
  - pose proof (scan_number_spec _ _ _ _ _ H) as (Hlt & _).
    apply IH in H. simpl. lia.
  - inversion H; subst. simpl. lia.
Qed.

Lemma strndup_digit_prefix s n l :
  strndup s n = Returns l ->
  (String.length (digit_prefix s) <= n)%nat ->
  digit_prefix l = digit_prefix s.
Proof.
  revert s l. induction n as [|n IH]; intros s l H Hn.
  - simpl in H. inversion H; subst.
    destruct (digit_prefix s); [reflexivity|simpl in Hn; lia].
  - destruct s as [|c s]; simpl in H; [discriminate|].
    destruct (Ascii.eqb c NUL) eqn:Ec.
    + inversion H; subst. apply Ascii.eqb_eq in Ec. subst c. reflexivity.
    + destruct (strndup s n) as [r| |] eqn:Er; try discriminate.
      inversion H; subst. simpl in *.
      destruct (isdigit c); [|reflexivity].
      f_equal. apply IH; [exact Er|]. simpl in Hn. lia.
Qed.

Lemma string_from_get s i c :
  String.get i s = Some c -> exists rest, string_from i s = String c rest /\
                                          string_from (S i) s = rest.
Proof.
  revert s. induction i as [|i IH]; intros s H; destruct s as [|a s];
    simpl in H; try discriminate.
  - inversion H; subst. eauto.
  - apply IH in H as (rest & E1 & E2). exists rest. split; [exact E1|exact E2].
Qed.

Lemma tokenize_loop_lexemes fuel :
  forall i lexeme_length list g s l g',
    (1 <= lexeme_length)%nat ->
    Forall (holds_digit_run g) list ->
    tokenize_loop fuel i lexeme_length list g = Returns ((s, l), g') ->
    Forall (holds_digit_run g) l.
Proof.
  induction fuel as [|fuel IH]; intros i n list g s l g' Hn Hlist H.
  - cbn [tokenize_loop] in H.
    destruct (source_file_line_occupied_size g <=? i)%nat; [|discriminate].
    inversion H; subst. exact Hlist.
  - destruct (le_lt_dec (source_file_line_occupied_size g) i) as [Hle|Hlt].
    { rewrite tokenize_loop_done in H by lia. inversion H; subst. exact Hlist. }
    destruct (String.get i (source_file_line g)) as [c|] eqn:Hc.
    2:{ apply Nat.leb_gt in Hlt. cbn [tokenize_loop] in H. rewrite Hlt in H.
        unfold bind, line_at in H. rewrite Hc in H. discriminate. }
    destruct (isspace c && negb (Ascii.eqb c LF)) eqn:Hsp.
    { rewrite (tokenize_loop_space _ _ _ _ _ c Hlt Hc Hsp) in H.
      exact (IH _ _ _ _ _ _ _ Hn Hlist H). }
    destruct (single_character_token c) as [t|] eqn:Hsingle.
    { rewrite (tokenize_loop_symbol _ _ _ _ _ c t Hlt Hc Hsp Hsingle) in H.
      apply (IH _ _ _ _ _ _ _ Hn) in H; [exact H|].
      apply Forall_app. split; [exact Hlist|].
      constructor; [|constructor].
      intros Ht. simpl in Ht. subst t.
      destruct c as [[] [] [] [] [] [] [] []]; vm_compute in Hsingle; discriminate. }
    destruct (isdigit c) eqn:Hd.
    + destruct (scan_number (string_from (S i) (source_file_line g)) i n)
        as [[i' n']| |] eqn:Hscan.
      2,3: apply Nat.leb_gt in Hlt; cbn [tokenize_loop] in H; rewrite Hlt in H;
           unfold bind, line_at in H; rewrite Hc, Hsp, Hsingle, Hd in H;
           cbn [negb] in H; rewrite Hscan in H; discriminate.
      destruct (strndup (string_from i (source_file_line g)) n') as [lx| |] eqn:Hdup.
      2,3: apply Nat.leb_gt in Hlt; cbn [tokenize_loop] in H; rewrite Hlt in H;
           unfold bind, line_at in H; rewrite Hc, Hsp, Hsingle, Hd in H;
           cbn [negb] in H; rewrite Hscan, Hdup in H; discriminate.
      rewrite (tokenize_loop_number _ _ _ _ _ c i' n' lx Hlt Hc Hd Hscan Hdup) in H.
      pose proof (scan_number_spec _ _ _ _ _ Hscan) as (Hlt' & Hn' & _).
      pose proof (scan_number_stop _ _ _ _ _ Hscan) as Hstop.
      assert (Hn1 : (1 <= n')%nat) by lia.
      apply (IH _ _ _ _ _ _ _ Hn1) in H; [exact H|].
      apply Forall_app. split; [exact Hlist|].
      constructor; [|constructor].
      intros _. exists lx, i. split; [reflexivity|]. split; [exact Hlt|].
      destruct (string_from_get _ _ _ Hc) as (rest & E1 & E2).
      rewrite E2 in Hstop.
      assert (Hpre : digit_prefix lx = digit_prefix (string_from i (source_file_line g))).
      { apply (strndup_digit_prefix _ n'); [exact Hdup|].
        rewrite E1. simpl. rewrite Hd. simpl. lia. }
      split; [exact Hpre|].
      rewrite Hpre, E1. simpl. rewrite Hd. discriminate.
    + assert (Hs : isspace c = false).
      { destruct (isspace c) eqn:E; [|reflexivity]. simpl in Hsp.
        apply negb_false_iff, Ascii.eqb_eq in Hsp. subst c. discriminate Hsingle. }
      rewrite (tokenize_loop_unexpected _ _ _ _ _ c Hlt Hc Hs Hsingle Hd) in H.
      unfold bind in H.
      destruct (report_unexpected_character i c g) as [[[] g1]| |]; try discriminate.
      unfold ret in H. inversion H; subst. exact Hlist.
Qed.

(** What holds of every lexeme: the digits at the start of the lexeme of
    a number token are exactly the run of digits that the token was read
    from (characters may follow them). *)
Lemma tokenizer_lexemes_hold_digit_runs g s l g' :
  tokenize_source_line_and_add_to_list [] g = Returns ((s, l), g') ->
  Forall (holds_digit_run g) l.
Proof.
  intros H. unfold tokenize_source_line_and_add_to_list in H.
  exact (tokenize_loop_lexemes _ _ _ _ _ _ _ _ (le_n 1)
           (List.Forall_nil (holds_digit_run g)) H).
Qed.

(** ** The value of a number leaf *)

(** C10, as stated, fails.  The lexeme [2147483648] is a run of digits
    whose base-10 value is 2147483648; the leaf that the parser builds for
    it holds -2147483648, the value the [int] member takes when the [long]
    is stored in it. *)
Lemma number_leaf_wraps :
  ~ (forall lexeme fuel tree g v g',
       digit_prefix lexeme <> "" ->
       parser_active_token g = Some (number lexeme) ->
       parser_parse_unit_expression fuel tree g = Returns ((SUCCESS, ast_num v), g') ->
       v = decimal_value (digit_prefix lexeme)).
Proof.
  intros H.
  specialize (H "2147483648"%string O NULL
                (set_cursor [] (Some (number "2147483648")) initial_globals)
                (-2147483648) _ ltac:(discriminate) eq_refl eq_refl).
  vm_compute in H. discriminate H.
Qed.

(** C10, amended.  For a number token whose lexeme starts with a digit, as
    every lexeme that the tokenizer captures does, the parser accepts the
    token and builds a leaf whose value is fixed by the longest leading run
    of digits of the lexeme alone: it is the base-10 value of that run,
    saturated to the range of [long] and then reduced to an [int].  It
    equals the base-10 value of the run whenever that value is at most
    [INT_MAX] = 2147483647.  Characters of the lexeme after the run have no
    influence.  Every lexeme that the tokenizer captures starts with the
    run of digits its token was read from. *)
Theorem number_leaf_value lexeme fuel tree g :
  digit_prefix lexeme <> "" ->
  parser_active_token g = Some (number lexeme) ->
  (exists g',
     parser_parse_unit_expression fuel tree g =
       Returns ((SUCCESS,
                 ast_num (wrap_int (Z.min LONG_MAX (decimal_value (digit_prefix lexeme))))),
                g') /\
     stdout g' = stdout g /\ stderr g' = stderr g) /\
  (decimal_value (digit_prefix lexeme) <= INT_MAX ->
   wrap_int (Z.min LONG_MAX (decimal_value (digit_prefix lexeme))) =
   decimal_value (digit_prefix lexeme)) /\
  (forall lexeme',
     digit_prefix lexeme' = digit_prefix lexeme ->
     str_to_int lexeme' = str_to_int lexeme) /\
  (forall g0 s l g0',
     tokenize_source_line_and_add_to_list [] g0 = Returns ((s, l), g0') ->
     Forall (holds_digit_run g0) l).
Proof.
  intros Hd Ha. split; [|split; [|split; [|apply tokenizer_lexemes_hold_digit_runs]]].
  - unfold parser_parse_unit_expression, unit_expression, bind,
      token_type_is, active_lexeme, parser_get_next_token, ret.
    repeat (rewrite Ha; simpl).
    replace (ast_num (str_to_int lexeme))
      with (ast_num (wrap_int (Z.min LONG_MAX (decimal_value (digit_prefix lexeme)))))
      by (unfold str_to_int; rewrite (strtol_leading_digit lexeme Hd); reflexivity).
    destruct (parser_next_token g); eexists; (split; [reflexivity|split; reflexivity]).
  - intros Hle. pose proof (decimal_value_nonneg lexeme) as H0.
    unfold INT_MAX, LONG_MAX in *.
    rewrite Z.min_r by lia. apply wrap_int_in_range. unfold INT_MIN, INT_MAX. lia.
  - intros lexeme' E. unfold str_to_int.
    rewrite (strtol_leading_digit lexeme Hd).
    rewrite (strtol_leading_digit lexeme') by (rewrite E; exact Hd).
    rewrite E. reflexivity.
Qed.

Lemma number_leaf_value_witness :
  digit_prefix ("3" +:+ str LF) <> "" /\
  parser_active_token (set_cursor [] (Some (number ("3" +:+ str LF))) initial_globals)
    = Some (number ("3" +:+ str LF)) /\
  exists g',
    parser_parse_unit_expression 0 NULL
      (set_cursor [] (Some (number ("3" +:+ str LF))) initial_globals)
      = Returns ((SUCCESS, ast_num 3), g').
Proof.
  assert (Hd : digit_prefix ("3" +:+ str LF) <> "") by discriminate.
  split; [exact Hd|]. split; [reflexivity|].
  destruct (number_leaf_value ("3" +:+ str LF) 0 NULL
              (set_cursor [] (Some (number ("3" +:+ str LF))) initial_globals)
              Hd eq_refl) as ((g' & E & _) & _).
  exists g'. exact E.
Defined.

(** ** The trees that the parser builds *)

Lemma fold_operators_builds operator node_type operand (P : ast_t -> Prop) :
  (forall slot g tree g', operand slot g = Returns ((SUCCESS, tree), g') -> P tree) ->
  (forall t c0 c1, P c0 -> P c1 -> P (ast_op t c0 c1)) ->
  forall fuel r tree g tree' g',
    (r = SUCCESS -> P tree) ->
    fold_operators operator node_type operand fuel r tree g
      = Returns ((SUCCESS, tree'), g') ->
    P tree'.
Proof.
  intros Hoperand Hnode.
  induction fuel as [|fuel IH]; intros r tree g tree' g' Htree H;
    cbn [fold_operators] in H; unfold bind at 1 in H;
    destruct (token_type_is operator g) as [[b g0]| |]; try discriminate;
    destruct (b && status_eqb r SUCCESS) eqn:Eb.
  - discriminate H.
  - unfold ret in H. inversion H; subst. apply Htree. reflexivity.
  - unfold bind at 1 in H.
    destruct (parser_get_next_token g0) as [[tok g1]| |]; try discriminate.
    unfold bind at 1 in H.
    destruct (operand NULL g1) as [[[[|] child1] g2]| |] eqn:Eo; try discriminate.
    apply (IH _ _ _ _ _) in H; [exact H|].
    intros _. apply Hnode.
    + apply Htree. apply andb_true_iff in Eb as [_ Er]. destruct r; [reflexivity|discriminate].
    + exact (Hoperand _ _ _ _ Eo).
  - unfold ret in H. inversion H; subst. apply Htree. reflexivity.
Qed.

Lemma left_associative_builds operator node_type operand (P : ast_t -> Prop) :
  (forall slot g tree g', operand slot g = Returns ((SUCCESS, tree), g') -> P tree) ->
  (forall t c0 c1, P c0 -> P c1 -> P (ast_op t c0 c1)) ->
  forall fuel slot g tree g',
    left_associative operator node_type operand fuel slot g
      = Returns ((SUCCESS, tree), g') ->
    P tree.
Proof.
  intros Hoperand Hnode fuel slot g tree g' H.
  unfold left_associative, bind in H.
  destruct (operand slot g) as [[[r tree1] g1]| |] eqn:Eo; try discriminate.
  simpl in H.
  apply (fold_operators_builds _ _ _ P Hoperand Hnode) in H; [exact H|].
  intros ->. exact (Hoperand _ _ _ _ Eo).
Qed.

Lemma unit_expression_builds add_expression (P : ast_t -> Prop) :
  (forall slot g tree g', add_expression slot g = Returns ((SUCCESS, tree), g') -> P tree) ->
  (forall v, INT_MIN <= v <= INT_MAX -> P (ast_num v)) ->
  forall slot g tree g',
    unit_expression add_expression slot g = Returns ((SUCCESS, tree), g') ->
    P tree.
Proof.
  intros Hadd Hleaf slot g tree g' H.
  unfold unit_expression in H. unfold bind at 1 in H.
  destruct (token_type_is token_bracket_open g) as [[[|] g0]| |]; try discriminate.
  - unfold bind at 1 in H.
    destruct (parser_get_next_token g0) as [[tok g1]| |]; try discriminate.
    unfold bind at 1 in H.
    destruct (add_expression slot g1) as [[[[|] tree1] g2]| |] eqn:Ea; try discriminate.
    unfold bind at 1 in H.
    destruct (token_type_is token_bracket_close g2) as [[[|] g3]| |]; try discriminate;
      simpl in H.
    unfold bind in H.
    destruct (parser_get_next_token g3) as [[tok' g4]| |]; try discriminate.
    unfold ret in H. inversion H; subst. exact (Hadd _ _ _ _ Ea).
  - unfold bind at 1 in H.
    destruct (token_type_is token_number g0) as [[[|] g1]| |]; try discriminate.
    + unfold bind at 1 in H.
      destruct (active_lexeme g1) as [[l g2]| |]; try discriminate.
      unfold bind in H.
      destruct (parser_get_next_token g2) as [[tok g3]| |]; try discriminate.
      unfold ret in H. inversion H; subst. apply Hleaf. apply wrap_int_range.
    + unfold bind at 1 in H.
      destruct (active_lexeme_head g1) as [[c g2]| |]; discriminate.
Qed.

Lemma parser_parse_add_expression_builds (P : ast_t -> Prop) :
  (forall t c0 c1, P c0 -> P c1 -> P (ast_op t c0 c1)) ->
  (forall v, INT_MIN <= v <= INT_MAX -> P (ast_num v)) ->
  forall fuel slot g tree g',
    parser_parse_add_expression fuel slot g = Returns ((SUCCESS, tree), g') ->
    P tree.
Proof.
  intros Hnode Hleaf.
  induction fuel as [|fuel IH]; intros slot g tree g' H; [discriminate H|].
  cbn [parser_parse_add_expression] in H.
  revert slot g tree g' H.
  repeat (apply left_associative_builds; [|exact Hnode]).
  apply unit_expression_builds; [exact IH|exact Hleaf].
Qed.

(** Every tree that the parser hands to the engine is either absent (the
    stream began with the end-of-file token) or well-formed, with [int]s in
    its leaves. *)
Lemma parser_builds_well_formed fuel stream g tree g' :
  parse_token_stream_into_ast fuel stream NULL g = Returns ((SUCCESS, tree), g') ->
  tree = NULL \/ (well_formed tree /\ int_typed tree).
Proof.
  intros H. unfold parse_token_stream_into_ast in H.
  unfold bind at 1 in H. unfold parser_register_token_stream at 1 in H.
  unfold bind at 1 in H.
  destruct (parser_get_next_token _) as [[tok g1]| |]; try discriminate.
  unfold bind at 1 in H.
  destruct (token_type_is token_end_of_file g1) as [[[|] g2]| |]; try discriminate;
    simpl in H.
  - unfold ret in H. inversion H; subst. left. reflexivity.
  - right. unfold parser_parse_expression in H. unfold bind at 1 in H.
    destruct (parser_parse_add_expression fuel NULL g2) as [[[r tree1] g3]| |] eqn:Ea;
      try discriminate.
    assert (Hr : r = SUCCESS /\ tree1 = tree).
    { destruct r.
      - unfold bind at 1 in H.
        match type of H with
        | match ?m with _ => _ end = _ =>
            destruct m as [[r' g4]| |]; try discriminate
        end.
        unfold bind in H.
        destruct (parser_get_next_token g4) as [[tok' g5]| |]; try discriminate.
        unfold ret in H. inversion H; subst. split; reflexivity.
      - unfold bind at 1 in H. unfold ret at 1 in H. unfold bind in H.
        destruct (parser_get_next_token g3) as [[tok' g5]| |]; discriminate. }
    destruct Hr as [-> ->].
    apply (parser_parse_add_expression_builds
             (fun t => well_formed t /\ int_typed t)) in Ea; [exact Ea| |].
    + intros t c0 c1 [W0 I0] [W1 I1]. simpl. tauto.
    + intros v Hv. simpl. tauto.
Qed.

(** ** The fuel of the parser *)

Lemma bind_more_fuel {A B : Type} (m m' : M A) (k k' : A -> M B) g :
  (m g <> Out_of_fuel -> m' g = m g) ->
  (forall a g1, k a g1 <> Out_of_fuel -> k' a g1 = k a g1) ->
  bind m k g <> Out_of_fuel ->
  bind m' k' g = bind m k g.
Proof.
  intros Hm Hk H. unfold bind in *.
  assert (Hg : m g <> Out_of_fuel) by (intros E; apply H; rewrite E; reflexivity).
  rewrite (Hm Hg). destruct (m g) as [[a g1]| |]; try reflexivity.
  apply Hk. exact H.
Qed.

Lemma fold_operators_more_fuel operator node_type operand operand' :
  more_fuel operand operand' ->
  forall fuel r tree g,
    fold_operators operator node_type operand fuel r tree g <> Out_of_fuel ->
    fold_operators operator node_type operand' (S fuel) r tree g =
    fold_operators operator node_type operand fuel r tree g.
Proof.
  intros Hop. induction fuel as [|fuel IH]; intros r tree g.
  - cbn [fold_operators]. apply bind_more_fuel; [reflexivity|].
    intros b g0. destruct (b && status_eqb r SUCCESS); [|reflexivity].
    intros H. exfalso. apply H. reflexivity.
  - cbn [fold_operators]. apply bind_more_fuel; [reflexivity|].
    intros b g0. destruct (b && status_eqb r SUCCESS); [|reflexivity].
    apply bind_more_fuel; [reflexivity|]. intros _ g1.
    apply bind_more_fuel; [apply Hop|].
    intros [[|] child1] g2; [|reflexivity].
    apply IH.
Qed.

Lemma left_associative_more_fuel operator node_type operand operand' fuel :
  more_fuel operand operand' ->
  more_fuel (left_associative operator node_type operand fuel)
            (left_associative operator node_type operand' (S fuel)).
Proof.
  intros Hop slot g. unfold left_associative.
  apply bind_more_fuel; [apply Hop|].
  intros res g1. apply fold_operators_more_fuel. exact Hop.
Qed.

Lemma unit_expression_more_fuel add_expression add_expression' :
  more_fuel add_expression add_expression' ->
  more_fuel (unit_expression add_expression) (unit_expression add_expression').
Proof.
  intros Hadd slot g. unfold unit_expression.
  apply bind_more_fuel; [reflexivity|].
  intros [|] g0; [|reflexivity].
  apply bind_more_fuel; [reflexivity|]. intros _ g1.
  apply bind_more_fuel; [apply Hadd|]. reflexivity.
Qed.

Lemma parser_parse_add_expression_more_fuel fuel :
  more_fuel (parser_parse_add_expression fuel) (parser_parse_add_expression (S fuel)).
Proof.
  induction fuel as [|fuel IH].
  - intros slot g H. exfalso. apply H. reflexivity.
  - change (parser_parse_add_expression (S (S fuel)))
      with (left_associative token_plus ast_add
              (left_associative token_minus ast_sub
                 (left_associative token_times ast_mul
                    (left_associative token_divide ast_div
                       (unit_expression (parser_parse_add_expression (S fuel)))
                       (S fuel)) (S fuel)) (S fuel)) (S fuel)).
    cbn [parser_parse_add_expression].
    repeat apply left_associative_more_fuel.
    apply unit_expression_more_fuel. exact IH.
Qed.

Lemma parse_token_stream_into_ast_one_more fuel stream slot g :
  parse_token_stream_into_ast fuel stream slot g <> Out_of_fuel ->
  parse_token_stream_into_ast (S fuel) stream slot g =
  parse_token_stream_into_ast fuel stream slot g.
Proof.
  unfold parse_token_stream_into_ast.
  apply bind_more_fuel; [reflexivity|]. intros _ g0.
  apply bind_more_fuel; [reflexivity|]. intros _ g1.
  apply bind_more_fuel; [reflexivity|]. intros [|] g2; [reflexivity|].
  simpl. unfold parser_parse_expression.
  apply bind_more_fuel; [apply parser_parse_add_expression_more_fuel|]. reflexivity.
Qed.

(** Fuel is a device of the embedding only: a parse that does not run out
    of fuel gives the same result with any larger amount of it. *)
Lemma parse_token_stream_into_ast_more_fuel fuel extra stream slot g :
  parse_token_stream_into_ast fuel stream slot g <> Out_of_fuel ->
  parse_token_stream_into_ast (extra + fuel) stream slot g =
  parse_token_stream_into_ast fuel stream slot g.
Proof.
  intros H. induction extra as [|extra IH]; [reflexivity|].
  change (S extra + fuel)%nat with (S (extra + fuel)).
  rewrite parse_token_stream_into_ast_one_more; [exact IH|].
  rewrite IH. exact H.
Qed.

(** ** The tokenizer and the parser leave the stack alone *)

Lemma keeps_stack_ret {A : Type} (a : A) : keeps_stack (ret a).
Proof. intros g a' g' H. inversion H. auto. Qed.

Lemma keeps_stack_bind {A B : Type} (m : M A) (k : A -> M B) :
  keeps_stack m -> (forall a, keeps_stack (k a)) -> keeps_stack (bind m k).
Proof.
  intros Hm Hk g b g' H. unfold bind in H.
  destruct (m g) as [[a g1]| |] eqn:E; try discriminate.
  destruct (Hm g a g1 E) as [H1 H2]. destruct (Hk a g1 b g' H) as [H3 H4].
  split; congruence.
Qed.

Lemma keeps_stack_eprint s : keeps_stack (eprint s).
Proof. intros g a g' H. inversion H. auto. Qed.

Lemma keeps_stack_line_at j : keeps_stack (line_at j).
Proof.
  intros g a g' H. unfold line_at in H.
  destruct (String.get j (source_file_line g)); inversion H. auto.
Qed.

Lemma keeps_stack_line_range n : forall j, keeps_stack (line_range j n).
Proof.
  induction n as [|n IH]; intros j; simpl; [apply keeps_stack_ret|].
  apply keeps_stack_bind; [apply keeps_stack_line_at|]. intros c.
  apply keeps_stack_bind; [apply IH|]. intros s. apply keeps_stack_ret.
Qed.

Lemma keeps_stack_report i c : keeps_stack (report_unexpected_character i c).
Proof.
  intros g. unfold report_unexpected_character. revert g.
  match goal with |- forall g, forall a g', ?m g = _ -> _ =>
    change (forall g a g', (fun g0 => m g0) g = Returns (a, g') ->
            callstack g' = callstack g /\ callstack_top g' = callstack_top g)
  end.
  intros g a g' H. cbv beta in H. revert a g' H.
  generalize (source_file_line_occupied_size g). intros size.
  revert g.
  change (keeps_stack
    (eprint ("Unexpected character." +:+ str LF) ;;;
     eprint (str TAB) ;;;
     before <- line_range (if (5 <? i)%nat then (i - 5)%nat else O)
                 (i - (if (5 <? i)%nat then (i - 5)%nat else O)) ;;
     eprint before ;;;
     eprint (red (str c)) ;;;
     after <- line_range (S i)
                ((if (i + 5 <? size - 1)%nat then (i + 5)%nat else (size - 1)%nat) - S i) ;;
     eprint after ;;;
     eprint (str LF) ;;;
     eprint (str TAB) ;;;
     eprint (marker_line (if (5 <? i)%nat then (i - 5)%nat else O)
               (if (i + 5 <? size - 1)%nat then (i + 5)%nat else (size - 1)%nat) i) ;;;
     eprint (str LF))).
  repeat first [ apply keeps_stack_eprint
               | apply keeps_stack_line_range
               | apply keeps_stack_bind; [|intros ?] ].
Qed.

Lemma keeps_stack_tokenizer list :
  keeps_stack (tokenize_source_line_and_add_to_list list).
Proof.
  intros g [s l] g' H. unfold tokenize_source_line_and_add_to_list in H.
  apply tokenize_loop_returns in H. destruct s.
  - destruct H as [-> _]. auto.
  - destruct H as (k & c & _ & _ & _ & _ & Hrep).
    exact (keeps_stack_report k c g tt g' Hrep).
Qed.

Lemma keeps_stack_token_type_is x : keeps_stack (token_type_is x).
Proof.
  intros g a g' H. unfold token_type_is in H.
  destruct (parser_active_token g); inversion H. auto.
Qed.

Lemma keeps_stack_get_next_token : keeps_stack parser_get_next_token.
Proof.
  intros g a g' H. unfold parser_get_next_token in H.
  destruct (parser_next_token g); inversion H; auto.
Qed.

Lemma keeps_stack_active_lexeme : keeps_stack active_lexeme.
Proof.
  intros g a g' H. unfold active_lexeme in H.
  destruct (parser_active_token g) as [t|]; [|discriminate].
  destruct (lexeme t); inversion H. auto.
Qed.

Lemma keeps_stack_active_lexeme_head : keeps_stack active_lexeme_head.
Proof.
  intros g a g' H. unfold active_lexeme_head in H.
  destruct (parser_active_token g) as [t|]; [|discriminate].
  destruct (get_token_lexeme t) as [[|c s]|]; inversion H; auto.
Qed.

Lemma keeps_stack_fold_operators operator node_type operand :
  (forall slot, keeps_stack (operand slot)) ->
  forall fuel r tree, keeps_stack (fold_operators operator node_type operand fuel r tree).
Proof.
  intros Hop. induction fuel as [|fuel IH]; intros r tree; cbn [fold_operators];
    (apply keeps_stack_bind; [apply keeps_stack_token_type_is|]); intros b;
    (destruct (b && status_eqb r SUCCESS); [|apply keeps_stack_ret]).
  - intros g a g' H. discriminate H.
  - apply keeps_stack_bind; [apply keeps_stack_get_next_token|]. intros _.
    apply keeps_stack_bind; [apply Hop|]. intros [[|] child1];
      [apply IH|apply keeps_stack_ret].
Qed.

Lemma keeps_stack_left_associative operator node_type operand fuel :
  (forall slot, keeps_stack (operand slot)) ->
  forall slot, keeps_stack (left_associative operator node_type operand fuel slot).
Proof.
  intros Hop slot. unfold left_associative.
  apply keeps_stack_bind; [apply Hop|]. intros res.
  apply keeps_stack_fold_operators. exact Hop.
Qed.

Lemma keeps_stack_unit_expression add_expression :
  (forall slot, keeps_stack (add_expression slot)) ->
  forall slot, keeps_stack (unit_expression add_expression slot).
Proof.
  intros Hadd slot. unfold unit_expression.
  apply keeps_stack_bind; [apply keeps_stack_token_type_is|]. intros [|].
  - apply keeps_stack_bind; [apply keeps_stack_get_next_token|]. intros _.
    apply keeps_stack_bind; [apply Hadd|]. intros [[|] tree1];
      [|apply keeps_stack_ret].
    apply keeps_stack_bind; [apply keeps_stack_token_type_is|]. intros [|]; simpl.
    + apply keeps_stack_bind; [apply keeps_stack_get_next_token|]. intros _.
      apply keeps_stack_ret.
    + apply keeps_stack_bind; [apply keeps_stack_eprint|]. intros _.
      apply keeps_stack_ret.
  - apply keeps_stack_bind; [apply keeps_stack_token_type_is|]. intros [|].
    + apply keeps_stack_bind; [apply keeps_stack_active_lexeme|]. intros l.
      apply keeps_stack_bind; [apply keeps_stack_get_next_token|]. intros _.
      apply keeps_stack_ret.
    + apply keeps_stack_bind; [apply keeps_stack_active_lexeme_head|]. intros c.
      apply keeps_stack_bind; [apply keeps_stack_eprint|]. intros _.
      apply keeps_stack_ret.
Qed.

Lemma keeps_stack_add_expression fuel :
  forall slot, keeps_stack (parser_parse_add_expression fuel slot).
Proof.
  induction fuel as [|fuel IH]; intros slot.
  - intros g a g' H. discriminate H.
  - cbn [parser_parse_add_expression]. revert slot.
    repeat apply keeps_stack_left_associative.
    apply keeps_stack_unit_expression. exact IH.
Qed.

Lemma keeps_stack_parser fuel stream slot :
  keeps_stack (parse_token_stream_into_ast fuel stream slot).
Proof.
  unfold parse_token_stream_into_ast.
  apply keeps_stack_bind.
  { intros g a g' H. inversion H. auto. }
  intros _. apply keeps_stack_bind; [apply keeps_stack_get_next_token|]. intros _.
  apply keeps_stack_bind; [apply keeps_stack_token_type_is|]. intros [|]; simpl;
    [apply keeps_stack_ret|].
  unfold parser_parse_expression.
  apply keeps_stack_bind; [apply keeps_stack_add_expression|]. intros [r tree1].
  apply keeps_stack_bind.
  - destruct r; [|apply keeps_stack_ret].
    apply keeps_stack_bind; [apply keeps_stack_token_type_is|]. intros [|];
      [apply keeps_stack_ret|].
    apply keeps_stack_bind; [apply keeps_stack_token_type_is|]. intros [|];
      [apply keeps_stack_ret|].
    apply keeps_stack_bind; [apply keeps_stack_active_lexeme_head|]. intros c.
    apply keeps_stack_bind; [apply keeps_stack_eprint|]. intros _.
    apply keeps_stack_ret.
  - intros r'. apply keeps_stack_bind; [apply keeps_stack_get_next_token|].
    intros _. apply keeps_stack_ret.
Qed.

(** Whatever a turn of the driver does with a line (a lexical error, a
    syntax error, an evaluation that succeeds or fails), it returns with
    the stack empty if it found it empty. *)
Lemma run_line_leaves_empty fuel text g s g' :
  callstack_is_empty g = true ->
  run_line fuel text g = Returns (s, g') ->
  callstack_is_empty g' = true.
Proof.
  intros Hempty H. unfold run_line, bind at 1, store_line in H.
  match type of H with
  | process_line _ ?g0 = _ =>
      assert (Hempty0 : callstack_is_empty g0 = true) by exact Hempty;
      generalize dependent g0
  end.
  intros g0 H Hempty0. unfold process_line, bind at 1 in H.
  destruct (tokenize_source_line_and_add_to_list token_list_new g0)
    as [[[st stream] g1]| |] eqn:Et; try discriminate.
  destruct (keeps_stack_tokenizer _ _ _ _ Et) as [_ T1].
  assert (Hempty1 : callstack_is_empty g1 = true)
    by (unfold callstack_is_empty in *; rewrite T1; exact Hempty0).
  destruct st.
  2:{ unfold ret in H. inversion H; subst. exact Hempty1. }
  unfold bind at 1 in H.
  destruct (parse_token_stream_into_ast fuel stream NULL g1)
    as [[[sp tree] g2]| |] eqn:Ep; try discriminate.
  destruct (keeps_stack_parser _ _ _ _ _ _ Ep) as [_ T2].
  assert (Hempty2 : callstack_is_empty g2 = true)
    by (unfold callstack_is_empty in *; rewrite T2; exact Hempty1).
  destruct sp.
  - exact (execution_engine_leaves_empty _ _ _ _ H).
  - unfold ret in H. inversion H; subst. exact Hempty2.
Qed.

(** ** The stack between lines *)

(** C6.  Stack reset invariant.  Whatever tree an invocation of the engine
    is given and whether it succeeds or fails, the stack is empty when it
    returns; on a well-formed tree it does return, unless a division
    overflows.  The next invocation then behaves the same (status, text
    printed) whatever values the earlier one left in the cells of the
    array.  A whole turn of the driver on any line, whether the line fails
    in the tokenizer, in the parser or in the engine, returns with the
    stack empty if it found it empty.  After the line [5 / 0] has failed,
    the line [2 + 3 * 4] evaluates to 14. *)
Theorem stack_reset_invariant t1 t2 g :
  stack_ok g ->
  (well_formed t1 ->
   execution_engine t1 g = Undefined division_overflow \/
   exists s1 g1, execution_engine t1 g = Returns (s1, g1)) /\
  (forall s1 g1,
     execution_engine t1 g = Returns (s1, g1) ->
     callstack_is_empty g1 = true /\ stack_view g1 = [] /\
     forall cells,
       length cells = MAX_CALLSTACK_DEPTH ->
       same_result (execution_engine t2 g1)
                   (execution_engine t2 (set_callstack cells MAX_CALLSTACK_DEPTH g1))) /\
  (forall fuel text s g',
     callstack_is_empty g = true ->
     run_line fuel text g = Returns (s, g') ->
     callstack_is_empty g' = true) /\
  (forall n,
     exists g',
       (run_line (8 + n) (line "5 / 0") ;;; run_line (8 + n) (line "2 + 3 * 4"))
         initial_globals = Returns (SUCCESS, g') /\
       callstack_is_empty g' = true /\
       stdout g' = green "14" +:+ "." +:+ str LF /\
       stderr g' = msg_DivisionByZero).
Proof.
  intros Hok. split; [|split; [|split]].
  4: intros n; eexists;
     (split; [vm_compute; reflexivity|split; [|split]; reflexivity]).
  3: intros fuel text s g' Hempty H;
     exact (run_line_leaves_empty fuel text g s g' Hempty H).
  - intros Hwf.
    destruct (execution_engine_spec t1 g Hwf Hok) as [U|(s & g' & E & _)];
      [left; exact U|right].
    exists s, g'. exact E.
  - intros s1 g1 E.
    pose proof (execution_engine_leaves_empty t1 g s1 g1 E) as Hempty.
    pose proof (keeps_execution_engine t1 g s1 g1 E) as Hlen.
    apply Nat.eqb_eq in Hempty as Htop.
    assert (Hok1 : stack_ok g1).
    { destruct Hok as [L _]. split; [congruence|lia]. }
    assert (Hv1 : stack_view g1 = []).
    { unfold stack_view. apply drop_ge. destruct Hok1 as [L _]. lia. }
    split; [exact Hempty|]. split; [exact Hv1|].
    intros cells Hcells.
    apply outcome_rel_same_result, sim_execution_engine.
    unfold obs_eq, stack_ok, stack_view; simpl.
    split; [exact Hok1|]. split; [split; [exact Hcells|apply le_n]|].
    split; [|split; reflexivity].
    fold (stack_view g1). rewrite Hv1. symmetry. apply drop_ge. lia.
Qed.

Lemma stack_reset_invariant_witness :
  stack_ok initial_globals /\
  exists g1,
    execution_engine (ast_op ast_div (ast_num 5) (ast_num 0)) initial_globals
      = Returns (FAILURE, g1) /\
    callstack_is_empty g1 = true /\
    same_result (execution_engine (ast_num 7) g1)
                (execution_engine (ast_num 7)
                   (set_callstack (replicate MAX_CALLSTACK_DEPTH 0) MAX_CALLSTACK_DEPTH g1)).
Proof.
  assert (Hok : stack_ok initial_globals) by (split; [reflexivity|apply le_n]).
  split; [exact Hok|].
  eexists. split; [reflexivity|].
  destruct (stack_reset_invariant (ast_op ast_div (ast_num 5) (ast_num 0)) (ast_num 7)
              initial_globals Hok) as (_ & H & _).
  destruct (H _ _ eq_refl) as (Hempty & _ & Hsame).
  split; [exact Hempty|]. apply Hsame. reflexivity.
Defined.

(** ** The value that the engine computes *)

Lemma in_int_Some z v : in_int z = Some v -> v = z /\ INT_MIN <= z <= INT_MAX.
Proof.
  unfold in_int. destruct ((INT_MIN <=? z) && (z <=? INT_MAX)) eqn:E; [|discriminate].
  intros H. inversion H; subst. apply andb_true_iff in E as [E1 E2].
  apply Z.leb_le in E1, E2. auto.
Qed.

Lemma value_of_well_formed t v : value_of t = Some v -> well_formed t.
Proof.
  revert v. induction t as [|value|operator c0 IH0 c1 IH1]; simpl; intros v H.
  - discriminate.
  - exact I.
  - destruct (value_of c0) as [l|]; [|discriminate].
    destruct (value_of c1) as [r|]; [|discriminate]. eauto.
Qed.

Lemma value_of_op operator c0 c1 v :
  value_of (ast_op operator c0 c1) = Some v ->
  exists l r,
    value_of c0 = Some l /\ value_of c1 = Some r /\
    divides_by_zero operator r = false /\
    quotient_overflows operator l r = false /\
    int_result operator l r = v.
Proof.
  simpl. destruct (value_of c0) as [l|]; [|discriminate].
  destruct (value_of c1) as [r|]; [|discriminate].
  intros H. exists l, r. split; [reflexivity|]. split; [reflexivity|].
  destruct operator; simpl.
  - apply in_int_Some in H as [-> R]. repeat split. apply wrap_int_in_range, R.
  - apply in_int_Some in H as [-> R]. repeat split. apply wrap_int_in_range, R.
  - destruct (r =? 0) eqn:Er; [discriminate|].
    apply in_int_Some in H as [-> R]. split; [reflexivity|].
    split; [|apply wrap_int_in_range, R].
    apply andb_false_iff.
    destruct (l =? INT_MIN) eqn:El; [right|left; reflexivity].
    destruct (r =? -1) eqn:Er1; [|reflexivity].
    apply Z.eqb_eq in El, Er1. subst. vm_compute in R. destruct R as [_ R].
    exfalso. apply R. reflexivity.
  - apply in_int_Some in H as [-> R]. repeat split. apply wrap_int_in_range, R.
Qed.

(** The traversal of a tree that has a value pushes that value, given the
    cells the tree needs. *)
Lemma process_ast_node_value t :
  forall v g,
    value_of t = Some v -> stack_ok g ->
    (pending_operands t <= callstack_top g)%nat ->
    exists g',
      execution_engine_process_ast_node t g = Returns (SUCCESS, g') /\
      stack_ok g' /\ stack_view g' = v :: stack_view g /\
      stdout g' = stdout g /\ stderr g' = stderr g.
Proof.
  induction t as [|value|operator c0 IH0 c1 IH1]; intros v g Hv Hok Hp.
  - discriminate.
  - simpl in Hv, Hp. apply in_int_Some in Hv as [-> _].
    assert (Hne : callstack_top g <> O) by lia.
    destruct (callstack_push_spec value g Hok Hne) as (g' & E & Hok' & Hv' & _ & Ho & He).
    exists g'. simpl. unfold callstack_is_full.
    destruct (Nat.eqb_spec (callstack_top g) 0); [contradiction|].
    unfold bind, ret. rewrite E. auto.
  - apply value_of_op in Hv as (l & r & Hl & Hr & Hz & Hq & <-).
    cbn [pending_operands] in Hp.
    destruct (IH0 l g Hl Hok ltac:(lia)) as (g0 & E0 & Hok0 & Hv0 & Ho0 & He0).
    pose proof (pushed_top g g0 l Hok Hok0 Hv0) as Ht0.
    destruct (IH1 r g0 Hr Hok0 ltac:(lia)) as (g1 & E1 & Hok1 & Hv1 & Ho1 & He1).
    rewrite Hv0 in Hv1.
    pose proof (do_operation_spec operator r l (stack_view g) g1 Hok1 Hv1) as R2.
    rewrite Hz, Hq in R2. destruct R2 as (g2 & E2 & Hok2 & Ho2 & He2 & Hv2).
    exists g2. cbn [execution_engine_process_ast_node]. unfold bind.
    rewrite E0, E1, E2. unfold ret.
    split; [reflexivity|]. split; [exact Hok2|]. split; [exact Hv2|].
    split; congruence.
Qed.

(** The engine on a tree that has a value, started with the stack empty. *)
Lemma execution_engine_value t v g :
  value_of t = Some v ->
  stack_ok g -> callstack_is_empty g = true ->
  (pending_operands t <= MAX_CALLSTACK_DEPTH)%nat ->
  exists g',
    execution_engine t g = Returns (SUCCESS, g') /\
    stdout g' = stdout g +:+ (green (print_int v) +:+ "." +:+ str LF) /\
    stderr g' = stderr g /\
    callstack_is_empty g' = true.
Proof.
  intros Hv Hok Hempty Hp.
  apply Nat.eqb_eq in Hempty.
  destruct (process_ast_node_value t v g Hv Hok ltac:(lia))
    as (g1 & E1 & Hok1 & Hv1 & Ho1 & He1).
  pose proof (pushed_top g g1 v Hok Hok1 Hv1) as Ht.
  destruct (callstack_pop_spec v (stack_view g) g1 Hok1 Hv1)
    as (g2 & E2 & Hok2 & Hv2 & Ht2 & Ho2 & He2).
  rewrite execution_engine_unfold
    by (intros ->; discriminate Hv).
  unfold bind at 1. rewrite E1. cbn [execution_engine_finish].
  unfold callstack_is_empty.
  destruct (Nat.eqb_spec (callstack_top g1) MAX_CALLSTACK_DEPTH) as [Hfull|_]; [lia|].
  unfold bind. rewrite E2. unfold print, callstack_clear, ret. simpl.
  eexists. split; [reflexivity|]. simpl.
  split; [congruence|]. split; [congruence|reflexivity].
Qed.

(** X1.  The engine computes the value of the expression.  If the tree has
    a value in the arithmetic of the integers (no divisor is zero, no leaf
    or intermediate result leaves the range of [int]) and needs no more
    than the 32 cells of the stack, then the engine, started with the
    stack empty, succeeds, prints that value in green followed by a full
    stop on [stdout], prints nothing on [stderr] and leaves the stack
    empty. *)
Theorem engine_prints_the_value t v g :
  value_of t = Some v ->
  stack_ok g -> callstack_is_empty g = true ->
  (pending_operands t <= MAX_CALLSTACK_DEPTH)%nat ->
  exists g',
    execution_engine t g = Returns (SUCCESS, g') /\
    stdout g' = stdout g +:+ (green (print_int v) +:+ "." +:+ str LF) /\
    stderr g' = stderr g /\
    callstack_is_empty g' = true.
Proof. exact (execution_engine_value t v g). Qed.


Lemma engine_prints_the_value_witness :
  exists g',
    execution_engine
      (ast_op ast_sub (ast_num 2) (ast_op ast_mul (ast_num 3) (ast_num 4)))
      initial_globals = Returns (SUCCESS, g') /\
    stdout g' = green "-10" +:+ "." +:+ str LF.
Proof.
  destruct (engine_prints_the_value
              (ast_op ast_sub (ast_num 2) (ast_op ast_mul (ast_num 3) (ast_num 4)))
              (-10) initial_globals)
    as (g' & E & Ho & _).
  - reflexivity.
  - split; [reflexivity|apply le_n].
  - reflexivity.
  - simpl. unfold MAX_CALLSTACK_DEPTH. lia.
  - exists g'. split; [exact E|exact Ho].
Defined.

(** ** The four levels of precedence *)

(** X2.  Each of the four operators has a level of its own: [/] binds
    tighter than [*], which binds tighter than [-], which binds tighter
    than [+].  Whenever [hi] binds tighter than [lo], [a lo b hi c] parses
    as [lo(a, hi(b, c))] and [a hi b lo c] as [lo(hi(a, b), c)].  So the
    line [8 * 2 / 4] is read as [8 * (2 / 4)] and evaluates to 0. *)
Theorem four_levels_of_precedence lo hi a b c :
  (binding_strength lo < binding_strength hi)%nat ->
  parses_to 8
    [number a; symbol (operator_token lo); number b; symbol (operator_token hi);
     number c; symbol token_end_of_expression]
    (ast_op lo (leaf a) (ast_op hi (leaf b) (leaf c))) /\
  parses_to 8
    [number a; symbol (operator_token hi); number b; symbol (operator_token lo);
     number c; symbol token_end_of_expression]
    (ast_op lo (ast_op hi (leaf a) (leaf b)) (leaf c)) /\
  prints "8 * 2 / 4" "0".
Proof.
  intros H.
  split; [|split].
  3: intros n; eexists; split; [vm_compute; reflexivity|split; reflexivity].
  all: destruct lo, hi; simpl in H; try lia;
    intros n g; eexists; (split; [lazy -[str_to_int]; reflexivity|]); simpl; auto.
Qed.

Lemma four_levels_of_precedence_witness :
  parses_to 8
    [number "8"; symbol token_times; number "2"; symbol token_divide;
     number "4"; symbol token_end_of_expression]
    (ast_op ast_mul (ast_num 8) (ast_op ast_div (ast_num 2) (ast_num 4))).
Proof.
  assert (H : (binding_strength ast_mul < binding_strength ast_div)%nat)
    by (simpl; lia).
  exact (proj1 (four_levels_of_precedence ast_mul ast_div "8" "2" "4" H)).
Defined.

(** ** What the parser prints *)

Lemma silent_token_type_is x : silent (token_type_is x).
Proof.
  intros g a g' H. unfold token_type_is in H.
  destruct (parser_active_token g); inversion H. auto.
Qed.

Lemma silent_get_next_token : silent parser_get_next_token.
Proof.
  intros g a g' H. unfold parser_get_next_token in H.
  destruct (parser_next_token g); inversion H; auto.
Qed.

Lemma silent_active_lexeme : silent active_lexeme.
Proof.
  intros g a g' H. unfold active_lexeme in H.
  destruct (parser_active_token g) as [t|]; [|discriminate].
  destruct (lexeme t); inversion H. auto.
Qed.

Lemma silent_active_lexeme_head : silent active_lexeme_head.
Proof.
  intros g a g' H. unfold active_lexeme_head in H.
  destruct (parser_active_token g) as [t|]; [|discriminate].
  destruct (get_token_lexeme t) as [[|c s]|]; inversion H; auto.
Qed.

Lemma reports_once_fold_operators operator node_type operand :
  (forall slot, reports_once (operand slot)) ->
  forall fuel r tree g s t g',
    fold_operators operator node_type operand fuel r tree g = Returns ((s, t), g') ->
    stdout g' = stdout g /\
    match r with
    | SUCCESS =>
        match s with
        | SUCCESS => stderr g' = stderr g
        | FAILURE => exists msg, syntax_error msg /\ stderr g' = stderr g +:+ msg
        end
    | FAILURE => s = FAILURE /\ stderr g' = stderr g
    end.
Proof.
  intros Hop.
  induction fuel as [|fuel IH]; intros r tree g s t g' H;
    cbn [fold_operators] in H; unfold bind at 1 in H;
    destruct (token_type_is operator g) as [[b g0]| |] eqn:E0; try discriminate;
    destruct (silent_token_type_is _ _ _ _ E0) as [Ho0 He0];
    destruct (b && status_eqb r SUCCESS) eqn:Eb.
  - discriminate H.
  - unfold ret in H. inversion H; subst. split; [exact Ho0|].
    destruct s; auto.
  - apply andb_true_iff in Eb as [_ Er].
    destruct r; [|discriminate Er].
    unfold bind at 1 in H.
    destruct (parser_get_next_token g0) as [[tok g1]| |] eqn:E1; try discriminate.
    destruct (silent_get_next_token _ _ _ E1) as [Ho1 He1].
    unfold bind at 1 in H.
    destruct (operand NULL g1) as [[[[|] child1] g2]| |] eqn:E2; try discriminate.
    + destruct (Hop _ _ _ _ _ E2) as [Ho2 He2].
      destruct (IH _ _ _ _ _ _ H) as [Ho3 He3].
      split; [congruence|].
      destruct s.
      * congruence.
      * destruct He3 as (msg & Hmsg & He3). exists msg. split; [exact Hmsg|congruence].
    + destruct (Hop _ _ _ _ _ E2) as [Ho2 (msg & Hmsg & He2)].
      unfold ret in H. inversion H; subst.
      split; [congruence|]. exists msg. split; [exact Hmsg|congruence].
  - unfold ret in H. inversion H; subst. split; [exact Ho0|].
    destruct s; auto.
Qed.

Lemma reports_once_left_associative operator node_type operand fuel :
  (forall slot, reports_once (operand slot)) ->
  forall slot, reports_once (left_associative operator node_type operand fuel slot).
Proof.
  intros Hop slot g s t g' H. unfold left_associative, bind in H.
  destruct (operand slot g) as [[[r tree1] g1]| |] eqn:E; try discriminate.
  simpl in H.
  destruct (Hop _ _ _ _ _ E) as [Ho1 He1].
  destruct (reports_once_fold_operators _ _ _ Hop _ _ _ _ _ _ _ H) as [Ho2 He2].
  split; [congruence|].
  destruct r.
  - destruct s; [congruence|].
    destruct He2 as (msg & Hmsg & He2). exists msg. split; [exact Hmsg|congruence].
  - destruct He2 as [-> He2]. destruct He1 as (msg & Hmsg & He1).
    exists msg. split; [exact Hmsg|congruence].
Qed.

Lemma reports_once_unit_expression add_expression :
  (forall slot, reports_once (add_expression slot)) ->
  forall slot, reports_once (unit_expression add_expression slot).
Proof.
  intros Hadd slot g s t g' H.
  unfold unit_expression in H. unfold bind at 1 in H.
  destruct (token_type_is token_bracket_open g) as [[[|] g0]| |] eqn:E0;
    try discriminate;
    destruct (silent_token_type_is _ _ _ _ E0) as [Ho0 He0].
  - unfold bind at 1 in H.
    destruct (parser_get_next_token g0) as [[tok g1]| |] eqn:E1; try discriminate.
    destruct (silent_get_next_token _ _ _ E1) as [Ho1 He1].
    unfold bind at 1 in H.
    destruct (add_expression slot g1) as [[[[|] tree1] g2]| |] eqn:E2; try discriminate.
    + destruct (Hadd _ _ _ _ _ E2) as [Ho2 He2].
      unfold bind at 1 in H.
      destruct (token_type_is token_bracket_close g2) as [[[|] g3]| |] eqn:E3;
        try discriminate;
        destruct (silent_token_type_is _ _ _ _ E3) as [Ho3 He3]; simpl in H.
      * unfold bind in H.
        destruct (parser_get_next_token g3) as [[tok' g4]| |] eqn:E4; try discriminate.
        destruct (silent_get_next_token _ _ _ E4) as [Ho4 He4].
        unfold ret in H. inversion H; subst. split; congruence.
      * unfold bind, eprint, ret in H. inversion H; subst. simpl.
        split; [congruence|].
        exists msg_expected_closing. split; [left; reflexivity|congruence].
    + destruct (Hadd _ _ _ _ _ E2) as [Ho2 (msg & Hmsg & He2)].
      unfold ret in H. inversion H; subst.
      split; [congruence|]. exists msg. split; [exact Hmsg|congruence].
  - unfold bind at 1 in H.
    destruct (token_type_is token_number g0) as [[[|] g1]| |] eqn:E1;
      try discriminate;
      destruct (silent_token_type_is _ _ _ _ E1) as [Ho1 He1].
    + unfold bind at 1 in H.
      destruct (active_lexeme g1) as [[l g2]| |] eqn:E2; try discriminate.
      destruct (silent_active_lexeme _ _ _ E2) as [Ho2 He2].
      unfold bind in H.
      destruct (parser_get_next_token g2) as [[tok g3]| |] eqn:E3; try discriminate.
      destruct (silent_get_next_token _ _ _ E3) as [Ho3 He3].
      unfold ret in H. inversion H; subst. split; congruence.
    + unfold bind at 1 in H.
      destruct (active_lexeme_head g1) as [[c g2]| |] eqn:E2; try discriminate.
      destruct (silent_active_lexeme_head _ _ _ E2) as [Ho2 He2].
      unfold bind, eprint, ret in H. inversion H; subst. simpl.
      split; [congruence|].
      exists (msg_expected_integer c).
      split; [right; left; exists c; reflexivity|congruence].
Qed.

Lemma reports_once_add_expression fuel :
  forall slot, reports_once (parser_parse_add_expression fuel slot).
Proof.
  induction fuel as [|fuel IH]; intros slot.
  - intros g s t g' H. discriminate H.
  - cbn [parser_parse_add_expression]. revert slot.
    repeat apply reports_once_left_associative.
    apply reports_once_unit_expression. exact IH.
Qed.

Lemma reports_once_expression fuel slot :
  reports_once (parser_parse_expression fuel slot).
Proof.
  intros g s t g' H. unfold parser_parse_expression in H.
  unfold bind at 1 in H.
  destruct (parser_parse_add_expression fuel slot g) as [[[r tree1] g1]| |] eqn:E1;
    try discriminate.
  destruct (reports_once_add_expression _ _ _ _ _ _ E1) as [Ho1 He1].
  destruct r.
  - unfold bind at 1 in H. unfold bind at 1 in H.
    destruct (token_type_is token_end_of_expression g1) as [[[|] g2]| |] eqn:E2;
      try discriminate;
      destruct (silent_token_type_is _ _ _ _ E2) as [Ho2 He2].
    + unfold ret at 1 in H. unfold bind in H.
      destruct (parser_get_next_token g2) as [[tok g3]| |] eqn:E3; try discriminate.
      destruct (silent_get_next_token _ _ _ E3) as [Ho3 He3].
      unfold ret in H. inversion H; subst. split; congruence.
    + unfold bind at 1 in H.
      destruct (token_type_is token_end_of_file g2) as [[[|] g3]| |] eqn:E3;
        try discriminate;
        destruct (silent_token_type_is _ _ _ _ E3) as [Ho3 He3].
      * unfold ret at 1 in H. unfold bind in H.
        destruct (parser_get_next_token g3) as [[tok g4]| |] eqn:E4; try discriminate.
        destruct (silent_get_next_token _ _ _ E4) as [Ho4 He4].
        unfold ret in H. inversion H; subst. split; congruence.
      * unfold bind at 1 in H.
        destruct (active_lexeme_head g3) as [[c g4]| |] eqn:E4; try discriminate.
        destruct (silent_active_lexeme_head _ _ _ E4) as [Ho4 He4].
        unfold bind at 1, eprint at 1 in H. unfold ret at 1 in H.
        unfold bind in H.
        destruct (parser_get_next_token _) as [[tok g5]| |] eqn:E5; try discriminate.
        destruct (silent_get_next_token _ _ _ E5) as [Ho5 He5].
        unfold ret in H. inversion H; subst. simpl in *.
        split; [congruence|].
        exists (msg_expected_end c).
        split; [right; right; exists c; reflexivity|congruence].
  - unfold bind at 1 in H. unfold ret at 1 in H. unfold bind in H.
    destruct (parser_get_next_token g1) as [[tok g2]| |] eqn:E2; try discriminate.
    destruct (silent_get_next_token _ _ _ E2) as [Ho2 He2].
    unfold ret in H. inversion H; subst.
    split; [congruence|].
    destruct He1 as (msg & Hmsg & He1). exists msg. split; [exact Hmsg|congruence].
Qed.

Lemma reports_once_parser fuel stream slot :
  reports_once (parse_token_stream_into_ast fuel stream slot).
Proof.
  intros g s t g' H. unfold parse_token_stream_into_ast in H.
  unfold bind at 1, parser_register_token_stream at 1 in H.
  unfold bind at 1 in H.
  destruct (parser_get_next_token _) as [[tok g1]| |] eqn:E1; try discriminate.
  destruct (silent_get_next_token _ _ _ E1) as [Ho1 He1]. simpl in Ho1, He1.
  unfold bind at 1 in H.
  destruct (token_type_is token_end_of_file g1) as [[[|] g2]| |] eqn:E2;
    try discriminate;
    destruct (silent_token_type_is _ _ _ _ E2) as [Ho2 He2]; simpl in H.
  - unfold ret in H. inversion H; subst. split; congruence.
  - destruct (reports_once_expression _ _ _ _ _ _ H) as [Ho3 He3].
    split; [congruence|].
    destruct s; [congruence|].
    destruct He3 as (msg & Hmsg & He3). exists msg. split; [exact Hmsg|congruence].
Qed.

(** X3.  The parser reports a failure exactly once.  Whatever the stream
    and the state, a parse that returns has printed nothing on [stdout]
    and has not touched the evaluation stack; when it succeeds it has
    printed nothing on [stderr] either, and when it fails it has printed
    exactly one of its three syntax errors there. *)
Theorem parser_reports_once fuel stream slot g s t g' :
  parse_token_stream_into_ast fuel stream slot g = Returns ((s, t), g') ->
  stdout g' = stdout g /\
  callstack g' = callstack g /\ callstack_top g' = callstack_top g /\
  match s with
  | SUCCESS => stderr g' = stderr g
  | FAILURE => exists msg, syntax_error msg /\ stderr g' = stderr g +:+ msg
  end.
Proof.
  intros H.
  destruct (reports_once_parser _ _ _ _ _ _ _ H) as [Ho He].
  destruct (keeps_stack_parser _ _ _ _ _ _ H) as [Hc Ht].
  auto.
Qed.

Lemma parser_reports_once_witness :
  exists g' msg,
    parse_token_stream_into_ast 8
      [symbol token_bracket_open; number "1"; symbol token_end_of_expression]
      NULL initial_globals = Returns ((FAILURE, ast_num 1), g') /\
    syntax_error msg /\ stderr g' = stderr initial_globals +:+ msg.
Proof.
  eexists.
  edestruct (parser_reports_once 8
               [symbol token_bracket_open; number "1"; symbol token_end_of_expression]
               NULL initial_globals FAILURE (ast_num 1))
    as (_ & _ & _ & msg & Hmsg & He); [reflexivity|].
  exists msg. split; [reflexivity|]. split; [exact Hmsg|exact He].
Defined.

(** ** The cursor of the parser *)

Lemma remaining_cons g a l :
  remaining g = a :: l -> parser_active_token g = Some a /\ parser_next_token g = l.
Proof.
  unfold remaining. destruct (parser_active_token g); [|discriminate].
  intros H. inversion H. auto.
Qed.

Lemma token_type_is_at g a l x :
  remaining g = a :: l -> token_type_is x g = Returns (token_type_eqb (type a) x, g).
Proof.
  intros H. apply remaining_cons in H as [Ha _]. unfold token_type_is. rewrite Ha.
  reflexivity.
Qed.

Lemma get_next_token_at g a b l :
  remaining g = a :: b :: l ->
  parser_get_next_token g = Returns (Some b, set_cursor l (Some b) g).
Proof.
  intros H. apply remaining_cons in H as [_ Hn]. unfold parser_get_next_token.
  rewrite Hn. reflexivity.
Qed.

Lemma active_lexeme_at g a l s :
  remaining g = a :: l -> lexeme a = Some s -> active_lexeme g = Returns (s, g).
Proof.
  intros H Hs. apply remaining_cons in H as [Ha _]. unfold active_lexeme.
  rewrite Ha, Hs. reflexivity.
Qed.

Lemma active_lexeme_head_at g a l :
  remaining g = a :: l -> lexed a ->
  exists c, active_lexeme_head g = Returns (c, g).
Proof.
  intros H Hl. apply remaining_cons in H as [Ha _]. unfold active_lexeme_head.
  rewrite Ha. unfold get_token_lexeme.
  destruct a as [ty lx]; simpl in *. unfold lexed in Hl; simpl in Hl.
  destruct ty; try (eexists; reflexivity).
  destruct lx as [[|c s]|]; try (eexists; reflexivity).
  exfalso. apply Hl; reflexivity.
Qed.

Lemma terminated_nonempty l : terminated l -> l <> [].
Proof. intros (toks & tok & -> & _). destruct toks; discriminate. Qed.

Lemma terminated_tail a l :
  terminated (a :: l) -> is_terminator a = false -> terminated l.
Proof.
  intros (toks & tok & E & Ht) Ha. destruct toks as [|x toks]; simpl in E.
  - inversion E; subst. congruence.
  - inversion E; subst. exists toks, tok. auto.
Qed.

Lemma terminated_suffix w l : terminated (w ++ l) -> l <> [] -> terminated l.
Proof.
  intros H Hl. induction w as [|x w IH]; [exact H|].
  apply IH. destruct H as (toks & tok & E & Ht).
  destruct toks as [|y toks]; simpl in E; inversion E; subst.
  - destruct w; [contradiction|discriminate].
  - exists toks, tok. auto.
Qed.

Lemma not_terminator a x :
  token_type_eqb (type a) x = true ->
  x <> token_end_of_expression -> x <> token_end_of_file ->
  is_terminator a = false.
Proof.
  unfold is_terminator. destruct (type a), x; simpl; congruence.
Qed.

Lemma token_type_eqb_eq a b : token_type_eqb a b = true <-> a = b.
Proof. destruct a, b; simpl; split; congruence. Qed.

(** Past a token that does not end an expression there is another one. *)
Lemma advance g a l :
  remaining g = a :: l -> terminated (remaining g) -> is_terminator a = false ->
  exists b l',
    l = b :: l' /\
    parser_get_next_token g = Returns (Some b, set_cursor l' (Some b) g) /\
    terminated l.
Proof.
  intros H Ht Ha. rewrite H in Ht. apply terminated_tail in Ht; [|exact Ha].
  destruct l as [|b l']; [destruct (terminated_nonempty _ Ht); reflexivity|].
  exists b, l'. split; [reflexivity|]. split; [|exact Ht].
  apply (get_next_token_at g a b l' H).
Qed.

Lemma operator_token_not_terminator a node_type :
  token_type_eqb (type a) (operator_token node_type) = true -> is_terminator a = false.
Proof.
  intros H. apply (not_terminator a _ H); destruct node_type; discriminate.
Qed.

(** ** The parser against the grammar: what it accepts *)

Lemma recognises_fold_operators node_type operand m :
  recognises (operand_production node_type) operand m ->
  forall fuel tree w0 g,
    terminated (remaining g) -> Forall lexed (remaining g) ->
    (length (remaining g) <= fuel)%nat -> (length (remaining g) <= m)%nat ->
    derives (operator_production node_type) w0 tree ->
    exists s t g' w,
      fold_operators (operator_token node_type) node_type operand fuel SUCCESS tree g
        = Returns ((s, t), g') /\
      remaining g = w ++ remaining g' /\
      remaining g' <> [] /\
      (s = SUCCESS -> derives (operator_production node_type) (w0 ++ w) t).
Proof.
  intros Hop.
  induction fuel as [|fuel IH]; intros tree w0 g Ht Hl Hfuel Hm Hd;
    destruct (remaining g) as [|a l] eqn:Er;
    try (destruct (terminated_nonempty _ Ht); reflexivity);
    cbn [fold_operators]; unfold bind at 1;
    rewrite (token_type_is_at g a l _ Er);
    destruct (token_type_eqb (type a) (operator_token node_type)) eqn:Ea;
    cbn [andb status_eqb].
  - simpl in Hfuel. lia.
  - exists SUCCESS, tree, g, []. unfold ret. rewrite Er.
    split; [reflexivity|]. split; [reflexivity|]. split; [discriminate|].
    intros _. rewrite app_nil_r. exact Hd.
  - pose proof (operator_token_not_terminator _ _ Ea) as Hna.
    rewrite <- Er in Ht.
    destruct (advance g a l Er Ht Hna) as (b & l' & -> & Enext & Ht1).
    unfold bind at 1. rewrite Enext.
    set (g1 := set_cursor l' (Some b) g).
    assert (Er1 : remaining g1 = b :: l') by reflexivity.
    assert (Hl1 : Forall lexed (remaining g1))
      by (rewrite Er1; inversion Hl; assumption).
    simpl in Hfuel, Hm.
    destruct (Hop NULL g1) as (s1 & t1 & g2 & w1 & E1 & Ew1 & Hne1 & Hd1);
      [rewrite Er1; exact Ht1|exact Hl1|rewrite Er1; simpl; lia|].
    unfold bind at 1. rewrite E1.
    rewrite Er1 in Ew1.
    destruct s1.
    + assert (Ht2 : terminated (remaining g2))
        by (apply (terminated_suffix w1); [rewrite <- Ew1; exact Ht1|exact Hne1]).
      assert (Hl2 : Forall lexed (remaining g2)).
      { rewrite Er1, Ew1 in Hl1. apply Forall_app in Hl1 as [_ H]. exact H. }
      assert (Hlen2 : (length (remaining g2) <= S (length l'))%nat).
      { apply (f_equal (@length token)) in Ew1. rewrite length_app in Ew1.
        simpl in Ew1. lia. }
      destruct (IH (ast_op node_type tree t1) (w0 ++ a :: w1) g2 Ht2 Hl2)
        as (s & t & g' & w & E & Ew & Hne & Hdw); [lia|lia| |].
      { apply derives_operator; [apply token_type_eqb_eq; exact Ea|exact Hd|].
        apply Hd1; reflexivity. }
      exists s, t, g', (a :: w1 ++ w).
      split; [exact E|]. split; [|split; [exact Hne|]].
      * simpl. rewrite <- app_assoc, <- Ew, <- Ew1. reflexivity.
      * intros Hs. specialize (Hdw Hs).
        rewrite <- app_assoc in Hdw. exact Hdw.
    + exists FAILURE, tree, g2, (a :: w1). unfold ret.
      split; [reflexivity|]. split; [simpl; congruence|].
      split; [exact Hne1|discriminate].
  - exists SUCCESS, tree, g, []. unfold ret. rewrite Er.
    split; [reflexivity|]. split; [reflexivity|]. split; [discriminate|].
    intros _. rewrite app_nil_r. exact Hd.
Qed.

Lemma recognises_left_associative node_type operand m :
  recognises (operand_production node_type) operand m ->
  recognises (operator_production node_type)
    (left_associative (operator_token node_type) node_type operand m) m.
Proof.
  intros Hop slot g Ht Hl Hm.
  destruct (Hop slot g Ht Hl Hm) as (s0 & t0 & g1 & w0 & E0 & Ew0 & Hne0 & Hd0).
  unfold left_associative, bind. rewrite E0. cbn [fst snd].
  destruct s0.
  - assert (Ht1 : terminated (remaining g1))
      by (apply (terminated_suffix w0); [rewrite <- Ew0; exact Ht|exact Hne0]).
    assert (Hl1 : Forall lexed (remaining g1)).
    { rewrite Ew0 in Hl. apply Forall_app in Hl as [_ H]. exact H. }
    assert (Hlen1 : (length (remaining g1) <= length (remaining g))%nat).
    { rewrite Ew0, length_app. lia. }
    destruct (recognises_fold_operators node_type operand m Hop m t0 w0 g1 Ht1 Hl1)
      as (s & t & g' & w & E & Ew & Hne & Hd); [lia|lia| |].
    { apply derives_operand. apply Hd0; reflexivity. }
    exists s, t, g', (w0 ++ w).
    split; [exact E|]. split; [|split; [exact Hne|exact Hd]].
    rewrite <- app_assoc, <- Ew. exact Ew0.
  - exists FAILURE, t0, g1, w0.
    destruct m; cbn [fold_operators]; unfold bind;
      destruct (remaining g1) as [|a l] eqn:Er1; try contradiction;
      rewrite (token_type_is_at g1 a l _ Er1), andb_false_r; unfold ret;
      (split; [reflexivity|]); (split; [congruence|]);
      (split; [congruence|discriminate]).
Qed.

Lemma recognises_unit_expression add_expression m :
  recognises (operator_production ast_add) add_expression (pred m) ->
  recognises unit_production (unit_expression add_expression) m.
Proof.
  intros Hadd slot g Ht Hl Hm.
  destruct (remaining g) as [|a l] eqn:Er;
    [destruct (terminated_nonempty _ Ht); reflexivity|].
  unfold unit_expression. unfold bind at 1.
  rewrite (token_type_is_at g a l _ Er).
  destruct (token_type_eqb (type a) token_bracket_open) eqn:Eopen.
  - assert (Hna : is_terminator a = false)
      by (apply (not_terminator a _ Eopen); discriminate).
    rewrite <- Er in Ht.
    destruct (advance g a l Er Ht Hna) as (b & l' & -> & Enext & Ht1).
    unfold bind at 1. rewrite Enext.
    set (g1 := set_cursor l' (Some b) g).
    assert (Er1 : remaining g1 = b :: l') by reflexivity.
    assert (Hl1 : Forall lexed (remaining g1))
      by (rewrite Er1; inversion Hl; assumption).
    simpl in Hm.
    destruct (Hadd slot g1) as (s1 & t1 & g2 & w1 & E1 & Ew1 & Hne1 & Hd1);
      [rewrite Er1; exact Ht1|exact Hl1|rewrite Er1; simpl; lia|].
    unfold bind at 1. rewrite E1. rewrite Er1 in Ew1.
    destruct s1.
    + assert (Ht2 : terminated (remaining g2))
        by (apply (terminated_suffix w1); [rewrite <- Ew1; exact Ht1|exact Hne1]).
      destruct (remaining g2) as [|c l2] eqn:Er2; [contradiction|].
      unfold bind at 1. rewrite (token_type_is_at g2 c l2 _ Er2).
      destruct (token_type_eqb (type c) token_bracket_close) eqn:Eclose; cbn [negb].
      * assert (Hnc : is_terminator c = false)
          by (apply (not_terminator c _ Eclose); discriminate).
        rewrite <- Er2 in Ht2.
        destruct (advance g2 c l2 Er2 Ht2 Hnc) as (d & l3 & -> & Enext2 & Ht3).
        unfold bind. rewrite Enext2. unfold ret.
        exists SUCCESS, t1, (set_cursor l3 (Some d) g2), (a :: w1 ++ [c]).
        split; [reflexivity|].
        change (remaining (set_cursor l3 (Some d) g2)) with (d :: l3).
        split; [|split; [discriminate|]].
        -- simpl. rewrite <- app_assoc. simpl. congruence.
        -- intros _. apply derives_brackets;
             [apply token_type_eqb_eq; exact Eopen
             |apply token_type_eqb_eq; exact Eclose
             |apply Hd1; reflexivity].
      * unfold bind, eprint, ret.
        exists FAILURE, t1, (set_stderr (stderr g2 +:+ msg_expected_closing) g2), (a :: w1).
        split; [reflexivity|].
        change (remaining (set_stderr (stderr g2 +:+ msg_expected_closing) g2))
          with (remaining g2).
        rewrite Er2. split; [simpl; congruence|]. split; discriminate.
    + unfold ret. exists FAILURE, t1, g2, (a :: w1).
      split; [reflexivity|]. split; [simpl; congruence|].
      split; [exact Hne1|discriminate].
  - unfold bind at 1. rewrite (token_type_is_at g a l _ Er).
    destruct (token_type_eqb (type a) token_number) eqn:Enum.
    + assert (Hna : is_terminator a = false)
        by (apply (not_terminator a _ Enum); discriminate).
      apply token_type_eqb_eq in Enum.
      assert (Hlx : exists lx, lexeme a = Some lx).
      { inversion Hl as [|? ? Ha _]; subst. specialize (Ha Enum).
        destruct (lexeme a) as [lx|]; [exists lx; reflexivity|contradiction]. }
      destruct Hlx as [lx Hlx].
      unfold bind at 1. rewrite (active_lexeme_at g a l lx Er Hlx).
      rewrite <- Er in Ht.
      destruct (advance g a l Er Ht Hna) as (b & l' & -> & Enext & Ht1).
      unfold bind. rewrite Enext. unfold ret.
      exists SUCCESS, (ast_num (str_to_int lx)), (set_cursor l' (Some b) g), [a].
      split; [reflexivity|].
      change (remaining (set_cursor l' (Some b) g)) with (b :: l').
      split; [reflexivity|]. split; [discriminate|].
      intros _. apply derives_number; assumption.
    + assert (Hla : lexed a) by (inversion Hl; assumption).
      destruct (active_lexeme_head_at g a l Er Hla) as [c Ec].
      unfold bind at 1. rewrite Ec. unfold bind, eprint, ret.
      exists FAILURE, slot, (set_stderr (stderr g +:+ msg_expected_integer c) g), [].
      split; [reflexivity|].
      change (remaining (set_stderr (stderr g +:+ msg_expected_integer c) g))
        with (remaining g).
      rewrite Er. split; [reflexivity|]. split; discriminate.
Qed.

Lemma recognises_nothing p r : recognises p r 0.
Proof.
  intros slot g Ht _ Hm. apply terminated_nonempty in Ht.
  destruct (remaining g); [contradiction|simpl in Hm; lia].
Qed.

Lemma recognises_add_expression m :
  recognises (operator_production ast_add) (parser_parse_add_expression (S m)) m.
Proof.
  induction m as [|m IH]; [apply recognises_nothing|].
  cbn [parser_parse_add_expression].
  apply (recognises_left_associative ast_add).
  apply (recognises_left_associative ast_sub).
  apply (recognises_left_associative ast_mul).
  apply (recognises_left_associative ast_div).
  apply recognises_unit_expression. exact IH.
Qed.

(** ** The parser against the grammar: what it does with a sentence *)

Lemma routine_of_operator node_type n :
  routine_of (operator_production node_type) n =
  left_associative (operator_token node_type) node_type
    (routine_of (operand_production node_type) n) n.
Proof. destruct node_type; reflexivity. Qed.

Lemma level_operand_production node_type :
  level (operand_production node_type) = S (binding_strength node_type).
Proof. destruct node_type; reflexivity. Qed.

Lemma stops_le k k' a : (k <= k')%nat -> stops k a -> stops k' a.
Proof. intros Hk H node_type Hn. apply H. lia. Qed.

Lemma operator_token_inj a b : operator_token a = operator_token b -> a = b.
Proof. destruct a, b; simpl; congruence. Qed.

Lemma fold_operators_stops operator node_type operand fuel r tree g a l :
  remaining g = a :: l -> type a <> operator ->
  fold_operators operator node_type operand fuel r tree g = Returns ((r, tree), g).
Proof.
  intros Er Ha.
  assert (E : token_type_eqb (type a) operator = false).
  { destruct (token_type_eqb (type a) operator) eqn:E; [|reflexivity].
    apply token_type_eqb_eq in E. contradiction. }
  destruct fuel; cbn [fold_operators]; unfold bind;
    rewrite (token_type_is_at g a l _ Er), E; reflexivity.
Qed.

(** The whole routine of a production on one of its sentences, when the
    token after the sentence is no operator of the production's level or
    tighter. *)
Lemma completes_whole p w t :
  completes p w t ->
  forall n slot g a tail,
    (length w <= n)%nat ->
    remaining g = w ++ a :: tail ->
    stops (level p) a ->
    routine_of p n slot g = Returns ((SUCCESS, t), set_cursor tail (Some a) g).
Proof.
  intros H n slot g a tail Hn Er Ha.
  destruct p as [|node_type].
  - exact (H n slot g a tail Hn Er).
  - destruct (H n slot g a tail Hn Er) as (i & Hi & E).
    { apply (stops_le (binding_strength node_type)); [lia|exact Ha]. }
    rewrite routine_of_operator.
    replace n with (i + (n - i))%nat at 2 by lia.
    rewrite E.
    apply (fold_operators_stops _ _ _ _ _ _ _ a tail); [reflexivity|].
    apply Ha. simpl. lia.
Qed.

Lemma next_token_in g a w b tail :
  remaining g = a :: w ++ b :: tail ->
  exists x rest,
    w ++ b :: tail = x :: rest /\
    parser_get_next_token g = Returns (Some x, set_cursor rest (Some x) g).
Proof.
  intros Er. destruct (w ++ b :: tail) as [|x rest] eqn:E.
  - destruct w; discriminate.
  - exists x, rest. split; [reflexivity|]. exact (get_next_token_at g a x rest Er).
Qed.

Lemma derives_completes p w t : derives p w t -> completes p w t.
Proof.
  induction 1 as [tok l Htype Hlex
                 |open w close t Hopen Hclose _ IH
                 |node_type w t _ IH
                 |node_type w0 t0 tok w1 t1 Htok _ IH0 _ IH1];
    intros n slot g a tail Hn Er.
  - (* a number *)
    cbn [routine_of]. unfold parser_parse_unit_expression, unit_expression.
    unfold bind at 1. rewrite (token_type_is_at g tok (a :: tail) _ Er).
    rewrite Htype. cbn [token_type_eqb].
    unfold bind at 1. rewrite (token_type_is_at g tok (a :: tail) _ Er).
    rewrite Htype. cbn [token_type_eqb].
    unfold bind at 1. rewrite (active_lexeme_at g tok (a :: tail) l Er Hlex).
    unfold bind. rewrite (get_next_token_at g tok a tail Er). reflexivity.
  - (* an expression in brackets *)
    simpl in Er. rewrite <- app_assoc in Er. simpl in Er.
    rewrite length_cons, length_app in Hn. simpl in Hn.
    destruct n as [|n]; [lia|].
    cbn [routine_of]. unfold parser_parse_unit_expression, unit_expression.
    unfold bind at 1. rewrite (token_type_is_at g open _ _ Er).
    rewrite Hopen. cbn [token_type_eqb].
    destruct (next_token_in g open w close (a :: tail) Er) as (x & rest & Ew & Enext).
    unfold bind at 1. rewrite Enext.
    set (g1 := set_cursor rest (Some x) g).
    assert (Er1 : remaining g1 = w ++ close :: a :: tail) by (rewrite Ew; reflexivity).
    assert (Hstop : stops (level (operator_production ast_add)) close).
    { intros node_type _. rewrite Hclose. destruct node_type; discriminate. }
    pose proof (completes_whole _ _ _ IH n slot g1 close (a :: tail)
                  ltac:(lia) Er1 Hstop) as E1.
    cbn [routine_of] in E1.
    unfold bind at 1. rewrite E1.
    set (g2 := set_cursor (a :: tail) (Some close) g1).
    assert (Er2 : remaining g2 = close :: a :: tail) by reflexivity.
    unfold bind at 1. rewrite (token_type_is_at g2 close _ _ Er2).
    rewrite Hclose. cbn [token_type_eqb negb].
    unfold bind. rewrite (get_next_token_at g2 close a tail Er2). reflexivity.
  - (* an operand alone *)
    intros Ha. exists O. split; [lia|]. intros f. cbn [Nat.add].
    unfold left_associative, bind.
    rewrite (completes_whole _ _ _ IH n slot g a tail Hn Er);
      [reflexivity|].
    rewrite level_operand_production. exact Ha.
  - (* one more operator and operand *)
    intros Ha.
    rewrite <- app_assoc in Er. simpl in Er.
    rewrite length_app in Hn. simpl in Hn.
    destruct (IH0 n slot g tok (w1 ++ a :: tail) ltac:(lia) Er) as (i & Hi & E0).
    { intros node' Hlt Htype. rewrite Htok in Htype.
      apply operator_token_inj in Htype. subst node'. lia. }
    exists (S i). split; [rewrite length_app; simpl; lia|].
    intros f. replace (S i + f)%nat with (i + S f)%nat by lia.
    rewrite E0. clear E0.
    set (g1 := set_cursor (w1 ++ a :: tail) (Some tok) g).
    assert (Er1 : remaining g1 = tok :: w1 ++ a :: tail) by reflexivity.
    cbn [fold_operators]. unfold bind at 1.
    rewrite (token_type_is_at g1 tok _ _ Er1), Htok.
    replace (token_type_eqb (operator_token node_type) (operator_token node_type))
      with true by (destruct node_type; reflexivity).
    cbn [andb status_eqb].
    destruct (next_token_in g1 tok w1 a tail Er1) as (x & rest & Ew & Enext).
    unfold bind at 1. rewrite Enext.
    set (g2 := set_cursor rest (Some x) g1).
    assert (Er2 : remaining g2 = w1 ++ a :: tail) by (rewrite Ew; reflexivity).
    unfold bind at 1.
    rewrite (completes_whole _ _ _ IH1 n NULL g2 a tail ltac:(lia) Er2);
      [reflexivity|].
    rewrite level_operand_production. exact Ha.
Qed.

Lemma derives_first p w t :
  derives p w t ->
  exists x rest,
    w = x :: rest /\ (type x = token_number \/ type x = token_bracket_open).
Proof.
  induction 1 as [tok l Htype Hlex
                 |open w close t Hopen Hclose _ IH
                 |node_type w t _ IH
                 |node_type w0 t0 tok w1 t1 Htok _ IH0 _ IH1].
  - exists tok, []. auto.
  - exists open, (w ++ [close]). auto.
  - exact IH.
  - destruct IH0 as (x & rest & -> & Hx). exists x, (rest ++ tok :: w1). auto.
Qed.

Lemma get_next_token_returns g :
  exists tok g', parser_get_next_token g = Returns (tok, g') /\
                 stdout g' = stdout g /\ stderr g' = stderr g /\
                 callstack g' = callstack g /\ callstack_top g' = callstack_top g.
Proof.
  unfold parser_get_next_token. destruct (parser_next_token g); eexists; eexists;
    (split; [reflexivity|]); auto.
Qed.

Lemma is_terminator_type tok :
  is_terminator tok = true ->
  type tok = token_end_of_expression \/ type tok = token_end_of_file.
Proof.
  unfold is_terminator. intros H. apply orb_true_iff in H as [H|H];
    apply token_type_eqb_eq in H; auto.
Qed.

(** The parse of a sentence that is followed by a terminator. *)
Lemma parser_complete w t tok rest :
  derives (operator_production ast_add) w t ->
  is_terminator tok = true ->
  parses_to (S (length w)) (w ++ tok :: rest) t.
Proof.
  intros Hd Htok n g.
  destruct (derives_first _ _ _ Hd) as (x & w' & Ew & Hx).
  unfold parse_token_stream_into_ast.
  unfold bind at 1, parser_register_token_stream at 1.
  set (g0 := set_cursor (w ++ tok :: rest) (parser_active_token g) g).
  assert (Enext : parser_get_next_token g0 =
                  Returns (Some x, set_cursor (w' ++ tok :: rest) (Some x) g0)).
  { unfold parser_get_next_token. subst g0. simpl. rewrite Ew. reflexivity. }
  unfold bind at 1. rewrite Enext.
  set (g1 := set_cursor (w' ++ tok :: rest) (Some x) g0).
  assert (Er1 : remaining g1 = w ++ tok :: rest) by (rewrite Ew; reflexivity).
  unfold bind at 1. rewrite (token_type_is_at g1 x _ _ ltac:(rewrite Er1, Ew; reflexivity)).
  replace (token_type_eqb (type x) token_end_of_file) with false
    by (destruct Hx as [-> | ->]; reflexivity).
  cbn [negb]. unfold parser_parse_expression.
  assert (Hstop : stops (level (operator_production ast_add)) tok).
  { intros node_type _ Htype. apply is_terminator_type in Htok.
    rewrite Htype in Htok. destruct node_type, Htok; discriminate. }
  pose proof (completes_whole _ _ _ (derives_completes _ _ _ Hd)
                (length w + n)%nat NULL g1 tok rest ltac:(lia) Er1 Hstop) as E1.
  cbn [routine_of] in E1.
  change (S (length w) + n)%nat with (S (length w + n)).
  unfold bind at 1. rewrite E1.
  set (g2 := set_cursor rest (Some tok) g1).
  assert (Er2 : remaining g2 = tok :: rest) by reflexivity.
  assert (Eend : (is_eox <- token_type_is token_end_of_expression ;;
                  if is_eox then ret SUCCESS
                  else
                    is_eof <- token_type_is token_end_of_file ;;
                    if is_eof then ret SUCCESS
                    else
                      c <- active_lexeme_head ;;
                      eprint (msg_expected_end c) ;;;
                      ret FAILURE) g2 = Returns (SUCCESS, g2)).
  { unfold bind at 1. rewrite (token_type_is_at g2 tok rest _ Er2).
    apply is_terminator_type in Htok. destruct Htok as [Ht | Ht]; rewrite Ht;
      cbn [token_type_eqb]; [reflexivity|].
    unfold bind. rewrite (token_type_is_at g2 tok rest _ Er2), Ht. reflexivity. }
  unfold bind at 1. rewrite Eend.
  destruct (get_next_token_returns g2) as (tok' & g3 & E3 & Ho & He & Hc & Htop).
  unfold bind. rewrite E3. unfold ret.
  exists g3. split; [reflexivity|]. rewrite Ho, He, Hc, Htop. auto.
Qed.

(** ** Reading back what [printf] prints *)

Lemma strtol_digits_of_uint_acc d :
  forall acc,
    Z.pos (Pos.of_uint_acc d acc) =
    strtol_digits (NilEmpty.string_of_uint d) (Z.pos acc).
Proof.
  induction d; intros acc; cbn [Pos.of_uint_acc NilEmpty.string_of_uint strtol_digits];
    try reflexivity;
    change (isdigit _) with true; cbv iota; rewrite IHd; f_equal;
    match goal with
    | |- context [Z.of_nat (nat_of_ascii ?c)] =>
        let v := eval vm_compute in (Z.of_nat (nat_of_ascii c)) in
        change (Z.of_nat (nat_of_ascii c)) with v
    end; lia.
Qed.

Lemma strtol_digits_of_uint d :
  Z.of_N (Pos.of_uint d) = strtol_digits (NilEmpty.string_of_uint d) 0.
Proof.
  induction d; cbn [Pos.of_uint NilEmpty.string_of_uint strtol_digits];
    try reflexivity;
    change (isdigit _) with true; cbv iota;
    [exact IHd|..]; cbn [Z.of_N]; rewrite strtol_digits_of_uint_acc; reflexivity.
Qed.

Lemma all_digits_string_of_uint d : all_digits (NilEmpty.string_of_uint d) = true.
Proof. induction d; simpl; auto. Qed.

Lemma print_int_pos p :
  print_int (Z.pos p) = NilEmpty.string_of_uint (Pos.to_uint p).
Proof.
  unfold print_int. cbn [Z.to_int NilZero.string_of_int NilZero.string_of_uint].
  pose proof (DecimalPos.Unsigned.to_uint_nonnil p) as H.
  destruct (Pos.to_uint p); [contradiction|reflexivity..].
Qed.

(** What is printed for a number that is not negative: digits only, and
    at least one. *)
Lemma print_int_digits v :
  0 <= v -> all_digits (print_int v) = true /\ print_int v <> "".
Proof.
  intros Hv. destruct v as [|p|p]; [split; [reflexivity|discriminate]| |lia].
  rewrite print_int_pos. split; [apply all_digits_string_of_uint|].
  pose proof (DecimalPos.Unsigned.to_uint_nonnil p) as H.
  destruct (Pos.to_uint p); [contradiction|discriminate..].
Qed.

Lemma strtol_digits_print_int v : 0 <= v -> strtol_digits (print_int v) 0 = v.
Proof.
  intros Hv. destruct v as [|p|p]; [reflexivity| |lia].
  rewrite print_int_pos, <- strtol_digits_of_uint, DecimalPos.Unsigned.of_to.
  reflexivity.
Qed.

Lemma all_digits_prefix s : all_digits s = true -> digit_prefix s = s.
Proof.
  induction s as [|c s IH]; [reflexivity|]. simpl.
  intros H. apply andb_true_iff in H as [Hc Hs]. rewrite Hc, IH by exact Hs.
  reflexivity.
Qed.

Lemma strtol_print_int v : 0 <= v <= LONG_MAX -> strtol (print_int v) = v.
Proof.
  intros [Hv Hmax].
  destruct (print_int_digits v Hv) as [Hd Hne].
  pose proof (strtol_digits_print_int v Hv) as E.
  destruct (print_int v) as [|c s] eqn:Es; [contradiction|].
  simpl in Hd. apply andb_true_iff in Hd as [Hc _].
  destruct (isdigit_plain c Hc) as (Hsp & Hminus & Hplus & _).
  cbn [strtol]. rewrite Hsp, Hminus, Hplus, E. lia.
Qed.

Lemma str_to_int_print_int v : 0 <= v <= INT_MAX -> str_to_int (print_int v) = v.
Proof.
  intros Hv. unfold str_to_int.
  rewrite strtol_print_int by (unfold INT_MAX, LONG_MAX in *; lia).
  apply wrap_int_in_range. unfold INT_MIN, INT_MAX in *. lia.
Qed.

(** ** The parser on whole streams *)

(** On a terminated stream whose numbers have their lexemes, a budget of
    one more than the number of tokens is enough for the parse to return;
    when it succeeds, either the first token is the end of file and the
    slot is left alone, or the tokens before some terminator are a
    sentence of [add_expression] and the tree is the one it stands for. *)
Lemma parser_recognises stream slot g n :
  terminated stream -> Forall lexed stream ->
  exists s t g',
    parse_token_stream_into_ast (S (length stream) + n) stream slot g
      = Returns ((s, t), g') /\
    (s = SUCCESS ->
     (exists tok rest,
        stream = tok :: rest /\ type tok = token_end_of_file /\ t = slot) \/
     (exists w tok rest,
        stream = w ++ tok :: rest /\
        derives (operator_production ast_add) w t /\
        is_terminator tok = true)).
Proof.
  intros Ht Hl.
  destruct stream as [|x rest]; [destruct (terminated_nonempty _ Ht); reflexivity|].
  unfold parse_token_stream_into_ast.
  unfold bind at 1, parser_register_token_stream at 1.
  set (g0 := set_cursor (x :: rest) (parser_active_token g) g).
  unfold bind at 1.
  change (parser_get_next_token g0) with (Returns (Some x, set_cursor rest (Some x) g0)).
  cbv iota beta.
  set (g1 := set_cursor rest (Some x) g0).
  assert (Er1 : remaining g1 = x :: rest) by reflexivity.
  unfold bind at 1. rewrite (token_type_is_at g1 x rest _ Er1).
  destruct (token_type_eqb (type x) token_end_of_file) eqn:Eeof; cbn [negb].
  - exists SUCCESS, slot, g1. split; [reflexivity|]. intros _. left.
    exists x, rest. apply token_type_eqb_eq in Eeof. auto.
  - unfold parser_parse_expression.
    destruct (recognises_add_expression (length (x :: rest) + n) slot g1)
      as (s1 & t1 & g2 & w & E1 & Ew & Hne & Hd);
      [rewrite Er1; exact Ht|rewrite Er1; exact Hl|rewrite Er1; lia|].
    change (S (length (x :: rest)) + n)%nat with (S (length (x :: rest) + n)).
    unfold bind at 1. rewrite E1.
    rewrite Er1 in Ew.
    destruct (remaining g2) as [|c l2] eqn:Er2; [contradiction|].
    destruct s1.
    + unfold bind at 1. unfold bind at 1.
      rewrite (token_type_is_at g2 c l2 _ Er2).
      assert (Hresult :
        forall g3, remaining g3 = c :: l2 ->
                   is_terminator c = true ->
        exists s t g',
          (parser_get_next_token ;;; ret (SUCCESS, t1)) g3 = Returns ((s, t), g') /\
          (s = SUCCESS ->
           (exists tok rest0,
              x :: rest = tok :: rest0 /\ type tok = token_end_of_file /\ t = slot) \/
           (exists w0 tok rest0,
              x :: rest = w0 ++ tok :: rest0 /\
              derives (operator_production ast_add) w0 t /\
              is_terminator tok = true))).
      { intros g3 Er3 Hc.
        destruct (get_next_token_returns g3) as (tok' & g4 & E4 & _).
        unfold bind. rewrite E4. unfold ret.
        exists SUCCESS, t1, g4. split; [reflexivity|]. intros _. right.
        exists w, c, l2. split; [exact Ew|]. split; [apply Hd; reflexivity|exact Hc]. }
      destruct (token_type_eqb (type c) token_end_of_expression) eqn:Eeox.
      * unfold ret at 1. apply (Hresult g2 Er2).
        unfold is_terminator. rewrite Eeox. reflexivity.
      * unfold bind at 1. rewrite (token_type_is_at g2 c l2 _ Er2).
        destruct (token_type_eqb (type c) token_end_of_file) eqn:Eeof2.
        -- unfold ret at 1. apply (Hresult g2 Er2).
           unfold is_terminator. rewrite Eeof2. apply orb_true_r.
        -- assert (Hlc : lexed c).
           { rewrite Ew in Hl. apply Forall_app in Hl as [_ H]. inversion H; assumption. }
           destruct (active_lexeme_head_at g2 c l2 Er2 Hlc) as [ch Ech].
           unfold bind at 1. rewrite Ech.
           unfold bind at 1, eprint at 1. unfold ret at 1.
           destruct (get_next_token_returns
                       (set_stderr (stderr g2 +:+ msg_expected_end ch) g2))
             as (tok' & g4 & E4 & _).
           unfold bind. rewrite E4. unfold ret.
           exists FAILURE, t1, g4. split; [reflexivity|discriminate].
    + unfold bind at 1. unfold ret at 1.
      destruct (get_next_token_returns g2) as (tok' & g4 & E4 & _).
      unfold bind. rewrite E4. unfold ret.
      exists FAILURE, t1, g4. split; [reflexivity|discriminate].
Qed.

(** A stream that is one opening bracket: the cursor cannot move past its
    last token, and the routines call each other without end. *)
Lemma parser_parse_add_expression_diverges fuel :
  forall slot g x,
    remaining g = [x] -> type x = token_bracket_open ->
    parser_parse_add_expression fuel slot g = Out_of_fuel.
Proof.
  induction fuel as [|fuel IH]; intros slot g x Er Hx; [reflexivity|].
  cbn [parser_parse_add_expression].
  assert (Eunit : unit_expression (parser_parse_add_expression fuel) slot g = Out_of_fuel).
  { unfold unit_expression, bind.
    rewrite (token_type_is_at g x [] _ Er), Hx. cbn [token_type_eqb].
    destruct (remaining_cons g x [] Er) as [Ha En].
    unfold parser_get_next_token. rewrite En.
    rewrite (IH slot g x Er Hx). reflexivity. }
  unfold left_associative, bind. rewrite Eunit. reflexivity.
Qed.

(** X4.  The parser returns on every terminated stream.  When the last
    token of the stream is the end of the expression or of the file, and
    every number token has its lexeme, the parse returns a status: it
    neither dereferences NULL nor recurses without end, and a budget of
    one more than the number of tokens is enough.  The termination of the
    stream is needed: on the stream that is a lone opening bracket the
    routines call each other for ever. *)
Theorem parser_returns stream slot g n :
  terminated stream -> Forall lexed stream ->
  (exists s t g',
     parse_token_stream_into_ast (S (length stream) + n) stream slot g
       = Returns ((s, t), g')) /\
  (forall fuel x,
     type x = token_bracket_open ->
     parse_token_stream_into_ast fuel [x] slot g = Out_of_fuel).
Proof.
  intros Ht Hl. split.
  - destruct (parser_recognises stream slot g n Ht Hl) as (s & t & g' & E & _).
    exists s, t, g'. exact E.
  - intros fuel x Hx. unfold parse_token_stream_into_ast.
    unfold bind at 1, parser_register_token_stream at 1.
    set (g0 := set_cursor [x] (parser_active_token g) g).
    unfold bind at 1.
    change (parser_get_next_token g0) with (Returns (Some x, set_cursor [] (Some x) g0)).
    cbv iota beta.
    set (g1 := set_cursor [] (Some x) g0).
    assert (Er1 : remaining g1 = [x]) by reflexivity.
    unfold bind at 1. rewrite (token_type_is_at g1 x [] _ Er1), Hx.
    cbn [token_type_eqb negb].
    unfold parser_parse_expression, bind.
    rewrite (parser_parse_add_expression_diverges fuel slot g1 x Er1 Hx).
    reflexivity.
Qed.

Lemma parser_returns_witness :
  exists s t g',
    parse_token_stream_into_ast 5
      [number "1"; symbol token_plus; symbol token_times; symbol token_end_of_expression]
      NULL initial_globals = Returns ((s, t), g').
Proof.
  refine (proj1 (parser_returns
                   [number "1"; symbol token_plus; symbol token_times;
                    symbol token_end_of_expression] NULL initial_globals 0 _ _)).
  - exists [number "1"; symbol token_plus; symbol token_times],
           (symbol token_end_of_expression).
    split; reflexivity.
  - repeat constructor; discriminate.
Defined.

(** X5.  The parser accepts only sentences of the grammar.  If the parse
    of a terminated stream succeeds, then either the stream begins with the
    end-of-file token and the slot is left alone, or the stream is a
    sentence of [add_expression] followed by a terminator, and the tree
    built is the one that the sentence stands for, each operator production
    read as left recursive. *)
Theorem parser_accepts_only_sentences fuel stream slot g t g' :
  terminated stream -> Forall lexed stream ->
  parse_token_stream_into_ast fuel stream slot g = Returns ((SUCCESS, t), g') ->
  (exists tok rest,
     stream = tok :: rest /\ type tok = token_end_of_file /\ t = slot) \/
  (exists w tok rest,
     stream = w ++ tok :: rest /\
     derives (operator_production ast_add) w t /\
     is_terminator tok = true).
Proof.
  intros Ht Hl H.
  destruct (parser_recognises stream slot g fuel Ht Hl) as (s & t0 & g0 & E & Hs).
  rewrite (parse_token_stream_into_ast_more_fuel fuel (S (length stream)))
    in E by (rewrite H; discriminate).
  rewrite H in E. inversion E; subst. apply Hs. reflexivity.
Qed.

Lemma parser_accepts_only_sentences_witness :
  exists w tok rest,
    [number "1"; symbol token_minus; number "2"; symbol token_end_of_expression]
      = w ++ tok :: rest /\
    derives (operator_production ast_add) w
      (ast_op ast_sub (ast_num 1) (ast_num 2)) /\
    is_terminator tok = true.
Proof.
  edestruct (parser_accepts_only_sentences 8
               [number "1"; symbol token_minus; number "2"; symbol token_end_of_expression]
               NULL initial_globals (ast_op ast_sub (ast_num 1) (ast_num 2)))
    as [(tok & rest & E & Htok & _)|H].
  - exists [number "1"; symbol token_minus; number "2"],
           (symbol token_end_of_expression).
    split; reflexivity.
  - repeat constructor; discriminate.
  - reflexivity.
  - inversion E; subst. discriminate Htok.
  - exact H.
Defined.

(** X6.  The parser accepts every sentence of the grammar.  A sentence of
    [add_expression] that is followed by the end of the expression or of
    the file parses, with a budget of one more than its number of tokens,
    into the tree that it stands for, and nothing is reported. *)
Theorem parser_accepts_every_sentence w t tok rest :
  derives (operator_production ast_add) w t ->
  is_terminator tok = true ->
  parses_to (S (length w)) (w ++ tok :: rest) t.
Proof. exact (parser_complete w t tok rest). Qed.

Lemma parser_accepts_every_sentence_witness :
  parses_to 2 [number "7"; symbol token_end_of_expression] (ast_num 7).
Proof.
  apply (parser_accepts_every_sentence [number "7"] (ast_num 7)
           (symbol token_end_of_expression) []).
  - apply (derives_operand ast_add), (derives_operand ast_sub),
      (derives_operand ast_mul), (derives_operand ast_div).
    exact (derives_number (number "7") "7" eq_refl eq_refl).
  - reflexivity.
Defined.

(** ** From a tree to its tokens and back *)

Lemma derives_from_unit p w t : derives unit_production w t -> derives p w t.
Proof.
  intros H. destruct p as [|[]]; [exact H|..].
  - apply (derives_operand ast_add), (derives_operand ast_sub),
      (derives_operand ast_mul), (derives_operand ast_div), H.
  - apply (derives_operand ast_sub), (derives_operand ast_mul),
      (derives_operand ast_div), H.
  - apply (derives_operand ast_div), H.
  - apply (derives_operand ast_mul), (derives_operand ast_div), H.
Qed.

Lemma derives_to_add node_type w t :
  derives (operator_production node_type) w t ->
  derives (operator_production ast_add) w t.
Proof.
  intros H. destruct node_type; [exact H|..].
  - apply (derives_operand ast_add), H.
  - apply (derives_operand ast_add), (derives_operand ast_sub),
      (derives_operand ast_mul), H.
  - apply (derives_operand ast_add), (derives_operand ast_sub), H.
Qed.

Lemma derives_unparse t :
  well_formed t -> literal_leaves t ->
  derives (operator_production ast_add) (unparse t) t.
Proof.
  induction t as [|value|node_type c0 IH0 c1 IH1]; intros Hwf Hl.
  - destruct Hwf.
  - apply derives_from_unit. cbn [unparse].
    rewrite <- (str_to_int_print_int value Hl) at 2.
    exact (derives_number (number (print_int value)) (print_int value) eq_refl eq_refl).
  - destruct Hwf as [Hwf0 Hwf1], Hl as [Hl0 Hl1].
    specialize (IH0 Hwf0 Hl0). specialize (IH1 Hwf1 Hl1).
    assert (Hoperand :
      forall c, well_formed c -> literal_leaves c ->
        derives (operator_production ast_add) (unparse c) c ->
        derives unit_production
          (match c with
           | ast_op _ _ _ =>
               symbol token_bracket_open :: unparse c ++ [symbol token_bracket_close]
           | _ => unparse c
           end) c).
    { intros c Hwf Hl Hc. destruct c as [|v|o a b].
      - destruct Hwf.
      - cbn [unparse]. simpl in Hl.
        rewrite <- (str_to_int_print_int v Hl) at 2.
        exact (derives_number (number (print_int v)) (print_int v) eq_refl eq_refl).
      - apply derives_brackets; [reflexivity|reflexivity|exact Hc]. }
    cbn [unparse].
    apply (derives_to_add node_type).
    apply derives_operator; [reflexivity| |].
    + apply derives_from_unit, Hoperand; assumption.
    + apply derives_from_unit, Hoperand; assumption.
Qed.

(** X7.  From a tree to its tokens and back.  Write a tree as tokens,
    each leaf by the digits of its value and each operand that is itself
    an operation in brackets: provided the tree is well formed and its
    leaves are between 0 and [INT_MAX], the parser, given these tokens and
    the end of the expression, builds that very tree. *)
Theorem unparse_then_parse t :
  well_formed t -> literal_leaves t ->
  parses_to (S (length (unparse t)))
    (unparse t ++ [symbol token_end_of_expression]) t.
Proof.
  intros Hwf Hl. apply parser_complete; [|reflexivity].
  apply derives_unparse; assumption.
Qed.

Lemma unparse_then_parse_witness :
  parses_to 8
    [symbol token_bracket_open; number "2"; symbol token_plus; number "3";
     symbol token_bracket_close; symbol token_times; number "4";
     symbol token_end_of_expression]
    (ast_op ast_mul (ast_op ast_add (ast_num 2) (ast_num 3)) (ast_num 4)).
Proof.
  apply (unparse_then_parse
           (ast_op ast_mul (ast_op ast_add (ast_num 2) (ast_num 3)) (ast_num 4))).
  - simpl. tauto.
  - simpl. unfold INT_MAX. lia.
Defined.

(** ** The tokenizer against the lexical structure of the line *)

Lemma length_append s t :
  String.length (s +:+ t) = (String.length s + String.length t)%nat.
Proof. induction s as [|c s IH]; [reflexivity|]. rewrite append_cons. simpl. lia. Qed.

Lemma append_snoc s c t : (s +:+ str c) +:+ t = s +:+ String c t.
Proof. rewrite append_assoc. reflexivity. Qed.

Lemma strndup_returns_nul n :
  forall s z, String.get z s = Some NUL -> exists l, strndup s n = Returns l.
Proof.
  induction n as [|n IH]; intros s z Hz; [exists ""; reflexivity|].
  destruct s as [|c s]; [discriminate Hz|].
  cbn [strndup]. destruct (Ascii.eqb c NUL) eqn:Ec; [exists ""; reflexivity|].
  destruct z as [|z].
  - simpl in Hz. inversion Hz; subst. rewrite Ascii.eqb_refl in Ec. discriminate.
  - simpl in Hz. destruct (IH s z Hz) as [l ->]. eexists; reflexivity.
Qed.

Lemma strndup_returns_length n :
  forall s, (n <= String.length s)%nat -> exists l, strndup s n = Returns l.
Proof.
  induction n as [|n IH]; intros s Hn; [exists ""; reflexivity|].
  destruct s as [|c s]; [simpl in Hn; lia|].
  cbn [strndup]. destruct (Ascii.eqb c NUL); [exists ""; reflexivity|].
  simpl in Hn. destruct (IH s ltac:(lia)) as [l ->]. eexists; reflexivity.
Qed.

Lemma digit_prefix_digits ds c rest :
  all_digits ds = true -> isdigit c = false ->
  digit_prefix (ds +:+ String c rest) = ds.
Proof.
  induction ds as [|d ds IH]; intros Hds Hc.
  - rewrite append_nil_l. simpl. rewrite Hc. reflexivity.
  - simpl in Hds. apply andb_true_iff in Hds as [Hd Hds].
    rewrite append_cons. simpl. rewrite Hd, IH by assumption. reflexivity.
Qed.

Lemma all_digits_app a b :
  all_digits a = true -> all_digits b = true -> all_digits (a +:+ b) = true.
Proof.
  induction a as [|c a IH]; intros Ha Hb; [exact Hb|].
  simpl in Ha. apply andb_true_iff in Ha as [Hc Ha].
  rewrite append_cons. simpl. rewrite Hc, IH by assumption. reflexivity.
Qed.

(** A run of digits is read into the number under way. *)
Lemma scan_digits ds :
  forall rest run,
    all_digits ds = true -> scan (ds +:+ rest) run = scan rest (run +:+ ds).
Proof.
  induction ds as [|d ds IH]; intros rest run Hds.
  - rewrite append_nil_l, append_nil_r. reflexivity.
  - simpl in Hds. apply andb_true_iff in Hds as [Hd Hds].
    rewrite append_cons. cbn [scan]. rewrite Hd, IH by exact Hds.
    rewrite append_snoc. reflexivity.
Qed.

(** Before a character that is no digit the number under way is complete. *)
Lemma scan_flush c rest run :
  isdigit c = false ->
  scan (String c rest) run = option_map (app (flush run)) (scan (String c rest) "").
Proof.
  intros Hc. cbn [scan]. rewrite Hc.
  destruct (isspace c && negb (Ascii.eqb c LF)).
  - destruct (scan rest ""); reflexivity.
  - destruct (single_character_token c); [|reflexivity].
    destruct (scan rest ""); reflexivity.
Qed.

Lemma ends_line_tail c s : ends_line (String c s) = true -> ends_line s = true.
Proof. destruct s; [reflexivity|]. intros H. exact H. Qed.

(** In a text that ends with a character that is no digit, every run of
    digits is followed by such a character. *)
Lemma ends_line_split s :
  ends_line s = true -> s <> "" ->
  exists ds c rest,
    s = ds +:+ String c rest /\ all_digits ds = true /\ isdigit c = false.
Proof.
  induction s as [|a s IH]; intros He Hne; [contradiction|].
  destruct (isdigit a) eqn:Ea.
  - destruct s as [|b s].
    + simpl in He. rewrite Ea in He. discriminate.
    + destruct (IH He ltac:(discriminate)) as (ds & c & rest & E & Hds & Hc).
      exists (String a ds), c, rest. rewrite append_cons, <- E.
      split; [reflexivity|]. split; [simpl; rewrite Ea, Hds; reflexivity|exact Hc].
  - exists "", a, s. auto.
Qed.

Lemma ends_line_app ds c rest :
  ends_line (ds +:+ String c rest) = true -> ends_line (String c rest) = true.
Proof.
  induction ds as [|d ds IH]; [rewrite append_nil_l; auto|].
  rewrite append_cons. intros H. apply ends_line_tail in H. exact (IH H).
Qed.

Lemma get_nul_from pre s z :
  (String.length pre <= z)%nat ->
  String.get z (pre +:+ s) = Some NUL ->
  String.get (z - String.length pre) s = Some NUL.
Proof.
  intros Hz H. replace z with (String.length pre + (z - String.length pre))%nat in H by lia.
  rewrite get_app_skip in H. exact H.
Qed.

(** The loop of the tokenizer from any point of the line on: [pre] is the
    part of the line behind the index, [rest] the part ahead, [tail] the
    bytes of the buffer after the line. *)
Lemma tokenize_loop_scan n :
  forall pre rest tail lexeme_length list g,
    (String.length rest <= n)%nat ->
    source_file_line g = pre +:+ rest +:+ tail ->
    source_file_line_occupied_size g = (String.length pre + String.length rest)%nat ->
    ends_line rest = true ->
    (1 <= lexeme_length)%nat ->
    ((exists z, String.get z tail = Some NUL) \/
     ((lexeme_length <= S (String.length pre))%nat /\
      (2 * source_file_line_occupied_size g <= String.length (source_file_line g))%nat)) ->
    match scan rest "" with
    | Some items =>
        exists toks,
          tokenize_loop n (String.length pre) lexeme_length list g
            = Returns ((SUCCESS, list ++ toks), g) /\
          Forall2 reads toks items
    | None =>
        exists l g',
          tokenize_loop n (String.length pre) lexeme_length list g
            = Returns ((FAILURE, l), g') /\
          stdout g' = stdout g
    end.
Proof.
  induction n as [|n IH]; intros pre rest tail L list g Hn Hbuf Hsize Hends HL Hfit.
  - destruct rest; [|simpl in Hn; lia].
    cbn [scan flush]. exists []. rewrite app_nil_r.
    split; [apply tokenize_loop_done; simpl in Hsize; lia|constructor].
  - destruct rest as [|c rest].
    { cbn [scan flush]. exists []. rewrite app_nil_r.
      split; [apply tokenize_loop_done; simpl in Hsize; lia|constructor]. }
    simpl in Hn, Hsize.
    assert (Hi : (String.length pre < source_file_line_occupied_size g)%nat) by lia.
    assert (Hget : String.get (String.length pre) (source_file_line g) = Some c).
    { rewrite Hbuf, append_cons. apply get_length_app. }
    assert (Hbuf' : source_file_line g = (pre +:+ str c) +:+ rest +:+ tail).
    { rewrite Hbuf, append_cons, append_snoc. reflexivity. }
    assert (Hlen' : String.length (pre +:+ str c) = S (String.length pre)).
    { rewrite length_append. simpl. lia. }
    assert (Hsize' : source_file_line_occupied_size g =
                     (String.length (pre +:+ str c) + String.length rest)%nat)
      by (rewrite Hlen'; lia).
    assert (Hfit' : (exists z, String.get z tail = Some NUL) \/
                    ((L <= S (String.length (pre +:+ str c)))%nat /\
                     (2 * source_file_line_occupied_size g
                      <= String.length (source_file_line g))%nat)).
    { destruct Hfit as [H|[H1 H2]]; [left; exact H|right; split; [lia|exact H2]]. }
    pose proof (ends_line_tail _ _ Hends) as Hends'.
    destruct (isdigit c) eqn:Ed.
    + (* a number *)
      destruct rest as [|b rest0]; [simpl in Hends; rewrite Ed in Hends; discriminate|].
      destruct (ends_line_split (String b rest0) Hends' ltac:(discriminate))
        as (ds & c' & rest' & Erest & Hds & Hc').
      pose proof (ends_line_app ds c' rest' ltac:(rewrite <- Erest; exact Hends')) as Hends2.
      rewrite Erest in *. clear Erest b rest0.
      assert (Hscan : scan_number (string_from (S (String.length pre)) (source_file_line g))
                        (String.length pre) L
                      = Returns (S (String.length pre + String.length ds),
                                 L + String.length ds)%nat).
      { rewrite Hbuf'. rewrite <- Hlen', string_from_app.
        rewrite append_assoc, append_cons.
        apply scan_number_digits; assumption. }
      assert (Hfrom : string_from (String.length pre) (source_file_line g) =
                      String c ds +:+ String c' (rest' +:+ tail)).
      { rewrite Hbuf, string_from_app. rewrite append_cons, append_assoc, append_cons.
        rewrite append_cons. reflexivity. }
      assert (Hdup : exists l,
                 strndup (string_from (String.length pre) (source_file_line g))
                   (L + String.length ds) = Returns l).
      { rewrite Hfrom. destruct Hfit as [[z Hz]|[H1 H2]].
        - apply (strndup_returns_nul _ _
                   (String.length (String c ds +:+ String c' rest') + z)).
          rewrite <- append_cons, <- append_assoc. rewrite get_app_skip. exact Hz.
        - apply strndup_returns_length.
          rewrite Hbuf in H2. rewrite !length_append in H2.
          rewrite length_append. simpl in *. rewrite !length_append in *.
          simpl in *. lia. }
      destruct Hdup as [l Hdup].
      assert (Hprefix : digit_prefix l = String c ds).
      { rewrite (strndup_digit_prefix _ _ _ Hdup); rewrite Hfrom.
        - apply digit_prefix_digits; [simpl; rewrite Ed, Hds; reflexivity|exact Hc'].
        - rewrite digit_prefix_digits
            by (try (simpl; rewrite Ed, Hds; reflexivity); exact Hc').
          simpl. lia. }
      rewrite (tokenize_loop_number n _ L list g c _ _ l Hi Hget Ed Hscan Hdup).
      (* the rest of the line *)
      assert (Hspec : scan (String c (ds +:+ String c' rest')) "" =
                      option_map (app [item_number (String c ds)])
                                 (scan (String c' rest') "")).
      { cbn [scan]. rewrite Ed, append_nil_l.
        rewrite scan_digits by exact Hds.
        rewrite scan_flush by exact Hc'. reflexivity. }
      rewrite Hspec.
      assert (Hlenp : String.length (pre +:+ String c ds)
                      = S (String.length pre + String.length ds)).
      { rewrite length_append. simpl. lia. }
      pose proof (IH (pre +:+ String c ds) (String c' rest') tail
                     (L + String.length ds)%nat (list ++ [number l]) g) as Hrec.
      rewrite Hlenp in Hrec.
      assert (H1 : (String.length (String c' rest') <= n)%nat).
      { rewrite length_append in Hn. simpl in Hn |- *. lia. }
      assert (H2 : source_file_line g =
                   (pre +:+ String c ds) +:+ String c' rest' +:+ tail).
      { rewrite Hbuf. rewrite !append_assoc, !append_cons, !append_assoc.
        reflexivity. }
      assert (H3 : source_file_line_occupied_size g =
                   (S (String.length pre + String.length ds)
                    + String.length (String c' rest'))%nat).
      { rewrite Hsize. rewrite length_append. simpl. lia. }
      assert (H5 : (1 <= L + String.length ds)%nat) by lia.
      assert (H6 : (exists z, String.get z tail = Some NUL) \/
                   ((L + String.length ds <= S (S (String.length pre + String.length ds)))%nat /\
                    (2 * source_file_line_occupied_size g
                     <= String.length (source_file_line g))%nat)).
      { destruct Hfit as [H|[Ha Hb]]; [left; exact H|right; split; [lia|exact Hb]]. }
      specialize (Hrec H1 H2 H3 Hends2 H5 H6).
      destruct (scan (String c' rest') "") as [items|] eqn:Eitems.
      * simpl. destruct Hrec as (toks & E & F). exists (number l :: toks).
        rewrite <- app_assoc in E. split; [exact E|].
        constructor; [exists l; auto|exact F].
      * simpl. exact Hrec.
    + cbn [scan]. rewrite Ed.
      destruct (isspace c && negb (Ascii.eqb c LF)) eqn:Esp.
      * (* white space *)
        rewrite (tokenize_loop_space n _ L list g c Hi Hget Esp).
        specialize (IH (pre +:+ str c) rest tail L list g ltac:(lia) Hbuf' Hsize'
                       Hends' HL Hfit').
        rewrite Hlen' in IH.
        destruct (scan rest "") as [items|]; exact IH.
      * destruct (single_character_token c) as [t|] eqn:Et.
        -- (* a symbol *)
           rewrite (tokenize_loop_symbol n _ L list g c t Hi Hget Esp Et).
           specialize (IH (pre +:+ str c) rest tail L (list ++ [symbol t]) g
                          ltac:(lia) Hbuf' Hsize' Hends' HL Hfit').
           rewrite Hlen' in IH.
           destruct (scan rest "") as [items|]; simpl.
           ++ destruct IH as (toks & E & F). exists (symbol t :: toks).
              rewrite <- app_assoc in E. split; [exact E|].
              constructor; [reflexivity|exact F].
           ++ exact IH.
        -- (* an unexpected character *)
           assert (Hsp : isspace c = false).
           { destruct (isspace c) eqn:E; [|reflexivity].
             simpl in Esp. apply negb_false_iff, Ascii.eqb_eq in Esp. subst c.
             discriminate Et. }
           rewrite (tokenize_loop_unexpected n _ L list g c Hi Hget Hsp Et Ed).
           destruct (report_unexpected_character_spec (String.length pre) c g Hi)
             as (g' & E & Ho & _).
           { rewrite Hbuf, !length_append. simpl. lia. }
           unfold bind. rewrite E. unfold ret.
           exists list, g'. auto.
Qed.

Lemma substring_string_from n :
  forall s, (n <= String.length s)%nat -> s = substring 0 n s +:+ string_from n s.
Proof.
  induction n as [|n IH]; intros s Hn.
  - rewrite substring_zero, append_nil_l. reflexivity.
  - destruct s as [|c s]; [simpl in Hn; lia|].
    simpl in Hn. cbn [substring string_from]. rewrite append_cons.
    f_equal. apply IH. lia.
Qed.

Lemma line_read_length g :
  (source_file_line_occupied_size g <= String.length (source_file_line g))%nat ->
  String.length (line_read g) = source_file_line_occupied_size g.
Proof. intros H. unfold line_read. apply length_substring. simpl. exact H. Qed.

(** The tokenizer on a line that ends with a character that is no digit,
    when the copies of the lexemes fit: its tokens stand, one by one, for
    the lexical items of the line, and it fails when there are none. *)
Lemma tokenizer_scan list g :
  (source_file_line_occupied_size g <= String.length (source_file_line g))%nat ->
  ends_line (line_read g) = true ->
  lexemes_fit g ->
  match lexical_items (line_read g) with
  | Some items =>
      exists toks,
        tokenize_source_line_and_add_to_list list g
          = Returns ((SUCCESS, list ++ toks), g) /\
        Forall2 reads toks items
  | None =>
      exists l g',
        tokenize_source_line_and_add_to_list list g = Returns ((FAILURE, l), g') /\
        stdout g' = stdout g
  end.
Proof.
  intros Hsize Hends Hfit.
  pose proof (line_read_length g Hsize) as Hlen.
  pose proof (substring_string_from _ _ Hsize) as Hbuf. fold (line_read g) in Hbuf.
  unfold tokenize_source_line_and_add_to_list, lexical_items.
  apply (tokenize_loop_scan (source_file_line_occupied_size g) ""
           (line_read g) (string_from (source_file_line_occupied_size g) (source_file_line g))
           1 list g).
  - lia.
  - rewrite append_nil_l. exact Hbuf.
  - simpl. lia.
  - exact Hends.
  - lia.
  - destruct Hfit as [(z & Hz & Hnul)|H]; [left|right; split; [simpl; lia|exact H]].
    exists (z - source_file_line_occupied_size g)%nat.
    rewrite get_string_from. replace (_ + _)%nat with z by lia. exact Hnul.
Qed.

(** The items of a text: never more than its characters, numbers have at
    least one digit, and a newline at the end ends the expression. *)
Lemma scan_length s :
  forall run items,
    scan s run = Some items ->
    (length items <= String.length s + length (flush run))%nat.
Proof.
  induction s as [|c s IH]; intros run items H.
  - simpl in H. inversion H; subst. simpl. lia.
  - cbn [scan] in H. destruct (isdigit c).
    + apply IH in H. simpl.
      assert (length (flush (run +:+ str c)) <= 1)%nat
        by (destruct (run +:+ str c); simpl; lia).
      lia.
    + destruct (isspace c && negb (Ascii.eqb c LF)).
      * destruct (scan s "") as [items'|] eqn:E; [|discriminate].
        simpl in H. inversion H; subst. apply IH in E. rewrite length_app.
        simpl in *. lia.
      * destruct (single_character_token c); [|discriminate].
        destruct (scan s "") as [items'|] eqn:E; [|discriminate].
        simpl in H. inversion H; subst. apply IH in E. rewrite length_app.
        simpl in *. lia.
Qed.

Lemma flush_snoc run c : flush (run +:+ str c) = [item_number (run +:+ str c)].
Proof. destruct run; reflexivity. Qed.

Lemma scan_newline s :
  forall run items,
    scan (s +:+ str LF) run = Some items ->
    exists items', items = items' ++ [item_symbol token_end_of_expression].
Proof.
  induction s as [|c s IH]; intros run items H.
  - rewrite append_nil_l in H. cbn in H. inversion H; subst.
    exists (flush run). reflexivity.
  - rewrite append_cons in H. cbn [scan] in H. destruct (isdigit c).
    + exact (IH _ _ H).
    + destruct (isspace c && negb (Ascii.eqb c LF)).
      * destruct (scan (s +:+ str LF) "") as [items0|] eqn:E; [|discriminate].
        simpl in H. inversion H; subst.
        destruct (IH _ _ E) as [items' ->]. exists (flush run ++ items').
        rewrite app_assoc. reflexivity.
      * destruct (single_character_token c) as [t|]; [|discriminate].
        destruct (scan (s +:+ str LF) "") as [items0|] eqn:E; [|discriminate].
        simpl in H. inversion H; subst.
        destruct (IH _ _ E) as [items' ->].
        exists (flush run ++ item_symbol t :: items').
        rewrite <- app_assoc. reflexivity.
Qed.

Lemma ends_line_newline s : ends_line (s +:+ str LF) = true.
Proof.
  induction s as [|c s IH]; [reflexivity|].
  rewrite append_cons. cbn [ends_line].
  destruct (s +:+ str LF) eqn:E; [|exact IH].
  destruct s; discriminate.
Qed.

Lemma single_character_token_symbol c t :
  single_character_token c = Some t -> t <> token_number.
Proof.
  unfold single_character_token.
  repeat match goal with
         | |- context [if ?b then _ else _] => destruct b
         end; intros H; inversion H; discriminate.
Qed.

Lemma scan_symbols s :
  forall run items,
    scan s run = Some items ->
    Forall (fun item => item <> item_symbol token_number) items.
Proof.
  assert (Hflush : forall run,
            Forall (fun item => item <> item_symbol token_number) (flush run)).
  { intros run. destruct run; repeat constructor; discriminate. }
  induction s as [|c s IH]; intros run items H.
  - simpl in H. inversion H; subst. apply Hflush.
  - cbn [scan] in H. destruct (isdigit c); [exact (IH _ _ H)|].
    destruct (isspace c && negb (Ascii.eqb c LF)).
    + destruct (scan s "") as [items'|] eqn:E; [|discriminate].
      simpl in H. inversion H; subst. apply Forall_app. split; [apply Hflush|].
      exact (IH _ _ E).
    + destruct (single_character_token c) as [t|] eqn:Et; [|discriminate].
      destruct (scan s "") as [items'|] eqn:E; [|discriminate].
      simpl in H. inversion H; subst. apply Forall_app. split; [apply Hflush|].
      constructor; [|exact (IH _ _ E)].
      intros Heq. inversion Heq; subst.
      exact (single_character_token_symbol _ _ Et eq_refl).
Qed.

Lemma reads_lexed toks items :
  Forall2 reads toks items ->
  Forall (fun item => item <> item_symbol token_number) items ->
  Forall lexed toks.
Proof.
  induction 1 as [|tok item toks items H _ IH]; intros Hs; constructor.
  - inversion Hs as [|? ? Hitem _]; subst. destruct item; simpl in H.
    + subst. intros Hn. simpl in Hn. subst. contradiction.
    + destruct H as (l & -> & _). intros _. discriminate.
  - apply IH. inversion Hs; assumption.
Qed.

Lemma reads_terminated toks items' :
  Forall2 reads toks (items' ++ [item_symbol token_end_of_expression]) ->
  terminated toks.
Proof.
  intros H. apply Forall2_app_inv_r in H as (toks1 & toks2 & H1 & H2 & ->).
  inversion H2 as [|tok ? ? ? Htok Hnil]; subst. inversion Hnil; subst.
  simpl in Htok. subst. exists toks1, (symbol token_end_of_expression).
  split; reflexivity.
Qed.

(** X9.  The tokens are the lexical items of the line.  On a line whose
    last character is no digit (every line that [read_line] delivers ends
    with the newline), in a buffer that has a NUL byte after the line or is
    twice as long as the line, the tokenizer stays within the buffer and
    returns.  It succeeds exactly when every character of the line is white
    space, a digit or a symbol; its tokens then stand one by one for the
    lexical items of the line: a symbol token for each symbol, and for each
    maximal run of digits a number token whose lexeme starts with exactly
    these digits. *)
Theorem tokenizer_reads_the_line list g :
  (source_file_line_occupied_size g <= String.length (source_file_line g))%nat ->
  ends_line (line_read g) = true ->
  lexemes_fit g ->
  match lexical_items (line_read g) with
  | Some items =>
      exists toks,
        tokenize_source_line_and_add_to_list list g
          = Returns ((SUCCESS, list ++ toks), g) /\
        Forall2 reads toks items
  | None =>
      exists l g',
        tokenize_source_line_and_add_to_list list g = Returns ((FAILURE, l), g') /\
        stdout g' = stdout g
  end.
Proof. exact (tokenizer_scan list g). Qed.

Lemma tokenizer_reads_the_line_witness :
  exists g toks,
    store_line (line "12 3") initial_globals = Returns (tt, g) /\
    tokenize_source_line_and_add_to_list [] g = Returns ((SUCCESS, toks), g) /\
    Forall2 reads toks
      [item_number "12"; item_number "3"; item_symbol token_end_of_expression].
Proof.
  eexists. 
  pose proof (tokenizer_reads_the_line []
                (set_line (line "12 3" +:+
                           string_from 5 (source_file_line initial_globals)) 5
                          initial_globals)) as H.
  assert (H1 : (5 <= 1024)%nat) by lia.
  specialize (H H1 eq_refl).
  assert (H3 : lexemes_fit
                 (set_line (line "12 3" +:+
                            string_from 5 (source_file_line initial_globals)) 5
                           initial_globals)).
  { left. exists 1023%nat. split; [simpl; lia|reflexivity]. }
  specialize (H H3).
  destruct H as (toks & E & F).
  exists toks. split; [reflexivity|]. split; [exact E|exact F].
Defined.

Lemma strndup_overruns n :
  forall s,
    no_nul s = true -> (String.length s < n)%nat ->
    strndup s n = Undefined out_of_bounds.
Proof.
  induction n as [|n IH]; intros s Hs Hn; [lia|].
  destruct s as [|c s]; [reflexivity|].
  simpl in Hs. apply andb_true_iff in Hs as [Hc Hs]. apply negb_true_iff in Hc.
  cbn [strndup]. rewrite Hc. simpl in Hn. rewrite (IH s Hs) by lia. reflexivity.
Qed.

Lemma tokenize_loop_number_overrun fuel i lexeme_length list g c i' lexeme_length' f :
  (i < source_file_line_occupied_size g)%nat ->
  String.get i (source_file_line g) = Some c ->
  isdigit c = true ->
  scan_number (string_from (S i) (source_file_line g)) i lexeme_length
    = Returns (i', lexeme_length') ->
  strndup (string_from i (source_file_line g)) lexeme_length' = Undefined f ->
  tokenize_loop (S fuel) i lexeme_length list g = Undefined f.
Proof.
  intros Hi Hc Hd Hscan Hdup. apply Nat.leb_gt in Hi.
  destruct (isdigit_plain c Hd) as (Hsp & _ & _ & _ & Hsingle).
  cbn [tokenize_loop]. rewrite Hi. unfold bind, line_at.
  rewrite Hc, Hsp, Hsingle, Hd. cbn [andb negb]. rewrite Hscan, Hdup.
  reflexivity.
Qed.

(** A number of [1 + length run] digits that the loop meets at index [i]
    with [lexeme_length] at [n]: its lexeme is copied at length
    [n + length run], and the loop goes on after the number with
    [lexeme_length] at [n + length run]. *)
Lemma tokenize_loop_number_adds fuel i lexeme_length list g c run c' rest :
  (i < source_file_line_occupied_size g)%nat ->
  string_from i (source_file_line g) = String c (run +:+ String c' rest) ->
  isdigit c = true -> all_digits run = true -> isdigit c' = false ->
  tokenize_loop (S fuel) i lexeme_length list g =
  match strndup (string_from i (source_file_line g))
                (lexeme_length + String.length run) with
  | Returns l =>
      tokenize_loop fuel (S (i + String.length run))
        (lexeme_length + String.length run) (list ++ [number l]) g
  | Undefined f => Undefined f
  | Out_of_fuel => Out_of_fuel
  end.
Proof.
  intros Hi Hfrom Hc Hrun Hc'.
  assert (Hget : String.get i (source_file_line g) = Some c).
  { pose proof (get_string_from (source_file_line g) i 0) as H.
    rewrite Hfrom, Nat.add_0_r in H. symmetry. exact H. }
  destruct (string_from_get _ _ _ Hget) as (rest0 & E1 & E2).
  rewrite Hfrom in E1. injection E1 as E1. rewrite <- E1 in E2.
  assert (Hscan : scan_number (string_from (S i) (source_file_line g)) i lexeme_length
                  = Returns (S (i + String.length run),
                             lexeme_length + String.length run)%nat).
  { rewrite E2. apply scan_number_digits; assumption. }
  destruct (strndup (string_from i (source_file_line g))
              (lexeme_length + String.length run)) as [l|f|] eqn:Hdup.
  - exact (tokenize_loop_number fuel i lexeme_length list g c _ _ l
             Hi Hget Hc Hscan Hdup).
  - exact (tokenize_loop_number_overrun fuel i lexeme_length list g c _ _ f
             Hi Hget Hc Hscan Hdup).
  - exfalso. exact (strndup_fuel _ _ Hdup).
Qed.

(** X10.  The lengths of the numbers of a line add up, and a lexeme can
    be copied from beyond the buffer.  [lexeme_length] is set to 1 once,
    before the loop, and it is never reset: a number of [1 + m] digits
    that the loop meets when [lexeme_length] is [n] is copied by
    [strndup] at length [n + m], and the loop goes on with
    [lexeme_length] at [n + m].  So when a line is a number of [k] digits,
    a space, one digit and the newline, the second lexeme is copied at
    length [k]; if no NUL byte is left in the buffer after the line (an
    earlier line has filled it) and fewer than [k - 2] bytes follow the
    line, that copy reads past the end of the buffer. *)
Theorem lexeme_copy_leaves_the_buffer ds d tail list g :
  all_digits ds = true -> ds <> "" -> isdigit d = true ->
  no_nul tail = true ->
  (2 + String.length tail < String.length ds)%nat ->
  source_file_line g = ds +:+ String " " (String d (String LF tail)) ->
  source_file_line_occupied_size g = (String.length ds + 3)%nat ->
  (forall fuel i n list0 g0 c run c' rest,
     (i < source_file_line_occupied_size g0)%nat ->
     string_from i (source_file_line g0) = String c (run +:+ String c' rest) ->
     isdigit c = true -> all_digits run = true -> isdigit c' = false ->
     tokenize_loop (S fuel) i n list0 g0 =
     match strndup (string_from i (source_file_line g0)) (n + String.length run) with
     | Returns l =>
         tokenize_loop fuel (S (i + String.length run)) (n + String.length run)
           (list0 ++ [number l]) g0
     | Undefined f => Undefined f
     | Out_of_fuel => Out_of_fuel
     end) /\
  tokenize_source_line_and_add_to_list list g = Undefined out_of_bounds.
Proof.
  intros Hds Hne Hd Hnul Hlen Hbuf Hsize.
  split; [exact tokenize_loop_number_adds|].
  destruct ds as [|c ds]; [contradiction|].
  pose proof Hds as Hds'. simpl in Hds'. apply andb_true_iff in Hds' as [Hc Hds'].
  unfold tokenize_source_line_and_add_to_list. rewrite Hsize.
  simpl String.length in *.
  replace (S (String.length ds) + 3)%nat with (S (S (S (S (String.length ds))))) by lia.
  rewrite (tokenize_loop_number _ 0 1 list g c
             (S (String.length ds)) (S (String.length ds)) (String c ds)).
  2: lia.
  2: rewrite Hbuf; reflexivity.
  2: exact Hc.
  2:{ rewrite Hbuf, append_cons. cbn [string_from].
      rewrite (scan_number_digits ds " " _ 0 1 Hds' eq_refl). reflexivity. }
  2:{ rewrite Hbuf. cbn [string_from]. apply (strndup_digits (String c ds) _ Hds). }
  rewrite (tokenize_loop_space _ (S (String.length ds)) _ _ g " ").
  2: lia.
  2:{ rewrite Hbuf.
      exact (get_length_app (String c ds) " " (String d (String LF tail))). }
  2: reflexivity.
  assert (Hfrom : forall k,
            string_from (S (S (String.length ds)) + k) (source_file_line g) =
            string_from k (String d (String LF tail))).
  { intros k.
    rewrite Hbuf, <- (append_snoc (String c ds) " " (String d (String LF tail))).
    replace (S (S (String.length ds))) with (String.length (String c ds +:+ str " "))
      by (rewrite length_append; simpl; lia).
    apply string_from_app_skip. }
  assert (Hget : String.get (S (S (String.length ds))) (source_file_line g) = Some d).
  { pose proof (Hfrom O) as H0. rewrite Nat.add_0_r in H0.
    change (string_from O (String d (String LF tail)))
      with (String d (String LF tail)) in H0.
    pose proof (get_string_from (source_file_line g) (S (S (String.length ds))) 0) as Hg.
    rewrite H0, Nat.add_0_r in Hg. symmetry. exact Hg. }
  apply (tokenize_loop_number_overrun _ _ _ _ g d
           (S (S (S (String.length ds)))) (S (String.length ds))).
  - lia.
  - exact Hget.
  - exact Hd.
  - replace (S (S (S (String.length ds)))) with (S (S (String.length ds)) + 1)%nat
      at 1 by lia.
    rewrite Hfrom. reflexivity.
  - replace (S (S (String.length ds))) with (S (S (String.length ds)) + 0)%nat by lia.
    rewrite Hfrom. cbn [string_from].
    apply strndup_overruns; [|simpl; lia].
    simpl. rewrite Hnul.
    destruct (isdigit_plain d Hd) as (_ & _ & _ & -> & _). reflexivity.
Qed.

(** ** What a turn of the driver leaves as it is *)

Section Frame.

Context {B : Type}.
Variable f : globals -> B.
Hypothesis f_set_stderr : forall s g, f (set_stderr s g) = f g.
Hypothesis f_set_stdout : forall s g, f (set_stdout s g) = f g.
Hypothesis f_set_cursor : forall next active g, f (set_cursor next active g) = f g.
Hypothesis f_set_callstack : forall cs top g, f (set_callstack cs top g) = f g.

Lemma preserves_ret {A : Type} (a : A) : preserves f (ret a).
Proof. intros g a' g' H. inversion H. reflexivity. Qed.

Lemma preserves_bind {A C : Type} (m : M A) (k : A -> M C) :
  preserves f m -> (forall a, preserves f (k a)) -> preserves f (bind m k).
Proof.
  intros Hm Hk g b g' H. unfold bind in H.
  destruct (m g) as [[a g1]| |] eqn:E; try discriminate.
  rewrite (Hk a g1 b g' H). exact (Hm g a g1 E).
Qed.

Lemma preserves_undefined {A : Type} (x : fault) : preserves f (@undefined A x).
Proof. intros g a g' H. discriminate H. Qed.

Lemma preserves_eprint s : preserves f (eprint s).
Proof. intros g a g' H. inversion H. apply f_set_stderr. Qed.

Lemma preserves_print s : preserves f (print s).
Proof. intros g a g' H. inversion H. apply f_set_stdout. Qed.

Lemma preserves_line_at j : preserves f (line_at j).
Proof.
  intros g a g' H. unfold line_at in H.
  destruct (String.get j (source_file_line g)); inversion H. reflexivity.
Qed.

Lemma preserves_line_range n : forall j, preserves f (line_range j n).
Proof.
  induction n as [|n IH]; intros j; simpl; [apply preserves_ret|].
  apply preserves_bind; [apply preserves_line_at|]. intros c.
  apply preserves_bind; [apply IH|]. intros s. apply preserves_ret.
Qed.

Lemma preserves_report i c : preserves f (report_unexpected_character i c).
Proof.
  intros g a g' H. unfold report_unexpected_character in H.
  revert H. generalize (source_file_line_occupied_size g). intros size H.
  revert g a g' H.
  change (preserves f
    (eprint ("Unexpected character." +:+ str LF) ;;;
     eprint (str TAB) ;;;
     before <- line_range (if (5 <? i)%nat then (i - 5)%nat else O)
                 (i - (if (5 <? i)%nat then (i - 5)%nat else O)) ;;
     eprint before ;;;
     eprint (red (str c)) ;;;
     after <- line_range (S i)
                ((if (i + 5 <? size - 1)%nat then (i + 5)%nat else (size - 1)%nat) - S i) ;;
     eprint after ;;;
     eprint (str LF) ;;;
     eprint (str TAB) ;;;
     eprint (marker_line (if (5 <? i)%nat then (i - 5)%nat else O)
               (if (i + 5 <? size - 1)%nat then (i + 5)%nat else (size - 1)%nat) i) ;;;
     eprint (str LF))).
  repeat first [ apply preserves_eprint
               | apply preserves_line_range
               | apply preserves_bind; [|intros ?] ].
Qed.

Lemma preserves_tokenizer list :
  preserves f (tokenize_source_line_and_add_to_list list).
Proof.
  intros g [s l] g' H. unfold tokenize_source_line_and_add_to_list in H.
  apply tokenize_loop_returns in H. destruct s.
  - destruct H as [-> _]. reflexivity.
  - destruct H as (k & c & _ & _ & _ & _ & Hrep).
    exact (preserves_report k c g tt g' Hrep).
Qed.

Lemma preserves_token_type_is x : preserves f (token_type_is x).
Proof.
  intros g a g' H. unfold token_type_is in H.
  destruct (parser_active_token g); inversion H. reflexivity.
Qed.

Lemma preserves_get_next_token : preserves f parser_get_next_token.
Proof.
  intros g a g' H. unfold parser_get_next_token in H.
  destruct (parser_next_token g); inversion H; [reflexivity|apply f_set_cursor].
Qed.

Lemma preserves_active_lexeme : preserves f active_lexeme.
Proof.
  intros g a g' H. unfold active_lexeme in H.
  destruct (parser_active_token g) as [t|]; [|discriminate].
  destruct (lexeme t); inversion H. reflexivity.
Qed.

Lemma preserves_active_lexeme_head : preserves f active_lexeme_head.
Proof.
  intros g a g' H. unfold active_lexeme_head in H.
  destruct (parser_active_token g) as [t|]; [|discriminate].
  destruct (get_token_lexeme t) as [[|c s]|]; inversion H; reflexivity.
Qed.

Lemma preserves_fold_operators operator node_type operand :
  (forall slot, preserves f (operand slot)) ->
  forall fuel r tree, preserves f (fold_operators operator node_type operand fuel r tree).
Proof.
  intros Hop. induction fuel as [|fuel IH]; intros r tree; cbn [fold_operators];
    (apply preserves_bind; [apply preserves_token_type_is|]); intros b;
    (destruct (b && status_eqb r SUCCESS); [|apply preserves_ret]).
  - intros g a g' H. discriminate H.
  - apply preserves_bind; [apply preserves_get_next_token|]. intros _.
    apply preserves_bind; [apply Hop|]. intros [[|] child1];
      [apply IH|apply preserves_ret].
Qed.

Lemma preserves_left_associative operator node_type operand fuel :
  (forall slot, preserves f (operand slot)) ->
  forall slot, preserves f (left_associative operator node_type operand fuel slot).
Proof.
  intros Hop slot. unfold left_associative.
  apply preserves_bind; [apply Hop|]. intros res.
  apply preserves_fold_operators. exact Hop.
Qed.

Lemma preserves_unit_expression add_expression :
  (forall slot, preserves f (add_expression slot)) ->
  forall slot, preserves f (unit_expression add_expression slot).
Proof.
  intros Hadd slot. unfold unit_expression.
  apply preserves_bind; [apply preserves_token_type_is|]. intros [|].
  - apply preserves_bind; [apply preserves_get_next_token|]. intros _.
    apply preserves_bind; [apply Hadd|]. intros [[|] tree1];
      [|apply preserves_ret].
    apply preserves_bind; [apply preserves_token_type_is|]. intros [|]; simpl.
    + apply preserves_bind; [apply preserves_get_next_token|]. intros _.
      apply preserves_ret.
    + apply preserves_bind; [apply preserves_eprint|]. intros _.
      apply preserves_ret.
  - apply preserves_bind; [apply preserves_token_type_is|]. intros [|].
    + apply preserves_bind; [apply preserves_active_lexeme|]. intros l.
      apply preserves_bind; [apply preserves_get_next_token|]. intros _.
      apply preserves_ret.
    + apply preserves_bind; [apply preserves_active_lexeme_head|]. intros c.
      apply preserves_bind; [apply preserves_eprint|]. intros _.
      apply preserves_ret.
Qed.

Lemma preserves_add_expression fuel :
  forall slot, preserves f (parser_parse_add_expression fuel slot).
Proof.
  induction fuel as [|fuel IH]; intros slot.
  - intros g a g' H. discriminate H.
  - cbn [parser_parse_add_expression]. revert slot.
    repeat apply preserves_left_associative.
    apply preserves_unit_expression. exact IH.
Qed.

Lemma preserves_parser fuel stream slot :
  preserves f (parse_token_stream_into_ast fuel stream slot).
Proof.
  unfold parse_token_stream_into_ast.
  apply preserves_bind.
  { intros g a g' H. inversion H. apply f_set_cursor. }
  intros _. apply preserves_bind; [apply preserves_get_next_token|]. intros _.
  apply preserves_bind; [apply preserves_token_type_is|]. intros [|]; simpl;
    [apply preserves_ret|].
  unfold parser_parse_expression.
  apply preserves_bind; [apply preserves_add_expression|]. intros [r tree1].
  apply preserves_bind.
  - destruct r; [|apply preserves_ret].
    apply preserves_bind; [apply preserves_token_type_is|]. intros [|];
      [apply preserves_ret|].
    apply preserves_bind; [apply preserves_token_type_is|]. intros [|];
      [apply preserves_ret|].
    apply preserves_bind; [apply preserves_active_lexeme_head|]. intros c.
    apply preserves_bind; [apply preserves_eprint|]. intros _.
    apply preserves_ret.
  - intros r'. apply preserves_bind; [apply preserves_get_next_token|].
    intros _. apply preserves_ret.
Qed.

Lemma preserves_callstack_push x : preserves f (callstack_push x).
Proof.
  intros g a g' H. unfold callstack_push in H.
  destruct (callstack_top g) as [|t]; [discriminate|].
  destruct (t <? MAX_CALLSTACK_DEPTH)%nat; inversion H. apply f_set_callstack.
Qed.

Lemma preserves_callstack_pop : preserves f callstack_pop.
Proof.
  intros g a g' H. unfold callstack_pop in H.
  destruct (callstack_top g <? MAX_CALLSTACK_DEPTH)%nat; [|discriminate].
  destruct (callstack g !! callstack_top g); inversion H. apply f_set_callstack.
Qed.

Lemma preserves_callstack_clear : preserves f callstack_clear.
Proof. intros g a g' H. inversion H. apply f_set_callstack. Qed.

Lemma preserves_do_operation operator :
  preserves f (execution_engine_do_operation operator).
Proof.
  unfold execution_engine_do_operation.
  apply preserves_bind; [apply preserves_callstack_pop|]. intros r.
  apply preserves_bind; [apply preserves_callstack_pop|]. intros l.
  destruct operator;
    try (apply preserves_bind; [apply preserves_callstack_push|];
         intros _; apply preserves_ret).
  destruct (r =? 0).
  - apply preserves_bind; [apply preserves_eprint|]. intros _. apply preserves_ret.
  - destruct ((l =? INT_MIN) && (r =? -1)); [apply preserves_undefined|].
    apply preserves_bind; [apply preserves_callstack_push|].
    intros _. apply preserves_ret.
Qed.

Lemma preserves_process_ast_node t :
  preserves f (execution_engine_process_ast_node t).
Proof.
  induction t as [|value|operator c0 IH0 c1 IH1]; cbn [execution_engine_process_ast_node].
  - apply preserves_ret.
  - intros g a g' H. destruct (callstack_is_full g).
    + revert H. apply preserves_bind; [apply preserves_eprint|].
      intros _. apply preserves_ret.
    + revert H. apply preserves_bind; [apply preserves_callstack_push|].
      intros _. apply preserves_ret.
  - apply preserves_bind; [exact IH0|]. intros [|]; [|apply preserves_ret].
    apply preserves_bind; [exact IH1|]. intros [|]; [|apply preserves_ret].
    apply preserves_bind; [apply preserves_do_operation|].
    intros [|]; apply preserves_ret.
Qed.

Lemma preserves_finish s : preserves f (execution_engine_finish s).
Proof.
  destruct s; cbn [execution_engine_finish].
  - intros g a g' H. destruct (callstack_is_empty g).
    + revert H. apply preserves_bind; [apply preserves_eprint|].
      intros _. apply preserves_ret.
    + revert H. apply preserves_bind; [apply preserves_callstack_pop|]. intros v.
      apply preserves_bind; [apply preserves_print|]. intros _.
      apply preserves_bind; [apply preserves_callstack_clear|]. intros _.
      apply preserves_ret.
  - apply preserves_bind; [apply preserves_callstack_clear|]. intros _.
    apply preserves_ret.
Qed.

Lemma preserves_execution_engine t : preserves f (execution_engine t).
Proof.
  destruct t.
  - cbn [execution_engine]. apply preserves_bind; [apply preserves_callstack_clear|].
    intros _. apply preserves_ret.
  - rewrite execution_engine_unfold by discriminate.
    apply preserves_bind; [apply preserves_process_ast_node|]. apply preserves_finish.
  - rewrite execution_engine_unfold by discriminate.
    apply preserves_bind; [apply preserves_process_ast_node|]. apply preserves_finish.
Qed.

Lemma preserves_process_line fuel : preserves f (process_line fuel).
Proof.
  unfold process_line.
  apply preserves_bind; [apply preserves_tokenizer|]. intros [[|] stream];
    [|apply preserves_ret].
  apply preserves_bind; [apply preserves_parser|]. intros [[|] tree];
    [apply preserves_execution_engine|apply preserves_ret].
Qed.

End Frame.

(** Nothing but [read_line] writes to the line buffer. *)
Lemma process_line_keeps_line fuel : preserves line_buffer (process_line fuel).
Proof. apply preserves_process_line; reflexivity. Qed.

Lemma lexeme_copy_leaves_the_buffer_witness :
  tokenize_source_line_and_add_to_list []
    (set_line (repeated "1" 600 +:+
               String " " (String "7" (String LF (repeated "~" 421))))
              603 initial_globals)
  = Undefined out_of_bounds /\
  tokenize_source_line_and_add_to_list []
    (set_line (line "22 22 1" +:+ string_from 8 (source_file_line initial_globals))
              8 initial_globals)
  = tokenize_loop 5 5 3 [number "22"; number "22 "]
      (set_line (line "22 22 1" +:+ string_from 8 (source_file_line initial_globals))
                8 initial_globals).
Proof.
  destruct (lexeme_copy_leaves_the_buffer
              (repeated "1" 600) "7" (repeated "~" 421) []
              (set_line (repeated "1" 600 +:+
                         String " " (String "7" (String LF (repeated "~" 421))))
                        603 initial_globals)) as [Hadds Hout].
  - vm_compute. reflexivity.
  - discriminate.
  - reflexivity.
  - vm_compute. reflexivity.
  - apply Nat.ltb_lt. vm_compute. reflexivity.
  - reflexivity.
  - vm_compute. reflexivity.
  - split; [exact Hout|].
    unfold tokenize_source_line_and_add_to_list.
    change (source_file_line_occupied_size
              (set_line (line "22 22 1" +:+
                         string_from 8 (source_file_line initial_globals))
                        8 initial_globals)) with 8%nat.
    rewrite (Hadds 7%nat 0%nat 1%nat [] _ "2"%char "2"%string " "%char
               (String.append "22 1" (String LF (string_from 8 (source_file_line initial_globals)))));
      [|simpl; lia|reflexivity|reflexivity|reflexivity|reflexivity].
    change (strndup _ (1 + String.length "2"))
      with (@Returns string "22").
    cbv iota. cbn [Nat.add String.length app].
    rewrite (tokenize_loop_space 6 2 2 [number "22"] _ " "%char);
      [|simpl; lia|reflexivity|reflexivity].
    rewrite (Hadds 5%nat 3%nat 2%nat [number "22"] _ "2"%char "2"%string " "%char
               (String.append "1" (String LF (string_from 8 (source_file_line initial_globals)))));
      [|simpl; lia|reflexivity|reflexivity|reflexivity|reflexivity].
    reflexivity.
Defined.

(** ** One turn of the driver is safe *)

Lemma line_buffer_eq g g' :
  line_buffer g' = line_buffer g ->
  source_file_line g' = source_file_line g /\
  source_file_line_occupied_size g' = source_file_line_occupied_size g.
Proof. unfold line_buffer. intros H. inversion H. auto. Qed.

(** On a line that ends with the newline, in a buffer that has a NUL byte
    left after the line or is twice as long as the line, tokenizing,
    parsing and executing stay within the line buffer and the stack and
    never dereference NULL; with a budget of one more than the length of
    the line the turn returns, unless a division overflows. *)
Lemma process_line_safe g body n :
  line_read g = body +:+ str LF ->
  (source_file_line_occupied_size g <= String.length (source_file_line g))%nat ->
  lexemes_fit g ->
  stack_ok g ->
  process_line (S (source_file_line_occupied_size g) + n) g
    = Undefined division_overflow \/
  exists s g',
    process_line (S (source_file_line_occupied_size g) + n) g = Returns (s, g') /\
    stack_ok g'.
Proof.
  intros Hline Hsize Hfit Hok.
  pose proof (tokenizer_scan [] g Hsize) as Htok.
  rewrite Hline in Htok. specialize (Htok (ends_line_newline body) Hfit).
  unfold lexical_items in Htok.
  remember (process_line (S (source_file_line_occupied_size g) + n) g) as o eqn:Eo.
  unfold process_line, token_list_new in Eo. unfold bind at 1 in Eo.
  destruct (scan (body +:+ str LF) "") as [items|] eqn:Eitems.
  - destruct Htok as (toks & Etok & Hreads). simpl in Etok. rewrite Etok in Eo.
    destruct (scan_newline _ _ _ Eitems) as [items' Eitems'].
    assert (Hterm : terminated toks)
      by (apply (reads_terminated toks items'); rewrite <- Eitems'; exact Hreads).
    assert (Hlexed : Forall lexed toks)
      by (apply (reads_lexed toks items Hreads), (scan_symbols _ _ _ Eitems)).
    assert (Hlen : (length toks <= source_file_line_occupied_size g)%nat).
    { rewrite (Forall2_length _ _ _ Hreads).
      pose proof (scan_length _ _ _ Eitems) as H. simpl in H.
      rewrite <- Hline, line_read_length in H by exact Hsize. lia. }
    destruct (parser_recognises toks NULL g
                (source_file_line_occupied_size g - length toks + n) Hterm Hlexed)
      as (s & t & g1 & Eparse & _).
    replace (S (length toks) + (source_file_line_occupied_size g - length toks + n))%nat
      with (S (source_file_line_occupied_size g) + n)%nat in Eparse by lia.
    unfold bind at 1 in Eo. rewrite Eparse in Eo.
    destruct (keeps_stack_parser _ _ _ _ _ _ Eparse) as [Hc Ht].
    assert (Hok1 : stack_ok g1).
    { destruct Hok as [Hl Htop]. split; congruence. }
    destruct s.
    + destruct (parser_builds_well_formed _ _ _ _ _ Eparse) as [->|[Hwf _]].
      * right. exists SUCCESS. eexists. rewrite Eo. split; [reflexivity|].
        split; [apply Hok1|apply le_n].
      * destruct (execution_engine_spec t g1 Hwf Hok1)
          as [U|(s & g2 & E & Hok2 & _)]; [left; congruence|right].
        exists s, g2. split; [congruence|exact Hok2].
    + right. exists FAILURE, g1. rewrite Eo. split; [reflexivity|exact Hok1].
  - destruct Htok as (l & g' & Etok & _). rewrite Etok in Eo.
    right. exists FAILURE, g'. rewrite Eo. split; [reflexivity|].
    destruct (keeps_stack_tokenizer _ _ _ _ Etok) as [Hc Ht].
    destruct Hok as [Hl Htop]. split; congruence.
Qed.

(** X11.  A turn of the loop is safe.  Once a line that ends with the
    newline is in the buffer, and a NUL byte is left after it in the buffer
    (or the buffer is twice as long as the line), tokenizing, parsing and
    executing it never read or write outside the line buffer or the stack
    and never dereference NULL (every allocation taken to succeed), and
    they come to an end: with a budget of one more than the length of the
    line the turn returns a status, unless a division overflows. *)
Theorem turn_is_safe g body n :
  line_read g = body +:+ str LF ->
  (source_file_line_occupied_size g <= String.length (source_file_line g))%nat ->
  lexemes_fit g ->
  stack_ok g ->
  process_line (S (source_file_line_occupied_size g) + n) g
    = Undefined division_overflow \/
  exists s g',
    process_line (S (source_file_line_occupied_size g) + n) g = Returns (s, g') /\
    stack_ok g'.
Proof. exact (process_line_safe g body n). Qed.

(** ** Reading a line *)

Lemma string_set_app pre a t c :
  string_set (pre +:+ String a t) (String.length pre) c = Some (pre +:+ String c t).
Proof.
  induction pre as [|b pre IH]; [reflexivity|].
  rewrite !append_cons. simpl. rewrite IH. reflexivity.
Qed.

Lemma string_from_S n :
  forall s, (n < String.length s)%nat ->
            exists a, string_from n s = String a (string_from (S n) s).
Proof.
  induction n as [|n IH]; intros s Hn; destruct s as [|b s]; simpl in Hn; try lia.
  - exists b. reflexivity.
  - destruct (IH s ltac:(lia)) as [a E]. exists a. exact E.
Qed.

(** Writing the next byte of the line into the buffer. *)
Lemma string_set_next pre buf0 c :
  (String.length pre < String.length buf0)%nat ->
  string_set (pre +:+ string_from (String.length pre) buf0) (String.length pre) c =
  Some ((pre +:+ str c) +:+ string_from (String.length (pre +:+ str c)) buf0).
Proof.
  intros H. destruct (string_from_S _ _ H) as [a E]. rewrite E, string_set_app.
  rewrite append_snoc, length_append. simpl.
  rewrite Nat.add_1_r. reflexivity.
Qed.

Lemma length_string_from n : forall s, String.length (string_from n s) = (String.length s - n)%nat.
Proof.
  induction n as [|n IH]; intros s; [simpl; lia|].
  destruct s as [|c s]; [reflexivity|]. simpl. apply IH.
Qed.

Lemma bytes_cons c s : bytes (String c s) = read_byte c :: bytes s.
Proof. reflexivity. Qed.

Lemma bytes_app s t : bytes (s +:+ t) = bytes s ++ bytes t.
Proof.
  induction s as [|c s IH]; [reflexivity|].
  rewrite append_cons, !bytes_cons, IH. reflexivity.
Qed.

(** The loop of [read_line] over the rest of a line and its newline:
    [pre] is the part of the line that is in the buffer already, [body]
    the part to come.  A line of white space is dropped and the loop goes
    on; any other line is delivered. *)
Lemma read_line_loop_line body :
  forall pre all_ws p buf0 rest,
    no_newline body = true ->
    source_file_line (memory p) = pre +:+ string_from (String.length pre) buf0 ->
    source_file_line_occupied_size (memory p) = String.length pre ->
    (String.length pre + String.length body < MAX_LINE_SIZE)%nat ->
    (String.length pre + String.length body < String.length buf0)%nat ->
    let line := pre +:+ body +:+ str LF in
    let buf := line +:+ string_from (String.length line) buf0 in
    let p' :=
      set_line_number (wrap_int (source_file_line_number p + 1))
        (set_c_buffer LF (set_unread rest p)) in
    read_line_loop (bytes (body +:+ str LF) ++ rest) all_ws p =
    if (String.length pre + String.length body =? 0)%nat || (all_ws && all_spaces body)
    then read_line_loop rest (all_ws && all_spaces body)
           (prompt (set_memory (set_line buf 0 (memory p)) p'))
    else Returns (SUCCESS,
                  set_memory (set_line buf (String.length line) (memory p)) p').
Proof.
  induction body as [|c body IH]; intros pre all_ws p buf0 rest Hnl Hbuf Hsize Hmax Hlen.
  - cbv zeta. rewrite append_nil_l. change (bytes (str LF)) with [read_byte LF].
    cbn [app read_line_loop].
    rewrite Hsize.
    replace (MAX_LINE_SIZE <=? String.length pre)%nat with false
      by (symmetry; apply Nat.leb_gt; simpl in Hmax; lia).
    rewrite Hbuf, string_set_next by (simpl in Hlen; lia).
    change (Ascii.eqb LF LF) with true. cbv iota.
    simpl String.length. rewrite Nat.add_0_r, andb_true_r.
    rewrite length_append. simpl String.length. rewrite Nat.add_1_r.
    destruct (String.length pre) eqn:Epre; cbn [Nat.eqb orb]; [reflexivity|].
    destruct all_ws; reflexivity.
  - simpl in Hnl. apply andb_true_iff in Hnl as [Hc Hnl]. apply negb_true_iff in Hc.
    cbv zeta. rewrite append_cons, bytes_cons. cbn [app read_line_loop].
    rewrite Hsize.
    replace (MAX_LINE_SIZE <=? String.length pre)%nat with false
      by (symmetry; apply Nat.leb_gt; simpl in Hmax; lia).
    rewrite Hbuf, string_set_next by (simpl in Hlen; lia).
    rewrite Hc.
    rewrite (IH (pre +:+ str c) _ _ buf0 rest Hnl).
    + rewrite length_append. simpl String.length.
      replace (String.length pre + 1 + String.length body)%nat
        with (String.length pre + S (String.length body))%nat by lia.
      replace (String.length pre + S (String.length body) =? 0)%nat with false
        by (symmetry; apply Nat.eqb_neq; lia).
      cbn [orb].
      rewrite !append_snoc.
      assert (Eall : (if all_ws && negb (isspace c) then false else all_ws)
                       && all_spaces body
                     = all_ws && (isspace c && all_spaces body)).
      { destruct all_ws, (isspace c); reflexivity. }
      rewrite Eall. reflexivity.
    + simpl. rewrite length_append. reflexivity.
    + simpl. rewrite length_append. simpl. lia.
    + rewrite length_append. simpl in *. lia.
    + rewrite length_append. simpl in *. lia.
Qed.

Lemma all_spaces_app a b : all_spaces (a +:+ b) = all_spaces a && all_spaces b.
Proof.
  induction a as [|c a IH]; [reflexivity|].
  rewrite append_cons. simpl. rewrite IH, andb_assoc. reflexivity.
Qed.

Lemma all_spaces_line body : all_spaces (body +:+ str LF) = all_spaces body.
Proof. rewrite all_spaces_app. simpl. apply andb_true_r. Qed.


(** The end of the file, met at the start of a line: the line is the
    end-of-file byte alone. *)
Lemma read_line_loop_end all_ws p a s :
  source_file_line (memory p) = String a s ->
  source_file_line_occupied_size (memory p) = O ->
  read_line_loop [] all_ws p =
  Returns (SUCCESS,
           set_eof_read true
             (set_memory (set_line (String EOF s) 1 (memory p)) p)).
Proof.
  intros Hbuf Hsize. cbn [read_line_loop]. rewrite Hsize, Hbuf. reflexivity.
Qed.

(** A line at the start of the buffer. *)
Lemma read_line_loop_whole_line body p rest :
  no_newline body = true ->
  source_file_line_occupied_size (memory p) = O ->
  (String.length body < MAX_LINE_SIZE)%nat ->
  (String.length body < String.length (source_file_line (memory p)))%nat ->
  let l := body +:+ str LF in
  let buf := l +:+ string_from (String.length l) (source_file_line (memory p)) in
  let p' :=
    set_line_number (wrap_int (source_file_line_number p + 1))
      (set_c_buffer LF (set_unread rest p)) in
  read_line_loop (bytes l ++ rest) true p =
  if all_spaces l
  then read_line_loop rest true (prompt (set_memory (set_line buf 0 (memory p)) p'))
  else Returns (SUCCESS, set_memory (set_line buf (String.length l) (memory p)) p').
Proof.
  intros Hnl Hsize Hmax Hlen. cbv zeta.
  pose proof (read_line_loop_line body "" true p (source_file_line (memory p)) rest
                Hnl eq_refl Hsize Hmax Hlen) as H.
  cbv zeta in H. rewrite !append_nil_l in H. simpl String.length in H.
  cbn [Nat.add andb] in H. rewrite H. rewrite all_spaces_line.
  destruct body as [|c body]; [reflexivity|].
  simpl String.length. cbn [Nat.eqb orb].
  destruct (all_spaces (String c body)); reflexivity.
Qed.

(** ** The loop of [main], line by line *)

Lemma set_line_same g :
  g = set_line (source_file_line g) (source_file_line_occupied_size g) g.
Proof. destruct g. reflexivity. Qed.

Lemma join_cons l lines : join (l :: lines) = l +:+ join lines.
Proof. reflexivity. Qed.

Lemma nonempty_buffer s : String.length s = MAX_LINE_SIZE -> exists a t, s = String a t.
Proof. destruct s as [|a t]; [discriminate|]. intros _. exists a, t. reflexivity. Qed.

(** The turn of the loop on the end-of-file byte does nothing. *)
Lemma process_line_end_of_file budget g s :
  source_file_line g = String EOF s ->
  source_file_line_occupied_size g = 1%nat ->
  exists g',
    process_line budget g = Returns (SUCCESS, g') /\
    stdout g' = stdout g /\ stderr g' = stderr g /\
    line_buffer g' = line_buffer g /\
    callstack_is_empty g' = true /\ length (callstack g') = length (callstack g).
Proof.
  intros Hbuf Hsize.
  assert (Etok : tokenize_source_line_and_add_to_list token_list_new g =
                 Returns ((SUCCESS, [symbol token_end_of_file]), g)).
  { unfold tokenize_source_line_and_add_to_list. rewrite Hsize.
    rewrite (tokenize_loop_symbol 0 0 1 token_list_new g EOF token_end_of_file);
      [|lia|rewrite Hbuf; reflexivity|reflexivity|reflexivity].
    apply tokenize_loop_done. lia. }
  unfold process_line, bind. rewrite Etok.
  eexists. split; [reflexivity|]. simpl. auto.
Qed.

Lemma read_line_later p :
  first_run p = false -> show_prompt p = false ->
  read_line p =
  read_line_loop (unread (source_file p)) true
    (set_memory (set_line (source_file_line (memory p)) 0 (memory p)) p).
Proof.
  intros H1 H2. unfold read_line. rewrite H1. cbv zeta iota.
  unfold prompt. cbn [show_prompt set_memory]. rewrite H2. reflexivity.
Qed.

(** The loop of [main] over a file of whole lines does what [session]
    does with the lines; its last turn, on the end of the file, adds
    nothing. *)
Lemma main_loop_session lines :
  forall budget fuel return_code p g,
    Forall proper_line lines ->
    unread (source_file p) = bytes (join lines) ->
    source_file_eof_read p = false -> first_run p = false -> show_prompt p = false ->
    String.length (source_file_line g) = MAX_LINE_SIZE ->
    (exists n, memory p = set_line (source_file_line g) n g) ->
    (length lines < fuel)%nat ->
    match session budget lines return_code g with
    | Returns (return_code', g') =>
        exists p',
          main_loop budget fuel return_code p = Returns (return_code', p') /\
          stdout (memory p') = stdout g' /\ stderr (memory p') = stderr g' /\
          source_file_eof_read p' = true
    | Undefined f => main_loop budget fuel return_code p = Undefined f
    | Out_of_fuel => main_loop budget fuel return_code p = Out_of_fuel
    end.
Proof.
  induction lines as [|l lines IH];
    intros budget fuel rc p g Hlines Hunread Heof Hfirst Hshow Hlen [n Hmem] Hfuel.
  - (* the end of the file *)
    destruct fuel as [|fuel]; [simpl in Hfuel; lia|].
    change (bytes (join [])) with (@nil read_result) in Hunread.
    cbn [session]. unfold ret.
    cbn [main_loop]. rewrite Heof.
    rewrite (read_line_later p Hfirst Hshow), Hunread.
    destruct (nonempty_buffer _ Hlen) as (a & t & Ebuf).
    rewrite (read_line_loop_end true
               (set_memory (set_line (source_file_line (memory p)) 0 (memory p)) p) a t);
      [|cbn [memory set_memory source_file_line set_line]; rewrite Hmem; exact Ebuf
       |reflexivity].
    cbn [memory set_eof_read set_memory].
    destruct (process_line_end_of_file budget
                (set_line (String EOF t) 1
                   (set_line (source_file_line (memory p)) 0 (memory p))) t
                eq_refl eq_refl) as (g2 & E2 & Ho & He & _).
    rewrite E2.
    destruct fuel; cbn [main_loop source_file_eof_read set_memory set_eof_read];
      (eexists; split; [reflexivity|]);
      cbn [memory set_memory]; rewrite Ho, He, Hmem; auto.
  - (* one more line *)
    inversion Hlines as [|? ? (body & El & Hnl & Hbody) Hlines']; subst.
    destruct fuel as [|fuel]; [simpl in Hfuel; lia|].
    simpl in Hfuel.
    rewrite join_cons, bytes_app in Hunread.
    assert (Hread :
      read_line p =
      if all_spaces (body +:+ str LF)
      then read_line_loop (bytes (join lines)) true
             (set_memory
                (set_line ((body +:+ str LF) +:+
                           string_from (String.length (body +:+ str LF))
                             (source_file_line g)) 0 g)
                (set_line_number (wrap_int (source_file_line_number p + 1))
                   (set_c_buffer LF (set_unread (bytes (join lines)) p))))
      else Returns (SUCCESS,
             set_memory
               (set_line ((body +:+ str LF) +:+
                          string_from (String.length (body +:+ str LF))
                            (source_file_line g))
                         (String.length (body +:+ str LF)) g)
               (set_line_number (wrap_int (source_file_line_number p + 1))
                  (set_c_buffer LF (set_unread (bytes (join lines)) p))))).
    { rewrite (read_line_later p Hfirst Hshow), Hunread.
      rewrite (read_line_loop_whole_line body
                 (set_memory (set_line (source_file_line (memory p)) 0 (memory p)) p)
                 (bytes (join lines)) Hnl eq_refl Hbody).
      2:{ cbn [memory set_memory source_file_line set_line]. rewrite Hmem.
          cbn [source_file_line set_line]. rewrite Hlen. exact Hbody. }
      unfold prompt. cbn [show_prompt set_memory set_line_number set_c_buffer set_unread
                          set_source_file].
      rewrite Hshow. cbn [memory set_memory source_file_line set_line].
      rewrite Hmem. reflexivity. }
    cbn [session].
    destruct (all_spaces (body +:+ str LF)) eqn:Eblank.
    + (* a blank line *)
      unfold bind at 1, store_line at 1.
      set (g1 := set_line ((body +:+ str LF) +:+
                           string_from (String.length (body +:+ str LF))
                             (source_file_line g))
                          (String.length (body +:+ str LF)) g).
      set (p1 := set_memory
                   (set_line ((body +:+ str LF) +:+
                              string_from (String.length (body +:+ str LF))
                                (source_file_line g)) 0 g)
                   (set_line_number (wrap_int (source_file_line_number p + 1))
                      (set_c_buffer LF (set_unread (bytes (join lines)) p)))) in *.
      assert (Hstep : main_loop budget (S fuel) rc p = main_loop budget (S fuel) rc p1).
      { cbn [main_loop]. rewrite Heof. change (source_file_eof_read p1) with
          (source_file_eof_read p). rewrite Heof, Hread.
        rewrite (read_line_later p1 Hfirst Hshow). reflexivity. }
      rewrite Hstep.
      apply (IH budget (S fuel) rc p1 g1 Hlines'); try assumption; try reflexivity.
      * subst g1. cbn [source_file_line set_line].
        rewrite length_append, length_string_from, Hlen.
        rewrite length_append. simpl String.length. 
        unfold MAX_LINE_SIZE in *. lia.
      * exists O. reflexivity.
      * lia.
    + (* a line with an expression *)
      set (g1 := set_line ((body +:+ str LF) +:+
                           string_from (String.length (body +:+ str LF))
                             (source_file_line g))
                          (String.length (body +:+ str LF)) g) in *.
      assert (Hrun : run_line budget (body +:+ str LF) g = process_line budget g1)
        by reflexivity.
      unfold bind at 1. rewrite Hrun.
      cbn [main_loop]. rewrite Heof, Hread.
      cbn [memory set_memory].
      destruct (process_line budget g1) as [[s g2]| |] eqn:Eturn; try reflexivity.
      pose proof (process_line_keeps_line budget g1 s g2 Eturn) as Hkeep.
      apply line_buffer_eq in Hkeep as [Hk1 Hk2].
      apply (IH budget fuel _ _ g2 Hlines'); try assumption; try reflexivity.
      * rewrite Hk1. subst g1. cbn [source_file_line set_line].
        rewrite length_append, length_string_from, Hlen.
        rewrite length_append. simpl String.length.
        unfold MAX_LINE_SIZE in *. lia.
      * exists (source_file_line_occupied_size g2). apply set_line_same.
      * lia.
Qed.

(** ** A printed result as a line *)

(** A stream that begins with an operator, a closing bracket or the end of
    the expression: there is no operand to begin with. *)
Lemma parser_rejects_first tok rest n slot g :
  type tok <> token_number -> type tok <> token_bracket_open ->
  type tok <> token_end_of_file ->
  exists c s g',
    get_token_lexeme tok = Some (String c s) /\
    parse_token_stream_into_ast (S n) (tok :: rest) slot g
      = Returns ((FAILURE, slot), g') /\
    stdout g' = stdout g /\
    stderr g' = stderr g +:+ msg_expected_integer c.
Proof.
  intros Hnum Hopen Heof. destruct tok as [ty lx]. simpl in *.
  destruct ty; try contradiction;
    destruct n, rest; do 3 eexists; (split; [reflexivity|]);
    (split; [lazy; reflexivity|]); split; reflexivity.
Qed.

Lemma print_int_neg p : print_int (Z.neg p) = String "-" (print_int (Z.pos p)).
Proof.
  unfold print_int. cbn [Z.to_int NilZero.string_of_int]. reflexivity.
Qed.

Lemma store_line_initial l :
  store_line l initial_globals =
  Returns (tt, set_line (l +:+ string_from (String.length l)
                                (source_file_line initial_globals))
                        (String.length l) initial_globals).
Proof. reflexivity. Qed.

Lemma initial_buffer_nul z :
  (z < MAX_LINE_SIZE)%nat ->
  String.get z (source_file_line initial_globals) = Some NUL.
Proof.
  intros Hz. change (source_file_line initial_globals) with (repeated NUL MAX_LINE_SIZE).
  revert z Hz. generalize MAX_LINE_SIZE. intros n.
  induction n as [|n IH]; intros z Hz; [lia|].
  destruct z; [reflexivity|]. simpl. apply IH. lia.
Qed.

Lemma initial_buffer_length :
  String.length (source_file_line initial_globals) = MAX_LINE_SIZE.
Proof. reflexivity. Qed.

Lemma substring_prefix l t : substring 0 (String.length l) (l +:+ t) = l.
Proof.
  induction l as [|c l IH]; [apply substring_zero|].
  rewrite append_cons. simpl. f_equal. exact IH.
Qed.

(** The first line of a run, when it is shorter than the buffer: the
    line is in the buffer and NUL bytes follow it. *)
Lemma first_line_fits l :
  (String.length l < MAX_LINE_SIZE)%nat ->
  let g := set_line (l +:+ string_from (String.length l)
                            (source_file_line initial_globals))
                    (String.length l) initial_globals in
  (source_file_line_occupied_size g <= String.length (source_file_line g))%nat /\
  line_read g = l /\
  lexemes_fit g /\ stack_ok g.
Proof.
  intros Hl g. subst g. cbn [source_file_line source_file_line_occupied_size set_line].
  assert (Hlen : String.length
                   (l +:+ string_from (String.length l) (source_file_line initial_globals))
                 = MAX_LINE_SIZE).
  { rewrite length_append, length_string_from, initial_buffer_length. lia. }
  split; [rewrite Hlen; lia|]. split; [|split].
  - unfold line_read. cbn [source_file_line source_file_line_occupied_size set_line].
    apply substring_prefix.
  - left. exists (String.length l).
    cbn [source_file_line source_file_line_occupied_size set_line].
    split; [lia|].
    rewrite <- (Nat.add_0_r (String.length l)) at 1. rewrite get_app_skip.
    rewrite get_string_from, Nat.add_0_r. apply initial_buffer_nul. exact Hl.
  - split; [reflexivity|apply le_n].
Qed.

Lemma turn_is_safe_witness :
  exists s g',
    run_line 8 (line "(1 + 2") initial_globals = Returns (s, g') /\ stack_ok g'.
Proof.
  destruct (first_line_fits (line "(1 + 2")) as (Hsize & Hline & Hfit & Hok);
    [vm_compute; lia|].
  destruct (turn_is_safe _ "(1 + 2" 0 Hline Hsize Hfit Hok) as [U|(s & g' & E & Hok')].
  - vm_compute in U. discriminate U.
  - exists s, g'. split; [exact E|exact Hok'].
Defined.

(** A number after a minus sign, alone on its line. *)
Lemma tokenize_minus_digits d ds tail list g :
  all_digits (String d ds) = true ->
  source_file_line g = String "-" (String d ds +:+ str LF +:+ tail) ->
  source_file_line_occupied_size g = S (S (S (String.length ds))) ->
  tokenize_source_line_and_add_to_list list g =
    Returns ((SUCCESS,
              list ++ [symbol token_minus; number (String d ds);
                       symbol token_end_of_expression]), g).
Proof.
  intros Hall Hbuf Hsize.
  pose proof Hall as Hall'. simpl in Hall'. apply andb_true_iff in Hall' as [Hd Hds].
  unfold tokenize_source_line_and_add_to_list. rewrite Hsize.
  rewrite (tokenize_loop_symbol _ 0 1 list g "-" token_minus);
    [|lia|rewrite Hbuf; reflexivity|reflexivity|reflexivity].
  rewrite (tokenize_loop_number _ 1 1 _ g d
             (S (S (String.length ds))) (S (String.length ds)) (String d ds)).
  - rewrite (tokenize_loop_symbol _ _ _ _ g LF token_end_of_expression).
    + rewrite tokenize_loop_done by lia.
      rewrite <- !app_assoc. reflexivity.
    + lia.
    + rewrite Hbuf. cbn [String.get]. apply (get_length_app (String d ds) LF tail).
    + reflexivity.
    + reflexivity.
  - lia.
  - rewrite Hbuf. reflexivity.
  - exact Hd.
  - rewrite Hbuf. change (str LF +:+ tail) with (String LF tail).
    rewrite append_cons. cbn [string_from].
    rewrite (scan_number_digits ds LF tail 1 1 Hds eq_refl).
    reflexivity.
  - rewrite Hbuf. cbn [string_from].
    apply (strndup_digits (String d ds) (str LF +:+ tail) Hall).
Qed.

(** X8.  A printed result as a line.  What the calculator prints for a
    value that is not negative, it reads back as that value: the digits
    convert to the value, and the line that consists of them evaluates to
    it and prints the same digits.  What it prints for a negative value it
    cannot read back: there is no unary minus, and the line is a syntax
    error at the minus sign. *)
Theorem printed_result_as_a_line v :
  INT_MIN <= v <= INT_MAX ->
  (0 <= v ->
   str_to_int (print_int v) = v /\ prints (print_int v) (print_int v)) /\
  (v < 0 ->
   forall n,
   exists g',
     run_line (8 + n) (line (print_int v)) initial_globals = Returns (FAILURE, g') /\
     stdout g' = "" /\ stderr g' = msg_expected_integer "-").
Proof.
  intros Hv. split.
  - intros Hpos.
    assert (Hread : str_to_int (print_int v) = v)
      by (apply str_to_int_print_int; lia).
    split; [exact Hread|]. intros n.
    destruct (print_int_digits v Hpos) as [Hdigits Hne].
    destruct (print_int v) as [|d ds] eqn:Eprint; [contradiction|].
    unfold run_line, line. unfold bind at 1. rewrite store_line_initial.
    set (g0 := set_line _ _ initial_globals).
    assert (Etok : tokenize_source_line_and_add_to_list token_list_new g0 =
                   Returns ((SUCCESS, [number (String d ds);
                                       symbol token_end_of_expression]), g0)).
    { apply (tokenize_digits_alone d ds
               (string_from (String.length (String d ds +:+ str LF))
                  (source_file_line initial_globals)) [] g0 Hdigits).
      - subst g0. cbn [source_file_line set_line]. rewrite append_assoc. reflexivity.
      - subst g0. cbn [source_file_line_occupied_size set_line].
        rewrite length_append. simpl. lia. }
    unfold process_line. unfold bind at 1. rewrite Etok.
    destruct (parser_complete [number (String d ds)] (ast_num v)
                (symbol token_end_of_expression) []) with (n := (6 + n)%nat) (g := g0)
      as (g1 & Eparse & Ho1 & He1 & Hc1 & Ht1).
    { rewrite <- Hread.
      apply (derives_operand ast_add), (derives_operand ast_sub),
        (derives_operand ast_mul), (derives_operand ast_div).
      exact (derives_number (number (String d ds)) (String d ds) eq_refl eq_refl). }
    { reflexivity. }
    change (S (length [number (String d ds)]) + (6 + n))%nat with (8 + n)%nat in Eparse.
    change ([number (String d ds)] ++ [symbol token_end_of_expression])
      with [number (String d ds); symbol token_end_of_expression] in Eparse.
    unfold bind at 1. rewrite Eparse.
    destruct (execution_engine_value (ast_num v) v g1) as (g2 & E2 & Ho2 & He2 & _).
    + simpl. unfold in_int.
      destruct Hv as [Hmin Hmax]. apply Z.leb_le in Hmin, Hmax.
      rewrite Hmin, Hmax. reflexivity.
    + split; [rewrite Hc1; reflexivity|rewrite Ht1; apply le_n].
    + unfold callstack_is_empty. rewrite Ht1. reflexivity.
    + simpl. unfold MAX_CALLSTACK_DEPTH. lia.
    + exists g2. split; [exact E2|]. rewrite Ho2, He2, Ho1, He1, Eprint. split; reflexivity.
  - intros Hneg n. destruct v as [|p|p]; try lia.
    rewrite print_int_neg.
    assert (Hpos : 0 <= Z.pos p) by lia.
    destruct (print_int_digits (Z.pos p) Hpos) as [Hdigits Hne].
    destruct (print_int (Z.pos p)) as [|d ds] eqn:Eprint; [contradiction|].
    unfold run_line, line. unfold bind at 1. rewrite store_line_initial.
    set (g0 := set_line _ _ initial_globals).
    assert (Etok : tokenize_source_line_and_add_to_list token_list_new g0 =
                   Returns ((SUCCESS, [symbol token_minus; number (String d ds);
                                       symbol token_end_of_expression]), g0)).
    { apply (tokenize_minus_digits d ds
               (string_from (String.length (String "-" (String d ds) +:+ str LF))
                  (source_file_line initial_globals)) [] g0 Hdigits).
      - subst g0. cbn [source_file_line set_line].
        rewrite append_assoc, append_cons. reflexivity.
      - subst g0. cbn [source_file_line_occupied_size set_line].
        rewrite append_cons. simpl. rewrite length_append. simpl. lia. }
    unfold process_line. unfold bind at 1. rewrite Etok.
    destruct (parser_rejects_first (symbol token_minus)
                [number (String d ds); symbol token_end_of_expression]
                (7 + n) NULL g0) as (c & s & g1 & Ec & Eparse & Ho1 & He1);
      try discriminate.
    inversion Ec; subst c s.
    change (S (7 + n)) with (8 + n)%nat in Eparse.
    unfold bind at 1. rewrite Eparse. unfold ret.
    exists g1. split; [reflexivity|]. rewrite Ho1, He1. split; reflexivity.
Qed.

Lemma printed_result_as_a_line_witness :
  str_to_int (print_int 2147483647) = 2147483647 /\
  exists g',
    run_line 8 (line "-5") initial_globals = Returns (FAILURE, g') /\
    stderr g' = msg_expected_integer "-".
Proof.
  assert (H1 : INT_MIN <= 2147483647 <= INT_MAX) by (unfold INT_MIN, INT_MAX; lia).
  assert (H2 : INT_MIN <= -5 <= INT_MAX) by (unfold INT_MIN, INT_MAX; lia).
  split.
  - apply (proj1 (printed_result_as_a_line 2147483647 H1)). lia.
  - destruct (proj2 (printed_result_as_a_line (-5) H2) ltac:(lia) O)
      as (g' & E & _ & He).
    exists g'. split; [exact E|exact He].
Defined.

(** ** What [read_line] delivers *)

Lemma length_put_line l buf :
  String.length buf = MAX_LINE_SIZE -> (String.length l <= MAX_LINE_SIZE)%nat ->
  String.length (l +:+ string_from (String.length l) buf) = MAX_LINE_SIZE.
Proof. intros Hb Hl. rewrite length_append, length_string_from, Hb. lia. Qed.

(** The loop from the start of a line on: blank lines, then a line that
    is not blank. *)
Lemma read_line_loop_delivers blanks :
  forall p body rest,
    Forall blank_line blanks ->
    no_newline body = true -> all_spaces body = false ->
    (String.length body < MAX_LINE_SIZE)%nat ->
    source_file_line_occupied_size (memory p) = O ->
    String.length (source_file_line (memory p)) = MAX_LINE_SIZE ->
    exists buf out,
      read_line_loop (bytes (join blanks +:+ body +:+ str LF) ++ rest) true p =
      Returns (SUCCESS,
               set_memory
                 (set_stdout out (set_line buf (S (String.length body)) (memory p)))
                 (set_line_number
                    (line_number_after (S (length blanks)) (source_file_line_number p))
                    (set_c_buffer LF (set_unread rest p)))) /\
      substring 0 (S (String.length body)) buf = body +:+ str LF /\
      String.length buf = MAX_LINE_SIZE /\
      out = stdout (memory p) +:+
            (if show_prompt p then prompts (length blanks) else "").
Proof.
  induction blanks as [|b blanks IH];
    intros p body rest Hblanks Hnl Hsp Hbody Hsize Hlen.
  - cbn [join]. rewrite append_nil_l.
    rewrite (read_line_loop_whole_line body p rest Hnl Hsize Hbody)
      by (rewrite Hlen; exact Hbody).
    rewrite all_spaces_line, Hsp.
    assert (Hl1 : String.length (body +:+ str LF) = S (String.length body))
      by (rewrite length_append; simpl; lia).
    exists ((body +:+ str LF) +:+
            string_from (String.length (body +:+ str LF)) (source_file_line (memory p))),
           (stdout (memory p)).
    split; [|split; [|split]].
    + rewrite Hl1. destruct p as [g ? ? ? ? ? ?]. destruct g. reflexivity.
    + rewrite <- Hl1. apply substring_prefix.
    + apply length_put_line; [exact Hlen|]. lia.
    + cbn [length prompts]. destruct (show_prompt p); rewrite append_nil_r; reflexivity.
  - inversion Hblanks as [|? ? (ws & Eb & Hnlw & Hspw & Hlw) Hblanks']; subst.
    cbn [join]. rewrite append_assoc, bytes_app, <- app_assoc.
    rewrite (read_line_loop_whole_line ws p _ Hnlw Hsize Hlw)
      by (rewrite Hlen; exact Hlw).
    rewrite all_spaces_line, Hspw.
    set (buf1 := (ws +:+ str LF) +:+
                 string_from (String.length (ws +:+ str LF))
                   (source_file_line (memory p))).
    assert (Hlen1 : String.length buf1 = MAX_LINE_SIZE).
    { apply length_put_line; [exact Hlen|]. rewrite length_append. simpl. lia. }
    unfold prompt. cbn [show_prompt set_memory set_line_number set_c_buffer
                        set_unread set_source_file].
    destruct (show_prompt p) eqn:Eshow.
    + edestruct (IH (printed "> "
                       (set_memory (set_line buf1 0 (memory p))
                          (set_line_number (wrap_int (source_file_line_number p + 1))
                             (set_c_buffer LF
                                (set_unread (bytes (join blanks +:+ body +:+ str LF) ++ rest)
                                   p)))))
                    body rest Hblanks' Hnl Hsp Hbody eq_refl Hlen1)
        as (buf & out & E & Hsub & Hl & Hout).
      rewrite E. exists buf, out.
      split; [|split; [exact Hsub|split; [exact Hl|]]].
      * destruct p as [g ? ? ? ? ? ?]. destruct g. reflexivity.
      * rewrite Hout. cbn [stdout memory printed set_memory set_stdout set_line
                           show_prompt set_line_number set_c_buffer set_unread
                           set_source_file].
        rewrite Eshow. cbn [length prompts]. rewrite append_assoc. reflexivity.
    + edestruct (IH (set_memory (set_line buf1 0 (memory p))
                       (set_line_number (wrap_int (source_file_line_number p + 1))
                          (set_c_buffer LF
                             (set_unread (bytes (join blanks +:+ body +:+ str LF) ++ rest)
                                p))))
                    body rest Hblanks' Hnl Hsp Hbody eq_refl Hlen1)
        as (buf & out & E & Hsub & Hl & Hout).
      rewrite E. exists buf, out.
      split; [|split; [exact Hsub|split; [exact Hl|]]].
      * destruct p as [g ? ? ? ? ? ?]. destruct g. reflexivity.
      * rewrite Hout. cbn [stdout memory set_memory set_stdout set_line
                           show_prompt set_line_number set_c_buffer set_unread
                           set_source_file].
        rewrite Eshow. reflexivity.
Qed.

(** ** [read_line], seen from its caller *)

Lemma prompts_snoc k : "> " +:+ prompts k = prompts (S k).
Proof. reflexivity. Qed.

(** How a call of [read_line] begins: the prompt is settled on the first
    call, the buffer is taken as empty and the prompt is printed. *)
Lemma read_line_start p :
  exists p0,
    read_line p = read_line_loop (unread (source_file p)) true p0 /\
    source_file_line_occupied_size (memory p0) = O /\
    (exists out, memory p0 = set_stdout out (set_line (source_file_line (memory p)) 0 (memory p)) /\
                 out = stdout (memory p) +:+
                       (if (if first_run p
                            then is_a_terminal (source_file p) || show_prompt p
                            else show_prompt p)
                        then "> " else "")) /\
    source_file p0 = source_file p /\
    source_file_eof_read p0 = source_file_eof_read p /\
    source_file_line_number p0 = source_file_line_number p /\
    show_prompt p0 = (if first_run p
                      then is_a_terminal (source_file p) || show_prompt p
                      else show_prompt p) /\
    first_run p0 = false.
Proof.
  exists (prompt
            (set_memory
               (set_line (source_file_line (memory p)) 0 (memory p))
               (if first_run p
                then set_prompt (if is_a_terminal (source_file p) then true
                                 else show_prompt p) false p
                else p))).
  unfold read_line, prompt.
  destruct p as [g f eof ln c show first].
  cbn [memory source_file source_file_eof_read source_file_line_number show_prompt
       first_run].
  destruct first, (is_a_terminal f), show;
    (split; [reflexivity|]);
    (split; [reflexivity|]);
    (split; [eexists; split; [|reflexivity]; destruct g; cbn;
             rewrite ?append_nil_r; reflexivity|]);
    repeat split; reflexivity.
Qed.

(** X12.  [read_line] passes over the blank lines that come first (empty
    lines and lines of white space) and delivers the next line that is
    not blank, with its newline, as the first bytes of the buffer; it
    counts every line it has read, reads no byte past the newline of the
    line it delivers, and prints a prompt for every line it has started
    when the source is a terminal, nothing otherwise.  The line has
    fewer than [MAX_LINE_SIZE] bytes before its newline. *)
Theorem read_line_skips_blank_lines p blanks body rest :
  Forall blank_line blanks ->
  no_newline body = true -> all_spaces body = false ->
  (String.length body < MAX_LINE_SIZE)%nat ->
  String.length (source_file_line (memory p)) = MAX_LINE_SIZE ->
  unread (source_file p) = bytes (join blanks +:+ body +:+ str LF) ++ rest ->
  exists p',
    read_line p = Returns (SUCCESS, p') /\
    line_read (memory p') = body +:+ str LF /\
    source_file_line_occupied_size (memory p') = S (String.length body) /\
    unread (source_file p') = rest /\
    source_file_eof_read p' = source_file_eof_read p /\
    source_file_line_number p' =
      line_number_after (S (length blanks)) (source_file_line_number p) /\
    stdout (memory p') =
      stdout (memory p) +:+
      (if (if first_run p
           then is_a_terminal (source_file p) || show_prompt p
           else show_prompt p)
       then prompts (S (length blanks)) else "") /\
    stderr (memory p') = stderr (memory p) /\
    first_run p' = false.
Proof.
  intros Hblanks Hnl Hsp Hbody Hlen Hunread.
  destruct (read_line_start p)
    as (p0 & E0 & Hsize & (out0 & Hm & Hout0) & Hf & He & Hn & Hs & Hfirst).
  rewrite E0, Hunread.
  assert (Hlen0 : String.length (source_file_line (memory p0)) = MAX_LINE_SIZE)
    by (rewrite Hm; exact Hlen).
  destruct (read_line_loop_delivers blanks p0 body rest
              Hblanks Hnl Hsp Hbody Hsize Hlen0) as (buf & out & E & Hsub & Hl & Hout).
  rewrite E. eexists. split; [reflexivity|].
  cbn [memory source_file source_file_eof_read source_file_line_number first_run
       set_memory set_line_number set_c_buffer set_unread set_source_file
       source_file_line source_file_line_occupied_size set_stdout set_line
       stdout stderr unread].
  unfold line_read.
  cbn [source_file_line source_file_line_occupied_size set_stdout set_line].
  split; [exact Hsub|]. split; [reflexivity|]. split; [reflexivity|].
  split; [exact He|]. split; [rewrite Hn; reflexivity|].
  split.
  { rewrite Hout, Hs, Hm, Hout0. cbn [stdout set_stdout].
    destruct (if first_run p then is_a_terminal (source_file p) || show_prompt p
              else show_prompt p).
    - rewrite append_assoc. reflexivity.
    - rewrite !append_nil_r. reflexivity. }
  split; [rewrite Hm; reflexivity|exact Hfirst].
Qed.

Lemma read_line_skips_blank_lines_witness :
  exists p',
    read_line
      (initial_program
         {| stdin := File true (bytes ("  " +:+ str LF +:+ str LF +:+ "1+1" +:+ str LF
                                        +:+ "2" +:+ str LF));
            open := fun _ => inr "No such file or directory" |})
    = Returns (SUCCESS, p') /\
    line_read (memory p') = "1+1" +:+ str LF /\
    unread (source_file p') = bytes ("2" +:+ str LF) /\
    source_file_line_number p' = 3 /\
    stdout (memory p') = "> > > ".
Proof.
  destruct (read_line_skips_blank_lines
              (initial_program
                 {| stdin := File true (bytes ("  " +:+ str LF +:+ str LF +:+ "1+1"
                                                +:+ str LF +:+ "2" +:+ str LF));
                    open := fun _ => inr "No such file or directory" |})
              ["  " +:+ str LF; str LF] "1+1" (bytes ("2" +:+ str LF)))
    as (p' & E & Hline & _ & Hrest & _ & Hn & Hout & _).
  - repeat constructor.
    + exists "  ". repeat split; try reflexivity. unfold MAX_LINE_SIZE. simpl. lia.
    + exists "". repeat split; try reflexivity. unfold MAX_LINE_SIZE. simpl. lia.
  - reflexivity.
  - reflexivity.
  - unfold MAX_LINE_SIZE. simpl. lia.
  - reflexivity.
  - reflexivity.
  - exists p'. split; [exact E|]. split; [exact Hline|]. split; [exact Hrest|].
    split; [exact Hn|exact Hout].
Defined.

(** ** The whole program on a file *)

(** The first call of [read_line] on a source that is no terminal is as
    any later call. *)
Lemma main_loop_first budget fuel return_code p :
  is_a_terminal (source_file p) = false -> show_prompt p = false ->
  source_file_eof_read p = false ->
  main_loop budget fuel return_code p =
  main_loop budget fuel return_code (set_prompt false false p).
Proof.
  intros Htty Hshow Heof.
  assert (Hread : read_line p = read_line (set_prompt false false p)).
  { unfold read_line. cbn [first_run set_prompt source_file show_prompt].
    rewrite Htty, Hshow. destruct (first_run p) eqn:E; [reflexivity|].
    cbv zeta iota. destruct p; cbn in *; subst; reflexivity. }
  destruct fuel as [|fuel]; cbn [main_loop source_file_eof_read set_prompt];
    rewrite Heof, <- ?Hread; reflexivity.
Qed.

(** X13.  On a source that is no terminal and holds whole lines, each
    with fewer than [MAX_LINE_SIZE] bytes before its newline, [main] does
    with the lines what [session] does: blank lines are passed over, every
    other line is tokenized, parsed and executed in its turn, the exit
    status is [FAILURE] as soon as one line has failed, and at the end a
    newline is printed.  A fault in one turn is the fault of the
    program. *)
Theorem main_runs_the_lines env argv budget fuel f lines :
  match argv with
  | [_; path] => open env path = inl f
  | _ => stdin env = f
  end ->
  is_a_terminal f = false ->
  unread f = bytes (join lines) ->
  Forall proper_line lines ->
  (length lines < fuel)%nat ->
  match session budget lines SUCCESS initial_globals with
  | Returns (return_code, g') =>
      exists p',
        main env argv budget fuel = Returns (return_code, p') /\
        stdout (memory p') = stdout g' +:+ str LF /\
        stderr (memory p') = stderr g'
  | Undefined fault => main env argv budget fuel = Undefined fault
  | Out_of_fuel => main env argv budget fuel = Out_of_fuel
  end.
Proof.
  intros Hsrc Htty Hunread Hlines Hfuel.
  assert (Hopen :
    open_source_file env
      match argv with [_; path] => Some path | _ => None end (initial_program env)
    = Returns (SUCCESS, set_source_file f (initial_program env))).
  { unfold open_source_file.
    destruct argv as [|a0 [|a1 [|a2 argv]]]; try (rewrite Hsrc; reflexivity). }
  unfold main. cbv zeta. rewrite Hopen.
  cbn [source_file set_source_file]. rewrite Htty.
  rewrite main_loop_first by (try exact Htty; reflexivity).
  pose proof (main_loop_session lines budget fuel SUCCESS
                (set_prompt false false (set_source_file f (initial_program env)))
                initial_globals Hlines Hunread eq_refl eq_refl eq_refl
                initial_buffer_length
                (ex_intro _ (source_file_line_occupied_size initial_globals)
                   (set_line_same initial_globals))
                Hfuel) as H.
  destruct (session budget lines SUCCESS initial_globals) as [[rc g']| |].
  - destruct H as (p' & E & Ho & He & _). rewrite E.
    eexists. split; [reflexivity|].
    cbn [memory printed set_memory stdout stderr set_stdout].
    rewrite Ho, He. split; reflexivity.
  - rewrite H. reflexivity.
  - rewrite H. reflexivity.
Qed.

Lemma main_runs_the_lines_witness :
  exists p',
    main {| stdin := File false (bytes ("2 + 3 * 4" +:+ str LF +:+ str LF +:+
                                        "1 / 0" +:+ str LF +:+ "(7)" +:+ str LF));
            open := fun _ => inr "No such file or directory" |}
         ["calculator"] 16 5
    = Returns (FAILURE, p') /\
    stdout (memory p') =
      green "14" +:+ "." +:+ str LF +:+ green "7" +:+ "." +:+ str LF +:+ str LF /\
    stderr (memory p') = msg_DivisionByZero.
Proof.
  pose proof (main_runs_the_lines
                {| stdin := File false (bytes ("2 + 3 * 4" +:+ str LF +:+ str LF +:+
                                               "1 / 0" +:+ str LF +:+ "(7)" +:+ str LF));
                   open := fun _ => inr "No such file or directory" |}
                ["calculator"] 16 5
                (File false (bytes ("2 + 3 * 4" +:+ str LF +:+ str LF +:+
                                    "1 / 0" +:+ str LF +:+ "(7)" +:+ str LF)))
                ["2 + 3 * 4" +:+ str LF; str LF; "1 / 0" +:+ str LF; "(7)" +:+ str LF]
                eq_refl eq_refl eq_refl) as H.
  assert (Hlines : Forall proper_line
            ["2 + 3 * 4" +:+ str LF; str LF; "1 / 0" +:+ str LF; "(7)" +:+ str LF]).
  { repeat constructor.
    - exists "2 + 3 * 4". repeat split; try reflexivity. unfold MAX_LINE_SIZE. simpl. lia.
    - exists "". repeat split; try reflexivity. unfold MAX_LINE_SIZE. simpl. lia.
    - exists "1 / 0". repeat split; try reflexivity. unfold MAX_LINE_SIZE. simpl. lia.
    - exists "(7)". repeat split; try reflexivity. unfold MAX_LINE_SIZE. simpl. lia. }
  specialize (H Hlines ltac:(simpl; lia)).
  remember (session 16 _ SUCCESS initial_globals) as o eqn:Eo in H.
  vm_compute in Eo. subst o.
  destruct H as (p' & E & Ho & He).
  exists p'. split; [exact E|]. split; [exact Ho|exact He].
Defined.

(** ** The end of the file *)

(** The tokenizer adds to the list; it takes nothing from it. *)
Lemma tokenize_loop_prefix fuel :
  forall i lexeme_length list g s l g',
    tokenize_loop fuel i lexeme_length list g = Returns ((s, l), g') ->
    exists toks, l = list ++ toks.
Proof.
  induction fuel as [|fuel IH]; intros i n list g s l g' H.
  - cbn [tokenize_loop] in H.
    destruct (source_file_line_occupied_size g <=? i)%nat; [|discriminate].
    inversion H; subst. exists []. rewrite app_nil_r. reflexivity.
  - destruct (le_lt_dec (source_file_line_occupied_size g) i) as [Hle|Hlt].
    { rewrite tokenize_loop_done in H by lia. inversion H; subst.
      exists []. rewrite app_nil_r. reflexivity. }
    destruct (String.get i (source_file_line g)) as [c|] eqn:Hc.
    2:{ apply Nat.leb_gt in Hlt. cbn [tokenize_loop] in H. rewrite Hlt in H.
        unfold bind, line_at in H. rewrite Hc in H. discriminate. }
    destruct (isspace c && negb (Ascii.eqb c LF)) eqn:Hsp.
    { rewrite (tokenize_loop_space _ _ _ _ _ c Hlt Hc Hsp) in H.
      exact (IH _ _ _ _ _ _ _ H). }
    destruct (single_character_token c) as [t|] eqn:Hsingle.
    { rewrite (tokenize_loop_symbol _ _ _ _ _ c t Hlt Hc Hsp Hsingle) in H.
      apply IH in H as [toks ->]. exists (symbol t :: toks).
      rewrite <- app_assoc. reflexivity. }
    destruct (isdigit c) eqn:Hd.
    + destruct (scan_number (string_from (S i) (source_file_line g)) i n)
        as [[i' n']| |] eqn:Hscan.
      2,3: apply Nat.leb_gt in Hlt; cbn [tokenize_loop] in H; rewrite Hlt in H;
           unfold bind, line_at in H; rewrite Hc, Hsp, Hsingle, Hd in H;
           cbn [negb] in H; rewrite Hscan in H; discriminate.
      destruct (strndup (string_from i (source_file_line g)) n') as [lx| |] eqn:Hdup.
      2,3: apply Nat.leb_gt in Hlt; cbn [tokenize_loop] in H; rewrite Hlt in H;
           unfold bind, line_at in H; rewrite Hc, Hsp, Hsingle, Hd in H;
           cbn [negb] in H; rewrite Hscan, Hdup in H; discriminate.
      rewrite (tokenize_loop_number _ _ _ _ _ c i' n' lx Hlt Hc Hd Hscan Hdup) in H.
      apply IH in H as [toks ->]. exists (number lx :: toks).
      rewrite <- app_assoc. reflexivity.
    + assert (Hs : isspace c = false).
      { destruct (isspace c) eqn:E; [|reflexivity]. simpl in Hsp.
        apply negb_false_iff, Ascii.eqb_eq in Hsp. subst c. discriminate Hsingle. }
      rewrite (tokenize_loop_unexpected _ _ _ _ _ c Hlt Hc Hs Hsingle Hd) in H.
      unfold bind in H.
      destruct (report_unexpected_character i c g) as [[[] g1]| |]; try discriminate.
      unfold ret in H. inversion H; subst. exists []. rewrite app_nil_r. reflexivity.
Qed.


(** A stream that begins with the end of the file holds no expression:
    the parser takes nothing and the engine has nothing to do. *)
Lemma end_of_file_first budget toks g :
  exists g',
    (res' <- parse_token_stream_into_ast budget (symbol token_end_of_file :: toks) NULL ;;
     match res' with
     | (SUCCESS, tree) => execution_engine tree
     | (FAILURE, _) => ret FAILURE
     end) g = Returns (SUCCESS, g') /\
    stdout g' = stdout g /\ stderr g' = stderr g /\
    line_buffer g' = line_buffer g /\
    callstack_top g' = MAX_CALLSTACK_DEPTH /\ length (callstack g') = length (callstack g).
Proof.
  eexists. split; [reflexivity|]. simpl. auto.
Qed.

(** A turn on a line that begins with the end-of-file byte: what is left
    of the line is tokenized, and nothing is parsed or executed. *)
Lemma process_line_end_of_file_first budget g :
  String.get 0 (source_file_line g) = Some EOF ->
  (1 <= source_file_line_occupied_size g)%nat ->
  match tokenize_source_line_and_add_to_list token_list_new g with
  | Returns ((SUCCESS, _), _) =>
      exists g',
        process_line budget g = Returns (SUCCESS, g') /\
        stdout g' = stdout g /\ stderr g' = stderr g /\
        line_buffer g' = line_buffer g /\
        callstack_top g' = MAX_CALLSTACK_DEPTH /\ length (callstack g') = length (callstack g)
  | Returns ((FAILURE, _), g1) => process_line budget g = Returns (FAILURE, g1)
  | Undefined x => process_line budget g = Undefined x
  | Out_of_fuel => process_line budget g = Out_of_fuel
  end.
Proof.
  intros Hget Hsize.
  destruct (tokenize_source_line_and_add_to_list token_list_new g)
    as [[[s l] g1]| |] eqn:Etok;
    try (unfold process_line, bind; rewrite Etok; reflexivity).
  destruct s; [|unfold process_line, bind; rewrite Etok; reflexivity].
  pose proof Etok as Hsame. unfold tokenize_source_line_and_add_to_list in Hsame.
  apply tokenize_loop_returns in Hsame. destruct Hsame as [-> _].
  pose proof Etok as Hpre. unfold tokenize_source_line_and_add_to_list in Hpre.
  destruct (source_file_line_occupied_size g) as [|n] eqn:En; [lia|].
  rewrite (tokenize_loop_symbol n 0 1 token_list_new g EOF token_end_of_file) in Hpre;
    [|lia|exact Hget|reflexivity|reflexivity].
  apply tokenize_loop_prefix in Hpre as [toks ->].
  unfold process_line. unfold bind at 1. rewrite Etok.
  exact (end_of_file_first budget toks g).
Qed.

(** ** Lines that [read_line] does not deliver *)

(** The loop over the blank lines at the start of what is to be read. *)
Lemma read_line_loop_skips blanks :
  forall p pending,
    Forall blank_line blanks ->
    source_file_line_occupied_size (memory p) = O ->
    String.length (source_file_line (memory p)) = MAX_LINE_SIZE ->
    unread (source_file p) = bytes (join blanks) ++ pending ->
    exists buf out c,
      read_line_loop (bytes (join blanks) ++ pending) true p =
      read_line_loop pending true
        (set_memory (set_stdout out (set_line buf 0 (memory p)))
           (set_line_number
              (line_number_after (length blanks) (source_file_line_number p))
              (set_c_buffer c (set_unread pending p)))) /\
      String.length buf = MAX_LINE_SIZE /\
      out = stdout (memory p) +:+
            (if show_prompt p then prompts (length blanks) else "").
Proof.
  induction blanks as [|b blanks IH]; intros p pending Hblanks Hsize Hlen Hunread.
  - exists (source_file_line (memory p)), (stdout (memory p)), (c_buffer p).
    split; [|split; [exact Hlen|]].
    + change (bytes (join [])) with (@nil read_result) in *. cbn [app] in *.
      f_equal. destruct p as [g [tty un] eof ln c show first]. destruct g.
      cbn in Hsize, Hunread |- *. subst. reflexivity.
    + cbn [length prompts]. destruct (show_prompt p); rewrite append_nil_r; reflexivity.
  - inversion Hblanks as [|? ? (ws & Eb & Hnlw & Hspw & Hlw) Hblanks']; subst.
    cbn [join]. rewrite bytes_app, <- app_assoc.
    rewrite (read_line_loop_whole_line ws p _ Hnlw Hsize Hlw)
      by (rewrite Hlen; exact Hlw).
    rewrite all_spaces_line, Hspw.
    set (buf1 := (ws +:+ str LF) +:+
                 string_from (String.length (ws +:+ str LF))
                   (source_file_line (memory p))).
    assert (Hlen1 : String.length buf1 = MAX_LINE_SIZE).
    { apply length_put_line; [exact Hlen|]. rewrite length_append. simpl. lia. }
    set (p1 := prompt
                 (set_memory (set_line buf1 0 (memory p))
                    (set_line_number (wrap_int (source_file_line_number p + 1))
                       (set_c_buffer LF
                          (set_unread (bytes (join blanks) ++ pending) p))))).
    assert (H1 : source_file_line_occupied_size (memory p1) = O /\
                 source_file_line (memory p1) = buf1 /\
                 unread (source_file p1) = bytes (join blanks) ++ pending /\
                 show_prompt p1 = show_prompt p /\
                 source_file_line_number p1 =
                   wrap_int (source_file_line_number p + 1) /\
                 stdout (memory p1) =
                   stdout (memory p) +:+ (if show_prompt p then "> " else "")).
    { subst p1. unfold prompt.
      cbn [show_prompt set_memory set_line_number set_c_buffer set_unread
           set_source_file].
      destruct (show_prompt p) eqn:Eshow; cbn; rewrite ?Eshow, ?append_nil_r;
        repeat split; reflexivity. }
    destruct H1 as (Hs1 & Hb1 & Hu1 & Hsh1 & Hn1 & Ho1).
    destruct (IH p1 pending Hblanks' Hs1 ltac:(rewrite Hb1; exact Hlen1) Hu1)
      as (buf & out & c & E & Hl & Hout).
    rewrite E. exists buf, out, c.
    split; [|split; [exact Hl|]].
    + f_equal. rewrite Hn1. subst p1. unfold prompt.
      cbn [show_prompt set_memory set_line_number set_c_buffer set_unread
           set_source_file].
      destruct p as [g f eof ln c0 show first]. destruct g, show; reflexivity.
    + rewrite Hout, Hsh1, Ho1. cbn [length prompts].
      destruct (show_prompt p).
      * rewrite append_assoc. reflexivity.
      * rewrite !append_nil_r. reflexivity.
Qed.

(** The loop over bytes of a line before its newline: [pre] is the part
    of the line that is in the buffer already. *)
Lemma read_line_loop_chars body :
  forall c pre all_ws p buf0 rest,
    no_newline (String c body) = true ->
    source_file_line (memory p) = pre +:+ string_from (String.length pre) buf0 ->
    source_file_line_occupied_size (memory p) = String.length pre ->
    (String.length pre + S (String.length body) <= MAX_LINE_SIZE)%nat ->
    (String.length pre + S (String.length body) <= String.length buf0)%nat ->
    exists d,
      read_line_loop (bytes (String c body) ++ rest) all_ws p =
      read_line_loop rest (all_ws && all_spaces (String c body))
        (set_memory
           (set_line ((pre +:+ String c body) +:+
                      string_from (String.length (pre +:+ String c body)) buf0)
                     (String.length (pre +:+ String c body)) (memory p))
           (set_c_buffer d (set_unread rest p))).
Proof.
  induction body as [|b body IH];
    intros c pre all_ws p buf0 rest Hnl Hbuf Hsize Hmax Hlen;
    simpl in Hnl; apply andb_true_iff in Hnl as [Hc Hnl]; apply negb_true_iff in Hc.
  - exists c. rewrite bytes_cons. change (bytes "") with (@nil read_result).
    cbn [app read_line_loop]. rewrite Hsize.
    replace (MAX_LINE_SIZE <=? String.length pre)%nat with false
      by (symmetry; apply Nat.leb_gt; simpl in Hmax; lia).
    rewrite Hbuf, string_set_next by (simpl in Hlen; lia).
    rewrite Hc. f_equal.
    + cbn [all_spaces]. destruct all_ws, (isspace c); reflexivity.
    + change (String c "") with (str c).
      rewrite length_append. simpl String.length. rewrite Nat.add_1_r. reflexivity.
  - rewrite bytes_cons. cbn [app read_line_loop]. rewrite Hsize.
    replace (MAX_LINE_SIZE <=? String.length pre)%nat with false
      by (symmetry; apply Nat.leb_gt; simpl in Hmax; lia).
    rewrite Hbuf, string_set_next by (simpl in Hlen; lia).
    rewrite Hc.
    assert (Hnl' : no_newline (String b body) = true) by exact Hnl.
    destruct (IH b (pre +:+ str c)
                (if all_ws && negb (isspace c) then false else all_ws)
                (set_memory
                   (set_line ((pre +:+ str c) +:+
                              string_from (String.length (pre +:+ str c)) buf0)
                             (S (String.length pre)) (memory p))
                   (set_c_buffer c (set_unread (bytes (String b body) ++ rest) p)))
                buf0 rest Hnl') as [d E].
    + reflexivity.
    + cbn [memory set_memory source_file_line_occupied_size set_line].
      rewrite length_append. simpl. lia.
    + rewrite length_append. simpl in *. lia.
    + rewrite length_append. simpl in *. lia.
    + exists d. rewrite E. rewrite !append_snoc.
      assert (Eall : (if all_ws && negb (isspace c) then false else all_ws)
                       && all_spaces (String b body)
                     = all_ws && all_spaces (String c (String b body))).
      { cbn [all_spaces]. destruct all_ws, (isspace c); reflexivity. }
      rewrite Eall.
      destruct p as [g f eof ln c0 show first]. destruct g. reflexivity.
Qed.


(** The loop does not read when the buffer is full. *)
Lemma read_line_loop_full pending all_ws p :
  (MAX_LINE_SIZE <= source_file_line_occupied_size (memory p))%nat ->
  read_line_loop pending all_ws p = Returns (FAILURE, p).
Proof.
  intros H. apply Nat.leb_le in H.
  destruct pending as [|[c|e] pending]; cbn [read_line_loop]; rewrite H; reflexivity.
Qed.

(** X14.  A line of [MAX_LINE_SIZE] bytes or more before its newline is
    too long, whatever comes after these bytes: [read_line] takes the
    [MAX_LINE_SIZE] bytes and fails without a message, none of the bytes
    that follow is read, and the loop of [main] ends there with
    [FAILURE], so that the lines after the long one are never run. *)
Theorem read_line_gives_up_on_a_long_line p blanks long rest :
  Forall blank_line blanks ->
  no_newline long = true ->
  String.length long = MAX_LINE_SIZE ->
  String.length (source_file_line (memory p)) = MAX_LINE_SIZE ->
  unread (source_file p) = bytes (join blanks +:+ long) ++ rest ->
  exists p',
    read_line p = Returns (FAILURE, p') /\
    unread (source_file p') = rest /\
    stderr (memory p') = stderr (memory p) /\
    source_file_eof_read p' = source_file_eof_read p /\
    (source_file_eof_read p = false ->
     forall budget fuel return_code,
       main_loop budget (S fuel) return_code p = Returns (FAILURE, p')).
Proof.
  intros Hblanks Hnl Hlong Hlen Hunread.
  destruct (read_line_start p)
    as (p0 & E0 & Hsize & (out0 & Hm & Hout0) & Hf & He & Hn & Hs & Hfirst).
  assert (Hlen0 : String.length (source_file_line (memory p0)) = MAX_LINE_SIZE)
    by (rewrite Hm; exact Hlen).
  rewrite bytes_app, <- app_assoc in Hunread.
  destruct (read_line_loop_skips blanks p0 (bytes long ++ rest) Hblanks Hsize Hlen0)
    as (buf & out & c & E1 & Hbuf & Hout); [rewrite Hf; exact Hunread|].
  destruct long as [|a body]; [discriminate Hlong|].
  simpl in Hlong.
  set (p1 := set_memory (set_stdout out (set_line buf 0 (memory p0)))
               (set_line_number
                  (line_number_after (length blanks) (source_file_line_number p0))
                  (set_c_buffer c (set_unread (bytes (String a body) ++ rest) p0)))) in *.
  destruct (read_line_loop_chars body a "" true p1 buf rest Hnl eq_refl eq_refl)
    as [d E2]; [simpl; lia|simpl; lia|].
  assert (Eread : read_line p =
                  Returns (FAILURE,
                    set_memory
                      (set_line (String a body +:+
                                 string_from (String.length (String a body)) buf)
                                (String.length (String a body)) (memory p1))
                      (set_c_buffer d (set_unread rest p1)))).
  { rewrite E0, Hunread, E1, E2. apply read_line_loop_full.
    cbn [memory set_memory source_file_line_occupied_size set_line].
    simpl String.length. lia. }
  eexists. split; [exact Eread|].
  split; [reflexivity|]. split; [subst p1; cbn; rewrite Hm; reflexivity|].
  split; [exact He|].
  intros Heof budget fuel rc. cbn [main_loop]. rewrite Heof, Eread. reflexivity.
Qed.



Lemma read_line_gives_up_on_a_long_line_witness :
  exists p',
    read_line
      (initial_program
         {| stdin := File false (bytes (repeated "1" MAX_LINE_SIZE +:+ str LF +:+
                                        "2" +:+ str LF));
            open := fun _ => inr "No such file or directory" |})
    = Returns (FAILURE, p') /\
    unread (source_file p') = bytes (str LF +:+ "2" +:+ str LF) /\
    stderr (memory p') = "".
Proof.
  destruct (read_line_gives_up_on_a_long_line
              (initial_program
                 {| stdin := File false (bytes (repeated "1" MAX_LINE_SIZE +:+ str LF +:+
                                                "2" +:+ str LF));
                    open := fun _ => inr "No such file or directory" |})
              [] (repeated "1" MAX_LINE_SIZE) (bytes (str LF +:+ "2" +:+ str LF)))
    as (p' & E & Hrest & Herr & _).
  - constructor.
  - vm_compute. reflexivity.
  - vm_compute. reflexivity.
  - vm_compute. reflexivity.
  - vm_compute. reflexivity.
  - exists p'. split; [exact E|]. split; [exact Hrest|exact Herr].
Defined.

(** ** The whole program is safe *)

Lemma string_set_Some s : forall i c,
  (i < String.length s)%nat -> exists s', string_set s i c = Some s'.
Proof.
  induction s as [|a s IH]; intros i c Hi; [simpl in Hi; lia|].
  destruct i as [|i]; [eexists; reflexivity|].
  simpl in Hi. destruct (IH i c ltac:(lia)) as [s' E].
  exists (String a s'). simpl. rewrite E. reflexivity.
Qed.

Lemma string_set_length s : forall i c s',
  string_set s i c = Some s' -> String.length s' = String.length s.
Proof.
  induction s as [|a s IH]; intros i c s' H; [discriminate H|].
  destruct i as [|i]; simpl in H.
  - inversion H; subst. reflexivity.
  - destruct (string_set s i c) as [r|] eqn:E; [|discriminate].
    inversion H; subst. simpl. f_equal. exact (IH _ _ _ E).
Qed.

Lemma string_set_get_same s : forall i c s',
  string_set s i c = Some s' -> String.get i s' = Some c.
Proof.
  induction s as [|a s IH]; intros i c s' H; [discriminate H|].
  destruct i as [|i]; simpl in H.
  - inversion H; subst. reflexivity.
  - destruct (string_set s i c) as [r|] eqn:E; [|discriminate].
    inversion H; subst. simpl. exact (IH _ _ _ E).
Qed.

Lemma string_set_get_other s : forall i c s' j,
  string_set s i c = Some s' -> j <> i -> String.get j s' = String.get j s.
Proof.
  induction s as [|a s IH]; intros i c s' j H Hne; [discriminate H|].
  destruct i as [|i]; simpl in H.
  - inversion H; subst. destruct j; [contradiction|reflexivity].
  - destruct (string_set s i c) as [r|] eqn:E; [|discriminate].
    inversion H; subst. destruct j; [reflexivity|]. simpl.
    apply (IH _ _ _ _ E). lia.
Qed.

Lemma substring_snoc s : forall n c,
  String.get n s = Some c -> substring 0 (S n) s = substring 0 n s +:+ str c.
Proof.
  induction s as [|a s IH]; intros n c H; [destruct n; discriminate H|].
  destruct n as [|n].
  - simpl in H. inversion H; subst. simpl. destruct s; reflexivity.
  - simpl in H. change (substring 0 (S (S n)) (String a s))
      with (String a (substring 0 (S n) s)).
    rewrite (IH n c H). reflexivity.
Qed.

Lemma get_in_range s : forall i,
  (i < String.length s)%nat -> exists c, String.get i s = Some c.
Proof.
  induction s as [|a s IH]; intros i Hi; [simpl in Hi; lia|].
  destruct i; [exists a; reflexivity|]. simpl in Hi |- *. apply IH. lia.
Qed.

(** The scan of a number ends at a byte that is no digit. *)
Lemma scan_number_returns rest : forall i lexeme_length z c,
  String.get z rest = Some c -> isdigit c = false ->
  exists i' lexeme_length', scan_number rest i lexeme_length = Returns (i', lexeme_length').
Proof.
  induction rest as [|a rest IH]; intros i n z c Hz Hc; [destruct z; discriminate Hz|].
  cbn [scan_number]. destruct (isdigit a) eqn:Ea; [|eexists; eexists; reflexivity].
  destruct z as [|z].
  - simpl in Hz. inversion Hz; subst. congruence.
  - simpl in Hz. exact (IH _ _ z c Hz Hc).
Qed.

(** With a NUL byte in the buffer after the line, the tokenizer stays in
    the buffer, whatever the line holds. *)
Lemma tokenize_loop_safe fuel :
  forall i lexeme_length list g z,
    (source_file_line_occupied_size g <= z)%nat ->
    String.get z (source_file_line g) = Some NUL ->
    (source_file_line_occupied_size g <= String.length (source_file_line g))%nat ->
    (source_file_line_occupied_size g - i <= fuel)%nat ->
    exists s l g', tokenize_loop fuel i lexeme_length list g = Returns ((s, l), g').
Proof.
  induction fuel as [|fuel IH]; intros i n list g z Hz Hnul Hsize Hfuel.
  - rewrite tokenize_loop_done by lia. do 3 eexists. reflexivity.
  - destruct (le_lt_dec (source_file_line_occupied_size g) i) as [Hle|Hlt].
    { rewrite tokenize_loop_done by lia. do 3 eexists. reflexivity. }
    destruct (get_in_range (source_file_line g) i ltac:(lia)) as [c Hc].
    destruct (isspace c && negb (Ascii.eqb c LF)) eqn:Hsp.
    { rewrite (tokenize_loop_space _ _ _ _ _ c Hlt Hc Hsp).
      apply (IH _ _ _ _ z Hz Hnul Hsize). lia. }
    destruct (single_character_token c) as [t|] eqn:Hsingle.
    { rewrite (tokenize_loop_symbol _ _ _ _ _ c t Hlt Hc Hsp Hsingle).
      apply (IH _ _ _ _ z Hz Hnul Hsize). lia. }
    destruct (isdigit c) eqn:Hd.
    + destruct (scan_number_returns (string_from (S i) (source_file_line g)) i n
                  (z - S i) NUL) as (i' & n' & Hscan).
      { rewrite get_string_from. replace (S i + (z - S i))%nat with z by lia.
        exact Hnul. }
      { reflexivity. }
      destruct (strndup_returns_nul n' (string_from i (source_file_line g)) (z - i))
        as [lx Hdup].
      { rewrite get_string_from. replace (i + (z - i))%nat with z by lia. exact Hnul. }
      rewrite (tokenize_loop_number _ _ _ _ _ c i' n' lx Hlt Hc Hd Hscan Hdup).
      apply scan_number_spec in Hscan as (Hlt' & _).
      apply (IH _ _ _ _ z Hz Hnul Hsize). lia.
    + assert (Hs : isspace c = false).
      { destruct (isspace c) eqn:E; [|reflexivity]. simpl in Hsp.
        apply negb_false_iff, Ascii.eqb_eq in Hsp. subst c. discriminate Hsingle. }
      rewrite (tokenize_loop_unexpected _ _ _ _ _ c Hlt Hc Hs Hsingle Hd).
      destruct (report_unexpected_character_spec i c g Hlt Hsize) as (g' & E & _).
      unfold bind. rewrite E. do 3 eexists. reflexivity.
Qed.

(** The turn on the end of the file is safe. *)
Lemma end_of_file_turn_safe budget g :
  String.get 0 (source_file_line g) = Some EOF ->
  (1 <= source_file_line_occupied_size g < MAX_LINE_SIZE)%nat ->
  ready g ->
  exists s g',
    process_line budget g = Returns (s, g') /\
    stack_ok g' /\ line_buffer g' = line_buffer g.
Proof.
  intros Hget Hsize (Hlen & Hnul & Hok).
  pose proof (process_line_end_of_file_first budget g Hget ltac:(lia)) as H.
  destruct (tokenize_loop_safe (source_file_line_occupied_size g) 0 1 token_list_new g
              (MAX_LINE_SIZE - 1) ltac:(lia) Hnul ltac:(lia) ltac:(lia))
    as (s & l & g1 & Etok).
  change (tokenize_source_line_and_add_to_list token_list_new g
          = Returns ((s, l), g1)) in Etok.
  rewrite Etok in H. destruct s.
  - destruct H as (g' & E & _ & _ & Hline & Htop & Hstack).
    exists SUCCESS, g'. split; [exact E|]. split; [|exact Hline].
    destruct Hok as [Hl _]. split; [congruence|rewrite Htop; apply le_n].
  - exists FAILURE, g1. split; [exact H|].
    destruct (keeps_stack_tokenizer _ _ _ _ Etok) as [Hc Ht].
    split.
    + destruct Hok as [Hl Htop]. split; congruence.
    + apply (preserves_tokenizer line_buffer) in Etok; auto.
Qed.

Lemma length_bytes s : length (bytes s) = String.length s.
Proof.
  induction s as [|c s IH]; [reflexivity|]. rewrite bytes_cons. simpl. rewrite IH.
  reflexivity.
Qed.

Lemma ready_set_line g buf size :
  ready g ->
  String.length buf = MAX_LINE_SIZE ->
  String.get (MAX_LINE_SIZE - 1) buf = Some NUL ->
  ready (set_line buf size g).
Proof.
  intros (_ & _ & Hok) Hlen Hnul. split; [exact Hlen|]. split; [exact Hnul|exact Hok].
Qed.

Lemma ready_prompt p :
  ready (memory p) -> ready (memory (prompt p)).
Proof. unfold prompt. destruct (show_prompt p); auto. Qed.

(** The loop of [read_line] over a text of short lines: it delivers a
    line that ends with the newline, or the end of the file, and keeps
    the last byte of the buffer. *)
Lemma read_line_loop_safe input :
  forall all_ws p,
    short_lines (source_file_line_occupied_size (memory p)) input = true ->
    ready (memory p) ->
    exists p',
      read_line_loop (bytes input) all_ws p = Returns (SUCCESS, p') /\
      ready (memory p') /\
      (1 <= source_file_line_occupied_size (memory p') < MAX_LINE_SIZE)%nat /\
      ((source_file_eof_read p' = true /\
        String.get 0 (source_file_line (memory p')) = Some EOF) \/
       (source_file_eof_read p' = source_file_eof_read p /\
        (exists body, line_read (memory p') = body +:+ str LF) /\
        exists rest,
          unread (source_file p') = bytes rest /\
          short_lines 0 rest = true /\
          (String.length rest < String.length input)%nat)).
Proof.
  induction input as [|c input IH]; intros all_ws p Hshort Hready.
  - (* the end of the file *)
    cbn [short_lines] in Hshort. apply Nat.ltb_lt in Hshort.
    pose proof Hready as (Hlen & Hnul & Hok).
    change (bytes "") with (@nil read_result). cbn [read_line_loop].
    replace (MAX_LINE_SIZE <=? source_file_line_occupied_size (memory p))%nat with false
      by (symmetry; apply Nat.leb_gt; lia).
    destruct (string_set_Some (source_file_line (memory p))
                (source_file_line_occupied_size (memory p)) (c_buffer p) ltac:(lia))
      as [buf1 E1].
    rewrite E1.
    pose proof (string_set_length _ _ _ _ E1) as Hl1.
    destruct (string_set_Some buf1 0 EOF ltac:(unfold MAX_LINE_SIZE in *; lia))
      as [buf2 E2].
    rewrite E2.
    pose proof (string_set_length _ _ _ _ E2) as Hl2.
    eexists. split; [reflexivity|].
    cbn [memory set_eof_read set_memory source_file_eof_read
         source_file_line source_file_line_occupied_size set_line].
    split; [|split; [lia|left; split; [reflexivity|]]].
    + apply ready_set_line; [exact Hready|congruence|].
      rewrite (string_set_get_other _ _ _ _ _ E2) by (unfold MAX_LINE_SIZE; lia).
      rewrite (string_set_get_other _ _ _ _ _ E1) by lia.
      exact Hnul.
    + exact (string_set_get_same _ _ _ _ E2).
  - cbn [short_lines] in Hshort.
    pose proof Hready as (Hlen & Hnul & Hok).
    assert (Hrun : (S (source_file_line_occupied_size (memory p)) < MAX_LINE_SIZE)%nat).
    { destruct (Ascii.eqb c LF).
      - apply andb_true_iff in Hshort as [H _]. apply Nat.ltb_lt in H. exact H.
      - clear IH. revert Hshort.
        generalize (S (source_file_line_occupied_size (memory p))).
        induction input as [|d input IHi]; intros n H; cbn [short_lines] in H.
        + apply Nat.ltb_lt in H. lia.
        + destruct (Ascii.eqb d LF).
          * apply andb_true_iff in H as [H _]. apply Nat.ltb_lt in H. lia.
          * apply IHi in H. lia. }
    rewrite bytes_cons. cbn [read_line_loop].
    replace (MAX_LINE_SIZE <=? source_file_line_occupied_size (memory p))%nat with false
      by (symmetry; apply Nat.leb_gt; lia).
    destruct (string_set_Some (source_file_line (memory p))
                (source_file_line_occupied_size (memory p)) c ltac:(lia))
      as [buf1 E1].
    rewrite E1.
    pose proof (string_set_length _ _ _ _ E1) as Hl1.
    assert (Hnul1 : String.get (MAX_LINE_SIZE - 1) buf1 = Some NUL).
    { rewrite (string_set_get_other _ _ _ _ _ E1) by lia. exact Hnul. }
    destruct (Ascii.eqb c LF) eqn:Ec.
    + (* the newline *)
      apply Ascii.eqb_eq in Ec. subst c.
      apply andb_true_iff in Hshort as [_ Hshort].
      destruct ((S (source_file_line_occupied_size (memory p)) =? 1)%nat || all_ws).
      * (* a blank line *)
        set (p1 := prompt
                     (set_memory (set_line buf1 0 (memory p))
                        (set_line_number
                           (wrap_int
                              (source_file_line_number
                                 (set_c_buffer LF (set_unread (bytes input) p)) + 1))
                           (set_c_buffer LF (set_unread (bytes input) p))))).
        assert (Hp1 : memory p1 = set_line buf1 0 (memory p) \/
                      exists out, memory p1 = set_stdout out (set_line buf1 0 (memory p))).
        { subst p1. unfold prompt.
          cbn [show_prompt set_memory set_line_number set_c_buffer
               set_unread set_source_file].
          destruct (show_prompt p); [right; eexists; reflexivity|left; reflexivity]. }
        assert (He1 : source_file_eof_read p1 = source_file_eof_read p).
        { subst p1. unfold prompt.
          cbn [show_prompt set_memory set_line_number set_c_buffer
               set_unread set_source_file].
          destruct (show_prompt p); reflexivity. }
        assert (Hr1 : ready (memory p1) /\
                      source_file_line_occupied_size (memory p1) = O).
        { destruct Hp1 as [->|[out ->]]; (split; [|reflexivity]);
            (split; [cbn; congruence|split; [exact Hnul1|exact Hok]]). }
        destruct Hr1 as [Hr1 Hs1].
        destruct (IH all_ws p1) as (p' & E & Hr' & Hs' & Hcases);
          [rewrite Hs1; exact Hshort|exact Hr1|].
        rewrite E. exists p'. split; [reflexivity|]. split; [exact Hr'|].
        split; [exact Hs'|].
        destruct Hcases as [H|(He & Hbody & rest & Hu & Hsh & Hl)]; [left; exact H|].
        right. split; [|split; [exact Hbody|]].
        -- rewrite He. exact He1.
        -- exists rest. split; [exact Hu|]. split; [exact Hsh|]. simpl. lia.
      * (* a line to deliver *)
        eexists. split; [reflexivity|].
        cbn [memory set_memory set_line_number set_c_buffer set_unread set_source_file
             source_file_eof_read source_file unread
             source_file_line source_file_line_occupied_size set_line].
        split; [apply ready_set_line; [exact Hready|congruence|exact Hnul1]|].
        split; [lia|]. right. split; [reflexivity|]. split.
        -- exists (substring 0 (source_file_line_occupied_size (memory p)) buf1).
           unfold line_read.
           cbn [source_file_line source_file_line_occupied_size set_line].
           apply substring_snoc. exact (string_set_get_same _ _ _ _ E1).
        -- exists input. split; [reflexivity|]. split; [exact Hshort|]. simpl. lia.
    + (* a byte of the line *)
      destruct (IH (if all_ws && negb (isspace c) then false else all_ws)
                  (set_memory
                     (set_line buf1 (S (source_file_line_occupied_size (memory p)))
                        (memory p))
                     (set_c_buffer c (set_unread (bytes input) p))))
        as (p' & E & Hr' & Hs' & Hcases).
      { exact Hshort. }
      { split; [cbn; congruence|split; [exact Hnul1|exact Hok]]. }
      rewrite E. exists p'. split; [reflexivity|]. split; [exact Hr'|].
      split; [exact Hs'|].
      destruct Hcases as [H|(He & Hbody & rest & Hu & Hsh & Hl)]; [left; exact H|].
      right. split; [exact He|]. split; [exact Hbody|].
      exists rest. split; [exact Hu|]. split; [exact Hsh|]. simpl. lia.
Qed.

(** The loop of [main] over a text of short lines. *)
Lemma main_loop_safe n :
  forall input budget fuel return_code p,
    (String.length input <= n)%nat -> (n < fuel)%nat ->
    (MAX_LINE_SIZE <= budget)%nat ->
    unread (source_file p) = bytes input ->
    short_lines 0 input = true ->
    ready (memory p) ->
    main_loop budget fuel return_code p = Undefined division_overflow \/
    exists return_code' p',
      main_loop budget fuel return_code p = Returns (return_code', p') /\
      source_file_eof_read p' = true.
Proof.
  induction n as [|n IH];
    intros input budget fuel rc p Hn Hfuel Hbudget Hunread Hshort Hready;
    (destruct fuel as [|fuel]; [lia|]);
    cbn [main_loop];
    (destruct (source_file_eof_read p) eqn:Heof;
     [right; exists rc, p; split; [reflexivity|exact Heof]|]);
    destruct (read_line_start p)
      as (p0 & E0 & Hsize & (out0 & Hm & _) & Hf & He & _);
    (assert (Hready0 : ready (memory p0))
       by (rewrite Hm; destruct Hready as (H1 & H2 & H3);
           split; [exact H1|split; [exact H2|exact H3]]));
    (destruct (read_line_loop_safe input true p0) as (p1 & E1 & Hr1 & Hs1 & Hcases);
     [rewrite Hsize; exact Hshort|exact Hready0|]);
    rewrite E0, Hunread, E1;
    destruct Hcases as [[Heof1 Hget]|(He1 & [body Hbody] & rest & Hu & Hsh & Hl)].
  - destruct (end_of_file_turn_safe budget (memory p1) Hget Hs1 Hr1)
      as (s & g2 & E2 & _).
    rewrite E2. right.
    destruct fuel; cbn [main_loop source_file_eof_read set_memory]; rewrite Heof1;
      do 2 eexists; (split; [reflexivity|exact Heof1]).
  - lia.
  - destruct (end_of_file_turn_safe budget (memory p1) Hget Hs1 Hr1)
      as (s & g2 & E2 & _).
    rewrite E2. right.
    destruct fuel; cbn [main_loop source_file_eof_read set_memory]; rewrite Heof1;
      do 2 eexists; (split; [reflexivity|exact Heof1]).
  - pose proof Hr1 as (Hlen1 & Hnul1 & Hok1).
    replace budget
      with (S (source_file_line_occupied_size (memory p1)) +
            (budget - S (source_file_line_occupied_size (memory p1))))%nat by lia.
    destruct (process_line_safe (memory p1) body
                (budget - S (source_file_line_occupied_size (memory p1)))
                Hbody ltac:(lia))
      as [U|(s & g2 & E2 & Hok2)].
    + left. exists (MAX_LINE_SIZE - 1)%nat. split; [lia|exact Hnul1].
    + exact Hok1.
    + left. rewrite U. reflexivity.
    + rewrite E2.
      pose proof (process_line_keeps_line _ _ _ _ E2) as Hkeep.
      apply line_buffer_eq in Hkeep as [Hk1 Hk2].
      apply (IH rest); try lia.
      * exact Hu.
      * exact Hsh.
      * split; [cbn [memory set_memory]; rewrite Hk1; exact Hlen1|].
        split; [cbn [memory set_memory]; rewrite Hk1; exact Hnul1|exact Hok2].
Qed.

Lemma ready_initial : ready initial_globals.
Proof.
  split; [reflexivity|]. split; [apply initial_buffer_nul; unfold MAX_LINE_SIZE; lia|].
  split; [reflexivity|apply le_n].
Qed.

(** X16.  The program is safe on every source in which each line, and
    what comes after the last newline, has at most [MAX_LINE_SIZE - 2]
    bytes before its end, whatever these bytes are: when no call of
    [read] fails, [main] ends with an exit status, having read the source
    to its end, without reading or writing outside the line buffer or the
    stack and without dereferencing NULL (every allocation taken to
    succeed, and [int] arithmetic taken to wrap around); the only fault
    that is left is the overflow of a division. *)
Theorem main_is_safe env argv budget fuel f input :
  match argv with
  | [_; path] => open env path = inl f
  | _ => stdin env = f
  end ->
  unread f = bytes input ->
  short_lines 0 input = true ->
  (MAX_LINE_SIZE <= budget)%nat ->
  (String.length input < fuel)%nat ->
  main env argv budget fuel = Undefined division_overflow \/
  exists return_code p',
    main env argv budget fuel = Returns (return_code, p') /\
    source_file_eof_read p' = true.
Proof.
  intros Hsrc Hunread Hshort Hbudget Hfuel.
  assert (Hopen :
    open_source_file env
      match argv with [_; path] => Some path | _ => None end (initial_program env)
    = Returns (SUCCESS, set_source_file f (initial_program env))).
  { unfold open_source_file.
    destruct argv as [|a0 [|a1 [|a2 argv]]]; try (rewrite Hsrc; reflexivity). }
  unfold main. cbv zeta. rewrite Hopen.
  set (p1 := if is_a_terminal (source_file (set_source_file f (initial_program env)))
             then printed banner (set_source_file f (initial_program env))
             else set_source_file f (initial_program env)).
  assert (H1 : unread (source_file p1) = bytes input /\ ready (memory p1)).
  { subst p1. destruct (is_a_terminal _); (split; [exact Hunread|]).
    - destruct ready_initial as (Ha & Hb & Hc). split; [exact Ha|split; [exact Hb|exact Hc]].
    - exact ready_initial. }
  destruct H1 as [Hu1 Hr1].
  destruct (main_loop_safe (String.length input) input budget fuel SUCCESS p1
              (le_n _) Hfuel Hbudget Hu1 Hshort Hr1)
    as [U|(rc & p' & E & Heof)].
  - left. rewrite U. reflexivity.
  - right. rewrite E. do 2 eexists. split; [reflexivity|exact Heof].
Qed.

Lemma main_is_safe_witness :
  main {| stdin := File true (bytes ("12 34" +:+ str LF +:+ "(1 + " +:+ str LF +:+
                                     "7 / 0" +:+ str LF +:+ "@" +:+ str LF +:+ "5 +"));
          open := fun _ => inr "No such file or directory" |}
       ["calculator"] MAX_LINE_SIZE 30
    = Undefined division_overflow \/
  exists return_code p',
    main {| stdin := File true (bytes ("12 34" +:+ str LF +:+ "(1 + " +:+ str LF +:+
                                       "7 / 0" +:+ str LF +:+ "@" +:+ str LF +:+ "5 +"));
            open := fun _ => inr "No such file or directory" |}
         ["calculator"] MAX_LINE_SIZE 30
      = Returns (return_code, p') /\
    source_file_eof_read p' = true.
Proof.
  apply (main_is_safe _ _ _ _
           (File true (bytes ("12 34" +:+ str LF +:+ "(1 + " +:+ str LF +:+
                              "7 / 0" +:+ str LF +:+ "@" +:+ str LF +:+ "5 +")))
           ("12 34" +:+ str LF +:+ "(1 + " +:+ str LF +:+
            "7 / 0" +:+ str LF +:+ "@" +:+ str LF +:+ "5 +")).
  - reflexivity.
  - reflexivity.
  - reflexivity.
  - apply le_n.
  - vm_compute. lia.
Defined.

(** ** What comes after the last newline *)



(** ** Failures of the system calls *)

Lemma read_line_loop_error errno_text rest all_ws p :
  (source_file_line_occupied_size (memory p) < MAX_LINE_SIZE)%nat ->
  read_line_loop (read_error errno_text :: rest) all_ws p =
  Returns (FAILURE, perror "read" errno_text (set_unread rest p)).
Proof.
  intros H. apply Nat.leb_gt in H. cbn [read_line_loop]. rewrite H. reflexivity.
Qed.

(** X17.  When a call of [read] fails, after any blank lines and any
    part of a line, [read_line] prints [read: ] with the text of the
    error and a newline on the standard error and fails; nothing more is
    read, and the loop of [main] ends there with [FAILURE]. *)
Theorem read_line_reports_a_failed_read p blanks partial errno_text rest :
  Forall blank_line blanks ->
  no_newline partial = true ->
  (String.length partial < MAX_LINE_SIZE)%nat ->
  String.length (source_file_line (memory p)) = MAX_LINE_SIZE ->
  unread (source_file p) =
    bytes (join blanks +:+ partial) ++ read_error errno_text :: rest ->
  exists p',
    read_line p = Returns (FAILURE, p') /\
    stderr (memory p') = stderr (memory p) +:+ "read" +:+ ": " +:+ errno_text +:+ str LF /\
    unread (source_file p') = rest /\
    source_file_eof_read p' = source_file_eof_read p /\
    (source_file_eof_read p = false ->
     forall budget fuel return_code,
       main_loop budget (S fuel) return_code p = Returns (FAILURE, p')).
Proof.
  intros Hblanks Hnl Hmax Hlen Hunread.
  destruct (read_line_start p)
    as (p0 & E0 & Hsize & (out0 & Hm & Hout0) & Hf & He & Hn & Hs & Hfirst).
  assert (Hlen0 : String.length (source_file_line (memory p0)) = MAX_LINE_SIZE)
    by (rewrite Hm; exact Hlen).
  rewrite bytes_app, <- app_assoc in Hunread.
  destruct (read_line_loop_skips blanks p0
              (bytes partial ++ read_error errno_text :: rest) Hblanks Hsize Hlen0)
    as (buf & out & c & E1 & Hbuf & Hout); [rewrite Hf; exact Hunread|].
  set (p1 := set_memory (set_stdout out (set_line buf 0 (memory p0)))
               (set_line_number
                  (line_number_after (length blanks) (source_file_line_number p0))
                  (set_c_buffer c
                     (set_unread (bytes partial ++ read_error errno_text :: rest) p0))))
    in *.
  assert (Eread : exists p',
            read_line p = Returns (FAILURE, p') /\
            stderr (memory p') =
              stderr (memory p) +:+ "read" +:+ ": " +:+ errno_text +:+ str LF /\
            unread (source_file p') = rest /\
            source_file_eof_read p' = source_file_eof_read p).
  { destruct partial as [|a body].
    - eexists. split.
      + rewrite E0, Hunread, E1. change (bytes "") with (@nil read_result).
        cbn [app]. apply read_line_loop_error. simpl. unfold MAX_LINE_SIZE. lia.
      + subst p1. cbn. rewrite Hm, He. repeat split; reflexivity.
    - destruct (read_line_loop_chars body a "" true p1 buf
                  (read_error errno_text :: rest) Hnl eq_refl eq_refl)
        as [d E2]; [simpl in *; lia|simpl in *; lia|].
      eexists. split.
      + rewrite E0, Hunread, E1, E2. apply read_line_loop_error.
        cbn [memory set_memory source_file_line_occupied_size set_line].
        simpl in *. lia.
      + subst p1. cbn. rewrite Hm, He. repeat split; reflexivity. }
  destruct Eread as (p' & Eread & Herr & Hrest & Heof').
  exists p'. split; [exact Eread|]. split; [exact Herr|]. split; [exact Hrest|].
  split; [exact Heof'|].
  intros Heof budget fuel rc. cbn [main_loop]. rewrite Heof, Eread. reflexivity.
Qed.

Lemma read_line_reports_a_failed_read_witness :
  exists p',
    read_line
      (initial_program
         {| stdin := File false (bytes (str LF +:+ "1 +") ++
                                 [read_error "Input/output error"; read_byte "2"]);
            open := fun _ => inr "No such file or directory" |})
    = Returns (FAILURE, p') /\
    stderr (memory p') = "read: Input/output error" +:+ str LF /\
    unread (source_file p') = [read_byte "2"].
Proof.
  destruct (read_line_reports_a_failed_read
              (initial_program
                 {| stdin := File false (bytes (str LF +:+ "1 +") ++
                                         [read_error "Input/output error"; read_byte "2"]);
                    open := fun _ => inr "No such file or directory" |})
              [str LF] "1 +" "Input/output error" [read_byte "2"])
    as (p' & E & Herr & Hrest & _).
  - repeat constructor. exists "". repeat split; try reflexivity.
    unfold MAX_LINE_SIZE. simpl. lia.
  - reflexivity.
  - unfold MAX_LINE_SIZE. simpl. lia.
  - reflexivity.
  - reflexivity.
  - exists p'. split; [exact E|]. split; [exact Herr|exact Hrest].
Defined.

(** X18.  When the program is given one argument and the file of this
    name cannot be opened, [main] prints [open: ] with the text of the
    error and a newline on the standard error and ends with [FAILURE]:
    nothing is read, and nothing is printed on the standard output, not
    even the newline that ends every other run. *)
Theorem main_reports_a_failed_open env program_name path errno_text budget fuel :
  open env path = inr errno_text ->
  exists p',
    main env [program_name; path] budget fuel = Returns (FAILURE, p') /\
    stdout (memory p') = "" /\
    stderr (memory p') = "open" +:+ ": " +:+ errno_text +:+ str LF /\
    unread (source_file p') = unread (stdin env).
Proof.
  intros Hopen. unfold main, open_source_file. rewrite Hopen.
  eexists. split; [reflexivity|]. repeat split; reflexivity.
Qed.

Lemma main_reports_a_failed_open_witness :
  exists p',
    main {| stdin := File true (bytes ("1 + 1" +:+ str LF));
            open := fun _ => inr "No such file or directory" |}
         ["calculator"; "sums.txt"] 8 8
    = Returns (FAILURE, p') /\
    stderr (memory p') = "open: No such file or directory" +:+ str LF.
Proof.
  destruct (main_reports_a_failed_open
              {| stdin := File true (bytes ("1 + 1" +:+ str LF));
                 open := fun _ => inr "No such file or directory" |}
              "calculator" "sums.txt" "No such file or directory" 8 8 eq_refl)
    as (p' & E & _ & Herr & _).
  exists p'. split; [exact E|exact Herr].
Defined.

(** A failure is kept: once the status is [FAILURE], the loop of [main]
    does not end with another. *)
Lemma main_loop_keeps_failure budget fuel :
  forall p return_code p',
    main_loop budget fuel FAILURE p = Returns (return_code, p') ->
    return_code = FAILURE.
Proof.
  induction fuel as [|fuel IH]; intros p rc p' H; cbn [main_loop] in H.
  - destruct (source_file_eof_read p); [inversion H; reflexivity|discriminate].
  - destruct (source_file_eof_read p); [inversion H; reflexivity|].
    destruct (read_line p) as [[[] p1]| |]; try discriminate.
    + destruct (process_line budget (memory p1)) as [[s g2]| |]; try discriminate.
      apply (IH (set_memory g2 p1) rc p'). destruct s; exact H.
    + inversion H. reflexivity.
Qed.

(** X19.  One failure decides the exit status.  When a turn of the loop
    of [main] fails (the line is not tokenized, not parsed or not
    executed), the program ends with [FAILURE] if it ends, whatever the
    lines that follow do. *)
Theorem one_failure_decides_the_exit_status budget fuel return_code p p1 g2
    return_code' p' :
  source_file_eof_read p = false ->
  read_line p = Returns (SUCCESS, p1) ->
  process_line budget (memory p1) = Returns (FAILURE, g2) ->
  main_loop budget (S fuel) return_code p = Returns (return_code', p') ->
  return_code' = FAILURE.
Proof.
  intros Heof Eread Eturn H. cbn [main_loop] in H. rewrite Heof, Eread, Eturn in H.
  exact (main_loop_keeps_failure _ _ _ _ _ H).
Qed.

Lemma one_failure_decides_the_exit_status_witness :
  exists p',
    main_loop 8 4 SUCCESS
      (initial_program
         {| stdin := File false (bytes ("1 / 0" +:+ str LF +:+ "2" +:+ str LF));
            open := fun _ => inr "No such file or directory" |})
    = Returns (FAILURE, p').
Proof.
  remember (main_loop 8 4 SUCCESS
              (initial_program
                 {| stdin := File false (bytes ("1 / 0" +:+ str LF +:+ "2" +:+ str LF));
                    open := fun _ => inr "No such file or directory" |})) as o eqn:Eo.
  assert (H : exists rc p', o = Returns (rc, p')).
  { subst o. vm_compute. do 2 eexists. reflexivity. }
  destruct H as (rc & p' & E). exists p'. rewrite E. f_equal. f_equal.
  rewrite E in Eo. symmetry in Eo.
  refine (one_failure_decides_the_exit_status 8 3 SUCCESS _ _ _ rc p' _ _ _ Eo).
  - reflexivity.
  - lazy. reflexivity.
  - lazy. reflexivity.
Defined.

(** ** From the text of an expression to its value *)

Lemma scan_space s : scan (String " " s) "" = scan s "".
Proof. cbn [scan]. change (isdigit " ") with false. cbv iota.
  change (isspace " " && negb (Ascii.eqb " " LF)) with true. cbv iota.
  destruct (scan s ""); reflexivity.
Qed.

Lemma scan_symbol c t s tl :
  single_character_token c = Some t -> isdigit c = false ->
  isspace c && negb (Ascii.eqb c LF) = false ->
  scan s "" = Some tl ->
  scan (String c s) "" = Some (item_symbol t :: tl).
Proof.
  intros Ht Hd Hs E. cbn [scan]. rewrite Hd, Hs, Ht, E. reflexivity.
Qed.

Lemma scan_number_text v c rest tl :
  0 <= v -> isdigit c = false ->
  scan (String c rest) "" = Some tl ->
  scan (print_int v +:+ String c rest) "" = Some (item_number (print_int v) :: tl).
Proof.
  intros Hv Hc E. destruct (print_int_digits v Hv) as [Hd Hne].
  rewrite scan_digits by exact Hd. rewrite append_nil_l.
  rewrite scan_flush by exact Hc. rewrite E.
  destruct (print_int v); [contradiction|reflexivity].
Qed.

(** The lexical items of the text of an expression are its spelling. *)
Lemma scan_render t :
  well_formed t -> literal_leaves t ->
  forall c rest tl,
    isdigit c = false ->
    scan (String c rest) "" = Some tl ->
    scan (render t +:+ String c rest) "" = Some (spelling t ++ tl).
Proof.
  induction t as [|value|node_type c0 IH0 c1 IH1]; intros Hwf Hl c rest tl Hc E.
  - destruct Hwf.
  - apply scan_number_text; [apply Hl|exact Hc|exact E].
  - destruct Hwf as [Hwf0 Hwf1], Hl as [Hl0 Hl1].
    assert (Hoperand :
      forall x, well_formed x -> literal_leaves x ->
        (forall c rest tl, isdigit c = false ->
           scan (String c rest) "" = Some tl ->
           scan (render x +:+ String c rest) "" = Some (spelling x ++ tl)) ->
        forall c rest tl, isdigit c = false ->
          scan (String c rest) "" = Some tl ->
          scan (match x with
                | ast_op _ _ _ => "(" +:+ render x +:+ ")"
                | _ => render x
                end +:+ String c rest) "" =
          Some (match x with
                | ast_op _ _ _ =>
                    item_symbol token_bracket_open ::
                    spelling x ++ [item_symbol token_bracket_close]
                | _ => spelling x
                end ++ tl)).
    { intros x Hwfx Hlx IHx c' rest' tl' Hc' E'. destruct x as [|v|o a b].
      - destruct Hwfx.
      - exact (IHx c' rest' tl' Hc' E').
      - rewrite !append_assoc, append_cons, append_nil_l.
        rewrite <- app_comm_cons, <- app_assoc.
        apply (scan_symbol "("%char token_bracket_open); try reflexivity.
        rewrite append_cons, append_nil_l.
        apply (IHx ")"%char); [reflexivity|].
        apply (scan_symbol ")"%char token_bracket_close); try reflexivity.
        exact E'. }
    cbn [render spelling].
    rewrite !append_assoc, append_cons, append_nil_l, !append_cons, append_nil_l.
    rewrite <- app_assoc, <- app_comm_cons.
    apply (Hoperand c0 Hwf0 Hl0 (IH0 Hwf0 Hl0) " "%char); [reflexivity|].
    rewrite scan_space.
    apply (scan_symbol (operator_character node_type) (operator_token node_type));
      try (destruct node_type; reflexivity).
    rewrite scan_space.
    exact (Hoperand c1 Hwf1 Hl1 (IH1 Hwf1 Hl1) c rest tl Hc E).
Qed.

(** The value of a lexeme that begins with the digits of a number. *)
Lemma str_to_int_digit_prefix l v :
  0 <= v <= INT_MAX -> digit_prefix l = print_int v -> str_to_int l = v.
Proof.
  intros Hv Hl. destruct (print_int_digits v ltac:(lia)) as [Hd Hne].
  rewrite <- (str_to_int_print_int v Hv). unfold str_to_int.
  rewrite (strtol_leading_digit l) by (rewrite Hl; exact Hne).
  rewrite (strtol_leading_digit (print_int v))
    by (rewrite all_digits_prefix by exact Hd; exact Hne).
  rewrite Hl, all_digits_prefix by exact Hd. reflexivity.
Qed.

(** Tokens that stand for the spelling of an expression are a sentence
    of the grammar, and the sentence stands for the expression. *)
Lemma reads_spelling t :
  well_formed t -> literal_leaves t ->
  forall w, Forall2 reads w (spelling t) ->
            derives (operator_production ast_add) w t.
Proof.
  induction t as [|value|node_type c0 IH0 c1 IH1]; intros Hwf Hl w Hw.
  - destruct Hwf.
  - cbn [spelling] in Hw.
    inversion Hw as [|tok ? ? ? Htok Hnil]; subst. inversion Hnil; subst.
    simpl in Htok. destruct Htok as (l & -> & El).
    apply derives_from_unit.
    rewrite <- (str_to_int_digit_prefix l value Hl El).
    exact (derives_number (number l) l eq_refl eq_refl).
  - destruct Hwf as [Hwf0 Hwf1], Hl as [Hl0 Hl1].
    assert (Hoperand :
      forall x, well_formed x -> literal_leaves x ->
        (forall w, Forall2 reads w (spelling x) ->
                   derives (operator_production ast_add) w x) ->
        forall w,
          Forall2 reads w
            (match x with
             | ast_op _ _ _ =>
                 item_symbol token_bracket_open ::
                 spelling x ++ [item_symbol token_bracket_close]
             | _ => spelling x
             end) ->
          derives unit_production w x).
    { intros x Hwfx Hlx IHx w' Hw'. destruct x as [|v|o a b].
      - destruct Hwfx.
      - cbn [spelling] in Hw'.
        inversion Hw' as [|tok ? ? ? Htok Hnil]; subst. inversion Hnil; subst.
        simpl in Htok. destruct Htok as (l & -> & El).
        rewrite <- (str_to_int_digit_prefix l v Hlx El).
        exact (derives_number (number l) l eq_refl eq_refl).
      - inversion Hw' as [|open ? w1 ? Hopen Hrest]; subst.
        apply Forall2_app_inv_r in Hrest as (wx & wc & Hx & Hclose & ->).
        inversion Hclose as [|close ? ? ? Hc Hnil]; subst. inversion Hnil; subst.
        simpl in Hopen, Hc. subst open close.
        apply derives_brackets; [reflexivity|reflexivity|exact (IHx _ Hx)]. }
    cbn [spelling] in Hw.
    apply Forall2_app_inv_r in Hw as (w0 & w1' & H0 & H1 & ->).
    inversion H1 as [|tok ? w1 ? Htok H1']; subst. simpl in Htok. subst tok.
    apply (derives_to_add node_type).
    apply derives_operator; [reflexivity| |].
    + apply derives_from_unit. exact (Hoperand c0 Hwf0 Hl0 (IH0 Hwf0 Hl0) _ H0).
    + apply derives_from_unit. exact (Hoperand c1 Hwf1 Hl1 (IH1 Hwf1 Hl1) _ H1').
Qed.

(** X20.  The calculator evaluates expressions.  Take any expression
    tree whose leaves are between 0 and [INT_MAX], whose value exists in
    the arithmetic of the integers (no divisor is zero, no result leaves
    the range of [int]) and which needs no more than the 32 cells of the
    stack, and write it as a line, every operand that is an operation in
    brackets.  If the line fits the buffer, the program, started afresh,
    tokenizes, parses and executes it with success, prints the value of
    the tree in green with a full stop, and reports nothing. *)
Theorem calculator_evaluates_expressions t v n :
  well_formed t -> literal_leaves t ->
  value_of t = Some v ->
  (pending_operands t <= MAX_CALLSTACK_DEPTH)%nat ->
  (String.length (line (render t)) < MAX_LINE_SIZE)%nat ->
  exists g',
    run_line (S (length (spelling t)) + n) (line (render t)) initial_globals
      = Returns (SUCCESS, g') /\
    stdout g' = green (print_int v) +:+ "." +:+ str LF /\
    stderr g' = "".
Proof.
  intros Hwf Hl Hv Hp Hfit.
  destruct (first_line_fits (line (render t)) Hfit) as (Hsize & Hline & Hnul & Hok).
  set (g0 := set_line (line (render t) +:+
                       string_from (String.length (line (render t)))
                         (source_file_line initial_globals))
                      (String.length (line (render t))) initial_globals) in *.
  assert (Escan : lexical_items (line_read g0) =
                  Some (spelling t ++ [item_symbol token_end_of_expression])).
  { rewrite Hline. unfold lexical_items, line.
    apply (scan_render t Hwf Hl LF ""); reflexivity. }
  pose proof (tokenizer_scan [] g0 Hsize) as Htok.
  rewrite Hline in Htok. specialize (Htok (ends_line_newline (render t)) Hnul).
  rewrite <- Hline, Escan in Htok.
  destruct Htok as (toks & Etok & Hreads). simpl in Etok.
  apply Forall2_app_inv_r in Hreads as (w & wend & Hw & Hend & ->).
  inversion Hend as [|tok ? ? ? Htok Hnil]; subst. inversion Hnil; subst.
  simpl in Htok. subst tok.
  pose proof (parser_complete w t (symbol token_end_of_expression) []
                (reads_spelling t Hwf Hl w Hw) eq_refl) as Hparse.
  rewrite (Forall2_length _ _ _ Hw) in Hparse.
  destruct (Hparse n g0) as (g1 & Eparse & Ho1 & He1 & Hc1 & Ht1).
  destruct (execution_engine_value t v g1 Hv) as (g2 & Eengine & Ho2 & He2 & _).
  { destruct Hok as [Hlen Htop]. split; [rewrite Hc1; exact Hlen|rewrite Ht1; exact Htop]. }
  { unfold callstack_is_empty. rewrite Ht1. reflexivity. }
  { exact Hp. }
  exists g2. split.
  - unfold run_line. unfold bind at 1. rewrite store_line_initial. fold g0.
    unfold process_line, token_list_new. unfold bind at 1. rewrite Etok.
    unfold bind at 1. rewrite Eparse. exact Eengine.
  - rewrite Ho2, He2, Ho1, He1. split; reflexivity.
Qed.

Lemma calculator_evaluates_expressions_witness :
  exists g',
    run_line 12 (line "(12 - 2) * (4 + 1)") initial_globals = Returns (SUCCESS, g') /\
    stdout g' = green "50" +:+ "." +:+ str LF /\
    stderr g' = "".
Proof.
  apply (calculator_evaluates_expressions
           (ast_op ast_mul
              (ast_op ast_sub (ast_num 12) (ast_num 2))
              (ast_op ast_add (ast_num 4) (ast_num 1)))
           50 0).
  - simpl. tauto.
  - simpl. unfold INT_MAX. lia.
  - reflexivity.
  - simpl. unfold MAX_CALLSTACK_DEPTH. lia.
  - vm_compute. lia.
Defined.

(** ** The three syntax errors *)

Lemma fold_operators_failure operator node_type operand fuel tree g a l :
  remaining g = a :: l ->
  fold_operators operator node_type operand fuel FAILURE tree g
    = Returns ((FAILURE, tree), g).
Proof.
  intros Er.
  destruct fuel; cbn [fold_operators]; unfold bind;
    rewrite (token_type_is_at g a l _ Er); cbn [status_eqb];
    rewrite andb_false_r; reflexivity.
Qed.

(** A failure of the first operand is the failure of the production. *)
Lemma left_associative_fails operator node_type operand fuel slot g t g' a l :
  operand slot g = Returns ((FAILURE, t), g') ->
  remaining g' = a :: l ->
  left_associative operator node_type operand fuel slot g = Returns ((FAILURE, t), g').
Proof.
  intros E Er. unfold left_associative, bind. rewrite E. cbn [fst snd].
  exact (fold_operators_failure _ _ _ _ _ _ a l Er).
Qed.

Lemma add_expression_fails n slot g t g' a l :
  unit_expression (parser_parse_add_expression n) slot g = Returns ((FAILURE, t), g') ->
  remaining g' = a :: l ->
  parser_parse_add_expression (S n) slot g = Returns ((FAILURE, t), g').
Proof.
  intros E Er. cbn [parser_parse_add_expression].
  apply (left_associative_fails token_plus ast_add _ _ slot g t g' a l); [|exact Er].
  apply (left_associative_fails token_minus ast_sub _ _ slot g t g' a l); [|exact Er].
  apply (left_associative_fails token_times ast_mul _ _ slot g t g' a l); [|exact Er].
  apply (left_associative_fails token_divide ast_div _ _ slot g t g' a l); [|exact Er].
  exact E.
Qed.

Lemma no_operator_stops a :
  (forall node_type, type a <> operator_token node_type) -> stops 0 a.
Proof. intros H node_type _. apply H. Qed.

(** A sentence that is followed by a token that can neither continue it
    nor end it. *)
Lemma parser_rejects_trailing w t a tail c s :
  derives (operator_production ast_add) w t ->
  (forall node_type, type a <> operator_token node_type) ->
  is_terminator a = false ->
  get_token_lexeme a = Some (String c s) ->
  forall n g,
  exists g',
    parse_token_stream_into_ast (S (length w) + n) (w ++ a :: tail) NULL g
      = Returns ((FAILURE, t), g') /\
    stdout g' = stdout g /\
    stderr g' = stderr g +:+ msg_expected_end c /\
    callstack g' = callstack g /\ callstack_top g' = callstack_top g.
Proof.
  intros Hd Hop Hterm Hlex n g.
  destruct (derives_first _ _ _ Hd) as (x & w' & Ew & Hx).
  unfold parse_token_stream_into_ast.
  unfold bind at 1, parser_register_token_stream at 1.
  set (g0 := set_cursor (w ++ a :: tail) (parser_active_token g) g).
  assert (Enext : parser_get_next_token g0 =
                  Returns (Some x, set_cursor (w' ++ a :: tail) (Some x) g0)).
  { unfold parser_get_next_token. subst g0. simpl. rewrite Ew. reflexivity. }
  unfold bind at 1. rewrite Enext.
  set (g1 := set_cursor (w' ++ a :: tail) (Some x) g0).
  assert (Er1 : remaining g1 = w ++ a :: tail) by (rewrite Ew; reflexivity).
  unfold bind at 1. rewrite (token_type_is_at g1 x _ _ ltac:(rewrite Er1, Ew; reflexivity)).
  replace (token_type_eqb (type x) token_end_of_file) with false
    by (destruct Hx as [-> | ->]; reflexivity).
  cbn [negb]. unfold parser_parse_expression.
  pose proof (completes_whole _ _ _ (derives_completes _ _ _ Hd)
                (length w + n)%nat NULL g1 a tail ltac:(lia) Er1
                (no_operator_stops a Hop)) as E1.
  cbn [routine_of] in E1.
  change (S (length w) + n)%nat with (S (length w + n)).
  unfold bind at 1. rewrite E1.
  set (g2 := set_cursor tail (Some a) g1).
  assert (Er2 : remaining g2 = a :: tail) by reflexivity.
  unfold is_terminator in Hterm. apply orb_false_iff in Hterm as [Hx1 Hx2].
  assert (Eend : (is_eox <- token_type_is token_end_of_expression ;;
                  if is_eox then ret SUCCESS
                  else
                    is_eof <- token_type_is token_end_of_file ;;
                    if is_eof then ret SUCCESS
                    else
                      c <- active_lexeme_head ;;
                      eprint (msg_expected_end c) ;;;
                      ret FAILURE) g2
                 = Returns (FAILURE, set_stderr (stderr g2 +:+ msg_expected_end c) g2)).
  { unfold bind at 1. rewrite (token_type_is_at g2 a tail _ Er2), Hx1.
    unfold bind at 1. rewrite (token_type_is_at g2 a tail _ Er2), Hx2.
    unfold bind at 1. unfold active_lexeme_head.
    change (parser_active_token g2) with (Some a). cbv beta iota.
    rewrite Hlex. reflexivity. }
  unfold bind at 1. rewrite Eend.
  destruct (get_next_token_returns (set_stderr (stderr g2 +:+ msg_expected_end c) g2))
    as (tok' & g3 & E3 & Ho & He & Hc & Htop).
  unfold bind. rewrite E3. unfold ret.
  exists g3. split; [reflexivity|]. rewrite Ho, He, Hc, Htop. auto.
Qed.

(** An opening bracket and a sentence that is followed by a token that
    can neither continue it nor close the bracket. *)
Lemma parser_rejects_unclosed open w t a tail :
  type open = token_bracket_open ->
  derives (operator_production ast_add) w t ->
  (forall node_type, type a <> operator_token node_type) ->
  type a <> token_bracket_close ->
  forall n g,
  exists g',
    parse_token_stream_into_ast (S (S (length w)) + n) (open :: w ++ a :: tail) NULL g
      = Returns ((FAILURE, t), g') /\
    stdout g' = stdout g /\
    stderr g' = stderr g +:+ msg_expected_closing /\
    callstack g' = callstack g /\ callstack_top g' = callstack_top g.
Proof.
  intros Hopen Hd Hop Hclose n g.
  destruct (derives_first _ _ _ Hd) as (x & w' & Ew & Hx).
  unfold parse_token_stream_into_ast.
  unfold bind at 1, parser_register_token_stream at 1.
  set (g0 := set_cursor (open :: w ++ a :: tail) (parser_active_token g) g).
  unfold bind at 1.
  change (parser_get_next_token g0)
    with (Returns (Some open, set_cursor (w ++ a :: tail) (Some open) g0)).
  cbv iota beta.
  set (g1 := set_cursor (w ++ a :: tail) (Some open) g0).
  assert (Er1 : remaining g1 = open :: w ++ a :: tail) by reflexivity.
  unfold bind at 1. rewrite (token_type_is_at g1 open _ _ Er1), Hopen.
  cbn [token_type_eqb negb]. unfold parser_parse_expression.
  set (g2 := set_cursor (w' ++ a :: tail) (Some x) g1).
  assert (Er2 : remaining g2 = w ++ a :: tail) by (rewrite Ew; reflexivity).
  pose proof (completes_whole _ _ _ (derives_completes _ _ _ Hd)
                (length w + n)%nat NULL g2 a tail ltac:(lia) Er2
                (no_operator_stops a Hop)) as E2.
  cbn [routine_of] in E2.
  set (g3 := set_cursor tail (Some a) g2) in *.
  assert (Er3 : remaining g3 = a :: tail) by reflexivity.
  set (g4 := set_stderr (stderr g3 +:+ msg_expected_closing) g3).
  assert (Er4 : remaining g4 = a :: tail) by reflexivity.
  assert (Eunit : unit_expression (parser_parse_add_expression (S (length w + n))) NULL g1
                  = Returns ((FAILURE, t), g4)).
  { unfold unit_expression.
    unfold bind at 1. rewrite (token_type_is_at g1 open _ _ Er1), Hopen.
    cbn [token_type_eqb].
    unfold bind at 1.
    assert (Enext : parser_get_next_token g1 = Returns (Some x, g2)).
    { unfold parser_get_next_token. subst g2 g1. simpl. rewrite Ew. reflexivity. }
    rewrite Enext.
    unfold bind at 1. rewrite E2.
    unfold bind at 1. rewrite (token_type_is_at g3 a tail _ Er3).
    replace (token_type_eqb (type a) token_bracket_close) with false.
    - reflexivity.
    - symmetry. destruct (token_type_eqb (type a) token_bracket_close) eqn:E;
        [|reflexivity]. apply token_type_eqb_eq in E. contradiction. }
  change (S (S (length w)) + n)%nat with (S (S (length w + n))).
  unfold bind at 1.
  rewrite (add_expression_fails (S (length w + n)) NULL g1 t g4 a tail Eunit Er4).
  destruct (get_next_token_returns g4) as (tok' & g5 & E5 & Ho & He & Hc & Htop).
  unfold bind. unfold ret at 1. rewrite E5. unfold ret.
  exists g5. split; [reflexivity|]. rewrite Ho, He, Hc, Htop. auto.
Qed.

(** X21.  The three syntax errors, each where it belongs.  A stream that
    begins with an operator, a closing bracket or the end of the
    expression has no operand to begin with: the parser reports that it
    expected an integer or an opening bracket, near the first character of
    the token (a backslash for the end of the expression), and leaves the
    slot alone.  A sentence that is followed by a token that is neither an
    operator nor a terminator is built into its tree and then rejected:
    the parser expected the end of the expression near that token.  An
    opening bracket and a sentence that is followed by a token that is
    neither an operator nor the closing bracket is rejected for the
    missing bracket.  In each case the parse fails with this one message
    on [stderr] and nothing on [stdout]. *)
Theorem syntax_errors_where_they_belong w t a tail n g :
  derives (operator_production ast_add) w t ->
  (forall node_type, type a <> operator_token node_type) ->
  (forall tok slot,
     type tok <> token_number -> type tok <> token_bracket_open ->
     type tok <> token_end_of_file ->
     exists c s g',
       get_token_lexeme tok = Some (String c s) /\
       parse_token_stream_into_ast (S n) (tok :: tail) slot g
         = Returns ((FAILURE, slot), g') /\
       stdout g' = stdout g /\
       stderr g' = stderr g +:+ msg_expected_integer c) /\
  (forall c s,
     is_terminator a = false ->
     get_token_lexeme a = Some (String c s) ->
     exists g',
       parse_token_stream_into_ast (S (length w) + n) (w ++ a :: tail) NULL g
         = Returns ((FAILURE, t), g') /\
       stdout g' = stdout g /\
       stderr g' = stderr g +:+ msg_expected_end c) /\
  (forall open,
     type open = token_bracket_open ->
     type a <> token_bracket_close ->
     exists g',
       parse_token_stream_into_ast (S (S (length w)) + n) (open :: w ++ a :: tail) NULL g
         = Returns ((FAILURE, t), g') /\
       stdout g' = stdout g /\
       stderr g' = stderr g +:+ msg_expected_closing).
Proof.
  intros Hd Hop. split; [|split].
  - intros tok slot H1 H2 H3. exact (parser_rejects_first tok tail n slot g H1 H2 H3).
  - intros c s Hterm Hlex.
    destruct (parser_rejects_trailing w t a tail c s Hd Hop Hterm Hlex n g)
      as (g' & E & Ho & He & _).
    exists g'. auto.
  - intros open Hopen Hclose.
    destruct (parser_rejects_unclosed open w t a tail Hopen Hd Hop Hclose n g)
      as (g' & E & Ho & He & _).
    exists g'. auto.
Qed.

Lemma syntax_errors_where_they_belong_witness :
  exists g1 g2 g3,
    parse_token_stream_into_ast 1
      [symbol token_times; symbol token_end_of_expression] NULL initial_globals
      = Returns ((FAILURE, NULL), g1) /\
    stderr g1 = msg_expected_integer "*" /\
    parse_token_stream_into_ast 2
      [number "1"; number "2"; symbol token_end_of_expression] NULL initial_globals
      = Returns ((FAILURE, ast_num 1), g2) /\
    stderr g2 = msg_expected_end "2" /\
    parse_token_stream_into_ast 3
      [symbol token_bracket_open; number "1"; number "2"; symbol token_end_of_expression]
      NULL initial_globals
      = Returns ((FAILURE, ast_num 1), g3) /\
    stderr g3 = msg_expected_closing.
Proof.
  destruct (syntax_errors_where_they_belong
              [number "1"] (ast_num 1) (number "2") [symbol token_end_of_expression]
              0 initial_globals) as (H1 & H2 & H3).
  - apply (derives_operand ast_add), (derives_operand ast_sub),
      (derives_operand ast_mul), (derives_operand ast_div).
    exact (derives_number (number "1") "1" eq_refl eq_refl).
  - intros node_type. destruct node_type; discriminate.
  - destruct (H1 (symbol token_times) NULL)
      as (c & s & g1 & Hlex & E1 & _ & He1); try discriminate.
    inversion Hlex; subst.
    destruct (H2 "2"%char ""%string eq_refl eq_refl) as (g2 & E2 & _ & He2).
    destruct (H3 (symbol token_bracket_open) eq_refl ltac:(discriminate))
      as (g3 & E3 & _ & He3).
    exists g1, g2, g3. repeat split; assumption.
Defined.
